(** * Map-Gen: procedural island generator

    A shallow embedding of the generation core of [IslandGeneratorApp]
    (noise field, contour builder, surface tessellator, placement sampler,
    path network generator, hydrology tracer) together with the properties
    its specification states about it.

    Number model.  A JavaScript [number] that carries a coordinate, a height,
    an angle or an area is read as a real number ([R]); rounding of the
    IEEE-754 operations is not modelled.  A [number] that the program uses as
    a count or as an array index is a [nat] or a [Z].  Where a stage only adds,
    multiplies, divides and compares (triangulation, spanning tree) it is
    embedded over the rationals ([Q]) so that it can be run.

    Host functions.  three.js and the JavaScript runtime are not part of the
    repository.  What the program calls from them and cannot be written
    down from the repository's own code (gradient noise, spline evaluation,
    ray casting against a mesh, the comparator-driven shuffle) is collected
    in the record [Host.t] and passed to the functions that use it. *)

From Stdlib Require Import Reals Lra Lia Psatz List ZArith QArith Qminmax Bool Arith.
From Stdlib Require Import Sorted Permutation Relations Classical.
Import ListNotations.

Open Scope R_scope.

(* ================================================================== *)
(** * JavaScript [Math] and [THREE.MathUtils] *)
(* ================================================================== *)

Module JsMath.

(** [Math.floor] *)
Definition floor (x : R) : Z := Zfloor x.

(** [Math.round]: the integer nearest to [x], halves go up. *)
Definition round (x : R) : Z := Zfloor (x + / 2).

(** [Math.max] and [Math.min] on numbers. *)
Definition max (a b : R) : R := Rmax a b.
Definition min (a b : R) : R := Rmin a b.

(** [THREE.MathUtils.lerp(x, y, t) = (1 - t) * x + t * y] *)
Definition lerp (x y t : R) : R := (1 - t) * x + t * y.

(** [THREE.MathUtils.smoothstep(x, min, max)] *)
Definition smoothstep (x lo hi : R) : R :=
  if Rle_dec x lo then 0
  else if Rle_dec hi x then 1
  else let t := (x - lo) / (hi - lo) in t * t * (3 - 2 * t).

(** [THREE.MathUtils.degToRad] *)
Definition degToRad (d : R) : R := d * (PI / 180).

End JsMath.

(* ================================================================== *)
(** * [Math.random] as an explicit source *)
(* ================================================================== *)

(** The values successive calls of [Math.random()] return.  A computation
    that draws random numbers is a function of the source and of the number
    of values drawn so far; it returns its result and the new count. *)
Definition Random := nat -> R.

Definition Gen (A : Type) : Type := Random -> nat -> A * nat.

Definition ret {A} (a : A) : Gen A := fun _ k => (a, k).

Definition bind {A B} (m : Gen A) (f : A -> Gen B) : Gen B :=
  fun rnd k => let (a, k') := m rnd k in f a rnd k'.

(** [Math.random()] *)
Definition random : Gen R := fun rnd k => (rnd k, S k).

(** [THREE.MathUtils.randFloat(low, high) = low + Math.random() * (high - low)] *)
Definition randFloat (low high : R) : Gen R :=
  bind random (fun r => ret (low + r * (high - low))).

Notation "x <- m ;; k" := (bind m (fun x => k))
  (at level 61, m at next level, right associativity).

(** A loop whose body draws random numbers: [for (const a of l) acc = body(acc, a)]. *)
Fixpoint foldGen {A S} (body : S -> A -> Gen S) (l : list A) (acc : S) : Gen S :=
  match l with
  | [] => ret acc
  | a :: l' => acc' <- body acc a ;; foldGen body l' acc'
  end.

(** [Math.random()] returns a value in [[0, 1)]. *)
Definition unit_interval (rnd : Random) : Prop := forall k, 0 <= rnd k < 1.

(* ================================================================== *)
(** * Noise field: [generateNoise] *)
(* ================================================================== *)

Module Noise.

Record Harmonic := mkHarmonic { freq : R; amp : R }.

Definition harmonics : list Harmonic :=
  [ mkHarmonic 1 1; mkHarmonic 2 (1 / 2); mkHarmonic 5 (1 / 4); mkHarmonic 9 (1 / 8) ].

(** [let totalAmplitude = 0; harmonics.forEach(h => totalAmplitude += h.amp)] *)
Definition totalAmplitude : R :=
  fold_left (fun acc h => acc + amp h) harmonics 0.

(** The inner loop of one harmonic:
    [noiseValues[i] += Math.sin(angle * harmonic.freq + phase) * harmonic.amp]
    with [angle = (i / numPoints) * 2 * Math.PI]. *)
Definition addHarmonic (numPoints : nat) (h : Harmonic) (phase : R)
    (noiseValues : list R) : list R :=
  map (fun iv : nat * R =>
         let (i, v) := iv in
         let angle := (INR i / INR numPoints) * 2 * PI in
         v + sin (angle * freq h + phase) * amp h)
      (combine (seq 0 numPoints) noiseValues).

(** [generateNoise(numPoints, phaseOffset)] *)
Definition generateNoise (numPoints : nat) (phaseOffset : R) : Gen (list R) :=
  noiseValues <-
    foldGen (fun noiseValues harmonic =>
               r <- random ;;
               let phase := phaseOffset + r * 2 * PI in
               ret (addHarmonic numPoints harmonic phase noiseValues))
            harmonics (repeat 0 numPoints) ;;
  ret (map (fun v => v / totalAmplitude) noiseValues).

End Noise.

(* ================================================================== *)
(** * [THREE.Vector2], [THREE.Vector3], [THREE.Triangle] *)
(* ================================================================== *)

Module Vector2.

Record t := mk { x : R; y : R }.

Definition add (a b : t) : t := mk (x a + x b) (y a + y b).
Definition sub (a b : t) : t := mk (x a - x b) (y a - y b).
Definition multiplyScalar (a : t) (s : R) : t := mk (x a * s) (y a * s).
Definition divideScalar (a : t) (s : R) : t := multiplyScalar a (1 / s).
Definition length (a : t) : R := sqrt (x a * x a + y a * y a).

(** [normalize()] is [divideScalar(length() || 1)]. *)
Definition normalize (a : t) : t :=
  divideScalar a (if Req_dec_T (length a) 0 then 1 else length a).

(** [a.lerp(b, alpha)]: [a.x += (b.x - a.x) * alpha], the same for [y]. *)
Definition lerp (a b : t) (alpha : R) : t :=
  mk (x a + (x b - x a) * alpha) (y a + (y b - y a) * alpha).

Definition distanceTo (a b : t) : R :=
  sqrt ((x a - x b) * (x a - x b) + (y a - y b) * (y a - y b)).

End Vector2.

Module Vector3.

Record t := mk { x : R; y : R; z : R }.

Definition zero : t := mk 0 0 0.
Definition add (a b : t) : t := mk (x a + x b) (y a + y b) (z a + z b).
Definition sub (a b : t) : t := mk (x a - x b) (y a - y b) (z a - z b).
Definition multiplyScalar (a : t) (s : R) : t := mk (x a * s) (y a * s) (z a * s).
Definition divideScalar (a : t) (s : R) : t := multiplyScalar a (1 / s).
Definition lengthSq (a : t) : R := x a * x a + y a * y a + z a * z a.
Definition length (a : t) : R := sqrt (lengthSq a).

Definition normalize (a : t) : t :=
  divideScalar a (if Req_dec_T (length a) 0 then 1 else length a).

Definition lerp (a b : t) (alpha : R) : t :=
  mk (x a + (x b - x a) * alpha) (y a + (y b - y a) * alpha)
     (z a + (z b - z a) * alpha).

Definition cross (a b : t) : t :=
  mk (y a * z b - z a * y b) (z a * x b - x a * z b) (x a * y b - y a * x b).

Definition distanceToSquared (a b : t) : R := lengthSq (sub a b).
Definition distanceTo (a b : t) : R := sqrt (distanceToSquared a b).

(** [a.addScaledVector(v, s)] *)
Definition addScaledVector (a v : t) (s : R) : t := add a (multiplyScalar v s).

(** [a.setY(h)] *)
Definition setY (a : t) (h : R) : t := mk (x a) h (z a).

(** [a.equals(b)]: the three coordinates are equal. *)
Definition equals (a b : t) : bool :=
  if Req_dec_T (x a) (x b) then
    if Req_dec_T (y a) (y b) then
      if Req_dec_T (z a) (z b) then true else false
    else false
  else false.

(** [a.applyAxisAngle(axis, angle)] for a unit [axis]: three.js builds the
    quaternion of the rotation and applies it; the result is the rotation
    of [a] about [axis] by [angle] (Rodrigues' formula). *)
Definition applyAxisAngle (a axis : t) (angle : R) : t :=
  let d := x axis * x a + y axis * y a + z axis * z a in
  add (add (multiplyScalar a (cos angle))
           (multiplyScalar (cross axis a) (sin angle)))
      (multiplyScalar axis (d * (1 - cos angle))).

End Vector3.

Module Triangle.

(** [THREE.Triangle.getNormal(a, b, c, target)]:
    [target = (c - b) x (a - b)], scaled to length one unless it is zero. *)
Definition rawNormal (a b c : Vector3.t) : Vector3.t :=
  Vector3.cross (Vector3.sub c b) (Vector3.sub a b).

Definition getNormal (a b c : Vector3.t) : Vector3.t :=
  let n := rawNormal a b c in
  if Rlt_dec 0 (Vector3.lengthSq n)
  then Vector3.multiplyScalar n (1 / sqrt (Vector3.lengthSq n))
  else Vector3.zero.

(** [new THREE.Triangle(a, b, c).getArea()]: half the length of the cross
    product of two edge vectors. *)
Definition getArea (a b c : Vector3.t) : R :=
  Vector3.length (rawNormal a b c) * (1 / 2).

End Triangle.

(** A face of an indexed mesh: three positions of the vertex buffer. *)
Definition Face : Type := nat * nat * nat.

(** [indices.push(a, b, c)] for every face, in order. *)
Definition flatten (fs : list Face) : list nat :=
  flat_map (fun f : Face => let '(a, b, c) := f in [a; b; c]) fs.

(** The faces of an index buffer, read three entries at a time
    ([for (let i = 0; i < indices.length; i += 3)]). *)
Fixpoint facesOf (indices : list nat) : list Face :=
  match indices with
  | a :: b :: c :: rest => (a, b, c) :: facesOf rest
  | _ => []
  end.

(** [attribute.getX/Y/Z(i)]: the position stored for vertex [i]. *)
Definition vertexAt (positions : list Vector3.t) (i : nat) : Vector3.t :=
  nth i positions Vector3.zero.

(** The winding of a face seen from above (from [+y], looking down): the
    vertical component of the face normal [(c - b) x (a - b)].  It is
    positive exactly when [a], [b], [c] run counter-clockwise for a viewer
    above the mesh, negative when they run clockwise, and zero when the
    face is vertical or degenerate. *)
Definition windingY (positions : list Vector3.t) (f : Face) : R :=
  let '(a, b, c) := f in
  Vector3.y (Triangle.rawNormal (vertexAt positions a) (vertexAt positions b)
                                (vertexAt positions c)).

Definition ccwFromAbove (positions : list Vector3.t) (f : Face) : Prop :=
  0 < windingY positions f.

(** A face none of whose area is seen from above. *)
Definition verticalFace (positions : list Vector3.t) (f : Face) : Prop :=
  windingY positions f = 0.

(* ================================================================== *)
(** * Host functions and loaded assets *)
(* ================================================================== *)

(** A loaded rock model ([RockData]): the parsed object is opaque, the
    program reads its bounding box and the size of that box. *)
Record RockData := mkRockData {
  model : nat;
  size : Vector3.t;
  boxMin : Vector3.t;
  boxMax : Vector3.t
}.

(** A clone of a rock model after [generateIsland] has placed it:
    [model.position.set(x, y, z)], [model.rotation.y], [model.scale.y]. *)
Record PlacedRock := mkPlacedRock {
  source : RockData;
  position : Vector3.t;
  rotationY : R;
  scaleY : R
}.

(** An indexed triangle mesh ([THREE.BufferGeometry]): positions, one
    texture coordinate per vertex (the program stores the same values as
    [uv] and [uv2]), the index buffer, and the material groups as
    (start, count, material). *)
Record Mesh := mkMesh {
  positions : list Vector3.t;
  uvs : list Vector2.t;
  index : list nat;
  groups : list (nat * nat * nat)
}.

(** The first intersection of a ray with a mesh: the point and the normal
    of the face that was hit. *)
Record Intersection := mkIntersection {
  point : Vector3.t;
  faceNormal : Vector3.t
}.

Module Host.

Record t := mk {
  (** [ImprovedNoise.noise(x, y, z)] *)
  perlin : R -> R -> R -> R;
  (** [new THREE.CatmullRomCurve3(points, true).getPoint(u)] *)
  getPoint : list Vector3.t -> R -> Vector3.t;
  (** [array.sort(() => Math.random() - 0.5)]: the order the runtime's sort
      leaves the array in, and the random values its comparisons draw. *)
  shuffle : forall A : Type, list A -> Gen (list A);
  (** [raycaster.intersectObjects(rockMeshes, true)[0].point.y] for the ray
      that starts at [(x, 100, z)] and points down; [None] when the ray
      hits no rock. *)
  intersectRocks : list PlacedRock -> R -> R -> option R;
  (** [raycaster.intersectObject(targetMesh, true)[0]] for a ray with the
      given origin pointing down. *)
  intersectMesh : Mesh -> Vector3.t -> option Intersection;
  (** [raycaster.intersectObjects(riverMeshes, false)[0].distance] for a
      ray with the given origin and direction. *)
  intersectRivers : list Mesh -> Vector3.t -> Vector3.t -> option R;
  (** [Math.atan2(y, x)] *)
  atan2 : R -> R -> R;
  (** [geometry.computeVertexNormals()]: one normal per vertex. *)
  computeVertexNormals : list Vector3.t -> list nat -> list Vector3.t
}.

(** [curve.getPoints(divisions)]: [getPoint(d / divisions)] for
    [d = 0 .. divisions]. *)
Definition getPoints (h : t) (points : list Vector3.t) (divisions : nat)
    : list Vector3.t :=
  map (fun d => getPoint h points (INR d / INR divisions))
      (seq 0 (S divisions)).

End Host.

(** The values read from the controls at the start of a generation. *)
Record Config := mkConfig {
  baseRadius : R;
  shorelineOffset : R;
  shorelineHeight : R;
  baseHeight : R;
  noiseStrength : R;
  noiseScale : R;
  surfaceSmoothing : nat;
  rockHeightScale : R;
  foliageBandWidth : R;
  waterFeatures : bool;
  numLakes : nat;
  lakeRadius : R;
  lakeDepth : R
}.

Record ContourPoint := mkContourPoint {
  cpPosition : Vector3.t;
  cpNormal : Vector3.t;
  cpAngle : R
}.

Record Lake := mkLake {
  center : Vector2.t;
  radius : R;
  depth : R;
  waterLevel : R
}.

(* ================================================================== *)
(** * Point in polygon and moving average *)
(* ================================================================== *)

Definition gtb (a b : R) : bool := if Rlt_dec b a then true else false.
Definition ltb (a b : R) : bool := if Rlt_dec a b then true else false.
Definition leb (a b : R) : bool := if Rle_dec a b then true else false.

(** One step of the crossing test of [isPointInPolygon]: the edge from
    [polygon[j]] to [polygon[i]] is crossed by the ray from [(x, y)]. *)
Definition intersect (x y : R) (pi pj : Vector3.t) : bool :=
  let xi := Vector3.x pi in let zi := Vector3.z pi in
  let xj := Vector3.x pj in let zj := Vector3.z pj in
  negb (Bool.eqb (gtb zi y) (gtb zj y))
  && ltb x ((xj - xi) * (y - zi) / (zj - zi) + xi).

(** The loop [for (let i = 0, j = polygon.length - 1; i < polygon.length; j = i++)]. *)
Fixpoint crossings (x y : R) (pj : Vector3.t) (polygon : list Vector3.t)
    (isInside : bool) : bool :=
  match polygon with
  | [] => isInside
  | pi :: rest =>
      crossings x y pi rest
        (if intersect x y pi pj then negb isInside else isInside)
  end.

(** [isPointInPolygon(point, polygon)] *)
Definition isPointInPolygon (point : Vector2.t) (polygon : list Vector3.t) : bool :=
  crossings (Vector2.x point) (Vector2.y point)
            (last polygon Vector3.zero) polygon false.

(** [points[index]] for a JavaScript index: [None] stands for [undefined]. *)
Definition at_index {A} (l : list A) (index : Z) : option A :=
  if (index <? 0)%Z then None else nth_error l (Z.to_nat index).

(** The window sum of [applySMA] at position [i]: [j] runs from
    [-windowSize] to [windowSize], the index is
    [(i + j + numPoints) % numPoints]; reading [.y] of a missing entry
    throws, which is [None] here. *)
Definition windowSum (points : list Vector3.t) (windowSize : nat) (i : nat)
    : option R :=
  let numPoints := Z.of_nat (length points) in
  fold_left
    (fun (sumY : option R) (j : Z) =>
       match sumY, at_index points (Z.rem (Z.of_nat i + j + numPoints) numPoints) with
       | Some s, Some p => Some (s + Vector3.y p)
       | _, _ => None
       end)
    (map (fun d => (Z.of_nat d - Z.of_nat windowSize)%Z) (seq 0 (2 * windowSize + 1)))
    (Some 0).

(** All entries of a list of optional values, when none is missing. *)
Fixpoint sequence {A} (l : list (option A)) : option (list A) :=
  match l with
  | [] => Some []
  | None :: _ => None
  | Some a :: rest =>
      match sequence rest with Some r => Some (a :: r) | None => None end
  end.

(** [applySMA(points, windowSize)] *)
Definition applySMA (points : list Vector3.t) (windowSize : nat)
    : option (list Vector3.t) :=
  if Nat.eqb windowSize 0 then Some points
  else
    sequence
      (map (fun ip : nat * Vector3.t =>
              let (i, p) := ip in
              match windowSum points windowSize i with
              | Some sumY =>
                  Some (Vector3.setY p (sumY / INR (2 * windowSize + 1)))
              | None => None
              end)
           (combine (seq 0 (length points)) points)).

(* ================================================================== *)
(** * [Array.prototype.sort] with a numeric key *)
(* ================================================================== *)

(** [array.sort((a, b) => key(a) - key(b))]: ascending by [key].  The sort
    of the runtime is stable: elements with equal keys keep their order. *)
Fixpoint insertBy {A} (key : A -> R) (a : A) (sorted : list A) : list A :=
  match sorted with
  | [] => [a]
  | h :: rest =>
      if Rle_dec (key a) (key h) then a :: sorted
      else h :: insertBy key a rest
  end.

Fixpoint sortBy {A} (key : A -> R) (l : list A) : list A :=
  match l with
  | [] => []
  | a :: rest => insertBy key a (sortBy key rest)
  end.

(* ================================================================== *)
(** * Contour builder: the rock rings of [generateIsland] *)
(* ================================================================== *)

Module Contour.

Definition volume (r : RockData) : R :=
  Vector3.x (size r) * Vector3.y (size r) * Vector3.z (size r).

(** [rockModels.sort((a, b) => volumeA - volumeB)] *)
Definition sortByVolume (l : list RockData) : list RockData := sortBy volume l.

Definition SMALL_ROCK_PERCENTILE : R := 0.4.

Definition splitIndex (rockModels : list RockData) : nat :=
  if (length rockModels <? 2)%nat then 1%nat
  else Z.to_nat (Z.max 1 (JsMath.floor (INR (length rockModels) * SMALL_ROCK_PERCENTILE))).

Definition smallRockModels (rockModels : list RockData) : list RockData :=
  firstn (splitIndex rockModels) rockModels.

Definition largeRockModels (rockModels : list RockData) : list RockData :=
  let large := skipn (splitIndex rockModels) rockModels in
  match large, smallRockModels rockModels with
  | [], _ :: _ => smallRockModels rockModels
  | _, _ => large
  end.

Definition irregularity : R := 0.25.
Definition DENSITY_BASE_ROCKS : R := 75.
Definition DENSITY_BASE_RADIUS : R := 20.
Definition DENSITY_SCALE_POWER : nat := 1.
Definition densityCoefficient : R :=
  DENSITY_BASE_ROCKS / DENSITY_BASE_RADIUS ^ DENSITY_SCALE_POWER.

(** [Math.max(3, Math.round(densityCoefficient * Math.pow(radius, DENSITY_SCALE_POWER)))] *)
Definition numRocks (radius : R) : nat :=
  Z.to_nat (Z.max 3 (JsMath.round (densityCoefficient * radius ^ DENSITY_SCALE_POWER))).

Definition numLargeRocks (cfg : Config) : nat := numRocks (baseRadius cfg).

Definition outerRadius (cfg : Config) : R := baseRadius cfg + shorelineOffset cfg.

Definition numSmallRocks (cfg : Config) : nat := numRocks (outerRadius cfg).

(** [Array.from({ length: n }, (_, i) => models[i % models.length])] *)
Definition noRock : RockData := mkRockData 0 Vector3.zero Vector3.zero Vector3.zero.

Definition clones (n : nat) (models : list RockData) : list RockData :=
  map (fun i => nth (i mod length models) models noRock) (seq 0 n).

(** One turn of the loop that places the large rocks: the contour point
    and the placed clone for index [i]. *)
Definition largeRock (h : Host.t) (cfg : Config) (largeRockClones : list RockData)
    (largeNoise : list R) (i : nat) : ContourPoint * PlacedRock :=
  let data := nth i largeRockClones noRock in
  let angle := (INR i / INR (numLargeRocks cfg)) * 2 * PI in
  let noisyRadius := baseRadius cfg * (1 + nth i largeNoise 0 * irregularity) in
  let x := cos angle * noisyRadius in
  let z := sin angle * noisyRadius in
  let position := Vector3.mk x 0 z in
  let normal := Vector3.normalize (Vector3.mk x 0 z) in
  let normalAngle := Host.atan2 h z x in
  (mkContourPoint position normal angle,
   mkPlacedRock data
     (Vector3.mk x (- Vector3.y (boxMin data) * rockHeightScale cfg) z)
     (- normalAngle + PI / 2)
     (rockHeightScale cfg)).

Definition OFFSET_IRREGULARITY : R := 0.5.

Definition noContourPoint : ContourPoint :=
  mkContourPoint Vector3.zero Vector3.zero 0.

(** The point of the inner contour at parameter [progress], pushed out
    along the interpolated normal by [noisyOffset]. *)
Definition offsetFromInner (cfg : Config) (innerContourData : list ContourPoint)
    (progress noisyOffset : R) : Vector3.t :=
  let innerIndexFloat := progress * INR (numLargeRocks cfg) in
  let index1 := Z.to_nat (JsMath.floor innerIndexFloat) in
  let index2 := ((index1 + 1) mod numLargeRocks cfg)%nat in
  let lerpFactor := innerIndexFloat - IZR (JsMath.floor innerIndexFloat) in
  let data1 := nth index1 innerContourData noContourPoint in
  let data2 := nth index2 innerContourData noContourPoint in
  let basePosition := Vector3.lerp (cpPosition data1) (cpPosition data2) lerpFactor in
  let baseNormal :=
    Vector3.normalize (Vector3.lerp (cpNormal data1) (cpNormal data2) lerpFactor) in
  Vector3.add basePosition (Vector3.multiplyScalar baseNormal noisyOffset).

(** One turn of the loop that places the small rocks. *)
Definition smallRock (h : Host.t) (cfg : Config) (smallRockClones : list RockData)
    (innerContourData : list ContourPoint) (smallNoise : list R) (i : nat)
    : PlacedRock :=
  let data := nth i smallRockClones noRock in
  let progress := INR i / INR (numSmallRocks cfg) in
  let noisyOffset :=
    shorelineOffset cfg * (1 + nth i smallNoise 0 * OFFSET_IRREGULARITY) in
  let finalPosition := offsetFromInner cfg innerContourData progress noisyOffset in
  let finalAngle := Host.atan2 h (Vector3.z finalPosition) (Vector3.x finalPosition) in
  mkPlacedRock data
    (Vector3.mk (Vector3.x finalPosition)
                (- Vector3.y (boxMin data) * rockHeightScale cfg)
                (Vector3.z finalPosition))
    (- finalAngle + PI / 2)
    (rockHeightScale cfg).

(** The inner ring: the contour points and the placed large rocks
    ([largeRocksGroup]). *)
Definition largeRing (h : Host.t) (cfg : Config) (rockModels : list RockData)
    : Gen (list ContourPoint * list PlacedRock) :=
  largeRockClones <-
    Host.shuffle h _ (clones (numLargeRocks cfg) (largeRockModels rockModels)) ;;
  phaseOffset <- random ;;
  largeNoise <- Noise.generateNoise (numLargeRocks cfg) phaseOffset ;;
  let large :=
    map (largeRock h cfg largeRockClones largeNoise) (seq 0 (numLargeRocks cfg)) in
  ret (map fst large, map snd large).

(** The outer ring: the noise of the shoreline offset and the placed small
    rocks ([smallRocksGroup]). *)
Definition smallRing (h : Host.t) (cfg : Config) (rockModels : list RockData)
    (innerContourData : list ContourPoint) : Gen (list R * list PlacedRock) :=
  smallRockClones <-
    Host.shuffle h _ (clones (numSmallRocks cfg) (smallRockModels rockModels)) ;;
  r <- random ;;
  smallNoise <- Noise.generateNoise (numSmallRocks cfg) (r + PI) ;;
  ret (smallNoise,
       map (smallRock h cfg smallRockClones innerContourData smallNoise)
           (seq 0 (numSmallRocks cfg))).

End Contour.

(* ================================================================== *)
(** * Island edge, foliage boundary and lakes *)
(* ================================================================== *)

Module Edge.

Definition numSurfacePoints : nat := 128.

(** The height the noise gives at [(x, z)]: [baseHeight + noise * noiseStrength]. *)
Definition noiseHeight (h : Host.t) (cfg : Config) (x z : R) : R :=
  baseHeight cfg
  + Host.perlin h (x * noiseScale cfg) (z * noiseScale cfg) 0 * noiseStrength cfg.

Definition noisyContourPoints (h : Host.t) (cfg : Config)
    (innerContourData : list ContourPoint) : list Vector3.t :=
  let rockPositions := map cpPosition innerContourData in
  map (fun point =>
         let x := Vector3.x point in
         let z := Vector3.z point in
         Vector3.mk x (noiseHeight h cfg x z) z)
      (Host.getPoints h rockPositions numSurfacePoints).

Definition contourPointsForLine (h : Host.t) (smoothedNoisePoints : list Vector3.t)
    : list Vector3.t :=
  Host.getPoints h smoothedNoisePoints (numSurfacePoints * 2).

(** [getTerrainHeight(x, z, fallbackHeight)] *)
Definition getTerrainHeight (h : Host.t) (rocks : list PlacedRock)
    (x z fallbackHeight : R) : R :=
  match Host.intersectRocks h rocks x z with
  | Some y => JsMath.max y fallbackHeight
  | None => fallbackHeight
  end.

Definition topContourVertices (contourPointsForLine : list Vector3.t)
    : list Vector3.t :=
  if Vector3.equals (last contourPointsForLine Vector3.zero)
                    (hd Vector3.zero contourPointsForLine)
  then removelast contourPointsForLine
  else contourPointsForLine.

Definition centerXZ (smoothedNoisePoints : list Vector3.t) : Vector2.t :=
  Vector2.divideScalar
    (fold_left (fun c p => Vector2.add c (Vector2.mk (Vector3.x p) (Vector3.z p)))
               smoothedNoisePoints (Vector2.mk 0 0))
    (INR (length smoothedNoisePoints)).

Definition centerPoint (h : Host.t) (cfg : Config) (centerXZ : Vector2.t)
    : Vector3.t :=
  Vector3.mk (Vector2.x centerXZ)
             (noiseHeight h cfg (Vector2.x centerXZ) (Vector2.y centerXZ))
             (Vector2.y centerXZ).

(** One point of the foliage boundary: the contour point [p_curr] pulled
    towards the centre by the band width. *)
Definition innerFoliageBoundaryPoint (cfg : Config) (centerXZ : Vector2.t)
    (centerPoint p_curr : Vector3.t) : Vector3.t :=
  let offsetDistance := foliageBandWidth cfg in
  let pointXZ := Vector2.mk (Vector3.x p_curr) (Vector3.z p_curr) in
  let direction := Vector2.sub pointXZ centerXZ in
  let originalDistance := Vector2.length direction in
  let newDistance := JsMath.max 0 (originalDistance - offsetDistance) in
  let newPointXZ :=
    Vector2.add centerXZ
      (Vector2.multiplyScalar (Vector2.normalize direction) newDistance) in
  let heightLerpFactor :=
    if Rlt_dec 0.0001 originalDistance then newDistance / originalDistance else 0 in
  let newY := JsMath.lerp (Vector3.y centerPoint) (Vector3.y p_curr) heightLerpFactor in
  Vector3.mk (Vector2.x newPointXZ) newY (Vector2.y newPointXZ).

Definition innerFoliageBoundaryPoints (cfg : Config) (centerXZ : Vector2.t)
    (centerPoint : Vector3.t) (contourPointsForLine : list Vector3.t)
    : list Vector3.t :=
  map (innerFoliageBoundaryPoint cfg centerXZ centerPoint) contourPointsForLine.

End Edge.

Module Lakes.

(** [new THREE.Box2()] after [expandByPoint] of every [(v.x, v.z)]: the
    least and the greatest coordinate on each axis.  The polygon the
    program passes has 257 points; for an empty list the box of three.js is
    empty and has no counterpart here. *)
Record Box2 := mkBox2 { minX : R; minY : R; maxX : R; maxY : R }.

Definition sandAreaBox (polygon : list Vector3.t) : Box2 :=
  match polygon with
  | [] => mkBox2 0 0 0 0
  | v :: rest =>
      fold_left
        (fun b p =>
           mkBox2 (Rmin (minX b) (Vector3.x p)) (Rmin (minY b) (Vector3.z p))
                  (Rmax (maxX b) (Vector3.x p)) (Rmax (maxY b) (Vector3.z p)))
        rest
        (mkBox2 (Vector3.x v) (Vector3.z v) (Vector3.x v) (Vector3.z v))
  end.

Definition maxAttempts : nat := 100.

(** The attempts to find a centre for one lake: a random point of the box,
    shrunk by the radius, that lies inside the polygon. *)
Fixpoint findCenter (box : Box2) (lakeRadius : R) (polygon : list Vector3.t)
    (attempts : nat) : Gen (option Vector2.t) :=
  match attempts with
  | O => ret None
  | S attempts' =>
      x <- randFloat (minX box + lakeRadius) (maxX box - lakeRadius) ;;
      y <- randFloat (minY box + lakeRadius) (maxY box - lakeRadius) ;;
      let randomCenter := Vector2.mk x y in
      if isPointInPolygon randomCenter polygon then ret (Some randomCenter)
      else findCenter box lakeRadius polygon attempts'
  end.

(** The water-feature pre-calculation of [generateIsland]. *)
Definition precalculate (h : Host.t) (cfg : Config)
    (innerFoliageBoundaryPoints : list Vector3.t) : Gen (list Lake) :=
  if waterFeatures cfg then
    let box := sandAreaBox innerFoliageBoundaryPoints in
    foldGen
      (fun (lakes : list Lake) (_ : nat) =>
         found <- findCenter box (lakeRadius cfg) innerFoliageBoundaryPoints maxAttempts ;;
         match found with
         | None => ret lakes
         | Some lakeCenter =>
             let originalCenterHeight :=
               Edge.noiseHeight h cfg (Vector2.x lakeCenter) (Vector2.y lakeCenter) in
             ret (lakes ++
                  [ mkLake lakeCenter (lakeRadius cfg) (lakeDepth cfg)
                      (originalCenterHeight - lakeDepth cfg + lakeDepth cfg * 0.5) ])
         end)
      (seq 0 (numLakes cfg)) []
  else ret [].

(** The depression the lakes apply to a height at [point2D]. *)
Definition depress (lakes : list Lake) (point2D : Vector2.t) (y : R) : R :=
  fold_left
    (fun finalY lake =>
       let dist := Vector2.distanceTo point2D (center lake) in
       if Rlt_dec dist (radius lake) then
         let influence := 1.0 - JsMath.smoothstep dist 0 (radius lake) in
         finalY - depth lake * influence
       else finalY)
    lakes y.

End Lakes.

(* ================================================================== *)
(** * Surface tessellator *)
(* ================================================================== *)

Definition TEXTURE_SCALE : R := 20.0.

(** The blended texture coordinate of one vertex: a top-down projection
    and a projection around the centre, weighted by the fourth power of
    the vertical component of the vertex normal. *)
Definition blendedUV (h : Host.t) (cfg : Config) (cx cz : R)
    (p normal : Vector3.t) : Vector2.t :=
  let CIRCUMFERENCE_TEXTURE_REPEATS := (2 * PI * baseRadius cfg) / TEXTURE_SCALE in
  let x := Vector3.x p in
  let y := Vector3.y p in
  let z := Vector3.z p in
  let uTop := x / TEXTURE_SCALE in
  let vTop := z / TEXTURE_SCALE in
  let angle := Host.atan2 h (z - cz) (x - cx) in
  let uSide := (angle / (2 * PI) + 0.5) * CIRCUMFERENCE_TEXTURE_REPEATS in
  let vSide := y / TEXTURE_SCALE in
  let normalY := Rabs (Vector3.y normal) in
  let topDownWeight := normalY ^ 4 in
  Vector2.mk (uTop * topDownWeight + uSide * (1.0 - topDownWeight))
             (vTop * topDownWeight + vSide * (1.0 - topDownWeight)).

Definition blendedUVs (h : Host.t) (cfg : Config) (cx cz : R)
    (positions : list Vector3.t) (indices : list nat) : list Vector2.t :=
  map (fun pn : Vector3.t * Vector3.t => blendedUV h cfg cx cz (fst pn) (snd pn))
      (combine positions (Host.computeVertexNormals h positions indices)).

Module GroundCover.

Definition numRings : nat := 32.

Definition MESH_BOUNDARY_RESOLUTION : nat := 256.

Definition groundCoverExtension : R := 0.0.

(** The shoreline points moved outwards by [groundCoverExtension] and set
    on the height of the rocks under them. *)
Definition extendedShorelinePoints (h : Host.t) (cfg : Config)
    (rocks : list PlacedRock) (centerXZ : Vector2.t)
    (shorelinePointsForMesh : list Vector3.t) : list Vector3.t :=
  map (fun p =>
         let pointXZ := Vector2.mk (Vector3.x p) (Vector3.z p) in
         let direction := Vector2.normalize (Vector2.sub pointXZ centerXZ) in
         let newPointXZ :=
           Vector2.add pointXZ (Vector2.multiplyScalar direction groundCoverExtension) in
         let y := Edge.getTerrainHeight h rocks (Vector2.x newPointXZ)
                    (Vector2.y newPointXZ) (shorelineHeight cfg) in
         Vector3.mk (Vector2.x newPointXZ) y (Vector2.y newPointXZ))
      shorelinePointsForMesh.

(** The vertex of ring [r] at segment [s]: on the way from the shoreline
    ([r = 0]) to the foliage boundary ([r = numRings]). *)
Definition ringVertex (lakes : list Lake) (outer inner : list Vector3.t)
    (r s : nat) : Vector3.t :=
  let ringLerp := INR r / INR numRings in
  let outerPoint := nth s outer Vector3.zero in
  let innerPoint := nth s inner Vector3.zero in
  let point := Vector3.lerp outerPoint innerPoint ringLerp in
  let point2D := Vector2.mk (Vector3.x point) (Vector3.z point) in
  let finalY := Lakes.depress lakes point2D (Vector3.y point) in
  Vector3.mk (Vector3.x point) finalY (Vector3.z point).

(** [groundCoverVertices]: the rings row by row, then the bottom of the
    skirt under the shoreline. *)
Definition vertices (lakes : list Lake) (outer inner : list Vector3.t)
    : list Vector3.t :=
  let numSegments := length inner in
  flat_map (fun r => map (ringVertex lakes outer inner r) (seq 0 numSegments))
           (seq 0 (S numRings))
  ++ map (fun p => Vector3.mk (Vector3.x p) 0 (Vector3.z p)) outer.

(** [gridIndices[r][s]]: [vertexIndex] starts at 0 and is incremented
    after every vertex of the double loop over [r] and [s]. *)
Definition gridIndices (numSegments r s : nat) : nat := (r * numSegments + s)%nat.

Definition skirtBottomStartIndex (numSegments : nat) : nat :=
  (S numRings * numSegments)%nat.

(** The two faces of the quad between rings [r] and [r + 1] at segment [s]. *)
Definition bandFaces (numSegments : nat) : list Face :=
  flat_map (fun r =>
    flat_map (fun s =>
      let next_s := ((s + 1) mod numSegments)%nat in
      let i_tl := gridIndices numSegments r s in
      let i_tr := gridIndices numSegments r next_s in
      let i_bl := gridIndices numSegments (r + 1) s in
      let i_br := gridIndices numSegments (r + 1) next_s in
      [ (i_tl, i_bl, i_br); (i_tl, i_br, i_tr) ])
      (seq 0 numSegments))
    (seq 0 numRings).

Definition skirtFaces (numSegments : nat) : list Face :=
  flat_map (fun s =>
    let next_s := ((s + 1) mod numSegments)%nat in
    let top_curr := gridIndices numSegments 0 s in
    let top_next := gridIndices numSegments 0 next_s in
    let bottom_curr := (skirtBottomStartIndex numSegments + s)%nat in
    let bottom_next := (skirtBottomStartIndex numSegments + next_s)%nat in
    [ (top_curr, top_next, bottom_next); (top_curr, bottom_next, bottom_curr) ])
    (seq 0 numSegments).

Definition indices (numSegments : nat) : list nat :=
  flatten (bandFaces numSegments ++ skirtFaces numSegments).

(** The ground-cover geometry, when there is one. *)
Definition geometry (h : Host.t) (cfg : Config) (lakes : list Lake)
    (centerXZ : Vector2.t) (boundaryPoints shorelinePointsForMesh
     extendedShorelinePoints : list Vector3.t) : option Mesh :=
  if ((2 <? length boundaryPoints) && (2 <? length shorelinePointsForMesh))%nat then
    let uniqueBoundaryPoints := removelast boundaryPoints in
    let uniqueExtendedShorelinePoints := removelast extendedShorelinePoints in
    let numSegments := length uniqueBoundaryPoints in
    if (0 <? numSegments)%nat then
      let vs := vertices lakes uniqueExtendedShorelinePoints uniqueBoundaryPoints in
      let ix := indices numSegments in
      Some (mkMesh vs
                   (blendedUVs h cfg (Vector2.x centerXZ) (Vector2.y centerXZ) vs ix)
                   ix [])
    else None
  else None.

End GroundCover.

Module Surface.

Definition numRings : nat := 60.

(** [ringLerp] of ring [r]: [1 - (1 - t)^2] with [t = (r + 1) / (numRings + 1)]. *)
Definition ringLerp (r : nat) : R :=
  let t := (INR r + 1) / (INR numRings + 1) in
  1 - (1 - t) ^ 2.

(** The vertex of ring [r] at segment [s] of the central surface. *)
Definition ringVertex (h : Host.t) (cfg : Config) (lakes : list Lake)
    (centerPoint : Vector3.t) (centralContourVertices : list Vector3.t)
    (r s : nat) : Vector3.t :=
  let edgePoint := nth s centralContourVertices Vector3.zero in
  let basePointXZ :=
    Vector2.lerp (Vector2.mk (Vector3.x centerPoint) (Vector3.z centerPoint))
                 (Vector2.mk (Vector3.x edgePoint) (Vector3.z edgePoint))
                 (ringLerp r) in
  let pointY :=
    Edge.noiseHeight h cfg (Vector2.x basePointXZ) (Vector2.y basePointXZ) in
  let interpolatedContourY :=
    JsMath.lerp (Vector3.y centerPoint) (Vector3.y edgePoint) (ringLerp r) in
  let blendFactor := ringLerp r ^ 2 in
  let finalY :=
    Lakes.depress lakes basePointXZ
      (JsMath.lerp pointY interpolatedContourY blendFactor) in
  Vector3.mk (Vector2.x basePointXZ) finalY (Vector2.y basePointXZ).

Definition contourVertex (lakes : list Lake) (p : Vector3.t) : Vector3.t :=
  let point2D := Vector2.mk (Vector3.x p) (Vector3.z p) in
  Vector3.mk (Vector3.x p) (Lakes.depress lakes point2D (Vector3.y p)) (Vector3.z p).

(** [vertices]: the centre, the rings row by row, the contour, the bottom
    of the skirt. *)
Definition vertices (h : Host.t) (cfg : Config) (lakes : list Lake)
    (centerPoint : Vector3.t) (centralContourVertices : list Vector3.t)
    : list Vector3.t :=
  let numSegments := length centralContourVertices in
  centerPoint
  :: flat_map (fun r =>
                 map (ringVertex h cfg lakes centerPoint centralContourVertices r)
                     (seq 0 numSegments))
              (seq 0 numRings)
  ++ map (contourVertex lakes) centralContourVertices
  ++ map (fun p => Vector3.mk (Vector3.x p) 0 (Vector3.z p)) centralContourVertices.

(** [gridIndices[r][s]]: [vertexIndex] is 1 after the centre vertex and is
    incremented after every ring vertex. *)
Definition gridIndices (numSegments r s : nat) : nat := (1 + r * numSegments + s)%nat.

(** [contourIndices[s]] *)
Definition contourIndices (numSegments s : nat) : nat :=
  (1 + numRings * numSegments + s)%nat.

Definition bottomSkirtStartIndex (numSegments : nat) : nat :=
  (1 + numRings * numSegments + numSegments)%nat.

(** The fan around the centre vertex. *)
Definition fanFaces (numSegments : nat) : list Face :=
  map (fun s =>
         (0%nat, gridIndices numSegments 0 s,
          gridIndices numSegments 0 ((s + 1) mod numSegments)))
      (seq 0 numSegments).

(** The quads between consecutive rings. *)
Definition ringFaces (numSegments : nat) : list Face :=
  flat_map (fun r =>
    flat_map (fun s =>
      let next_s := ((s + 1) mod numSegments)%nat in
      [ (gridIndices numSegments r s, gridIndices numSegments r next_s,
         gridIndices numSegments (r + 1) next_s);
        (gridIndices numSegments r s, gridIndices numSegments (r + 1) next_s,
         gridIndices numSegments (r + 1) s) ])
      (seq 0 numSegments))
    (seq 0 (numRings - 1)).

(** The quads between the last ring and the contour. *)
Definition transitionFaces (numSegments : nat) : list Face :=
  let lastRingIndex := (numRings - 1)%nat in
  flat_map (fun s =>
    let next_s := ((s + 1) mod numSegments)%nat in
    [ (gridIndices numSegments lastRingIndex s,
       gridIndices numSegments lastRingIndex next_s,
       contourIndices numSegments next_s);
      (gridIndices numSegments lastRingIndex s,
       contourIndices numSegments next_s,
       contourIndices numSegments s) ])
    (seq 0 numSegments).

(** The skirt from the contour down to [y = 0]. *)
Definition skirtFaces (numSegments : nat) : list Face :=
  flat_map (fun s =>
    let next_s := ((s + 1) mod numSegments)%nat in
    [ (contourIndices numSegments s, contourIndices numSegments next_s,
       (bottomSkirtStartIndex numSegments + next_s)%nat);
      (contourIndices numSegments s,
       (bottomSkirtStartIndex numSegments + next_s)%nat,
       (bottomSkirtStartIndex numSegments + s)%nat) ])
    (seq 0 numSegments).

Definition indices (numSegments : nat) : list nat :=
  flatten (fanFaces numSegments ++ ringFaces numSegments
           ++ transitionFaces numSegments ++ skirtFaces numSegments).

Definition geometry (h : Host.t) (cfg : Config) (lakes : list Lake)
    (centerPoint : Vector3.t) (centralContourVertices : list Vector3.t) : Mesh :=
  let vs := vertices h cfg lakes centerPoint centralContourVertices in
  let ix := indices (length centralContourVertices) in
  mkMesh vs
         (blendedUVs h cfg (Vector3.x centerPoint) (Vector3.z centerPoint) vs ix)
         ix [].

End Surface.

(** Ground cover and sand in one geometry: the ground cover comes first,
    the indices of the sand are shifted by the number of ground-cover
    vertices, and each part is a material group. *)
Definition mergeGeometries (groundGeo sandGeo : Mesh) : Mesh :=
  let vertexOffset := length (positions groundGeo) in
  mkMesh (positions groundGeo ++ positions sandGeo)
         (uvs groundGeo ++ uvs sandGeo)
         (index groundGeo ++ map (fun i => (i + vertexOffset)%nat) (index sandGeo))
         [ (0%nat, length (index groundGeo), 0%nat);
           (length (index groundGeo), length (index sandGeo), 1%nat) ].

(* ================================================================== *)
(** * [generateIsland] *)
(* ================================================================== *)

(** What a generation leaves behind for the later passes: the placed rocks
    ([this.group]), the cliff edge, the foliage boundary, the lakes and the
    terrain mesh ([this.islandSurface]); [groundCover] tells whether the
    mesh contains the ground-cover band ([this.groundCoverMesh]). *)
Record Island := mkIsland {
  rocks : list PlacedRock;
  cliffEdge : list Vector3.t;
  foliageBoundary : list Vector3.t;
  lakes : list Lake;
  islandSurface : Mesh;
  groundCover : bool
}.

(** [generateIsland()] up to the terrain mesh.  The first component of the
    result is [this.rockModels] after the call (the call sorts it in
    place); the second is [None] when the call returns before it has built
    a terrain: no rock model is loaded, an exception is caught, or the
    contour has fewer than three points. *)
Definition generateIsland (h : Host.t) (cfg : Config) (rockModels : list RockData)
    : Gen (list RockData * option Island) :=
  if (length rockModels =? 0)%nat then ret (rockModels, None)
  else
    let rockModels := Contour.sortByVolume rockModels in
    large <- Contour.largeRing h cfg rockModels ;;
    let innerContourData := fst large in
    let noisyContourPoints := Edge.noisyContourPoints h cfg innerContourData in
    match applySMA noisyContourPoints (surfaceSmoothing cfg) with
    | None => ret (rockModels, None)
    | Some smoothedNoisePoints =>
        let contourPointsForLine := Edge.contourPointsForLine h smoothedNoisePoints in
        small <- Contour.smallRing h cfg rockModels innerContourData ;;
        let rocks := snd large ++ snd small in
        let topContourVertices := Edge.topContourVertices contourPointsForLine in
        if (2 <? length topContourVertices)%nat then
          let centerXZ := Edge.centerXZ smoothedNoisePoints in
          let centerPoint := Edge.centerPoint h cfg centerXZ in
          let innerFoliageBoundaryPoints :=
            Edge.innerFoliageBoundaryPoints cfg centerXZ centerPoint contourPointsForLine in
          lakes <- Lakes.precalculate h cfg innerFoliageBoundaryPoints ;;
          let boundaryPoints :=
            Host.getPoints h innerFoliageBoundaryPoints
                           GroundCover.MESH_BOUNDARY_RESOLUTION in
          let shorelinePointsForMesh :=
            Host.getPoints h topContourVertices GroundCover.MESH_BOUNDARY_RESOLUTION in
          let extendedShorelinePoints :=
            GroundCover.extendedShorelinePoints h cfg rocks centerXZ
              shorelinePointsForMesh in
          let groundCoverGeometry :=
            GroundCover.geometry h cfg lakes centerXZ boundaryPoints
              shorelinePointsForMesh extendedShorelinePoints in
          let centralContourVertices := removelast boundaryPoints in
          let surfaceGeometry :=
            Surface.geometry h cfg lakes centerPoint centralContourVertices in
          match groundCoverGeometry with
          | Some groundGeo =>
              ret (rockModels,
                   Some (mkIsland rocks contourPointsForLine innerFoliageBoundaryPoints
                           lakes (mergeGeometries groundGeo surfaceGeometry) true))
          | None =>
              ret (rockModels,
                   Some (mkIsland rocks contourPointsForLine innerFoliageBoundaryPoints
                           lakes surfaceGeometry false))
          end
        else ret (rockModels, None)
    end.

(* ================================================================== *)
(** * Placement sampler: [placeFoliageOnMesh] *)
(* ================================================================== *)

Module Sampler.

(** The options of a placement run that the sampler reads: the number of
    foliage models, the density (instances per 100 square units), the
    maximum count ([None] when the field is empty or does not parse as an
    integer), the maximum slope in degrees, the base scale, and the two
    boundaries. *)
Record Options := mkOptions {
  models : nat;
  grassDensity : R;
  maxCount : option Z;
  maxSlopeDegrees : R;
  baseFoliageScale : R;
  outerBoundary : list Vector3.t;
  innerBoundary : list Vector3.t
}.

(** An entry of [validFaces]. *)
Record FaceData := mkFaceData {
  vA : Vector3.t;
  vB : Vector3.t;
  vC : Vector3.t;
  normal : Vector3.t;
  area : R
}.

Definition slopeThreshold (o : Options) : R :=
  cos (JsMath.degToRad (maxSlopeDegrees o)).

Definition centroid2D (a b c : Vector3.t) : Vector2.t :=
  let centroid := Vector3.divideScalar (Vector3.add (Vector3.add a b) c) 3 in
  Vector2.mk (Vector3.x centroid) (Vector3.z centroid).

(** The four tests a face passes to be accepted, in the order of the loop. *)
Definition steep (o : Options) (a b c : Vector3.t) : bool :=
  ltb (Vector3.y (Triangle.getNormal a b c)) (slopeThreshold o).

Definition submerged (a b c : Vector3.t) : bool :=
  leb (Vector3.y a) 0 && leb (Vector3.y b) 0 && leb (Vector3.y c) 0.

Definition accepted (o : Options) (a b c : Vector3.t) : bool :=
  negb (steep o a b c)
  && negb (submerged a b c)
  && isPointInPolygon (centroid2D a b c) (outerBoundary o)
  && negb (isPointInPolygon (centroid2D a b c) (innerBoundary o)).

(** [validFaces] after the loop over the index buffer. *)
Definition validFaces (o : Options) (mesh : Mesh) : list FaceData :=
  flat_map
    (fun f : Face =>
       let '(iA, iB, iC) := f in
       let a := vertexAt (positions mesh) iA in
       let b := vertexAt (positions mesh) iB in
       let c := vertexAt (positions mesh) iC in
       if accepted o a b c
       then [ mkFaceData a b c (Triangle.getNormal a b c) (Triangle.getArea a b c) ]
       else [])
    (facesOf (index mesh)).

(** [totalArea] after the loop: the areas added up in order. *)
Definition totalArea (faces : list FaceData) : R :=
  fold_left (fun total f => total + area f) faces 0.

(** [numInstances]: [Math.floor(totalArea / 100 * grassDensity)], at most
    the maximum count when that is a non-negative integer. *)
Definition numInstances (o : Options) (faces : list FaceData) : Z :=
  let n := JsMath.floor (totalArea faces / 100 * grassDensity o) in
  match maxCount o with
  | Some maxCount => if (0 <=? maxCount)%Z then Z.min n maxCount else n
  | None => n
  end.

(** The cumulative areas: entry [i] is [(i, area 0 + ... + area i)]. *)
Fixpoint cdfFrom (faceIndex : nat) (cumulativeArea : R) (faces : list FaceData)
    : list (nat * R) :=
  match faces with
  | [] => []
  | f :: rest =>
      (faceIndex, cumulativeArea + area f)
      :: cdfFrom (S faceIndex) (cumulativeArea + area f) rest
  end.

Definition cdf (faces : list FaceData) : list (nat * R) := cdfFrom 0 0 faces.

(** What the sampler emits for one instance: the pivot point, and, when
    there is a model to place, the model and the parts the transformation
    matrix is composed of (position, the face normal that "up" is aligned
    to, the yaw about "up", the uniform scale). *)
Record Transform := mkTransform {
  sourceFoliage : nat;
  position : Vector3.t;
  alignment : Vector3.t;
  yaw : R;
  finalScale : R
}.

Record Instance := mkInstance {
  faceData : FaceData;
  pivot : Vector3.t;
  transform : option Transform
}.

Definition FOLIAGE_Y_OFFSET : R := 0.02.

Definition noFace : FaceData :=
  mkFaceData Vector3.zero Vector3.zero Vector3.zero Vector3.zero 0.

(** One turn of the loop that generates the instances. *)
Definition placeOne (o : Options) (faces : list FaceData) (total : R)
    (placed : list Instance) : Gen (list Instance) :=
  r <- random ;;
  let randomArea := r * total in
  match find (fun item : nat * R => leb randomArea (snd item)) (cdf faces) with
  | None => ret placed
  | Some foundCdf =>
      let faceData := nth (fst foundCdf) faces noFace in
      u0 <- random ;;
      v0 <- random ;;
      let u := if Rlt_dec 1 (u0 + v0) then 1 - u0 else u0 in
      let v := if Rlt_dec 1 (u0 + v0) then 1 - v0 else v0 in
      let w := 1 - u - v in
      let point :=
        Vector3.addScaledVector
          (Vector3.addScaledVector
             (Vector3.addScaledVector Vector3.zero (vA faceData) u)
             (vB faceData) v)
          (vC faceData) w in
      if (0 <? models o)%nat then
        m <- random ;;
        let sourceFoliage := Z.to_nat (JsMath.floor (m * INR (models o))) in
        let position :=
          Vector3.mk (Vector3.x point) (Vector3.y point + FOLIAGE_Y_OFFSET)
                     (Vector3.z point) in
        a <- random ;;
        randomVariation <- randFloat 0.8 1.2 ;;
        ret (placed ++
             [ mkInstance faceData point
                 (Some (mkTransform sourceFoliage position (normal faceData)
                          (a * PI * 2) (baseFoliageScale o * randomVariation))) ])
      else ret (placed ++ [ mkInstance faceData point None ])
  end.

(** [placeFoliageOnMesh(options)]: the instances it places; none when
    [numInstances] is 0 or no face is valid. *)
Definition placeFoliageOnMesh (o : Options) (mesh : Mesh) : Gen (list Instance) :=
  let faces := validFaces o mesh in
  let n := numInstances o faces in
  if ((n =? 0)%Z || (length faces =? 0)%nat)%bool then ret []
  else foldGen (fun placed (_ : nat) => placeOne o faces (totalArea faces) placed)
               (seq 0 (Z.to_nat n)) [].

End Sampler.

(* ================================================================== *)
(** * Hydrology tracer: [traceRiverPath] *)
(* ================================================================== *)

Module River.

Definition down : Vector3.t := Vector3.mk 0 (-1) 0.
Definition stepLength : R := 1.0.
Definition maxSteps : nat := 200.

(** An entry of [samplePoints]. *)
Record Sample := mkSample { samplePoint : Vector3.t; elevation : R }.

(** The samples of one step: for [j = -3 .. 3] the terrain under the point
    one step ahead in the direction turned by [(j / 3) * (PI / 3)], where
    the ray hits the mesh. *)
Definition samplePoints (h : Host.t) (targetMesh : Mesh)
    (currentPoint currentDirection : Vector3.t) : list Sample :=
  flat_map
    (fun j : Z =>
       let angle := (IZR j / 3) * (PI / 3) in
       let rotatedDir := Vector3.applyAxisAngle currentDirection down angle in
       let samplePos :=
         Vector3.add currentPoint (Vector3.multiplyScalar rotatedDir stepLength) in
       match Host.intersectMesh h targetMesh (Vector3.setY samplePos 100) with
       | Some hit => [ mkSample (point hit) (Vector3.y (point hit)) ]
       | None => []
       end)
    [ (-3)%Z; (-2)%Z; (-1)%Z; 0%Z; 1%Z; 2%Z; 3%Z ].

(** [lakes.some(lake => currentPoint.y < lake.waterLevel
                        && currentPoint2D.distanceTo(lake.center) < lake.radius)] *)
Definition flowedIntoLake (lakes : list Lake) (currentPoint : Vector3.t) : bool :=
  let currentPoint2D := Vector2.mk (Vector3.x currentPoint) (Vector3.z currentPoint) in
  existsb (fun lake =>
             ltb (Vector3.y currentPoint) (waterLevel lake)
             && ltb (Vector2.distanceTo currentPoint2D (center lake)) (radius lake))
          lakes.

(** The points the loop pushes after [currentPoint], with [steps] turns of
    the loop left. *)
Fixpoint walk (h : Host.t) (targetMesh : Mesh) (lakes : list Lake) (steps : nat)
    (currentPoint currentDirection : Vector3.t) : list Vector3.t :=
  match steps with
  | O => []
  | S steps' =>
      match sortBy elevation (samplePoints h targetMesh currentPoint currentDirection) with
      | [] => []
      | lowest :: _ =>
          let nextPoint := samplePoint lowest in
          if Rle_dec (Vector3.y currentPoint) (Vector3.y nextPoint) then []
          else
            nextPoint
            :: (if flowedIntoLake lakes nextPoint then []
                else walk h targetMesh lakes steps' nextPoint
                       (Vector3.normalize (Vector3.sub nextPoint currentPoint)))
      end
  end.

(** [traceRiverPath(startPoint, targetMesh, lakes)] *)
Definition traceRiverPath (h : Host.t) (startPoint : Vector3.t) (targetMesh : Mesh)
    (lakes : list Lake) : Gen (list Vector3.t) :=
  r1 <- random ;;
  r2 <- random ;;
  let currentDirection := Vector3.normalize (Vector3.mk (r1 - 0.5) 0 (r2 - 0.5)) in
  ret (startPoint :: walk h targetMesh lakes maxSteps startPoint currentDirection).

End River.

(* ================================================================== *)
(** * Path network: [UnionFind] and the spanning tree of [generateGraphPaths] *)
(* ================================================================== *)

Module UnionFind.

(** [parent]: entry [i] is the parent of node [i]; a root is its own
    parent. *)
Definition t : Type := list nat.

(** [new UnionFind(n)]: [Array.from({ length: n }, (_, i) => i)] *)
Definition make (n : nat) : t := seq 0 n.

(** [this.parent[i]] for an index inside the array. *)
Definition get (parent : t) (i : nat) : nat := nth i parent i.

(** [this.parent[i] = p] for an index inside the array. *)
Fixpoint set (parent : t) (i p : nat) : t :=
  match parent, i with
  | [], _ => []
  | _ :: rest, O => p :: rest
  | x :: rest, S i' => x :: set rest i' p
  end.

(** [find(i)]: the root of [i]; every node on the way is made a child of
    the root.  The recursion of the program follows parent links until it
    meets a root; here it is bounded by [fuel], and [find] below gives it
    as many steps as there are nodes. *)
Fixpoint findFrom (fuel : nat) (parent : t) (i : nat) : nat * t :=
  match fuel with
  | O => (i, parent)
  | S fuel' =>
      if (get parent i =? i)%nat then (i, parent)
      else
        let (root, parent') := findFrom fuel' parent (get parent i) in
        (root, set parent' i root)
  end.

Definition find (parent : t) (i : nat) : nat * t :=
  findFrom (length parent) parent i.

(** [union(i, j)] *)
Definition union (parent : t) (i j : nat) : t :=
  let (rootI, parent1) := find parent i in
  let (rootJ, parent2) := find parent1 j in
  if (rootI =? rootJ)%nat then parent2 else set parent2 rootI rootJ.

End UnionFind.

Module Kruskal.

(** The weight of a candidate edge: the squared distance of its end
    points, or [Infinity] when the edge crosses a river. *)
Inductive Weight := Finite (w : Q) | Infinity.

Record Edge := mkEdge { u : nat; v : nat; weight : Weight }.

(** The comparator [(a, b) => a.weight - b.weight] puts [a] before [b]
    when the difference is negative, after [b] when it is positive, and
    leaves their order when it is zero or, for two infinite weights, not a
    number. *)
Definition notAfter (a b : Edge) : bool :=
  match weight a, weight b with
  | Finite x, Finite y => Qle_bool x y
  | Finite _, Infinity => true
  | Infinity, Finite _ => false
  | Infinity, Infinity => true
  end.

(** [allEdges.sort((a, b) => a.weight - b.weight)]; the sort is stable. *)
Fixpoint insert (a : Edge) (sorted : list Edge) : list Edge :=
  match sorted with
  | [] => [a]
  | h :: rest => if notAfter a h then a :: sorted else h :: insert a rest
  end.

Fixpoint sort (l : list Edge) : list Edge :=
  match l with
  | [] => []
  | a :: rest => insert a (sort rest)
  end.

(** The state of the pass over the sorted edges. *)
Record State := mkState {
  uf : UnionFind.t;
  mstEdges : list (nat * nat);
  remainingEdges : list (nat * nat)
}.

(** The body of [allEdges.forEach(edge => ...)]. *)
Definition step (st : State) (edge : Edge) : State :=
  match weight edge with
  | Infinity => st
  | Finite _ =>
      let (rootU, uf1) := UnionFind.find (uf st) (u edge) in
      let (rootV, uf2) := UnionFind.find uf1 (v edge) in
      if negb (rootU =? rootV)%nat then
        mkState (UnionFind.union uf2 (u edge) (v edge))
                (mstEdges st ++ [ (u edge, v edge) ])
                (remainingEdges st)
      else
        mkState uf2 (mstEdges st) (remainingEdges st ++ [ (u edge, v edge) ])
  end.

(** Step 4 of [generateGraphPaths]: the edges sorted, then the pass with a
    fresh union-find over [numNodes] nodes. *)
Definition run (numNodes : nat) (allEdges : list Edge) : State :=
  fold_left step (sort allEdges) (mkState (UnionFind.make numNodes) [] []).

End Kruskal.

(* ================================================================== *)
(** * Path network: [delaunayTriangulation] *)
(* ================================================================== *)

Module Delaunay.

Local Open Scope Q_scope.

(** A vertex of the triangulation.  [ref] is the identity of the JavaScript
    object: the program compares vertices with [===], that is by identity,
    and here two vertices are the same object when their [ref]s are
    equal. *)
Record Vertex2D := mkVertex {
  ref : nat;
  x : Q;
  z : Q;
  originalIndex : Z
}.

(** [{ x: ux, z: uz, radiusSq }] *)
Record Circle := mkCircle { cx : Q; cz : Q; radiusSq : Q }.

Record Edge2D := mkEdge2D { e0 : Vertex2D; e1 : Vertex2D }.

Record Triangle2D := mkTriangle { v0 : Vertex2D; v1 : Vertex2D; v2 : Vertex2D }.

(** [vertices2D]: the nodes as [generateGraphPaths] hands them to the
    triangulation, [{ x: n.x, z: n.z, originalIndex: i }]; every node is a
    fresh object, with references after those of the three vertices of the
    super-triangle. *)
Definition vertices2D (nodes : list (Q * Q)) : list Vertex2D :=
  map (fun inode : nat * (Q * Q) =>
         let (i, n) := inode in
         mkVertex (3 + i) (fst n) (snd n) (Z.of_nat i))
      (combine (seq 0 (length nodes)) nodes).

Definition sameObject (a b : Vertex2D) : bool := (ref a =? ref b)%nat.

(** [D] of the circumcircle computation: twice the signed area of the
    triangle. *)
Definition det (t : Triangle2D) : Q :=
  let ax := x (v0 t) in let az := z (v0 t) in
  let bx := x (v1 t) in let bz := z (v1 t) in
  let cx := x (v2 t) in let cz := z (v2 t) in
  2 * (ax * (bz - cz) + bx * (cz - az) + cx * (az - bz)).

(** [triangle.circumcircle], computed on first use and kept; it depends on
    the vertices only. *)
Definition circumcircle (t : Triangle2D) : Circle :=
  let ax := x (v0 t) in let az := z (v0 t) in
  let bx := x (v1 t) in let bz := z (v1 t) in
  let cx := x (v2 t) in let cz := z (v2 t) in
  let D := det t in
  let ux := ((ax * ax + az * az) * (bz - cz) + (bx * bx + bz * bz) * (cz - az)
             + (cx * cx + cz * cz) * (az - bz)) / D in
  let uz := ((ax * ax + az * az) * (cx - bx) + (bx * bx + bz * bz) * (ax - cx)
             + (cx * cx + cz * cz) * (bx - ax)) / D in
  mkCircle ux uz ((ax - ux) ^ 2 + (az - uz) ^ 2).

(** [distSq < triangle.circumcircle.radiusSq].  When [D] is zero the
    program divides by zero: centre and radius are infinite or not a
    number, and the comparison is false. *)
Definition isBad (point : Vertex2D) (t : Triangle2D) : bool :=
  if Qeq_bool (det t) 0 then false
  else
    let c := circumcircle t in
    let distSq := (x point - cx c) ^ 2 + (z point - cz c) ^ 2 in
    match distSq ?= radiusSq c with
    | Lt => true
    | _ => false
    end.

Definition edges (t : Triangle2D) : list Edge2D :=
  [ mkEdge2D (v0 t) (v1 t); mkEdge2D (v1 t) (v2 t); mkEdge2D (v2 t) (v0 t) ].

(** The two edges have the same end points, in either direction. *)
Definition sameEdge (edge otherEdge : Edge2D) : bool :=
  (sameObject (e0 edge) (e0 otherEdge) && sameObject (e1 edge) (e1 otherEdge))
  || (sameObject (e0 edge) (e1 otherEdge) && sameObject (e1 edge) (e0 otherEdge)).

(** [others]: the bad triangles at the positions other than [i]. *)
Definition others (i : nat) (badTriangles : list Triangle2D) : list Triangle2D :=
  firstn i badTriangles ++ skipn (S i) badTriangles.

(** [isShared]: some other bad triangle has the edge. *)
Definition isShared (edge : Edge2D) (i : nat) (badTriangles : list Triangle2D) : bool :=
  existsb (fun other => existsb (sameEdge edge) (edges other)) (others i badTriangles).

(** [polygon]: the edges of the bad triangles that no other bad triangle
    shares, in the order the program pushes them. *)
Definition polygon (badTriangles : list Triangle2D) : list Edge2D :=
  flat_map
    (fun it : nat * Triangle2D =>
       let (i, triangle) := it in
       filter (fun edge => negb (isShared edge i badTriangles)) (edges triangle))
    (combine (seq 0 (length badTriangles)) badTriangles).

(** The body of [points.forEach(point => ...)]. *)
Definition insertPoint (triangles : list Triangle2D) (point : Vertex2D)
    : list Triangle2D :=
  let badTriangles := filter (isBad point) triangles in
  filter (fun t => negb (isBad point t)) triangles
  ++ map (fun edge => mkTriangle (e0 edge) (e1 edge) point) (polygon badTriangles).

(** The bounding box of the points: [Math.min] and [Math.max] over all of
    them.  For an empty list the program starts from infinite bounds and
    ends with an empty result; [delaunayTriangulation] below returns it
    directly. *)
Definition minOf (first : Q) (rest : list Q) : Q := fold_left Qmin rest first.
Definition maxOf (first : Q) (rest : list Q) : Q := fold_left Qmax rest first.

Definition superTriangle (first : Vertex2D) (rest : list Vertex2D) : Triangle2D :=
  let minX := minOf (x first) (map x rest) in
  let minZ := minOf (z first) (map z rest) in
  let maxX := maxOf (x first) (map x rest) in
  let maxZ := maxOf (z first) (map z rest) in
  let dx := maxX - minX in
  let dz := maxZ - minZ in
  let deltaMax := Qmax dx dz in
  let midX := minX + dx * (1 # 2) in
  let midZ := minZ + dz * (1 # 2) in
  mkTriangle (mkVertex 0 (midX - 20 * deltaMax) (midZ - deltaMax) (-1))
             (mkVertex 1 midX (midZ + 20 * deltaMax) (-1))
             (mkVertex 2 (midX + 20 * deltaMax) (midZ - deltaMax) (-1)).

Definition touchesSuper (t : Triangle2D) : bool :=
  (originalIndex (v0 t) =? -1)%Z || (originalIndex (v1 t) =? -1)%Z
  || (originalIndex (v2 t) =? -1)%Z.

(** [delaunayTriangulation(points)] *)
Definition delaunayTriangulation (points : list Vertex2D) : list Triangle2D :=
  match points with
  | [] => []
  | first :: rest =>
      filter (fun t => negb (touchesSuper t))
             (fold_left insertPoint points [ superTriangle first rest ])
  end.

End Delaunay.

(* ================================================================== *)
(** * Path network: the candidate edges of [generateGraphPaths] *)
(* ================================================================== *)

Module Network.

Local Open Scope Q_scope.

(** A node of the network: the point where the ray over a random place of
    the sand hit the surface. *)
Record Node := mkNode { x : Q; y : Q; z : Q }.

(** [p1.distanceToSquared(p2)] *)
Definition distanceToSquared (p1 p2 : Node) : Q :=
  (x p1 - x p2) ^ 2 + (y p1 - y p2) ^ 2 + (z p1 - z p2) ^ 2.

(** [nodes.map((n, i) => ({ x: n.x, z: n.z, originalIndex: i }))] *)
Definition vertices2D (nodes : list Node) : list Delaunay.Vertex2D :=
  Delaunay.vertices2D (map (fun n => (x n, z n)) nodes).

(** The key of an edge in [edgeSet]: the text of the smaller index, a
    comma, the text of the greater index.  Two keys are the same text
    exactly when the two pairs of numbers are the same. *)
Definition key (u v : Z) : Z * Z := (Z.min u v, Z.max u v).

Definition sameKey (k k' : Z * Z) : bool :=
  ((fst k =? fst k')%Z && (snd k =? snd k')%Z)%bool.

(** [edgeSet.has(key)] *)
Definition has (edgeSet : list (Z * Z)) (k : Z * Z) : bool :=
  existsb (sameKey k) edgeSet.

(** [[tri.v0, tri.v1], [tri.v1, tri.v2], [tri.v2, tri.v0]] *)
Definition edgesOf (tri : Delaunay.Triangle2D)
    : list (Delaunay.Vertex2D * Delaunay.Vertex2D) :=
  [ (Delaunay.v0 tri, Delaunay.v1 tri);
    (Delaunay.v1 tri, Delaunay.v2 tri);
    (Delaunay.v2 tri, Delaunay.v0 tri) ].

(** [nodes[u]] for a number [u]: [None] stands for [undefined]. *)
Definition nodeAt (nodes : list Node) (u : Z) : option Node :=
  if (u <? 0)%Z then None else nth_error nodes (Z.to_nat u).

(** The body of [edges.forEach(edge => ...)] on [allEdges] and [edgeSet];
    [None] when [nodes[u]] or [nodes[v]] is missing and reading its
    coordinates throws. *)
Definition addEdge (nodes : list Node)
    (state : option (list Kruskal.Edge * list (Z * Z)))
    (edge : Delaunay.Vertex2D * Delaunay.Vertex2D)
    : option (list Kruskal.Edge * list (Z * Z)) :=
  match state with
  | None => None
  | Some (allEdges, edgeSet) =>
      let u := Delaunay.originalIndex (fst edge) in
      let v := Delaunay.originalIndex (snd edge) in
      if has edgeSet (key u v) then state
      else
        match nodeAt nodes u, nodeAt nodes v with
        | Some p1, Some p2 =>
            Some (allEdges
                  ++ [ Kruskal.mkEdge (Z.to_nat u) (Z.to_nat v)
                         (Kruskal.Finite (distanceToSquared p1 p2)) ],
                  edgeSet ++ [ key u v ])
        | _, _ => None
        end
  end.

(** Step 3: the weighted edge list from the triangles. *)
Definition weightedEdges (nodes : list Node) (triangles : list Delaunay.Triangle2D)
    : option (list Kruskal.Edge * list (Z * Z)) :=
  fold_left (addEdge nodes) (flat_map edgesOf triangles) (Some ([], [])).

(** Step 3.5 for one edge.  [crossesRiver startNode endNode] is what the
    ray cast from just above [startNode] towards [endNode] tells: whether
    it hits a river mesh before it reaches [endNode].  An edge shorter
    than 0.01 is left alone. *)
Definition penalize (crossesRiver : Node -> Node -> bool) (nodes : list Node)
    (edge : Kruskal.Edge) : option Kruskal.Edge :=
  match nth_error nodes (Kruskal.u edge), nth_error nodes (Kruskal.v edge) with
  | Some startNode, Some endNode =>
      if Qlt_le_dec (distanceToSquared startNode endNode) (1 # 10000) then Some edge
      else if crossesRiver startNode endNode
           then Some (Kruskal.mkEdge (Kruskal.u edge) (Kruskal.v edge) Kruskal.Infinity)
           else Some edge
  | _, _ => None
  end.

Fixpoint penalizeAll (crossesRiver : Node -> Node -> bool) (nodes : list Node)
    (edges : list Kruskal.Edge) : option (list Kruskal.Edge) :=
  match edges with
  | [] => Some []
  | edge :: rest =>
      match penalize crossesRiver nodes edge, penalizeAll crossesRiver nodes rest with
      | Some e, Some r => Some (e :: r)
      | _, _ => None
      end
  end.

(** Steps 2 to 3.5: the candidate edges for the nodes.  [rivers] is
    [None] when there is no river mesh ([this.riverMeshes.length] is 0),
    and the test for crossing otherwise.  The program reaches these steps
    with three nodes or more (it returns before them otherwise); the steps
    themselves are defined for every list of nodes. *)
Definition candidateEdges (rivers : option (Node -> Node -> bool)) (nodes : list Node)
    : option (list Kruskal.Edge) :=
  match weightedEdges nodes (Delaunay.delaunayTriangulation (vertices2D nodes)) with
  | None => None
  | Some (allEdges, _) =>
      match rivers with
      | None => Some allEdges
      | Some crossesRiver => penalizeAll crossesRiver nodes allEdges
      end
  end.

(** Steps 2 to 4: the state of the pass over the sorted edges. *)
Definition spanningTree (rivers : option (Node -> Node -> bool)) (nodes : list Node)
    : option Kruskal.State :=
  match candidateEdges rivers nodes with
  | None => None
  | Some allEdges => Some (Kruskal.run (length nodes) allEdges)
  end.

End Network.

(* ================================================================== *)
(** * Paths on the surface: [createSurfacePath] and [createPathRibbon] *)
(* ================================================================== *)

Module Paths.

(** [Math.ceil] *)
Definition ceil (x : R) : Z := Zceil x.

(** [new THREE.Vector3(0, 1, 0)], the normal pushed when a ray hits nothing. *)
Definition up : Vector3.t := Vector3.mk 0 1 0.

(** The normal pushed for the start and the end point: the normal of the
    face that the ray from 10 above the point hits first, [up] when it
    hits nothing.  (A hit on a mesh always carries its face.) *)
Definition normalAbove (h : Host.t) (targetMesh : Mesh) (p : Vector3.t) : Vector3.t :=
  match Host.intersectMesh h targetMesh (Vector3.add p (Vector3.mk 0 10 0)) with
  | Some hit => faceNormal hit
  | None => up
  end.

(** [path[path.length - 1]]; the path is never empty. *)
Definition lastOf (path : list Vector3.t) : Vector3.t := last path Vector3.zero.

(** The loop [for (let i = 1; i <= numSteps; i++)] over the values of [i]
    that are left, with [path] and [normals] as they stand.  A ray that
    hits nothing ends the loop; a hit closer than 0.001 (squared) to the
    last point of the path is skipped. *)
Fixpoint walk (h : Host.t) (targetMesh : Mesh) (startPoint direction : Vector3.t)
    (stepLength totalDistance : R) (steps : list nat)
    (path normals : list Vector3.t) : list Vector3.t * list Vector3.t :=
  match steps with
  | [] => (path, normals)
  | i :: rest =>
      let distanceAlong := JsMath.min (stepLength * INR i) totalDistance in
      let nextPointXZ :=
        Vector3.setY
          (Vector3.add startPoint (Vector3.multiplyScalar direction distanceAlong))
          100 in
      match Host.intersectMesh h targetMesh nextPointXZ with
      | Some hit =>
          if Rlt_dec 0.001 (Vector3.distanceToSquared (lastOf path) (point hit))
          then walk h targetMesh startPoint direction stepLength totalDistance rest
                    (path ++ [point hit]) (normals ++ [faceNormal hit])
          else walk h targetMesh startPoint direction stepLength totalDistance rest
                    path normals
      | None => (path, normals)
      end
  end.

Definition numSteps (startPoint endPoint : Vector3.t) (stepLength : R) : Z :=
  ceil (Vector3.distanceTo startPoint endPoint / stepLength).

(** [createSurfacePath(startPoint, endPoint, targetMesh, raycaster, down,
    stepLength)] with [down = (0, -1, 0)]: the path and the normals.
    For [stepLength = 0] the quotient is infinite or not a number and the
    loop of the program need not end; that case has no result here. *)
Definition createSurfacePath (h : Host.t) (startPoint endPoint : Vector3.t)
    (targetMesh : Mesh) (stepLength : R)
    : option (list Vector3.t * list Vector3.t) :=
  if Req_dec_T stepLength 0 then None
  else
    let path := [startPoint] in
    let normals := [normalAbove h targetMesh startPoint] in
    let totalDistance := Vector3.distanceTo startPoint endPoint in
    let numSteps := numSteps startPoint endPoint stepLength in
    if (numSteps <=? 1)%Z then
      Some (path ++ [endPoint], normals ++ [normalAbove h targetMesh endPoint])
    else
      let direction := Vector3.normalize (Vector3.sub endPoint startPoint) in
      let '(path, normals) :=
        walk h targetMesh startPoint direction stepLength totalDistance
             (seq 1 (Z.to_nat numSteps)) path normals in
      if Rlt_dec 0.001 (Vector3.distanceToSquared (lastOf path) endPoint)
      then Some (path ++ [endPoint], normals ++ [normalAbove h targetMesh endPoint])
      else Some (path, normals).

(** What [createPathRibbon] gives: an exception (it reads a coordinate of
    [undefined]), [null], or the geometry of the mesh. *)
Inductive Outcome :=
| Throws
| Null
| Ribbon (geometry : Mesh) (normals : list Vector3.t).

(** One turn of the first loop: the left and the right vertex at [point],
    the normal pushed twice, the texture coordinates, and the length of
    the path so far.  [previous] is [path3D[k - 1]] and [next] is
    [path3D[k + 1]], [None] where the array has no such entry. *)
Record Rung := mkRung {
  leftVertex : Vector3.t;
  rightVertex : Vector3.t;
  rungNormal : Vector3.t;
  leftUV : Vector2.t;
  rightUV : Vector2.t
}.

Definition rung (pathWidth yOffset : R) (point surfaceNormal direction : Vector3.t)
    (pathLength : R) : Rung :=
  let direction := Vector3.normalize direction in
  let right := Vector3.normalize (Vector3.cross direction surfaceNormal) in
  let leftPoint := Vector3.sub point (Vector3.multiplyScalar right (pathWidth / 2)) in
  let rightPoint := Vector3.add point (Vector3.multiplyScalar right (pathWidth / 2)) in
  mkRung
    (Vector3.mk (Vector3.x leftPoint) (Vector3.y leftPoint + yOffset) (Vector3.z leftPoint))
    (Vector3.mk (Vector3.x rightPoint) (Vector3.y rightPoint + yOffset)
                (Vector3.z rightPoint))
    surfaceNormal
    (Vector2.mk 0 (pathLength / pathWidth))
    (Vector2.mk 1 (pathLength / pathWidth)).

(** The first loop from index [k] on: [previous] is [path3D[k - 1]],
    [points] and [pathNormals] are the arrays from index [k].  [None] when
    a turn throws: no normal for the point, or a single point that has
    neither a next nor a previous one. *)
Fixpoint rungs (pathWidth yOffset : R) (previous : option Vector3.t)
    (points pathNormals : list Vector3.t) (pathLength : R) : option (list Rung) :=
  match points with
  | [] => Some []
  | point :: points' =>
      let direction :=
        match points', previous with
        | next :: _, _ => Some (Vector3.sub next point)
        | [], Some previous => Some (Vector3.sub point previous)
        | [], None => None
        end in
      match direction, pathNormals with
      | Some direction, surfaceNormal :: pathNormals' =>
          let pathLength :=
            match previous with
            | Some previous => pathLength + Vector3.distanceTo point previous
            | None => pathLength
            end in
          match rungs pathWidth yOffset (Some point) points' pathNormals' pathLength with
          | Some rest =>
              Some (rung pathWidth yOffset point surfaceNormal direction pathLength :: rest)
          | None => None
          end
      | _, _ => None
      end
  end.

(** The second loop: two faces for every pair of successive points. *)
Definition ribbonFaces (n : nat) : list Face :=
  flat_map
    (fun k : nat =>
       let tl := (k * 2)%nat in
       let tr := (k * 2 + 1)%nat in
       let bl := (k * 2 + 2)%nat in
       let br := (k * 2 + 3)%nat in
       [ (tl, bl, tr); (tr, bl, br) ])
    (seq 0 (n - 1)).

(** [createPathRibbon(path3D, pathNormals, pathWidth, material, yOffset)].
    The quotient [pathLength / pathWidth] of the texture coordinates is the
    quotient of real numbers; for [pathWidth = 0] the program computes an
    infinite value or not a number there. *)
Definition createPathRibbon (path3D pathNormals : list Vector3.t)
    (pathWidth yOffset : R) : Outcome :=
  match rungs pathWidth yOffset None path3D pathNormals 0 with
  | None => Throws
  | Some rs =>
      let vertices := flat_map (fun r => [leftVertex r; rightVertex r]) rs in
      let normals := flat_map (fun r => [rungNormal r; rungNormal r]) rs in
      let uvs := flat_map (fun r => [leftUV r; rightUV r]) rs in
      let indices := flatten (ribbonFaces (length path3D)) in
      if ((0 <? length vertices)%nat && (0 <? length indices)%nat)%bool
      then Ribbon (mkMesh vertices uvs indices []) normals
      else Null
  end.

End Paths.

(* ================================================================== *)
(** * Properties of the noise field *)
(* ================================================================== *)

Lemma totalAmplitude_value : Noise.totalAmplitude = 1.875.
Proof. unfold Noise.totalAmplitude; simpl; lra. Qed.

Lemma addHarmonic_length numPoints h phase vs :
  length vs = numPoints ->
  length (Noise.addHarmonic numPoints h phase vs) = numPoints.
Proof.
  intros Hlen. unfold Noise.addHarmonic.
  rewrite length_map, length_combine, length_seq, Hlen. apply Nat.min_id.
Qed.

(** One more harmonic widens the range of every entry by its amplitude. *)
Lemma addHarmonic_bound numPoints h phase vs B :
  0 <= Noise.amp h ->
  Forall (fun v => - B <= v <= B) vs ->
  Forall (fun v => - (B + Noise.amp h) <= v <= B + Noise.amp h)
         (Noise.addHarmonic numPoints h phase vs).
Proof.
  intros Hamp Hvs. unfold Noise.addHarmonic.
  apply Forall_forall. intros w Hw.
  apply in_map_iff in Hw. destruct Hw as [[i v] [Hw Hin]]. subst w.
  apply in_combine_r in Hin.
  rewrite Forall_forall in Hvs. specialize (Hvs v Hin).
  set (a := INR i / INR numPoints * 2 * PI * Noise.freq h + phase).
  pose proof (SIN_bound a) as [Hlo Hhi].
  split; nra.
Qed.

Lemma generateNoise_length numPoints phaseOffset rnd k :
  length (fst (Noise.generateNoise numPoints phaseOffset rnd k)) = numPoints.
Proof.
  unfold Noise.generateNoise, Noise.harmonics, bind, ret, random; simpl.
  rewrite length_map.
  repeat (apply addHarmonic_length). apply repeat_length.
Qed.

(** [generateNoise] draws one phase per harmonic. *)
Lemma generateNoise_draws numPoints phaseOffset rnd k :
  snd (Noise.generateNoise numPoints phaseOffset rnd k) = (k + 4)%nat.
Proof.
  unfold Noise.generateNoise, Noise.harmonics, bind, ret, random; simpl. lia.
Qed.

(** C8. Every value returned by [generateNoise] lies within [-1.05, 1.05],
    whatever the number of points, the phase offset and the values drawn
    from [Math.random]: the four harmonics have amplitudes 1, 0.5, 0.25 and
    0.125, and the sum is divided by the total amplitude 1.875. *)
Theorem generateNoise_bounded (numPoints : nat) (phaseOffset : R)
    (rnd : Random) (k : nat) :
  map Noise.amp Noise.harmonics = [1; 0.5; 0.25; 0.125] /\
  Noise.totalAmplitude = 1.875 /\
  Forall (fun v => -1.05 <= v <= 1.05)
         (fst (Noise.generateNoise numPoints phaseOffset rnd k)).
Proof.
  split; [simpl; repeat f_equal; lra|].
  split; [apply totalAmplitude_value|].
  unfold Noise.generateNoise, Noise.harmonics, bind, ret, random; simpl.
  rewrite totalAmplitude_value.
  apply Forall_map.
  assert (H0 : Forall (fun v => - 0 <= v <= 0) (repeat 0 numPoints)).
  { apply Forall_forall. intros v Hv. apply repeat_spec in Hv. subst v. lra. }
  eapply addHarmonic_bound in H0; [|shelve].
  eapply addHarmonic_bound in H0; [|shelve].
  eapply addHarmonic_bound in H0; [|shelve].
  eapply addHarmonic_bound in H0; [|shelve].
  eapply Forall_impl; [|exact H0].
  simpl. intros v Hv. lra.
  Unshelve. all: simpl; lra.
Qed.

(* ================================================================== *)
(** * Properties of the contour builder *)
(* ================================================================== *)

(** A host whose functions are the simplest ones of their types: flat
    noise, a curve that stays on its first control point, a sort that
    leaves the array as it is and draws nothing, rays that hit nothing. *)
Definition flatHost : Host.t :=
  Host.mk (fun _ _ _ => 0)
          (fun points _ => hd Vector3.zero points)
          (fun _ l => ret l)
          (fun _ _ _ => None)
          (fun _ _ => None)
          (fun _ _ _ => None)
          (fun _ _ => 0)
          (fun positions _ => map (fun _ => Vector3.mk 0 1 0) positions).

Definition sampleConfig : Config :=
  mkConfig 20 5 0 2 0 (1 / 10) 0%nat 1 3 true 1%nat 2 1.

Definition halves : Random := fun _ => 1 / 2.

Lemma round_eq (x : R) (n : Z) :
  IZR n - / 2 <= x < IZR n + / 2 -> JsMath.round x = n.
Proof. intros H. unfold JsMath.round. apply Zfloor_eq. lra. Qed.

Lemma densityCoefficient_value : Contour.densityCoefficient = 3.75.
Proof.
  unfold Contour.densityCoefficient, Contour.DENSITY_BASE_ROCKS,
    Contour.DENSITY_BASE_RADIUS, Contour.DENSITY_SCALE_POWER.
  simpl. lra.
Qed.

Lemma numRocks_formula (radius : R) :
  Contour.numRocks radius = Z.to_nat (Z.max 3 (JsMath.round (3.75 * radius))).
Proof.
  unfold Contour.numRocks. rewrite densityCoefficient_value.
  unfold Contour.DENSITY_SCALE_POWER. simpl. rewrite Rmult_1_r. reflexivity.
Qed.

Lemma largeRing_length h cfg rockModels rnd k :
  length (fst (fst (Contour.largeRing h cfg rockModels rnd k)))
  = Contour.numLargeRocks cfg.
Proof.
  unfold Contour.largeRing, bind, ret, random.
  repeat match goal with
         | |- context [let (_, _) := ?e in _] => destruct e
         end.
  simpl. rewrite !length_map, length_seq. reflexivity.
Qed.

Lemma smallRing_length h cfg rockModels inner rnd k :
  length (snd (fst (Contour.smallRing h cfg rockModels inner rnd k)))
  = Contour.numSmallRocks cfg.
Proof.
  unfold Contour.smallRing, bind, ret, random.
  repeat match goal with
         | |- context [let (_, _) := ?e in _] => destruct e
         end.
  simpl. rewrite !length_map, length_seq. reflexivity.
Qed.

(** C6. The inner rock ring has exactly [max(3, round(k * R))] points and
    the outer rock ring exactly [max(3, round(k * (R + offset)))], with the
    same coefficient [k = 75 / 20]; for [R = 20] the inner ring has 75
    points. *)
Theorem ring_point_counts (h : Host.t) (cfg : Config)
    (rockModels : list RockData) (rnd : Random) (k : nat) :
  let large := Contour.largeRing h cfg rockModels rnd k in
  let innerContourData := fst (fst large) in
  let small := Contour.smallRing h cfg rockModels innerContourData rnd (snd large) in
  let smallRocksGroup := snd (fst small) in
  Contour.densityCoefficient = 75 / 20 /\
  length innerContourData
    = Z.to_nat (Z.max 3 (JsMath.round (Contour.densityCoefficient * baseRadius cfg))) /\
  length smallRocksGroup
    = Z.to_nat (Z.max 3 (JsMath.round
        (Contour.densityCoefficient * (baseRadius cfg + shorelineOffset cfg)))) /\
  (baseRadius cfg = 20 -> length innerContourData = 75%nat).
Proof.
  cbv zeta.
  rewrite largeRing_length, smallRing_length.
  unfold Contour.numLargeRocks, Contour.numSmallRocks, Contour.outerRadius.
  rewrite !numRocks_formula, densityCoefficient_value.
  repeat split; try lra.
  intros HR. rewrite HR.
  rewrite (round_eq (3.75 * 20) 75) by lra. reflexivity.
Qed.

Lemma ring_point_counts_witness :
  baseRadius sampleConfig = 20 /\
  length (fst (fst (Contour.largeRing flatHost sampleConfig [] halves 0%nat))) = 75%nat.
Proof.
  split; [reflexivity|].
  apply (ring_point_counts flatHost sampleConfig [] halves 0%nat). reflexivity.
Defined.

(* ================================================================== *)
(** * Properties of the surface tessellator *)
(* ================================================================== *)

Lemma facesOf_flatten (fs : list Face) : facesOf (flatten fs) = fs.
Proof.
  induction fs as [|[[a b] c] fs IH]; [reflexivity|].
  unfold flatten in *. simpl. rewrite IH. reflexivity.
Qed.

(** Entry [r * n + s] of a buffer filled row by row. *)
Lemma nth_rows {A} (f : nat -> nat -> A) (n : nat) (d : A) :
  forall m a r s, (r < m)%nat -> (s < n)%nat ->
  nth (r * n + s) (flat_map (fun r => map (f r) (seq 0 n)) (seq a m)) d
  = f (a + r)%nat s.
Proof.
  induction m as [|m IH]; intros a r s Hr Hs; [lia|].
  simpl. destruct r as [|r].
  - simpl. rewrite app_nth1 by (rewrite length_map, length_seq; exact Hs).
    rewrite (nth_indep _ d (f a 0%nat)) by (rewrite length_map, length_seq; exact Hs).
    rewrite map_nth, seq_nth by exact Hs. rewrite Nat.add_0_r. reflexivity.
  - rewrite app_nth2 by (rewrite length_map, length_seq; simpl; lia).
    rewrite length_map, length_seq.
    replace (S r * n + s - n)%nat with (r * n + s)%nat by (simpl; lia).
    rewrite IH by lia. f_equal. lia.
Qed.

Lemma length_rows {A} (f : nat -> nat -> A) (n : nat) :
  forall m a, length (flat_map (fun r => map (f r) (seq 0 n)) (seq a m)) = (m * n)%nat.
Proof.
  induction m as [|m IH]; intros a; simpl; [reflexivity|].
  rewrite length_app, length_map, length_seq, IH. reflexivity.
Qed.

Lemma nth_map_in {A B} (f : A -> B) (l : list A) (i : nat) (da : A) (db : B) :
  (i < length l)%nat -> nth i (map f l) db = f (nth i l da).
Proof.
  intros Hi. rewrite (nth_indep _ db (f da)) by (rewrite length_map; exact Hi).
  apply map_nth.
Qed.

(** The winding seen from above in coordinates. *)
Lemma rawNormal_y (a b c : Vector3.t) :
  Vector3.y (Triangle.rawNormal a b c)
  = (Vector3.z c - Vector3.z b) * (Vector3.x a - Vector3.x b)
    - (Vector3.x c - Vector3.x b) * (Vector3.z a - Vector3.z b).
Proof. destruct a, b, c. simpl. ring. Qed.

(** How far the contour turns around [c] between [p] and [q], from the
    [x] axis towards the [z] axis: positive when the angle
    [atan2(z - c.z, x - c.x)] grows by less than a half turn. *)
Definition turn (c p q : Vector3.t) : R :=
  (Vector3.x p - Vector3.x c) * (Vector3.z q - Vector3.z c)
  - (Vector3.z p - Vector3.z c) * (Vector3.x q - Vector3.x c).

(** The contour runs around [c] in the direction of growing angle, the
    direction in which the inner ring is laid out
    ([x = cos(angle) * r], [z = sin(angle) * r]).  Seen from above this is
    clockwise. *)
Definition runsAround (c : Vector3.t) (contour : list Vector3.t) : Prop :=
  forall s, (s < length contour)%nat ->
    0 < turn c (nth s contour Vector3.zero)
               (nth ((s + 1) mod length contour) contour Vector3.zero).

(** The quad of the ground-cover band at segment [s] is convex and its
    corners, shoreline [s], boundary [s], boundary [s + 1], shoreline
    [s + 1], run counter-clockwise seen from above. *)
Definition convexBand (outer inner : list Vector3.t) : Prop :=
  length outer = length inner /\
  forall s, (s < length inner)%nat ->
    let s' := ((s + 1) mod length inner)%nat in
    let o := nth s outer Vector3.zero in
    let i := nth s inner Vector3.zero in
    let o' := nth s' outer Vector3.zero in
    let i' := nth s' inner Vector3.zero in
    0 < Vector3.y (Triangle.rawNormal o i i') /\
    0 < Vector3.y (Triangle.rawNormal o i o') /\
    0 < Vector3.y (Triangle.rawNormal o i' o') /\
    0 < Vector3.y (Triangle.rawNormal i i' o').

Section SurfaceFacts.

Variables (h : Host.t) (cfg : Config) (lakes : list Lake).
Variables (centerPoint : Vector3.t) (contour : list Vector3.t).

Let n := length contour.
Let vs := Surface.vertices h cfg lakes centerPoint contour.

(** Inside the surface [ringLerp] lies strictly between 0 and 1 and grows
    with the ring. *)
Lemma ringLerp_bounds r :
  (r < Surface.numRings)%nat -> 0 < Surface.ringLerp r < 1.
Proof.
  intros Hr. unfold Surface.ringLerp, Surface.numRings in *.
  apply lt_INR in Hr. pose proof (pos_INR r) as H0.
  replace (INR 60) with 60 in * by (simpl; lra).
  set (t := (INR r + 1) / (60 + 1)).
  assert (Ht : 0 < t < 1).
  { unfold t. split.
    - apply Rdiv_lt_0_compat; lra.
    - apply Rmult_lt_reg_r with (60 + 1); [lra|].
      unfold Rdiv. rewrite Rmult_assoc, Rinv_l by lra. lra. }
  clearbody t. simpl. nra.
Qed.

Lemma ringLerp_succ r :
  (S r < Surface.numRings)%nat -> Surface.ringLerp r < Surface.ringLerp (S r).
Proof.
  intros Hr. unfold Surface.ringLerp, Surface.numRings in *.
  apply lt_INR in Hr. pose proof (pos_INR r) as H0.
  replace (INR 60) with 60 in * by (simpl; lra).
  rewrite (S_INR r) in *.
  set (t := (INR r + 1) / (60 + 1)).
  assert (Ht : 0 < t /\ t + / 61 < 1).
  { unfold t. split.
    - apply Rdiv_lt_0_compat; lra.
    - apply Rmult_lt_reg_r with 61; [lra|].
      unfold Rdiv. replace (60 + 1) with 61 by lra.
      rewrite Rmult_plus_distr_r, Rmult_assoc, !Rinv_l by lra. lra. }
  replace ((INR r + 1 + 1) / (60 + 1)) with (t + / 61) by (unfold t; field).
  clearbody t. assert (He : 0 < / 61) by lra.
  set (e := / 61) in *. clearbody e. simpl. nra.
Qed.

Lemma sand_rows_length :
  length (flat_map (fun r => map (Surface.ringVertex h cfg lakes centerPoint contour r)
                                 (seq 0 n))
                   (seq 0 Surface.numRings))
  = (Surface.numRings * n)%nat.
Proof. apply length_rows. Qed.

Lemma sandVertex_center : vertexAt vs 0 = centerPoint.
Proof. reflexivity. Qed.

Lemma sandVertex_grid r s :
  (r < Surface.numRings)%nat -> (s < n)%nat ->
  vertexAt vs (Surface.gridIndices n r s)
  = Surface.ringVertex h cfg lakes centerPoint contour r s.
Proof.
  intros Hr Hs. unfold vertexAt, vs, Surface.vertices, Surface.gridIndices.
  fold n. replace (1 + r * n + s)%nat with (S (r * n + s)) by lia. cbn [nth].
  rewrite app_nth1 by (rewrite sand_rows_length; nia).
  rewrite nth_rows by assumption. reflexivity.
Qed.

Lemma sandVertex_contour s :
  (s < n)%nat ->
  vertexAt vs (Surface.contourIndices n s)
  = Surface.contourVertex lakes (nth s contour Vector3.zero).
Proof.
  intros Hs. unfold vertexAt, vs, Surface.vertices, Surface.contourIndices.
  fold n.
  replace (1 + Surface.numRings * n + s)%nat with (S (Surface.numRings * n + s)) by lia.
  cbn [nth].
  rewrite app_nth2 by (rewrite sand_rows_length; lia).
  rewrite sand_rows_length.
  replace (Surface.numRings * n + s - Surface.numRings * n)%nat with s by lia.
  rewrite app_nth1 by (rewrite length_map; exact Hs).
  apply nth_map_in. exact Hs.
Qed.

Lemma sandVertex_bottom s :
  (s < n)%nat ->
  vertexAt vs (Surface.bottomSkirtStartIndex n + s)
  = Vector3.mk (Vector3.x (nth s contour Vector3.zero)) 0
               (Vector3.z (nth s contour Vector3.zero)).
Proof.
  intros Hs. unfold vertexAt, vs, Surface.vertices, Surface.bottomSkirtStartIndex.
  fold n.
  replace (1 + Surface.numRings * n + n + s)%nat
    with (S (Surface.numRings * n + n + s)) by lia.
  cbn [nth].
  rewrite app_nth2 by (rewrite sand_rows_length; lia).
  rewrite sand_rows_length.
  rewrite app_nth2 by (rewrite length_map; fold n; lia).
  rewrite length_map. fold n.
  replace (Surface.numRings * n + n + s - Surface.numRings * n - n)%nat with s by lia.
  apply (nth_map_in (fun p => Vector3.mk (Vector3.x p) 0 (Vector3.z p))). exact Hs.
Qed.

Lemma next_lt s : (s < n)%nat -> ((s + 1) mod n < n)%nat.
Proof. intros Hs. apply Nat.mod_upper_bound. lia. Qed.

(** A fan face turns against the contour. *)
Lemma winding_fan s :
  (s < n)%nat ->
  windingY vs (0%nat, Surface.gridIndices n 0 s,
               Surface.gridIndices n 0 ((s + 1) mod n))
  = - (Surface.ringLerp 0 * Surface.ringLerp 0
       * turn centerPoint (nth s contour Vector3.zero)
                          (nth ((s + 1) mod n) contour Vector3.zero)).
Proof.
  intros Hs. pose proof (next_lt s Hs) as Hs'.
  unfold windingY. rewrite sandVertex_center.
  rewrite !sandVertex_grid by (assumption || (unfold Surface.numRings; lia)).
  rewrite rawNormal_y. unfold Surface.ringVertex, turn. simpl. ring.
Qed.

(** The two faces of a quad between two rings turn with the contour. *)
Lemma winding_ring_first r s :
  (r + 1 < Surface.numRings)%nat -> (s < n)%nat ->
  windingY vs (Surface.gridIndices n r s,
               Surface.gridIndices n r ((s + 1) mod n),
               Surface.gridIndices n (r + 1) ((s + 1) mod n))
  = Surface.ringLerp r * (Surface.ringLerp (r + 1) - Surface.ringLerp r)
    * turn centerPoint (nth s contour Vector3.zero)
                       (nth ((s + 1) mod n) contour Vector3.zero).
Proof.
  intros Hr Hs. pose proof (next_lt s Hs) as Hs'.
  unfold windingY.
  rewrite !sandVertex_grid by (assumption || lia).
  rewrite rawNormal_y. unfold Surface.ringVertex, turn. simpl. ring.
Qed.

Lemma winding_ring_second r s :
  (r + 1 < Surface.numRings)%nat -> (s < n)%nat ->
  windingY vs (Surface.gridIndices n r s,
               Surface.gridIndices n (r + 1) ((s + 1) mod n),
               Surface.gridIndices n (r + 1) s)
  = Surface.ringLerp (r + 1) * (Surface.ringLerp (r + 1) - Surface.ringLerp r)
    * turn centerPoint (nth s contour Vector3.zero)
                       (nth ((s + 1) mod n) contour Vector3.zero).
Proof.
  intros Hr Hs. pose proof (next_lt s Hs) as Hs'.
  unfold windingY.
  rewrite !sandVertex_grid by (assumption || lia).
  rewrite rawNormal_y. unfold Surface.ringVertex, turn. simpl. ring.
Qed.

(** The two faces of a quad between the last ring and the contour. *)
Lemma winding_transition_first s :
  (s < n)%nat ->
  let r := (Surface.numRings - 1)%nat in
  windingY vs (Surface.gridIndices n r s,
               Surface.gridIndices n r ((s + 1) mod n),
               Surface.contourIndices n ((s + 1) mod n))
  = Surface.ringLerp r * (1 - Surface.ringLerp r)
    * turn centerPoint (nth s contour Vector3.zero)
                       (nth ((s + 1) mod n) contour Vector3.zero).
Proof.
  intros Hs r. pose proof (next_lt s Hs) as Hs'.
  unfold windingY.
  rewrite !sandVertex_grid by (assumption || (unfold r, Surface.numRings; lia)).
  rewrite sandVertex_contour by assumption.
  rewrite rawNormal_y.
  unfold Surface.ringVertex, Surface.contourVertex, turn. simpl. ring.
Qed.

Lemma winding_transition_second s :
  (s < n)%nat ->
  let r := (Surface.numRings - 1)%nat in
  windingY vs (Surface.gridIndices n r s,
               Surface.contourIndices n ((s + 1) mod n),
               Surface.contourIndices n s)
  = (1 - Surface.ringLerp r)
    * turn centerPoint (nth s contour Vector3.zero)
                       (nth ((s + 1) mod n) contour Vector3.zero).
Proof.
  intros Hs r. pose proof (next_lt s Hs) as Hs'.
  unfold windingY.
  rewrite !sandVertex_grid by (assumption || (unfold r, Surface.numRings; lia)).
  rewrite !sandVertex_contour by assumption.
  rewrite rawNormal_y.
  unfold Surface.ringVertex, Surface.contourVertex, turn. simpl. ring.
Qed.

(** The faces of the skirt stand upright: bottom vertex [s] lies straight
    under contour vertex [s]. *)
Lemma winding_skirt_first s :
  (s < n)%nat ->
  windingY vs (Surface.contourIndices n s, Surface.contourIndices n ((s + 1) mod n),
               (Surface.bottomSkirtStartIndex n + (s + 1) mod n)%nat) = 0.
Proof.
  intros Hs. pose proof (next_lt s Hs) as Hs'.
  unfold windingY.
  rewrite !sandVertex_contour, sandVertex_bottom by assumption.
  rewrite rawNormal_y. unfold Surface.contourVertex. simpl. ring.
Qed.

Lemma winding_skirt_second s :
  (s < n)%nat ->
  windingY vs (Surface.contourIndices n s,
               (Surface.bottomSkirtStartIndex n + (s + 1) mod n)%nat,
               (Surface.bottomSkirtStartIndex n + s)%nat) = 0.
Proof.
  intros Hs. pose proof (next_lt s Hs) as Hs'.
  unfold windingY.
  rewrite sandVertex_contour, !sandVertex_bottom by assumption.
  rewrite rawNormal_y. unfold Surface.contourVertex. simpl. ring.
Qed.

Hypothesis Haround : runsAround centerPoint contour.

Lemma ringFaces_ccw : Forall (ccwFromAbove vs) (Surface.ringFaces n).
Proof.
  apply Forall_forall. intros f Hf. unfold Surface.ringFaces in Hf.
  apply in_flat_map in Hf. destruct Hf as [r [Hr Hf]].
  apply in_flat_map in Hf. destruct Hf as [s [Hs Hf]].
  apply in_seq in Hr. apply in_seq in Hs.
  assert (Hr1 : (r + 1 < Surface.numRings)%nat) by (unfold Surface.numRings in *; lia).
  assert (Hs1 : (s < n)%nat) by lia.
  pose proof (Haround s Hs1) as Ht. fold n in Ht.
  pose proof (ringLerp_bounds r ltac:(lia)) as [Hl0 Hl1].
  pose proof (ringLerp_bounds (r + 1) Hr1) as [Hm0 Hm1].
  pose proof (ringLerp_succ r ltac:(replace (S r) with (r + 1)%nat by lia; exact Hr1)) as Hlt.
  replace (S r) with (r + 1)%nat in Hlt by lia.
  unfold ccwFromAbove.
  destruct Hf as [Hf|[Hf|[]]]; subst f.
  - rewrite winding_ring_first by assumption.
    apply Rmult_lt_0_compat; [apply Rmult_lt_0_compat; lra | exact Ht].
  - rewrite winding_ring_second by assumption.
    apply Rmult_lt_0_compat; [apply Rmult_lt_0_compat; lra | exact Ht].
Qed.

Lemma transitionFaces_ccw : Forall (ccwFromAbove vs) (Surface.transitionFaces n).
Proof.
  apply Forall_forall. intros f Hf. unfold Surface.transitionFaces in Hf.
  apply in_flat_map in Hf. destruct Hf as [s [Hs Hf]].
  apply in_seq in Hs. assert (Hs1 : (s < n)%nat) by lia.
  pose proof (Haround s Hs1) as Ht. fold n in Ht.
  pose proof (ringLerp_bounds (Surface.numRings - 1)
                ltac:(unfold Surface.numRings; lia)) as [Hl0 Hl1].
  unfold ccwFromAbove.
  destruct Hf as [Hf|[Hf|[]]]; subst f.
  - rewrite winding_transition_first by assumption.
    apply Rmult_lt_0_compat; [apply Rmult_lt_0_compat; lra | exact Ht].
  - rewrite winding_transition_second by assumption.
    apply Rmult_lt_0_compat; [lra | exact Ht].
Qed.

Lemma fanFaces_cw : Forall (fun f => windingY vs f < 0) (Surface.fanFaces n).
Proof.
  apply Forall_forall. intros f Hf. unfold Surface.fanFaces in Hf.
  apply in_map_iff in Hf. destruct Hf as [s [Hf Hs]]. subst f.
  apply in_seq in Hs. assert (Hs1 : (s < n)%nat) by lia.
  pose proof (Haround s Hs1) as Ht. fold n in Ht.
  pose proof (ringLerp_bounds 0 ltac:(unfold Surface.numRings; lia)) as [Hl0 Hl1].
  rewrite winding_fan by assumption.
  assert (0 < Surface.ringLerp 0 * Surface.ringLerp 0
              * turn centerPoint (nth s contour Vector3.zero)
                     (nth ((s + 1) mod n) contour Vector3.zero)).
  { apply Rmult_lt_0_compat; [apply Rmult_lt_0_compat; lra | exact Ht]. }
  lra.
Qed.

End SurfaceFacts.

Lemma skirtFaces_vertical h cfg lakes centerPoint contour :
  Forall (verticalFace (Surface.vertices h cfg lakes centerPoint contour))
         (Surface.skirtFaces (length contour)).
Proof.
  apply Forall_forall. intros f Hf. unfold Surface.skirtFaces in Hf.
  apply in_flat_map in Hf. destruct Hf as [s [Hs Hf]].
  apply in_seq in Hs. assert (Hs1 : (s < length contour)%nat) by lia.
  unfold verticalFace.
  destruct Hf as [Hf|[Hf|[]]]; subst f.
  - apply winding_skirt_first; assumption.
  - apply winding_skirt_second; assumption.
Qed.

Section GroundCoverFacts.

Variables (lakes : list Lake) (outer inner : list Vector3.t).

Let m := length inner.
Let gvs := GroundCover.vertices lakes outer inner.

Lemma ground_rows_length :
  length (flat_map (fun r => map (GroundCover.ringVertex lakes outer inner r) (seq 0 m))
                   (seq 0 (S GroundCover.numRings)))
  = (S GroundCover.numRings * m)%nat.
Proof. apply length_rows. Qed.

Lemma groundVertex_grid r s :
  (r < S GroundCover.numRings)%nat -> (s < m)%nat ->
  vertexAt gvs (GroundCover.gridIndices m r s)
  = GroundCover.ringVertex lakes outer inner r s.
Proof.
  intros Hr Hs. unfold vertexAt, gvs, GroundCover.vertices, GroundCover.gridIndices.
  fold m.
  rewrite app_nth1 by (rewrite ground_rows_length; nia).
  rewrite nth_rows by assumption. reflexivity.
Qed.

Lemma groundVertex_bottom s :
  (s < length outer)%nat ->
  vertexAt gvs (GroundCover.skirtBottomStartIndex m + s)
  = Vector3.mk (Vector3.x (nth s outer Vector3.zero)) 0
               (Vector3.z (nth s outer Vector3.zero)).
Proof.
  intros Hs. unfold vertexAt, gvs, GroundCover.vertices, GroundCover.skirtBottomStartIndex.
  fold m.
  rewrite app_nth2 by (rewrite ground_rows_length; lia).
  rewrite ground_rows_length.
  replace (S GroundCover.numRings * m + s - S GroundCover.numRings * m)%nat
    with s by lia.
  apply (nth_map_in (fun p => Vector3.mk (Vector3.x p) 0 (Vector3.z p))). exact Hs.
Qed.

Lemma winding_band_first r s :
  (r < GroundCover.numRings)%nat -> (s < m)%nat ->
  let s' := ((s + 1) mod m)%nat in
  let t' := INR (r + 1) / INR GroundCover.numRings in
  windingY gvs (GroundCover.gridIndices m r s, GroundCover.gridIndices m (r + 1) s,
                GroundCover.gridIndices m (r + 1) s')
  = (t' - INR r / INR GroundCover.numRings)
    * ((1 - t') * Vector3.y (Triangle.rawNormal (nth s outer Vector3.zero)
                               (nth s inner Vector3.zero) (nth s' outer Vector3.zero))
       + t' * Vector3.y (Triangle.rawNormal (nth s outer Vector3.zero)
                           (nth s inner Vector3.zero) (nth s' inner Vector3.zero))).
Proof.
  intros Hr Hs s' t'.
  assert (Hs' : (s' < m)%nat) by (apply Nat.mod_upper_bound; lia).
  unfold windingY.
  rewrite !groundVertex_grid by (assumption || lia).
  rewrite !rawNormal_y. unfold GroundCover.ringVertex.
  cbn [Vector3.x Vector3.y Vector3.z Vector3.lerp]. unfold t'. ring.
Qed.

Lemma winding_band_second r s :
  (r < GroundCover.numRings)%nat -> (s < m)%nat ->
  let s' := ((s + 1) mod m)%nat in
  let t := INR r / INR GroundCover.numRings in
  windingY gvs (GroundCover.gridIndices m r s, GroundCover.gridIndices m (r + 1) s',
                GroundCover.gridIndices m r s')
  = (INR (r + 1) / INR GroundCover.numRings - t)
    * ((1 - t) * Vector3.y (Triangle.rawNormal (nth s outer Vector3.zero)
                              (nth s' inner Vector3.zero) (nth s' outer Vector3.zero))
       + t * Vector3.y (Triangle.rawNormal (nth s inner Vector3.zero)
                          (nth s' inner Vector3.zero) (nth s' outer Vector3.zero))).
Proof.
  intros Hr Hs s' t.
  assert (Hs' : (s' < m)%nat) by (apply Nat.mod_upper_bound; lia).
  unfold windingY.
  rewrite !groundVertex_grid by (assumption || lia).
  rewrite !rawNormal_y. unfold GroundCover.ringVertex.
  cbn [Vector3.x Vector3.y Vector3.z Vector3.lerp]. unfold t. ring.
Qed.

(** The position of ring [r] between shoreline and boundary. *)
Lemma band_parameter r :
  (r < GroundCover.numRings)%nat ->
  let t := INR r / INR GroundCover.numRings in
  let t' := INR (r + 1) / INR GroundCover.numRings in
  0 <= t /\ t < t' /\ t' <= 1.
Proof.
  intros Hr t t'. unfold t, t', GroundCover.numRings in *.
  assert (H1 : INR (r + 1) <= 32).
  { replace 32 with (INR 32) by (simpl; lra). apply le_INR. lia. }
  rewrite plus_INR in *. simpl (INR 1) in *.
  pose proof (pos_INR r) as H0.
  replace (INR 32) with 32 by (simpl; lra).
  repeat split; lra.
Qed.

Hypothesis Hconvex : convexBand outer inner.

Lemma bandFaces_ccw : Forall (ccwFromAbove gvs) (GroundCover.bandFaces m).
Proof.
  destruct Hconvex as [Hlen Hq].
  apply Forall_forall. intros f Hf. unfold GroundCover.bandFaces in Hf.
  apply in_flat_map in Hf. destruct Hf as [r [Hr Hf]].
  apply in_flat_map in Hf. destruct Hf as [s [Hs Hf]].
  apply in_seq in Hr. apply in_seq in Hs.
  assert (Hr1 : (r < GroundCover.numRings)%nat) by lia.
  assert (Hs1 : (s < m)%nat) by lia.
  specialize (Hq s Hs1). fold m in Hq. cbv zeta in Hq.
  destruct Hq as (H1 & H2 & H3 & H4).
  pose proof (band_parameter r Hr1) as Hp. cbv zeta in Hp.
  destruct Hp as (Ht0 & Htt & Ht1).
  unfold ccwFromAbove.
  destruct Hf as [Hf|[Hf|[]]]; subst f.
  - rewrite winding_band_first by assumption. cbv zeta.
    apply Rmult_lt_0_compat; [lra|]. nra.
  - rewrite winding_band_second by assumption. cbv zeta.
    apply Rmult_lt_0_compat; [lra|]. nra.
Qed.

Lemma groundSkirtFaces_vertical :
  Forall (verticalFace gvs) (GroundCover.skirtFaces m).
Proof.
  destruct Hconvex as [Hlen _].
  apply Forall_forall. intros f Hf. unfold GroundCover.skirtFaces in Hf.
  apply in_flat_map in Hf. destruct Hf as [s [Hs Hf]].
  apply in_seq in Hs. assert (Hs1 : (s < m)%nat) by lia.
  assert (Hs' : ((s + 1) mod m < m)%nat) by (apply Nat.mod_upper_bound; lia).
  unfold verticalFace, windingY.
  destruct Hf as [Hf|[Hf|[]]]; subst f.
  - rewrite !groundVertex_grid, groundVertex_bottom
      by (assumption || (unfold GroundCover.numRings; lia) || (rewrite Hlen; assumption)).
    rewrite rawNormal_y. unfold GroundCover.ringVertex.
    cbn [Vector3.x Vector3.y Vector3.z Vector3.lerp].
    change (INR 0) with 0. unfold Rdiv. ring.
  - rewrite groundVertex_grid, !groundVertex_bottom
      by (assumption || (unfold GroundCover.numRings; lia) || (rewrite Hlen; assumption)).
    rewrite rawNormal_y. unfold GroundCover.ringVertex.
    cbn [Vector3.x Vector3.y Vector3.z Vector3.lerp].
    change (INR 0) with 0. unfold Rdiv. ring.
Qed.

End GroundCoverFacts.

(** The faces of the two index buffers, in the order the program pushes
    them. *)
Lemma surface_faces n :
  facesOf (Surface.indices n)
  = Surface.fanFaces n ++ Surface.ringFaces n
    ++ Surface.transitionFaces n ++ Surface.skirtFaces n.
Proof. apply facesOf_flatten. Qed.

Lemma groundCover_faces n :
  facesOf (GroundCover.indices n)
  = GroundCover.bandFaces n ++ GroundCover.skirtFaces n.
Proof. apply facesOf_flatten. Qed.

(** ** The merged terrain *)

(** A face of the sand after the merge: its indices shifted by the number
    of ground-cover vertices. *)
Definition shiftFace (offset : nat) (f : Face) : Face :=
  let '(a, b, c) := f in ((a + offset)%nat, (b + offset)%nat, (c + offset)%nat).

Definition faceBelow (bound : nat) (f : Face) : Prop :=
  let '(a, b, c) := f in (a < bound /\ b < bound /\ c < bound)%nat.

Lemma facesOf_flatten_app (fs : list Face) (rest : list nat) :
  facesOf (flatten fs ++ rest) = fs ++ facesOf rest.
Proof.
  induction fs as [|[[a b] c] fs IH]; [reflexivity|].
  unfold flatten in *. simpl. rewrite IH. reflexivity.
Qed.

Lemma map_flatten (offset : nat) (fs : list Face) :
  map (fun i => (i + offset)%nat) (flatten fs) = flatten (map (shiftFace offset) fs).
Proof.
  induction fs as [|[[a b] c] fs IH]; [reflexivity|].
  unfold flatten in *. simpl. rewrite IH. reflexivity.
Qed.

Lemma windingY_shift (ground sand : list Vector3.t) (f : Face) :
  windingY (ground ++ sand) (shiftFace (length ground) f) = windingY sand f.
Proof.
  destruct f as [[a b] c]. unfold windingY, shiftFace, vertexAt.
  rewrite !app_nth2 by lia.
  replace (a + length ground - length ground)%nat with a by lia.
  replace (b + length ground - length ground)%nat with b by lia.
  replace (c + length ground - length ground)%nat with c by lia.
  reflexivity.
Qed.

Lemma windingY_below (ground sand : list Vector3.t) (f : Face) :
  faceBelow (length ground) f ->
  windingY (ground ++ sand) f = windingY ground f.
Proof.
  destruct f as [[a b] c]. intros (Ha & Hb & Hc). unfold windingY, vertexAt.
  rewrite !app_nth1 by assumption. reflexivity.
Qed.

Lemma groundCover_vertices_length lakes outer inner :
  length (GroundCover.vertices lakes outer inner)
  = (S GroundCover.numRings * length inner + length outer)%nat.
Proof.
  unfold GroundCover.vertices. rewrite length_app, length_rows, length_map. reflexivity.
Qed.

Lemma groundCover_faces_below lakes outer inner :
  length outer = length inner ->
  Forall (faceBelow (length (GroundCover.vertices lakes outer inner)))
         (GroundCover.bandFaces (length inner) ++ GroundCover.skirtFaces (length inner)).
Proof.
  intros Hlen. rewrite groundCover_vertices_length, Hlen.
  set (m := length inner).
  apply Forall_app. split; apply Forall_forall; intros f Hf.
  - unfold GroundCover.bandFaces in Hf.
    apply in_flat_map in Hf. destruct Hf as [r [Hr Hf]].
    apply in_flat_map in Hf. destruct Hf as [s [Hs Hf]].
    apply in_seq in Hr. apply in_seq in Hs.
    assert (Hs' : ((s + 1) mod m < m)%nat) by (apply Nat.mod_upper_bound; lia).
    unfold GroundCover.numRings in *.
    destruct Hf as [Hf|[Hf|[]]]; subst f; unfold faceBelow, GroundCover.gridIndices;
      repeat split; nia.
  - unfold GroundCover.skirtFaces in Hf.
    apply in_flat_map in Hf. destruct Hf as [s [Hs Hf]].
    apply in_seq in Hs.
    assert (Hs' : ((s + 1) mod m < m)%nat) by (apply Nat.mod_upper_bound; lia).
    unfold GroundCover.numRings in *.
    destruct Hf as [Hf|[Hf|[]]]; subst f;
      unfold faceBelow, GroundCover.gridIndices, GroundCover.skirtBottomStartIndex,
        GroundCover.numRings;
      repeat split; nia.
Qed.

(** The faces of the merged terrain, in the order of its index buffer. *)
Lemma terrain_faces (h : Host.t) (cfg : Config) (lakes : list Lake)
    (centerXZ : Vector2.t) (centerPoint : Vector3.t)
    (boundaryPoints shorelinePointsForMesh extendedShorelinePoints : list Vector3.t)
    (groundGeo : Mesh) :
  GroundCover.geometry h cfg lakes centerXZ boundaryPoints shorelinePointsForMesh
    extendedShorelinePoints = Some groundGeo ->
  let n := length (removelast boundaryPoints) in
  let surfaceGeometry :=
    Surface.geometry h cfg lakes centerPoint (removelast boundaryPoints) in
  let shift := map (shiftFace (length (positions groundGeo))) in
  positions groundGeo
  = GroundCover.vertices lakes (removelast extendedShorelinePoints)
      (removelast boundaryPoints) /\
  facesOf (index (mergeGeometries groundGeo surfaceGeometry))
  = GroundCover.bandFaces n ++ GroundCover.skirtFaces n
    ++ shift (Surface.fanFaces n) ++ shift (Surface.ringFaces n)
    ++ shift (Surface.transitionFaces n) ++ shift (Surface.skirtFaces n).
Proof.
  intros Hgeo n surfaceGeometry shift.
  unfold GroundCover.geometry in Hgeo.
  destruct ((2 <? length boundaryPoints)%nat && (2 <? length shorelinePointsForMesh)%nat);
    [|discriminate].
  destruct (0 <? length (removelast boundaryPoints))%nat; [|discriminate].
  injection Hgeo as Hgeo. subst groundGeo.
  split; [reflexivity|].
  unfold surfaceGeometry, mergeGeometries, Surface.geometry.
  cbn [positions index]. fold n.
  unfold GroundCover.indices, Surface.indices.
  rewrite map_flatten, facesOf_flatten_app, facesOf_flatten.
  unfold shift. cbn [positions]. rewrite !map_app, <- !app_assoc. reflexivity.
Qed.


(** A small island: the foliage boundary is a square of four points around
    the centre, the shoreline the same square twice as large; as the curves
    of the program do, both lists end with their first point. *)
Definition square (r y : R) : list Vector3.t :=
  [ Vector3.mk r y 0; Vector3.mk 0 y r; Vector3.mk (- r) y 0; Vector3.mk 0 y (- r);
    Vector3.mk r y 0 ].

Definition squareCenter : Vector3.t := Vector3.mk 0 2 0.

Lemma square_runsAround : runsAround squareCenter (removelast (square 1 2)).
Proof.
  intros s Hs. simpl in Hs.
  destruct s as [|[|[|[|s]]]]; try lia; unfold turn; simpl; lra.
Qed.

Lemma square_convexBand :
  convexBand (removelast (square 2 0)) (removelast (square 1 2)).
Proof.
  split; [reflexivity|].
  intros s Hs. simpl in Hs.
  destruct s as [|[|[|[|s]]]]; try lia; cbv zeta; rewrite !rawNormal_y; simpl;
    repeat split; lra.
Qed.



(* ================================================================== *)
(** * Properties of the lakes *)
(* ================================================================== *)

(** A property of the accumulator that every turn of a loop keeps holds
    after the loop. *)
Lemma foldGen_invariant {A S} (P : S -> Prop) (body : S -> A -> Gen S) (l : list A)
    (rnd : Random) :
  (forall acc a k, P acc -> P (fst (body acc a rnd k))) ->
  forall acc k, P acc -> P (fst (foldGen body l acc rnd k)).
Proof.
  intros Hbody. induction l as [|a l IH]; intros acc k Hacc; [exact Hacc|].
  simpl. unfold bind.
  specialize (Hbody acc a k Hacc).
  destruct (body acc a rnd k) as [acc' k']. apply IH. exact Hbody.
Qed.

(** A centre that [findCenter] returns passed the polygon test and has the
    coordinates that two calls of [randFloat] gave. *)
Lemma findCenter_found box lakeRadius polygon attempts :
  forall rnd k c k',
  Lakes.findCenter box lakeRadius polygon attempts rnd k = (Some c, k') ->
  isPointInPolygon c polygon = true /\
  exists i j,
    Vector2.x c = Lakes.minX box + lakeRadius
                  + rnd i * (Lakes.maxX box - lakeRadius - (Lakes.minX box + lakeRadius)) /\
    Vector2.y c = Lakes.minY box + lakeRadius
                  + rnd j * (Lakes.maxY box - lakeRadius - (Lakes.minY box + lakeRadius)).
Proof.
  induction attempts as [|attempts IH]; intros rnd k c k' H.
  - discriminate H.
  - simpl in H. unfold bind, randFloat, bind, random, ret in H.
    match type of H with
    | (if isPointInPolygon ?p polygon then _ else _) _ _ = _ =>
        destruct (isPointInPolygon p polygon) eqn:Hin
    end.
    + injection H as Hc Hk. subst c. split; [exact Hin|].
      exists k, (S k). split; reflexivity.
    + apply IH in H. exact H.
Qed.

(** The box of the sand area as a region of the plane. *)
Definition inBox (b : Lakes.Box2) (p : Vector2.t) : Prop :=
  Lakes.minX b <= Vector2.x p <= Lakes.maxX b /\
  Lakes.minY b <= Vector2.y p <= Lakes.maxY b.

Lemma distanceTo_coordinates (p c : Vector2.t) (r : R) :
  Vector2.distanceTo p c <= r ->
  Vector2.x c - r <= Vector2.x p <= Vector2.x c + r /\
  Vector2.y c - r <= Vector2.y p <= Vector2.y c + r.
Proof.
  unfold Vector2.distanceTo. intros Hd.
  set (dx := Vector2.x p - Vector2.x c) in *.
  set (dy := Vector2.y p - Vector2.y c) in *.
  assert (Hsq : 0 <= dx * dx + dy * dy) by nra.
  pose proof (sqrt_pos (dx * dx + dy * dy)) as Hpos.
  pose proof (sqrt_sqrt _ Hsq) as Hss.
  set (d := sqrt (dx * dx + dy * dy)) in *.
  assert (Hx : - r <= dx <= r) by (split; nra).
  assert (Hy : - r <= dy <= r) by (split; nra).
  unfold dx, dy in *. lra.
Qed.

(** What holds of a lake that the pre-calculation records. *)
Definition lakeRecorded (h : Host.t) (cfg : Config) (polygon : list Vector3.t)
    (rnd : Random) (lake : Lake) : Prop :=
  isPointInPolygon (center lake) polygon = true /\
  radius lake = lakeRadius cfg /\
  depth lake = lakeDepth cfg /\
  waterLevel lake
  = Edge.noiseHeight h cfg (Vector2.x (center lake)) (Vector2.y (center lake))
    - depth lake + depth lake * 0.5 /\
  (let box := Lakes.sandAreaBox polygon in
   unit_interval rnd ->
   Lakes.minX box + lakeRadius cfg <= Lakes.maxX box - lakeRadius cfg ->
   Lakes.minY box + lakeRadius cfg <= Lakes.maxY box - lakeRadius cfg ->
   forall p, Vector2.distanceTo p (center lake) <= radius lake -> inBox box p).


(** Decides the comparisons of reals a goal branches on, innermost first,
    as far as linear arithmetic settles them. *)
Ltac decide_reals :=
  repeat match goal with
         | |- context [Rlt_dec ?a ?b] =>
             first [ assert (a < b) by lra; destruct (Rlt_dec a b); [|lra]
                   | assert (~ a < b) by lra; destruct (Rlt_dec a b); [lra|] ]
         | |- context [Rle_dec ?a ?b] =>
             first [ assert (a <= b) by lra; destruct (Rle_dec a b); [|lra]
                   | assert (~ a <= b) by lra; destruct (Rle_dec a b); [lra|] ]
         | |- context [Req_dec_T ?a ?b] =>
             first [ assert (a = b) by lra; destruct (Req_dec_T a b); [|lra]
                   | assert (a <> b) by lra; destruct (Req_dec_T a b); [lra|] ]
         end.

Lemma square_box (r y : R) :
  0 < r -> Lakes.sandAreaBox (square r y) = Lakes.mkBox2 (- r) (- r) r r.
Proof.
  intros Hr. unfold Lakes.sandAreaBox, square. simpl.
  unfold Rmin, Rmax. decide_reals. reflexivity.
Qed.

(** The centre of the square lies inside it. *)
Lemma square_contains_center (r y : R) :
  0 < r -> isPointInPolygon (Vector2.mk 0 0) (square r y) = true.
Proof.
  intros Hr. unfold isPointInPolygon, square. simpl.
  unfold intersect, gtb, ltb. simpl.
  replace ((r - 0) * (0 - r) / (0 - r) + 0) with r by (field; lra).
  replace ((0 - - r) * (0 - 0) / (r - 0) + - r) with (- r) by (field; lra).
  decide_reals. reflexivity.
Qed.

Lemma halves_unit_interval : unit_interval halves.
Proof. intros k. unfold halves. lra. Qed.

(** With every random value one half, the first attempt lands on the
    centre of the box. *)
Lemma findCenter_halves (r y lakeRadius : R) (attempts k : nat) :
  0 < r ->
  Lakes.findCenter (Lakes.sandAreaBox (square r y)) lakeRadius (square r y)
    (S attempts) halves k
  = (Some (Vector2.mk 0 0), S (S k)).
Proof.
  intros Hr. rewrite square_box by exact Hr.
  cbn [Lakes.findCenter]. unfold bind, randFloat, bind, random, ret, halves.
  cbn [Lakes.minX Lakes.minY Lakes.maxX Lakes.maxY].
  replace (- r + lakeRadius + 1 / 2 * (r - lakeRadius - (- r + lakeRadius)))
    with 0 by field.
  rewrite square_contains_center by exact Hr. reflexivity.
Qed.

(** The run of the pre-calculation on a square of half width [r]. *)
Lemma precalculate_square (r : R) :
  0 < r ->
  fst (Lakes.precalculate flatHost sampleConfig (square r 2) halves 0%nat)
  = [ mkLake (Vector2.mk 0 0) 2 1
        (Edge.noiseHeight flatHost sampleConfig 0 0 - 1 + 1 * 0.5) ].
Proof.
  intros Hr. unfold Lakes.precalculate.
  change (waterFeatures sampleConfig) with true.
  change (numLakes sampleConfig) with 1%nat.
  change (lakeRadius sampleConfig) with 2.
  change (lakeDepth sampleConfig) with 1.
  cbv iota. change (seq 0 1) with [0%nat]. cbn [foldGen].
  unfold bind, Lakes.maxAttempts.
  rewrite findCenter_halves by exact Hr. reflexivity.
Qed.



(* ================================================================== *)
(** * Properties of the placement sampler *)
(* ================================================================== *)

Lemma ltb_false_iff (a b : R) : ltb a b = false <-> b <= a.
Proof. unfold ltb. destruct (Rlt_dec a b); split; intros; (discriminate || lra || reflexivity). Qed.

Lemma leb_true_iff (a b : R) : leb a b = true <-> a <= b.
Proof. unfold leb. destruct (Rle_dec a b); split; intros; (discriminate || lra || reflexivity). Qed.

(** What the acceptance tests say of a face. *)
Definition passesTests (o : Sampler.Options) (f : Sampler.FaceData) : Prop :=
  let a := Sampler.vA f in
  let b := Sampler.vB f in
  let c := Sampler.vC f in
  cos (JsMath.degToRad (Sampler.maxSlopeDegrees o)) <= Vector3.y (Triangle.getNormal a b c) /\
  ~ (Vector3.y a <= 0 /\ Vector3.y b <= 0 /\ Vector3.y c <= 0) /\
  isPointInPolygon (Sampler.centroid2D a b c) (Sampler.outerBoundary o) = true /\
  isPointInPolygon (Sampler.centroid2D a b c) (Sampler.innerBoundary o) = false.

(** The face is a triangle of the mesh. *)
Definition faceOfMesh (mesh : Mesh) (f : Sampler.FaceData) : Prop :=
  exists iA iB iC,
    In (iA, iB, iC) (facesOf (index mesh)) /\
    Sampler.vA f = vertexAt (positions mesh) iA /\
    Sampler.vB f = vertexAt (positions mesh) iB /\
    Sampler.vC f = vertexAt (positions mesh) iC.

Lemma validFaces_accepted o mesh f :
  In f (Sampler.validFaces o mesh) -> faceOfMesh mesh f /\ passesTests o f.
Proof.
  unfold Sampler.validFaces. intros Hin.
  apply in_flat_map in Hin. destruct Hin as [[[iA iB] iC] [Hface Hin]].
  destruct (Sampler.accepted o _ _ _) eqn:Hacc; [|contradiction].
  destruct Hin as [Hf|[]]. subst f. split.
  - exists iA, iB, iC. cbn [Sampler.vA Sampler.vB Sampler.vC]. auto.
  - unfold passesTests. cbn [Sampler.vA Sampler.vB Sampler.vC].
    unfold Sampler.accepted in Hacc.
    apply andb_true_iff in Hacc. destruct Hacc as [Hacc Hinner].
    apply andb_true_iff in Hacc. destruct Hacc as [Hacc Houter].
    apply andb_true_iff in Hacc. destruct Hacc as [Hsteep Hsub].
    apply negb_true_iff in Hsteep, Hsub, Hinner.
    repeat split.
    + apply ltb_false_iff. exact Hsteep.
    + intros (Ha & Hb & Hc). unfold Sampler.submerged in Hsub.
      apply leb_true_iff in Ha, Hb, Hc. rewrite Ha, Hb, Hc in Hsub. discriminate.
    + exact Houter.
    + exact Hinner.
Qed.

Lemma validFaces_area_nonneg o mesh f :
  In f (Sampler.validFaces o mesh) -> 0 <= Sampler.area f.
Proof.
  unfold Sampler.validFaces. intros Hin.
  apply in_flat_map in Hin. destruct Hin as [[[iA iB] iC] [_ Hin]].
  destruct (Sampler.accepted o _ _ _); [|contradiction].
  destruct Hin as [Hf|[]]. subst f. cbn [Sampler.area].
  unfold Triangle.getArea, Vector3.length.
  pose proof (sqrt_pos (Vector3.lengthSq
    (Triangle.rawNormal (vertexAt (positions mesh) iA) (vertexAt (positions mesh) iB)
       (vertexAt (positions mesh) iC)))).
  lra.
Qed.

(** Every entry of the cumulative table names a valid face. *)
Lemma cdfFrom_index faces : forall faceIndex cumulativeArea item,
  In item (Sampler.cdfFrom faceIndex cumulativeArea faces) ->
  (faceIndex <= fst item < faceIndex + length faces)%nat.
Proof.
  induction faces as [|f faces IH]; intros faceIndex c item Hin; [contradiction|].
  simpl in Hin. destruct Hin as [Hin|Hin].
  - subst item. simpl. lia.
  - apply IH in Hin. simpl. lia.
Qed.

(** The last entry of the table holds the total area. *)
Lemma cdfFrom_last faces : forall faceIndex cumulativeArea,
  faces <> [] ->
  exists i,
    In (i, fold_left (fun total f => total + Sampler.area f) faces cumulativeArea)
       (Sampler.cdfFrom faceIndex cumulativeArea faces).
Proof.
  induction faces as [|f faces IH]; intros faceIndex c Hne; [contradiction|].
  destruct faces as [|g faces].
  - exists faceIndex. simpl. left. reflexivity.
  - destruct (IH (S faceIndex) (c + Sampler.area f) ltac:(discriminate)) as [i Hi].
    exists i. right. exact Hi.
Qed.

Lemma totalArea_nonneg faces :
  Forall (fun f => 0 <= Sampler.area f) faces -> 0 <= Sampler.totalArea faces.
Proof.
  unfold Sampler.totalArea. intros Hall.
  assert (H : forall c, 0 <= c ->
            0 <= fold_left (fun total f => total + Sampler.area f) faces c).
  { induction Hall as [|f faces Hf _ IH]; intros c Hc; simpl; [exact Hc|].
    apply IH. lra. }
  apply H. lra.
Qed.

(** A turn of the loop finds a face whenever the random value is below 1. *)
Lemma find_in_cdf faces (r : R) :
  faces <> [] -> Forall (fun f => 0 <= Sampler.area f) faces -> r < 1 ->
  exists item,
    find (fun item : nat * R => leb (r * Sampler.totalArea faces) (snd item))
         (Sampler.cdf faces) = Some item /\
    (fst item < length faces)%nat.
Proof.
  intros Hne Hall Hr.
  destruct (find _ (Sampler.cdf faces)) as [item|] eqn:Hfind.
  - exists item. split; [reflexivity|].
    apply find_some in Hfind. destruct Hfind as [Hin _].
    apply cdfFrom_index in Hin. lia.
  - exfalso. destruct (cdfFrom_last faces 0 0 Hne) as [i Hi].
    pose proof (find_none _ _ Hfind _ Hi) as Hno. cbn [snd] in Hno.
    fold (Sampler.totalArea faces) in Hno.
    pose proof (totalArea_nonneg faces Hall) as Ht.
    unfold leb in Hno. destruct (Rle_dec _ _) as [|Hn]; [discriminate|].
    apply Hn. nra.
Qed.

Section SamplerFacts.

Variables (o : Sampler.Options) (mesh : Mesh) (rnd : Random).

Let faces := Sampler.validFaces o mesh.

(** Every turn appends at most one instance, sampled from a valid face. *)
Lemma placeOne_faces placed k :
  Forall (fun inst => In (Sampler.faceData inst) faces) placed ->
  Forall (fun inst => In (Sampler.faceData inst) faces)
         (fst (Sampler.placeOne o faces (Sampler.totalArea faces) placed rnd k)).
Proof.
  intros Hplaced. unfold Sampler.placeOne, bind, random, ret, randFloat, bind, random, ret.
  destruct (find _ (Sampler.cdf faces)) as [item|] eqn:Hfind; [|exact Hplaced].
  apply find_some in Hfind. destruct Hfind as [Hin _].
  apply cdfFrom_index in Hin.
  assert (Hnth : In (nth (fst item) faces Sampler.noFace) faces) by (apply nth_In; lia).
  destruct (0 <? Sampler.models o)%nat; simpl;
    apply Forall_app; (split; [exact Hplaced|]); constructor; auto.
Qed.

Lemma placeOne_length placed k :
  faces <> [] -> unit_interval rnd ->
  length (fst (Sampler.placeOne o faces (Sampler.totalArea faces) placed rnd k))
  = S (length placed).
Proof.
  intros Hne Hrnd. unfold Sampler.placeOne, bind, random, ret, randFloat, bind, random, ret.
  assert (Hall : Forall (fun f => 0 <= Sampler.area f) faces).
  { apply Forall_forall. intros f Hf. eapply validFaces_area_nonneg. exact Hf. }
  destruct (find_in_cdf faces (rnd k) Hne Hall (proj2 (Hrnd k))) as [item [Hfind _]].
  rewrite Hfind.
  destruct (0 <? Sampler.models o)%nat; simpl; rewrite length_app; simpl; lia.
Qed.

Lemma placeLoop_length turns :
  faces <> [] -> unit_interval rnd ->
  forall placed k,
  length (fst (foldGen (fun placed (_ : nat) =>
                          Sampler.placeOne o faces (Sampler.totalArea faces) placed)
                       turns placed rnd k))
  = (length placed + length turns)%nat.
Proof.
  intros Hne Hrnd. induction turns as [|t turns IH]; intros placed k; simpl; [lia|].
  unfold bind.
  pose proof (placeOne_length placed k Hne Hrnd) as Hone.
  destruct (Sampler.placeOne o faces (Sampler.totalArea faces) placed rnd k)
    as [placed' k'].
  rewrite IH. simpl in Hone. lia.
Qed.

(** The number of instances is [numInstances], or none when that is
    negative. *)
Lemma placed_count k :
  unit_interval rnd ->
  Z.of_nat (length (fst (Sampler.placeFoliageOnMesh o mesh rnd k)))
  = Z.max 0 (Sampler.numInstances o faces).
Proof.
  intros Hrnd. unfold Sampler.placeFoliageOnMesh. fold faces.
  destruct (Sampler.numInstances o faces =? 0)%Z eqn:Hn0.
  - apply Z.eqb_eq in Hn0. rewrite Hn0. reflexivity.
  - apply Z.eqb_neq in Hn0.
    destruct (length faces =? 0)%nat eqn:Hlen; cbn [orb].
    + apply Nat.eqb_eq in Hlen. apply length_zero_iff_nil in Hlen.
      exfalso. apply Hn0. unfold Sampler.numInstances. rewrite Hlen.
      unfold Sampler.totalArea. simpl.
      replace (0 / 100 * Sampler.grassDensity o) with (IZR 0) by (simpl; field).
      unfold JsMath.floor. rewrite ZfloorZ.
      destruct (Sampler.maxCount o) as [c|]; [|reflexivity].
      destruct (0 <=? c)%Z eqn:Hc; [|reflexivity].
      apply Z.leb_le in Hc. lia.
    + apply Nat.eqb_neq in Hlen.
      rewrite placeLoop_length; [|intros ->; apply Hlen; reflexivity|exact Hrnd].
      rewrite length_seq. simpl. lia.
Qed.

End SamplerFacts.

(** C5. Every instance the sampler emits was sampled from a triangle of
    the mesh that passes the four acceptance tests: the vertical component
    of its normal is at least [cos(maxSlope)], not all three vertices have
    non-positive height, its centroid lies inside the outer boundary and
    outside the inner boundary. *)
Theorem instances_from_accepted_faces (o : Sampler.Options) (mesh : Mesh)
    (rnd : Random) (k : nat) :
  Forall (fun inst =>
            faceOfMesh mesh (Sampler.faceData inst) /\
            passesTests o (Sampler.faceData inst))
         (fst (Sampler.placeFoliageOnMesh o mesh rnd k)).
Proof.
  assert (H : Forall (fun inst => In (Sampler.faceData inst) (Sampler.validFaces o mesh))
                     (fst (Sampler.placeFoliageOnMesh o mesh rnd k))).
  { unfold Sampler.placeFoliageOnMesh.
    destruct (_ || _)%bool; [constructor|].
    apply (foldGen_invariant
             (Forall (fun inst => In (Sampler.faceData inst) (Sampler.validFaces o mesh)))).
    - intros acc _ k' Hacc. apply placeOne_faces. exact Hacc.
    - constructor. }
  eapply Forall_impl; [|exact H].
  intros inst Hin. apply validFaces_accepted. exact Hin.
Qed.


(** A run of the sampler: one triangle of area 50 facing up at height 1,
    inside a square of half width 20 and outside one of half width 1,
    density 4 per 100 square units, no maximum count. *)
Definition oneTriangle : Mesh :=
  mkMesh [ Vector3.mk 0 1 0; Vector3.mk 0 1 10; Vector3.mk 10 1 0 ] []
         [ 0%nat; 1%nat; 2%nat ] [].

Definition sampleOptions : Sampler.Options :=
  Sampler.mkOptions 1 4 None 45 1 (square 20 0) (square 1 0).

Lemma oneTriangle_normal :
  Triangle.getNormal (Vector3.mk 0 1 0) (Vector3.mk 0 1 10) (Vector3.mk 10 1 0)
  = Vector3.mk 0 1 0.
Proof.
  unfold Triangle.getNormal.
  assert (Hraw : Triangle.rawNormal (Vector3.mk 0 1 0) (Vector3.mk 0 1 10)
                   (Vector3.mk 10 1 0) = Vector3.mk 0 100 0).
  { unfold Triangle.rawNormal, Vector3.cross, Vector3.sub. simpl. f_equal; ring. }
  rewrite Hraw. unfold Vector3.lengthSq. simpl.
  replace (0 * 0 + 100 * 100 + 0 * 0) with (100 * 100) by ring.
  rewrite sqrt_square by lra.
  destruct (Rlt_dec 0 (100 * 100)) as [_|Hn]; [|lra].
  unfold Vector3.multiplyScalar. simpl. f_equal; field.
Qed.

Lemma oneTriangle_area :
  Triangle.getArea (Vector3.mk 0 1 0) (Vector3.mk 0 1 10) (Vector3.mk 10 1 0) = 50.
Proof.
  unfold Triangle.getArea, Vector3.length.
  assert (Hraw : Triangle.rawNormal (Vector3.mk 0 1 0) (Vector3.mk 0 1 10)
                   (Vector3.mk 10 1 0) = Vector3.mk 0 100 0).
  { unfold Triangle.rawNormal, Vector3.cross, Vector3.sub. simpl. f_equal; ring. }
  rewrite Hraw. unfold Vector3.lengthSq. simpl.
  replace (0 * 0 + 100 * 100 + 0 * 0) with (100 * 100) by ring.
  rewrite sqrt_square by lra. lra.
Qed.

Lemma oneTriangle_accepted :
  Sampler.accepted sampleOptions (Vector3.mk 0 1 0) (Vector3.mk 0 1 10)
    (Vector3.mk 10 1 0) = true.
Proof.
  unfold Sampler.accepted, Sampler.steep, Sampler.submerged.
  rewrite oneTriangle_normal. cbn [Vector3.y].
  assert (Hsteep : ltb 1 (Sampler.slopeThreshold sampleOptions) = false).
  { apply ltb_false_iff. unfold Sampler.slopeThreshold. apply COS_bound. }
  rewrite Hsteep.
  assert (Hsub : leb 1 0 = false).
  { unfold leb. destruct (Rle_dec 1 0); [lra|reflexivity]. }
  rewrite Hsub. cbn [negb andb].
  assert (Hc : Sampler.centroid2D (Vector3.mk 0 1 0) (Vector3.mk 0 1 10)
                 (Vector3.mk 10 1 0) = Vector2.mk (10 / 3) (10 / 3)).
  { unfold Sampler.centroid2D. simpl. f_equal; field. }
  rewrite Hc. cbn [Sampler.outerBoundary Sampler.innerBoundary sampleOptions].
  assert (Hout : isPointInPolygon (Vector2.mk (10 / 3) (10 / 3)) (square 20 0) = true).
  { unfold isPointInPolygon, square. simpl. unfold intersect, gtb, ltb. simpl.
    replace ((20 - 0) * (10 / 3 - 20) / (0 - 20) + 0) with (50 / 3) by field.
    replace ((0 - - 20) * (10 / 3 - 0) / (20 - 0) + - 20) with (- 50 / 3) by field.
    replace ((- 20 - 0) * (10 / 3 - - 20) / (0 - - 20) + 0) with (- 70 / 3) by field.
    replace ((0 - 20) * (10 / 3 - 0) / (- 20 - 0) + 20) with (70 / 3) by field.
    decide_reals. reflexivity. }
  assert (Hin : isPointInPolygon (Vector2.mk (10 / 3) (10 / 3)) (square 1 0) = false).
  { unfold isPointInPolygon, square. simpl. unfold intersect, gtb, ltb. simpl.
    decide_reals. reflexivity. }
  rewrite Hout, Hin. reflexivity.
Qed.

Lemma oneTriangle_validFaces :
  Sampler.validFaces sampleOptions oneTriangle
  = [ Sampler.mkFaceData (Vector3.mk 0 1 0) (Vector3.mk 0 1 10) (Vector3.mk 10 1 0)
        (Vector3.mk 0 1 0) 50 ].
Proof.
  unfold Sampler.validFaces, oneTriangle. cbn [index positions facesOf flat_map app].
  unfold vertexAt. cbn [nth].
  rewrite oneTriangle_accepted, oneTriangle_normal, oneTriangle_area. reflexivity.
Qed.


(* ================================================================== *)
(** * Properties of the hydrology tracer *)
(* ================================================================== *)

(** [q] follows [p] on a path that descends. *)
Definition lowerThan (p q : Vector3.t) : Prop := Vector3.y q < Vector3.y p.

Lemma walk_descends h targetMesh lakes steps :
  forall currentPoint currentDirection,
  Sorted lowerThan
         (currentPoint :: River.walk h targetMesh lakes steps currentPoint currentDirection).
Proof.
  induction steps as [|steps IH]; intros currentPoint currentDirection; simpl.
  - constructor; constructor.
  - destruct (sortBy River.elevation _) as [|lowest rest].
    + constructor; constructor.
    + destruct (Rle_dec (Vector3.y currentPoint) (Vector3.y (River.samplePoint lowest)))
        as [Hge|Hlt].
      * constructor; constructor.
      * constructor.
        -- destruct (River.flowedIntoLake lakes (River.samplePoint lowest)).
           ++ constructor; constructor.
           ++ apply IH.
        -- constructor. unfold lowerThan. lra.
Qed.

(** C10. On every path [traceRiverPath] returns the heights decrease
    strictly from the first point on: the path starts at the start point
    and every point after it is strictly lower than its predecessor. *)
Theorem river_path_descends (h : Host.t) (startPoint : Vector3.t)
    (targetMesh : Mesh) (lakes : list Lake) (rnd : Random) (k : nat) :
  let path := fst (River.traceRiverPath h startPoint targetMesh lakes rnd k) in
  hd_error path = Some startPoint /\
  Sorted lowerThan path /\
  StronglySorted lowerThan path.
Proof.
  cbv zeta. unfold River.traceRiverPath, bind, random, ret. cbn [fst].
  split; [reflexivity|].
  assert (Hs : Sorted lowerThan
                 (startPoint :: River.walk h targetMesh lakes River.maxSteps startPoint
                    (Vector3.normalize (Vector3.mk (rnd k - 0.5) 0 (rnd (S k) - 0.5)))))
    by apply walk_descends.
  split; [exact Hs|].
  apply Sorted_StronglySorted; [|exact Hs].
  intros p q r Hpq Hqr. unfold lowerThan in *. lra.
Qed.

(* ================================================================== *)
(** * Regeneration *)
(* ================================================================== *)

Section SortFacts.

Context {A : Type} (key : A -> R).

Let keyLe (a b : A) : Prop := key a <= key b.

Lemma insertBy_length a l : length (insertBy key a l) = S (length l).
Proof.
  induction l as [|x l IH]; simpl; [reflexivity|].
  destruct (Rle_dec (key a) (key x)); simpl; [reflexivity|]. rewrite IH. reflexivity.
Qed.

Lemma sortBy_length l : length (sortBy key l) = length l.
Proof.
  induction l as [|a l IH]; simpl; [reflexivity|].
  rewrite insertBy_length, IH. reflexivity.
Qed.

Lemma insertBy_sorted a l :
  LocallySorted keyLe l -> LocallySorted keyLe (insertBy key a l).
Proof.
  intros Hl. induction Hl as [|x|x y l Hl IH Hxy]; simpl.
  - constructor.
  - destruct (Rle_dec (key a) (key x)) as [Hle|Hgt].
    + constructor; [constructor|exact Hle].
    + constructor; [constructor|]. unfold keyLe. lra.
  - destruct (Rle_dec (key a) (key x)) as [Hle|Hgt].
    + constructor; [constructor; assumption|exact Hle].
    + simpl in IH. destruct (Rle_dec (key a) (key y)) as [Hle'|Hgt'].
      * constructor; [exact IH|]. unfold keyLe. lra.
      * constructor; [exact IH|exact Hxy].
Qed.

Lemma sortBy_sorted l : LocallySorted keyLe (sortBy key l).
Proof.
  induction l as [|a l IH]; simpl; [constructor|].
  apply insertBy_sorted. exact IH.
Qed.

(** Sorting leaves a sorted array as it is. *)
Lemma sortBy_of_sorted l : LocallySorted keyLe l -> sortBy key l = l.
Proof.
  intros Hl. induction Hl as [|x|x y l Hl IH Hxy]; simpl; try reflexivity.
  simpl in IH. rewrite IH. simpl.
  destruct (Rle_dec (key x) (key y)) as [_|Hn]; [reflexivity|].
  exfalso. apply Hn. exact Hxy.
Qed.

Lemma sortBy_idempotent l : sortBy key (sortBy key l) = sortBy key l.
Proof. apply sortBy_of_sorted. apply sortBy_sorted. Qed.

End SortFacts.

(** A generation leaves [this.rockModels] sorted by volume. *)
Lemma generateIsland_rockModels h cfg rockModels rnd k :
  fst (fst (generateIsland h cfg rockModels rnd k))
  = if (length rockModels =? 0)%nat then rockModels
    else Contour.sortByVolume rockModels.
Proof.
  unfold generateIsland.
  destruct (length rockModels =? 0)%nat; [reflexivity|].
  unfold bind, ret.
  repeat match goal with
         | |- context [let (_, _) := ?e in _] => destruct e
         | |- context [match ?e with Some _ => _ | None => _ end] => destruct e
         | |- context [if ?e then _ else _] => destruct e
         end; reflexivity.
Qed.


(* ================================================================== *)
(** * Connectivity of edge lists *)
(* ================================================================== *)

(** An undirected link between two nodes. *)
Definition Link : Type := nat * nat.

(** Two nodes are connected by the links of [E]: the least equivalence
    relation that contains the links. *)
Inductive connected (E : list Link) : nat -> nat -> Prop :=
| connected_refl x : connected E x x
| connected_link a b : In (a, b) E -> connected E a b
| connected_sym x y : connected E x y -> connected E y x
| connected_trans x y z : connected E x y -> connected E y z -> connected E x z.

Create HintDb graph.
#[local] Hint Constructors connected : graph.
#[local] Hint Resolve in_eq in_cons : graph.

Lemma connected_incl (E E' : list Link) x y :
  incl E E' -> connected E x y -> connected E' x y.
Proof.
  intros Hincl H. induction H; eauto with graph.
Qed.

(** What one more link adds: it merges the classes of its end points. *)
Lemma connected_cons (E : list Link) a b x y :
  connected ((a, b) :: E) x y <->
  connected E x y \/
  (connected E x a /\ connected E b y) \/
  (connected E x b /\ connected E a y).
Proof.
  split.
  - intros H. induction H as [x|c d Hin|x y H IH|x y z H1 IH1 H2 IH2].
    + left. constructor.
    + destruct Hin as [Heq|Hin].
      * injection Heq as <- <-. right. left. split; constructor.
      * left. apply connected_link. exact Hin.
    + destruct IH as [IH|[[IHa IHb]|[IHa IHb]]].
      * left. apply connected_sym. exact IH.
      * right. right. split; apply connected_sym; assumption.
      * right. left. split; apply connected_sym; assumption.
    + destruct IH1 as [I1|[[I1a I1b]|[I1a I1b]]];
        destruct IH2 as [I2|[[I2a I2b]|[I2a I2b]]].
      * left. eauto with graph.
      * right. left. eauto with graph.
      * right. right. eauto with graph.
      * right. left. eauto with graph.
      * right. left. eauto with graph.
      * left. eauto with graph.
      * right. right. eauto with graph.
      * left. eauto with graph.
      * right. right. eauto with graph.
  - intros [H|[[Ha Hb]|[Ha Hb]]].
    + eapply connected_incl; [|exact H]. intros l Hl. right. exact Hl.
    + apply connected_trans with a.
      { eapply connected_incl; [|exact Ha]. intros l Hl. right. exact Hl. }
      apply connected_trans with b.
      { apply connected_link. left. reflexivity. }
      eapply connected_incl; [|exact Hb]. intros l Hl. right. exact Hl.
    + apply connected_trans with b.
      { eapply connected_incl; [|exact Ha]. intros l Hl. right. exact Hl. }
      apply connected_trans with a.
      { apply connected_sym. apply connected_link. left. reflexivity. }
      eapply connected_incl; [|exact Hb]. intros l Hl. right. exact Hl.
Qed.

(** Two link lists that connect the same nodes. *)
Definition sameClasses (E E' : list Link) : Prop :=
  forall x y, connected E x y <-> connected E' x y.

Lemma sameClasses_refl E : sameClasses E E.
Proof. intros x y. reflexivity. Qed.

Lemma sameClasses_sym E E' : sameClasses E E' -> sameClasses E' E.
Proof. intros H x y. symmetry. apply H. Qed.

Lemma sameClasses_trans E E' E'' :
  sameClasses E E' -> sameClasses E' E'' -> sameClasses E E''.
Proof. intros H1 H2 x y. rewrite (H1 x y). apply H2. Qed.

Lemma sameClasses_incl E E' : incl E E' -> incl E' E -> sameClasses E E'.
Proof. intros H1 H2 x y. split; apply connected_incl; assumption. Qed.

Lemma sameClasses_cons E E' l :
  sameClasses E E' -> sameClasses (l :: E) (l :: E').
Proof.
  intros H x y. destruct l as [a b]. rewrite !connected_cons.
  rewrite (H x y), (H x a), (H b y), (H x b), (H a y). reflexivity.
Qed.

Lemma sameClasses_app_r E E' F :
  sameClasses E E' -> sameClasses (F ++ E) (F ++ E').
Proof.
  intros H. induction F as [|l F IH]; [exact H|].
  simpl. apply sameClasses_cons. exact IH.
Qed.

Lemma sameClasses_app_l E E' F :
  sameClasses E E' -> sameClasses (E ++ F) (E' ++ F).
Proof.
  intros H.
  apply sameClasses_trans with (F ++ E);
    [apply sameClasses_incl; intros l Hl; apply in_app_iff in Hl;
     apply in_app_iff; tauto|].
  apply sameClasses_trans with (F ++ E'); [apply sameClasses_app_r; exact H|].
  apply sameClasses_incl; intros l Hl; apply in_app_iff in Hl;
    apply in_app_iff; tauto.
Qed.

(** A link between connected nodes adds nothing. *)
Lemma sameClasses_redundant E a b :
  connected E a b -> sameClasses ((a, b) :: E) E.
Proof.
  intros Hab x y. rewrite connected_cons. split.
  - intros [H|[[Ha Hb]|[Ha Hb]]]; eauto with graph.
  - intros H. left. exact H.
Qed.

(** Two links that merge the same two classes. *)
Lemma sameClasses_exchange E a b c d :
  connected ((c, d) :: E) a b -> ~ connected E a b ->
  sameClasses ((a, b) :: E) ((c, d) :: E).
Proof.
  intros Hcd Hab. apply connected_cons in Hcd.
  assert (Hends : (connected E a c /\ connected E b d)
                  \/ (connected E a d /\ connected E b c)).
  { destruct Hcd as [H|[[Ha Hb]|[Ha Hb]]]; [contradiction|left|right];
      split; auto using connected_sym. }
  clear Hcd. intros x y. rewrite !connected_cons.
  destruct Hends as [[Hac Hbd]|[Had Hbc]]; split;
    intros [H|[[Hx Hy]|[Hx Hy]]]; try (left; exact H).
  - right. left. split.
    + apply connected_trans with a; assumption.
    + apply connected_trans with b; [apply connected_sym|]; assumption.
  - right. right. split.
    + apply connected_trans with b; assumption.
    + apply connected_trans with a; [apply connected_sym|]; assumption.
  - right. left. split.
    + apply connected_trans with c; [|apply connected_sym]; assumption.
    + apply connected_trans with d; assumption.
  - right. right. split.
    + apply connected_trans with d; [|apply connected_sym]; assumption.
    + apply connected_trans with c; assumption.
  - right. right. split.
    + apply connected_trans with a; assumption.
    + apply connected_trans with b; [apply connected_sym|]; assumption.
  - right. left. split.
    + apply connected_trans with b; assumption.
    + apply connected_trans with a; [apply connected_sym|]; assumption.
  - right. right. split.
    + apply connected_trans with c; [|apply connected_sym]; assumption.
    + apply connected_trans with d; assumption.
  - right. left. split.
    + apply connected_trans with d; [|apply connected_sym]; assumption.
    + apply connected_trans with c; assumption.
Qed.

(* ================================================================== *)
(** * Forests, spanning forests and the greedy choice *)
(* ================================================================== *)

Definition linkOf (e : Kruskal.Edge) : Link := (Kruskal.u e, Kruskal.v e).

Definition links (T : list Kruskal.Edge) : list Link := map linkOf T.

(** The weight of a finite edge. *)
Definition cost (e : Kruskal.Edge) : Q :=
  match Kruskal.weight e with
  | Kruskal.Finite w => w
  | Kruskal.Infinity => 0%Q
  end.

Fixpoint totalWeight (T : list Kruskal.Edge) : Q :=
  match T with
  | [] => 0%Q
  | e :: T' => (cost e + totalWeight T')%Q
  end.

(** [T] has no cycle, also not together with the links of [E0]: no edge
    of [T] joins two nodes that [E0] and the other edges of [T] connect. *)
Definition acyclicOver (E0 : list Link) (T : list Kruskal.Edge) : Prop :=
  forall T1 f T2, T = T1 ++ f :: T2 ->
    ~ connected (E0 ++ links (T1 ++ T2)) (Kruskal.u f) (Kruskal.v f).

Definition acyclic (T : list Kruskal.Edge) : Prop := acyclicOver [] T.

(** The same, edge after edge: every edge of [T] joins two nodes that [E0]
    and the edges before it do not connect. *)
Fixpoint forestOver (E0 : list Link) (T : list Kruskal.Edge) : Prop :=
  match T with
  | [] => True
  | t :: T' =>
      ~ connected E0 (Kruskal.u t) (Kruskal.v t) /\ forestOver (linkOf t :: E0) T'
  end.

(** The greedy choice over a list of edges, starting from the links [E0]:
    an edge is taken when its end points are not connected yet. *)
Inductive greedy : list Link -> list Kruskal.Edge -> list Kruskal.Edge -> Prop :=
| greedy_nil E0 : greedy E0 [] []
| greedy_skip E0 e L M :
    connected E0 (Kruskal.u e) (Kruskal.v e) ->
    greedy E0 L M -> greedy E0 (e :: L) M
| greedy_take E0 e L M :
    ~ connected E0 (Kruskal.u e) (Kruskal.v e) ->
    greedy (linkOf e :: E0) L M -> greedy E0 (e :: L) (e :: M).

(** [l1] is [l2] with some entries left out. *)
Inductive subseq {A : Type} : list A -> list A -> Prop :=
| subseq_nil : subseq [] []
| subseq_skip x l1 l2 : subseq l1 l2 -> subseq l1 (x :: l2)
| subseq_take x l1 l2 : subseq l1 l2 -> subseq (x :: l1) (x :: l2).

(** Settles that two link lists built from the same parts connect the same
    nodes. *)
Ltac same_links :=
  apply sameClasses_incl; intros ? ?; unfold links in *;
  repeat (rewrite ?map_app, ?in_app_iff in *; simpl in * );
  tauto.

Lemma subseq_in {A} (l1 l2 : list A) x : subseq l1 l2 -> In x l1 -> In x l2.
Proof.
  intros H. induction H; simpl; intros Hin; [contradiction| |]; tauto.
Qed.

Lemma subseq_remove {A} (l1 l2 : list A) f (l : list A) :
  subseq (l1 ++ f :: l2) l -> subseq (l1 ++ l2) l.
Proof.
  intros H. remember (l1 ++ f :: l2) as t eqn:Ht.
  revert l1 Ht. induction H as [|x t l H IH|x t l H IH]; intros l1 Ht.
  - destruct l1; discriminate.
  - constructor. apply IH. exact Ht.
  - destruct l1 as [|y l1]; simpl in Ht.
    + injection Ht as -> ->. simpl. constructor. exact H.
    + injection Ht as -> ->. simpl. apply subseq_take. apply IH. reflexivity.
Qed.

Lemma forestOver_same E E' T :
  sameClasses E E' -> forestOver E T -> forestOver E' T.
Proof.
  revert E E'. induction T as [|t T IH]; intros E E' Hsame H; [exact I|].
  destruct H as [Hnot Hrest]. split.
  - intros Hc. apply Hnot. apply Hsame. exact Hc.
  - eapply IH; [|exact Hrest]. apply sameClasses_cons. exact Hsame.
Qed.

(** The edges of a forest over a link do not connect its end points
    behind its back. *)
Lemma forest_no_bypass M : forall E0 c d,
  forestOver ((c, d) :: E0) M -> ~ connected E0 c d ->
  ~ connected (E0 ++ links M) c d.
Proof.
  induction M as [|m M IH]; intros E0 c d Hforest Hnot Hconn.
  - simpl in Hconn. rewrite app_nil_r in Hconn. contradiction.
  - destruct Hforest as [Hm Hrest].
    apply (IH (linkOf m :: E0) c d).
    + eapply forestOver_same; [|exact Hrest]. same_links.
    + intros Hc. apply Hm. unfold linkOf in Hc. apply connected_cons in Hc.
      apply connected_cons.
      destruct Hc as [Hc|[[Ha Hb]|[Ha Hb]]]; [contradiction| |].
      * right. left. split; apply connected_sym; assumption.
      * right. right. split; assumption.
    + assert (Hs : sameClasses (E0 ++ links (m :: M)) ((linkOf m :: E0) ++ links M))
        by same_links.
      apply Hs. exact Hconn.
Qed.

Lemma forestOver_acyclicOver M : forall E0, forestOver E0 M -> acyclicOver E0 M.
Proof.
  induction M as [|t M IH]; intros E0 Hforest T1 f T2 Hsplit Hconn.
  - destruct T1; discriminate.
  - destruct Hforest as [Ht Hrest]. destruct T1 as [|t1 T1]; simpl in Hsplit.
    + injection Hsplit as Hf HM. subst t M. simpl in Hconn.
      apply (forest_no_bypass T2 E0 (Kruskal.u f) (Kruskal.v f)); assumption.
    + injection Hsplit as Hf HM. subst t M.
      apply (IH _ Hrest T1 f T2 eq_refl).
      assert (Hs : sameClasses (E0 ++ links ((t1 :: T1) ++ T2))
                     ((linkOf t1 :: E0) ++ links (T1 ++ T2))) by same_links.
      apply Hs. exact Hconn.
Qed.

Lemma acyclicOver_forestOver T : forall E0, acyclicOver E0 T -> forestOver E0 T.
Proof.
  induction T as [|t T IH]; intros E0 Hacyclic; [exact I|]. split.
  - intros Hc. apply (Hacyclic [] t T eq_refl).
    eapply connected_incl; [|exact Hc]. intros l Hl. apply in_app_iff. left. exact Hl.
  - apply IH. intros T1 f T2 Hsplit Hconn.
    apply (Hacyclic (t :: T1) f T2); [simpl; rewrite Hsplit; reflexivity|].
    assert (Hs : sameClasses ((linkOf t :: E0) ++ links (T1 ++ T2))
                   (E0 ++ links ((t :: T1) ++ T2))) by same_links.
    apply Hs. exact Hconn.
Qed.

(** Exchange.  When a forest [T] over [E0] connects [a] and [b] and [E0]
    does not, one edge of [T] can be given up for the link [(a, b)]: the
    rest is a forest over [(a, b) :: E0] and connects what [T] connected. *)
Lemma forest_exchange T : forall E0 a b,
  ~ connected E0 a b -> connected (E0 ++ links T) a b -> forestOver E0 T ->
  exists T1 f T2,
    T = T1 ++ f :: T2 /\
    forestOver ((a, b) :: E0) (T1 ++ T2) /\
    (forall x y, connected (E0 ++ links T) x y ->
                 connected (((a, b) :: E0) ++ links (T1 ++ T2)) x y).
Proof.
  induction T as [|t T IH]; intros E0 a b Hnot Hconn Hforest.
  - simpl in Hconn. rewrite app_nil_r in Hconn. contradiction.
  - destruct Hforest as [Ht Hrest].
    destruct (classic (connected (linkOf t :: E0) a b)) as [Hjoin|Hapart].
    + exists [], t, T. split; [reflexivity|].
      assert (Hsame : sameClasses ((a, b) :: E0) (linkOf t :: E0))
        by (apply sameClasses_exchange; assumption).
      split.
      * simpl. eapply forestOver_same; [|exact Hrest].
        apply sameClasses_sym. exact Hsame.
      * intros x y Hxy. simpl app.
        assert (Hs1 : sameClasses (E0 ++ links (t :: T)) ((linkOf t :: E0) ++ links T))
          by same_links.
        apply Hs1 in Hxy.
        apply (sameClasses_app_l _ _ (links T) Hsame). exact Hxy.
    + destruct (IH (linkOf t :: E0) a b Hapart) as (T1 & f & T2 & Hsplit & Hf & Hspan).
      * assert (Hs : sameClasses (E0 ++ links (t :: T)) ((linkOf t :: E0) ++ links T))
          by same_links.
        apply Hs. exact Hconn.
      * exact Hrest.
      * exists (t :: T1), f, T2. split; [simpl; rewrite Hsplit; reflexivity|].
        split.
        -- simpl. split.
           ++ intros Hc. apply Hapart. unfold linkOf.
              apply connected_cons in Hc. apply connected_cons.
              destruct Hc as [Hc|[[Ha Hb]|[Ha Hb]]]; [contradiction| |].
              ** right. left. split; apply connected_sym; assumption.
              ** right. right. split; assumption.
           ++ eapply forestOver_same; [|exact Hf]. same_links.
        -- intros x y Hxy.
           assert (Hs1 : sameClasses (E0 ++ links (t :: T))
                           ((linkOf t :: E0) ++ links T)) by same_links.
           apply Hs1 in Hxy. apply Hspan in Hxy.
           assert (Hs2 : sameClasses (((a, b) :: linkOf t :: E0) ++ links (T1 ++ T2))
                           (((a, b) :: E0) ++ links ((t :: T1) ++ T2))) by same_links.
           apply Hs2. exact Hxy.
Qed.

Lemma greedy_subseq E0 L M : greedy E0 L M -> subseq M L.
Proof. intros H. induction H; constructor; assumption. Qed.

Lemma greedy_forest E0 L M : greedy E0 L M -> forestOver E0 M.
Proof. intros H. induction H; simpl; auto. Qed.

(** The greedy choice connects what the whole list connects. *)
Lemma greedy_spans E0 L M :
  greedy E0 L M -> sameClasses (E0 ++ links L) (E0 ++ links M).
Proof.
  intros H. induction H as [E0|E0 e L M He H IH|E0 e L M He H IH].
  - apply sameClasses_refl.
  - apply sameClasses_trans with (E0 ++ links L); [|exact IH].
    apply sameClasses_trans with (linkOf e :: (E0 ++ links L)); [same_links|].
    apply sameClasses_redundant.
    eapply connected_incl; [|exact He]. intros l Hl. apply in_app_iff. left. exact Hl.
  - apply sameClasses_trans with ((linkOf e :: E0) ++ links L); [same_links|].
    apply sameClasses_trans with ((linkOf e :: E0) ++ links M); [exact IH|].
    same_links.
Qed.

Lemma totalWeight_app T1 T2 :
  (totalWeight (T1 ++ T2) == totalWeight T1 + totalWeight T2)%Q.
Proof.
  induction T1 as [|t T1 IH]; simpl; [lra|]. rewrite IH. lra.
Qed.

(** The edges in ascending order of weight. *)
Definition ascending (L : list Kruskal.Edge) : Prop :=
  StronglySorted (fun a b => (cost a <= cost b)%Q) L.

(** The greedy choice over an ascending list weighs no more than any
    forest chosen from the list that connects what the list connects. *)
Lemma greedy_minimal E0 L M :
  greedy E0 L M -> ascending L ->
  forall T, subseq T L -> forestOver E0 T ->
    (forall x y, connected (E0 ++ links L) x y -> connected (E0 ++ links T) x y) ->
    (totalWeight M <= totalWeight T)%Q.
Proof.
  intros H. induction H as [E0|E0 e L M He H IH|E0 e L M He H IH];
    intros Hasc T Hsub Hforest Hspan.
  - inversion Hsub. subst. simpl. lra.
  - apply StronglySorted_inv in Hasc. destruct Hasc as [Hasc _].
    inversion Hsub as [|x l1 l2 Hsub'|x l1 l2 Hsub']; subst.
    + apply IH; try assumption.
      intros x y Hxy. apply Hspan.
      eapply connected_incl; [|exact Hxy].
      intros l Hl. apply in_app_iff in Hl. apply in_app_iff. simpl. tauto.
    + exfalso. destruct Hforest as [Hn _]. contradiction.
  - apply StronglySorted_inv in Hasc. destruct Hasc as [Hasc Hmin].
    inversion Hsub as [|x l1 l2 Hsub'|x l1 l2 Hsub']; subst.
    + (* [e] is not in [T]: give up an edge of [T] for it *)
      assert (Hab : connected (E0 ++ links T) (Kruskal.u e) (Kruskal.v e)).
      { apply Hspan. apply connected_link. apply in_app_iff. right. left. reflexivity. }
      destruct (forest_exchange T E0 _ _ He Hab Hforest)
        as (T1 & f & T2 & Hsplit & Hf & Hconn).
      assert (Hle : (totalWeight M <= totalWeight (T1 ++ T2))%Q).
      { apply IH; try assumption.
        - subst T. eapply subseq_remove. exact Hsub'.
        - intros x y Hxy. apply Hconn. apply Hspan.
          assert (Hs : sameClasses ((linkOf e :: E0) ++ links L)
                         (E0 ++ links (e :: L))) by same_links.
          apply Hs. exact Hxy. }
      assert (Hcost : (cost e <= cost f)%Q).
      { rewrite Forall_forall in Hmin. apply Hmin.
        eapply subseq_in; [exact Hsub'|]. subst T. apply in_app_iff. right. left.
        reflexivity. }
      subst T. rewrite totalWeight_app in *. simpl. lra.
    + (* [e] is the first edge of [T] *)
      destruct Hforest as [_ Hrest]. simpl.
      assert (Hle : (totalWeight M <= totalWeight l1)%Q).
      { apply IH; try assumption.
        intros x y Hxy.
        assert (Hs1 : sameClasses ((linkOf e :: E0) ++ links L)
                        (E0 ++ links (e :: L))) by same_links.
        assert (Hs2 : sameClasses (E0 ++ links (e :: l1))
                        ((linkOf e :: E0) ++ links l1)) by same_links.
        apply Hs2. apply Hspan. apply Hs1. exact Hxy. }
      lra.
Qed.

(* ================================================================== *)
(** * Properties of [UnionFind] *)
(* ================================================================== *)

Lemma set_length parent i p : length (UnionFind.set parent i p) = length parent.
Proof.
  revert i. induction parent as [|x parent IH]; intros i; [reflexivity|].
  destruct i; simpl; [reflexivity|]. rewrite IH. reflexivity.
Qed.

Lemma get_outside parent i : (length parent <= i)%nat -> UnionFind.get parent i = i.
Proof. intros H. unfold UnionFind.get. apply nth_overflow. exact H. Qed.

Lemma get_set_same parent i p :
  (i < length parent)%nat -> UnionFind.get (UnionFind.set parent i p) i = p.
Proof.
  unfold UnionFind.get. revert i. induction parent as [|x parent IH]; intros i Hi.
  - simpl in Hi. lia.
  - destruct i; simpl; [reflexivity|].
    simpl in Hi. pose proof (IH i ltac:(lia)) as H.
    erewrite nth_indep; [exact H|]. rewrite set_length. lia.
Qed.

Lemma get_set_other parent i j p :
  i <> j -> UnionFind.get (UnionFind.set parent i p) j = UnionFind.get parent j.
Proof.
  unfold UnionFind.get. revert i j.
  induction parent as [|x parent IH]; intros i j Hij; [reflexivity|].
  destruct i, j; simpl; try reflexivity; try lia.
  destruct (Nat.lt_ge_cases j (length parent)) as [Hj|Hj].
  - rewrite (nth_indep _ (S j) j) by (rewrite set_length; exact Hj).
    rewrite (nth_indep parent (S j) j) by exact Hj.
    apply IH. lia.
  - rewrite !nth_overflow; [reflexivity|exact Hj|rewrite set_length; exact Hj].
Qed.

(** [r] is the root above [i]: the end of the chain of parents. *)
Inductive reach (parent : UnionFind.t) : nat -> nat -> Prop :=
| reach_root i : UnionFind.get parent i = i -> reach parent i i
| reach_step i r :
    UnionFind.get parent i <> i -> reach parent (UnionFind.get parent i) r ->
    reach parent i r.

(** The same with the number of links on the way. *)
Inductive reachIn (parent : UnionFind.t) : nat -> nat -> nat -> Prop :=
| reachIn_root i : UnionFind.get parent i = i -> reachIn parent O i i
| reachIn_step k i r :
    UnionFind.get parent i <> i -> reachIn parent k (UnionFind.get parent i) r ->
    reachIn parent (S k) i r.

Lemma reach_is_root parent i r : reach parent i r -> UnionFind.get parent r = r.
Proof. intros H. induction H; assumption. Qed.

Lemma reach_functional parent i r r' : reach parent i r -> reach parent i r' -> r = r'.
Proof.
  intros H. revert r'. induction H as [i Hi|i r Hi H IH]; intros r' H'.
  - inversion H'; [reflexivity|contradiction].
  - inversion H' as [j Hj|j r'' Hj H'']; subst; [contradiction|]. apply IH. exact H''.
Qed.

Lemma reach_above parent i r :
  reach parent i r -> UnionFind.get parent i <> i ->
  reach parent (UnionFind.get parent i) r.
Proof. intros H Hne. destruct H as [i Hi|i r _ H]; [contradiction|exact H]. Qed.

Lemma reachIn_reach parent k i r : reachIn parent k i r -> reach parent i r.
Proof. intros H. induction H; [apply reach_root|apply reach_step]; assumption. Qed.

Lemma reach_reachIn parent i r : reach parent i r -> exists k, reachIn parent k i r.
Proof.
  intros H. induction H as [i Hi|i r Hi H [k IH]].
  - exists O. constructor. exact Hi.
  - exists (S k). constructor; assumption.
Qed.

(** The parent array is a forest: parents are nodes, and a measure falls
    along every chain of parents. *)
Definition wellFormed (parent : UnionFind.t) : Prop :=
  (forall i, (i < length parent)%nat -> (UnionFind.get parent i < length parent)%nat) /\
  exists d : nat -> nat,
    forall i, (i < length parent)%nat -> UnionFind.get parent i <> i ->
      (d (UnionFind.get parent i) < d i)%nat.

Lemma make_wellFormed n : wellFormed (UnionFind.make n).
Proof.
  assert (Hget : forall i, UnionFind.get (UnionFind.make n) i = i).
  { intros i. unfold UnionFind.get, UnionFind.make.
    destruct (Nat.lt_ge_cases i n) as [Hi|Hi].
    - rewrite seq_nth by exact Hi. reflexivity.
    - apply nth_overflow. rewrite length_seq. exact Hi. }
  split.
  - intros i Hi. rewrite Hget. exact Hi.
  - exists (fun _ => O). intros i _ Hne. rewrite Hget in Hne. contradiction.
Qed.

Lemma reach_total parent i : wellFormed parent -> exists r, reach parent i r.
Proof.
  intros [Hrange [d Hd]].
  remember (d i) as m eqn:Hm. revert i Hm.
  induction m as [m IH] using lt_wf_ind. intros i Hm.
  destruct (Nat.eq_dec (UnionFind.get parent i) i) as [Heq|Hne].
  - exists i. apply reach_root. exact Heq.
  - destruct (Nat.lt_ge_cases i (length parent)) as [Hi|Hi].
    + destruct (IH (d (UnionFind.get parent i)) ltac:(subst m; apply Hd; assumption)
                  (UnionFind.get parent i) eq_refl) as [r Hr].
      exists r. apply reach_step; assumption.
    + exfalso. apply Hne. apply get_outside. exact Hi.
Qed.

Lemma reach_inside parent i r :
  wellFormed parent -> (i < length parent)%nat -> reach parent i r ->
  (r < length parent)%nat.
Proof.
  intros [Hrange _] Hi H. induction H as [i _|i r Hne H IH]; [exact Hi|].
  apply IH. apply Hrange. exact Hi.
Qed.

(** The chain from a node to its root visits every node at most once, so
    it has fewer links than there are nodes. *)
Lemma reachIn_bound parent (d : nat -> nat) :
  (forall i, (i < length parent)%nat -> (UnionFind.get parent i < length parent)%nat) ->
  (forall i, (i < length parent)%nat -> UnionFind.get parent i <> i ->
     (d (UnionFind.get parent i) < d i)%nat) ->
  forall k i r, reachIn parent k i r ->
  forall visited, NoDup visited ->
    (forall x, In x visited -> (x < length parent)%nat /\ (d i < d x)%nat) ->
    (i < length parent)%nat ->
    (length visited + k < length parent)%nat.
Proof.
  intros Hrange Hd k i r H.
  induction H as [i Hroot|k i r Hne H IH]; intros visited Hnodup Hvis Hi.
  - assert (Hle : (length (i :: visited) <= length (seq 0 (length parent)))%nat).
    { apply NoDup_incl_length.
      - constructor; [|exact Hnodup]. intros Hin. apply Hvis in Hin. lia.
      - intros x [Hx|Hx]; apply in_seq; [subst x; lia|]. apply Hvis in Hx. lia. }
    rewrite length_seq in Hle. simpl in Hle. lia.
  - specialize (IH (i :: visited)).
    assert (Hlt : (d (UnionFind.get parent i) < d i)%nat) by (apply Hd; assumption).
    simpl in IH. 
    assert (length visited + 1 + k < length parent)%nat; [|lia].
    replace (length visited + 1 + k)%nat with (S (length visited + k)) by lia.
    apply IH.
    + constructor; [|exact Hnodup]. intros Hin. apply Hvis in Hin. lia.
    + intros x [Hx|Hx]; [subst x; split; [exact Hi|exact Hlt]|].
      apply Hvis in Hx. split; lia.
    + apply Hrange. exact Hi.
Qed.

Lemma reachIn_short parent k i r :
  wellFormed parent -> (i < length parent)%nat -> reachIn parent k i r ->
  (k < length parent)%nat.
Proof.
  intros [Hrange [d Hd]] Hi H.
  pose proof (reachIn_bound parent d Hrange Hd k i r H [] (NoDup_nil _)
                ltac:(intros x []) Hi) as Hb.
  simpl in Hb. exact Hb.
Qed.

(** [parent'] is [parent] with some nodes made children of their roots. *)
Definition shortcut (parent parent' : UnionFind.t) : Prop :=
  length parent' = length parent /\
  forall j, UnionFind.get parent' j = UnionFind.get parent j \/
            (UnionFind.get parent j <> j /\ reach parent j (UnionFind.get parent' j)).

Lemma findFrom_shortcut parent k i r :
  reachIn parent k i r ->
  forall fuel, (k < fuel)%nat ->
  fst (UnionFind.findFrom fuel parent i) = r /\
  shortcut parent (snd (UnionFind.findFrom fuel parent i)).
Proof.
  intros H. induction H as [i Hroot|k i r Hne H IH]; intros fuel Hfuel.
  - destruct fuel as [|fuel]; [lia|]. simpl.
    rewrite Hroot, Nat.eqb_refl. simpl. split; [reflexivity|].
    split; [reflexivity|]. intros j. left. reflexivity.
  - destruct fuel as [|fuel]; [lia|]. simpl.
    destruct (UnionFind.get parent i =? i)%nat eqn:Heq;
      [apply Nat.eqb_eq in Heq; contradiction|].
    destruct (IH fuel ltac:(lia)) as [Hr [Hlen Hsc]].
    destruct (UnionFind.findFrom fuel parent (UnionFind.get parent i))
      as [root parent'] eqn:Hfind.
    simpl in Hr, Hlen, Hsc. subst root. simpl. split; [reflexivity|].
    split; [rewrite set_length; exact Hlen|].
    intros j. destruct (Nat.eq_dec i j) as [Hij|Hij].
    + subst j. right. split; [exact Hne|].
      assert (Hi : (i < length parent')%nat).
      { rewrite Hlen. destruct (Nat.lt_ge_cases i (length parent)) as [Hi|Hi];
          [exact Hi|]. exfalso. apply Hne. apply get_outside. exact Hi. }
      rewrite get_set_same by exact Hi.
      apply reach_step; [exact Hne|]. eapply reachIn_reach. exact H.
    + rewrite get_set_other by exact Hij. apply Hsc.
Qed.

Lemma reach_measure parent (d : nat -> nat) i r :
  (forall i, (i < length parent)%nat -> (UnionFind.get parent i < length parent)%nat) ->
  (forall i, (i < length parent)%nat -> UnionFind.get parent i <> i ->
     (d (UnionFind.get parent i) < d i)%nat) ->
  (i < length parent)%nat -> reach parent i r -> i <> r -> (d r < d i)%nat.
Proof.
  intros Hrange Hd Hi H. induction H as [i _|i r Hne H IH]; intros Hir; [contradiction|].
  pose proof (Hd i Hi Hne) as Hlt.
  destruct (Nat.eq_dec (UnionFind.get parent i) r) as [Heq|Hneq].
  - rewrite <- Heq. exact Hlt.
  - specialize (IH (Hrange i Hi) Hneq). lia.
Qed.

Section Shortcut.

Variables parent parent' : UnionFind.t.
Hypothesis Hwf : wellFormed parent.
Hypothesis Hsc : shortcut parent parent'.

Lemma shortcut_reach_forward j r : reach parent j r -> reach parent' j r.
Proof.
  destruct Hsc as [Hlen Hget].
  intros H. induction H as [j Hroot|j r Hne H IH].
  - apply reach_root. destruct (Hget j) as [Hj|[Hj _]]; [congruence|contradiction].
  - destruct (Hget j) as [Hj|[_ Hj]].
    + apply reach_step; rewrite Hj; assumption.
    + assert (Hr : UnionFind.get parent' j = r).
      { eapply reach_functional; [exact Hj|]. apply reach_step; assumption. }
      assert (Hroot : UnionFind.get parent r = r).
      { eapply reach_is_root. exact H. }
      assert (Hjr : r <> j) by (intros ->; contradiction).
      apply reach_step; rewrite Hr; [exact Hjr|].
      apply reach_root. destruct (Hget r) as [Hk|[Hk _]]; [congruence|contradiction].
Qed.

Lemma shortcut_reach j r : reach parent' j r <-> reach parent j r.
Proof.
  split; [|apply shortcut_reach_forward].
  intros H. destruct (reach_total parent j Hwf) as [r0 Hr0].
  pose proof (shortcut_reach_forward j r0 Hr0) as H0.
  rewrite (reach_functional _ _ _ _ H H0). exact Hr0.
Qed.

Lemma shortcut_wellFormed : wellFormed parent'.
Proof.
  destruct Hsc as [Hlen Hget]. destruct Hwf as [Hrange [d Hd]].
  split.
  - intros j Hj. rewrite Hlen in *. destruct (Hget j) as [Hk|[_ Hk]].
    + rewrite Hk. apply Hrange. exact Hj.
    + eapply reach_inside; [exact Hwf|exact Hj|exact Hk].
  - exists d. intros j Hj Hne. rewrite Hlen in Hj.
    destruct (Hget j) as [Hk|[Hnj Hk]].
    + rewrite Hk in *. apply Hd; assumption.
    + eapply reach_measure; eauto.
Qed.

End Shortcut.

(** [find(i)] returns the root above [i]; the array it leaves behind has
    the same roots above every node. *)
Lemma find_root parent i :
  wellFormed parent -> (i < length parent)%nat ->
  let (r, parent') := UnionFind.find parent i in
  reach parent i r /\ wellFormed parent' /\ length parent' = length parent /\
  forall j r', reach parent' j r' <-> reach parent j r'.
Proof.
  intros Hwf Hi.
  destruct (reach_total parent i Hwf) as [r Hr].
  destruct (reach_reachIn _ _ _ Hr) as [k Hk].
  pose proof (reachIn_short parent k i r Hwf Hi Hk) as Hshort.
  destruct (findFrom_shortcut parent k i r Hk (length parent) Hshort) as [Hfst Hsc].
  unfold UnionFind.find.
  destruct (UnionFind.findFrom (length parent) parent i) as [r0 parent'].
  simpl in Hfst, Hsc. subst r0.
  split; [exact Hr|].
  split; [eapply shortcut_wellFormed; eassumption|].
  split; [exact (proj1 Hsc)|].
  intros j r'. eapply shortcut_reach; eassumption.
Qed.

(** The root above a node, as [find] computes it. *)
Definition rootOf (parent : UnionFind.t) (i : nat) : nat :=
  fst (UnionFind.find parent i).

Lemma rootOf_reach parent i :
  wellFormed parent -> (i < length parent)%nat -> reach parent i (rootOf parent i).
Proof.
  intros Hwf Hi. unfold rootOf.
  pose proof (find_root parent i Hwf Hi) as H.
  destruct (UnionFind.find parent i) as [r parent']. simpl. exact (proj1 H).
Qed.

Lemma rootOf_unique parent i r :
  wellFormed parent -> (i < length parent)%nat -> reach parent i r ->
  rootOf parent i = r.
Proof.
  intros Hwf Hi Hr. eapply reach_functional; [|exact Hr]. apply rootOf_reach; assumption.
Qed.

(** Making one root the child of another: the nodes under the first root
    get the second root, all others keep theirs. *)
Lemma link_reach parent rootI rootJ :
  wellFormed parent ->
  (rootI < length parent)%nat -> (rootJ < length parent)%nat ->
  UnionFind.get parent rootI = rootI -> UnionFind.get parent rootJ = rootJ ->
  rootI <> rootJ ->
  let parent' := UnionFind.set parent rootI rootJ in
  wellFormed parent' /\ length parent' = length parent /\
  forall j, (j < length parent)%nat ->
    rootOf parent' j
    = if (rootOf parent j =? rootI)%nat then rootJ else rootOf parent j.
Proof.
  intros Hwf HI HJ HrI HrJ Hne parent'.
  assert (Hlen : length parent' = length parent) by apply set_length.
  assert (HgetI : UnionFind.get parent' rootI = rootJ)
    by (apply get_set_same; exact HI).
  assert (Hget : forall j, j <> rootI -> UnionFind.get parent' j = UnionFind.get parent j).
  { intros j Hj. apply get_set_other. congruence. }
  assert (Hwf' : wellFormed parent').
  { destruct Hwf as [Hrange [d Hd]]. split.
    - intros j Hj. rewrite Hlen in Hj |- *.
      destruct (Nat.eq_dec j rootI) as [->|Hj']; [rewrite HgetI; exact HJ|].
      rewrite Hget by exact Hj'. apply Hrange. exact Hj.
    - exists (fun j => if (rootOf parent j =? rootI)%nat
                       then (d j + d rootJ + 1)%nat else d j).
      intros j Hj Hnj. rewrite Hlen in Hj.
      destruct (Nat.eq_dec j rootI) as [->|Hj'].
      + rewrite HgetI.
        rewrite (rootOf_unique parent rootJ rootJ (conj Hrange (ex_intro _ d Hd)) HJ
                   (reach_root _ _ HrJ)).
        rewrite (rootOf_unique parent rootI rootI (conj Hrange (ex_intro _ d Hd)) HI
                   (reach_root _ _ HrI)).
        rewrite Nat.eqb_refl.
        destruct (rootJ =? rootI)%nat eqn:E; [apply Nat.eqb_eq in E; congruence|]. lia.
      + rewrite Hget in Hnj |- * by exact Hj'.
        pose proof (Hd j Hj Hnj) as Hlt.
        assert (Hsame : rootOf parent (UnionFind.get parent j) = rootOf parent j).
        { apply rootOf_unique; [exact (conj Hrange (ex_intro _ d Hd))|apply Hrange; exact Hj|].
          apply reach_above; [|exact Hnj].
          apply rootOf_reach; [exact (conj Hrange (ex_intro _ d Hd))|exact Hj]. }
        rewrite Hsame. destruct (rootOf parent j =? rootI)%nat; lia. }
  split; [exact Hwf'|]. split; [exact Hlen|].
  intros j Hj.
  apply rootOf_unique; [exact Hwf'|rewrite Hlen; exact Hj|].
  pose proof (rootOf_reach parent j Hwf Hj) as Hr.
  induction Hr as [j Hroot|j r Hnj Hr IH].
  - destruct (Nat.eqb_spec j rootI) as [->|Hj'].
    + apply reach_step; rewrite HgetI; [congruence|].
      apply reach_root. rewrite Hget by congruence. exact HrJ.
    + apply reach_root. rewrite Hget by exact Hj'. exact Hroot.
  - assert (Hj' : j <> rootI) by (intros ->; contradiction).
    apply reach_step; rewrite Hget by exact Hj'; [exact Hnj|].
    apply IH. destruct Hwf as [Hrange _]. apply Hrange. exact Hj.
Qed.

(* ================================================================== *)
(** * The spanning tree of [generateGraphPaths] *)
(* ================================================================== *)

Lemma connected_nil x y : connected [] x y -> x = y.
Proof. intros H. induction H; try congruence. contradiction. Qed.

(** The union-find structure over [n] nodes stands for the links [E]: two
    nodes have the same root exactly when [E] connects them. *)
Definition represents (n : nat) (parent : UnionFind.t) (E : list Link) : Prop :=
  wellFormed parent /\ length parent = n /\
  forall i j, (i < n)%nat -> (j < n)%nat ->
    (rootOf parent i = rootOf parent j <-> connected E i j).

Lemma make_represents n : represents n (UnionFind.make n) [].
Proof.
  pose proof (make_wellFormed n) as Hwf.
  assert (Hlen : length (UnionFind.make n) = n) by apply length_seq.
  split; [exact Hwf|]. split; [exact Hlen|].
  assert (Hroot : forall i, (i < n)%nat -> rootOf (UnionFind.make n) i = i).
  { intros i Hi. apply rootOf_unique; [exact Hwf|rewrite Hlen; exact Hi|].
    apply reach_root. unfold UnionFind.get, UnionFind.make.
    apply seq_nth. exact Hi. }
  intros i j Hi Hj. rewrite !Hroot by assumption. split.
  - intros ->. constructor.
  - apply connected_nil.
Qed.

(** [find] does not change what the structure stands for. *)
Lemma find_represents n parent E i :
  represents n parent E -> (i < n)%nat ->
  fst (UnionFind.find parent i) = rootOf parent i /\
  represents n (snd (UnionFind.find parent i)) E /\
  forall j, (j < n)%nat ->
    rootOf (snd (UnionFind.find parent i)) j = rootOf parent j.
Proof.
  intros (Hwf & Hlen & Hconn) Hi. split; [reflexivity|].
  pose proof (find_root parent i Hwf ltac:(rewrite Hlen; exact Hi)) as H.
  destruct (UnionFind.find parent i) as [r parent'] eqn:Hfind. simpl.
  destruct H as (_ & Hwf' & Hlen' & Hreach).
  assert (Hroot : forall j, (j < n)%nat -> rootOf parent' j = rootOf parent j).
  { intros j Hj. apply rootOf_unique; [exact Hwf'|rewrite Hlen', Hlen; exact Hj|].
    apply Hreach. apply rootOf_reach; [exact Hwf|rewrite Hlen; exact Hj]. }
  split; [|exact Hroot].
  split; [exact Hwf'|]. split; [rewrite Hlen'; exact Hlen|].
  intros a b Ha Hb. rewrite !Hroot by assumption. apply Hconn; assumption.
Qed.

(** [union] of two nodes that are not connected adds their link. *)
Lemma union_represents n parent E a b :
  represents n parent E -> (a < n)%nat -> (b < n)%nat ->
  rootOf parent a <> rootOf parent b ->
  represents n (UnionFind.union parent a b) ((a, b) :: E).
Proof.
  intros Hrep Ha Hb Hne. unfold UnionFind.union.
  destruct (find_represents n parent E a Hrep Ha) as (Hra & Hrep1 & Hroot1).
  destruct (UnionFind.find parent a) as [rootI parent1]. simpl in *.
  destruct (find_represents n parent1 E b Hrep1 Hb) as (Hrb & Hrep2 & Hroot2).
  destruct (UnionFind.find parent1 b) as [rootJ parent2]. simpl in *.
  rewrite Hroot1 in Hrb by exact Hb. subst rootI rootJ.
  destruct (rootOf parent a =? rootOf parent b)%nat eqn:Heq;
    [apply Nat.eqb_eq in Heq; contradiction|].
  destruct Hrep as (Hwf & Hlen & Hconn).
  destruct Hrep2 as (Hwf2 & Hlen2 & Hconn2).
  assert (Hr2 : forall j, (j < n)%nat -> rootOf parent2 j = rootOf parent j).
  { intros j Hj. rewrite Hroot2, Hroot1 by exact Hj. reflexivity. }
  assert (HrootA : reach parent2 a (rootOf parent a)).
  { rewrite <- (Hr2 a Ha). apply rootOf_reach; [exact Hwf2|rewrite Hlen2; exact Ha]. }
  assert (HrootB : reach parent2 b (rootOf parent b)).
  { rewrite <- (Hr2 b Hb). apply rootOf_reach; [exact Hwf2|rewrite Hlen2; exact Hb]. }
  pose proof (link_reach parent2 (rootOf parent a) (rootOf parent b) Hwf2
                ltac:(eapply reach_inside; [exact Hwf2| |exact HrootA]; lia)
                ltac:(eapply reach_inside; [exact Hwf2| |exact HrootB]; lia)
                (reach_is_root _ _ _ HrootA) (reach_is_root _ _ _ HrootB) Hne)
    as (Hwf' & Hlen' & Hroot').
  split; [exact Hwf'|]. split; [rewrite Hlen'; exact Hlen2|].
  intros i j Hi Hj.
  rewrite !Hroot' by (rewrite Hlen2; assumption).
  rewrite !Hr2 by assumption.
  rewrite connected_cons.
  rewrite <- (Hconn i j), <- (Hconn i a), <- (Hconn b j), <- (Hconn i b), <- (Hconn a j)
    by assumption.
  destruct (Nat.eqb_spec (rootOf parent i) (rootOf parent a)) as [Hia|Hia];
    destruct (Nat.eqb_spec (rootOf parent j) (rootOf parent a)) as [Hja|Hja];
    split; intros H.
  - left. congruence.
  - reflexivity.
  - right. left. split; congruence.
  - destruct H as [H|[[H1 H2]|[H1 H2]]]; congruence.
  - right. right. split; congruence.
  - destruct H as [H|[[H1 H2]|[H1 H2]]]; congruence.
  - left. exact H.
  - destruct H as [H|[[H1 H2]|[H1 H2]]]; congruence.
Qed.

(** The candidate edges of finite weight, in the order of the list. *)
Definition isFinite (e : Kruskal.Edge) : bool :=
  match Kruskal.weight e with
  | Kruskal.Finite _ => true
  | Kruskal.Infinity => false
  end.

Definition finiteEdges (l : list Kruskal.Edge) : list Kruskal.Edge :=
  filter isFinite l.

(** The end points of an edge are nodes. *)
Definition inRange (n : nat) (e : Kruskal.Edge) : Prop :=
  (Kruskal.u e < n)%nat /\ (Kruskal.v e < n)%nat.

(** The pass over the edges makes the greedy choice among the edges of
    finite weight. *)
Lemma pass_greedy n L : forall st E0,
  Forall (inRange n) L -> represents n (Kruskal.uf st) E0 ->
  exists M,
    greedy E0 (finiteEdges L) M /\
    Kruskal.mstEdges (fold_left Kruskal.step L st) = Kruskal.mstEdges st ++ links M.
Proof.
  induction L as [|e L IH]; intros st E0 Hrange Hrep.
  - exists []. split; [constructor|]. simpl. rewrite app_nil_r. reflexivity.
  - inversion Hrange as [|e' L' [Hu Hv] Hrange']; subst.
    simpl fold_left. unfold finiteEdges. simpl filter. unfold isFinite at 1.
    unfold Kruskal.step at 2.
    destruct (Kruskal.weight e) as [w|] eqn:Hw.
    + destruct (find_represents n _ E0 (Kruskal.u e) Hrep Hu) as (Hru & Hrep1 & Hroot1).
      destruct (UnionFind.find (Kruskal.uf st) (Kruskal.u e)) as [rootU uf1].
      simpl in Hru, Hrep1, Hroot1.
      destruct (find_represents n _ E0 (Kruskal.v e) Hrep1 Hv) as (Hrv & Hrep2 & Hroot2).
      destruct (UnionFind.find uf1 (Kruskal.v e)) as [rootV uf2].
      simpl in Hrv, Hrep2, Hroot2.
      rewrite Hroot1 in Hrv by exact Hv. subst rootU rootV.
      assert (Hr2 : forall j, (j < n)%nat ->
                rootOf uf2 j = rootOf (Kruskal.uf st) j).
      { intros j Hj. rewrite Hroot2, Hroot1 by exact Hj. reflexivity. }
      destruct Hrep as (Hwf & Hlen & Hconn).
      destruct (Nat.eqb_spec (rootOf (Kruskal.uf st) (Kruskal.u e))
                             (rootOf (Kruskal.uf st) (Kruskal.v e))) as [Heq|Hne];
        cbn [negb].
      * destruct (IH (Kruskal.mkState uf2 (Kruskal.mstEdges st)
                        (Kruskal.remainingEdges st ++ [(Kruskal.u e, Kruskal.v e)]))
                    E0 Hrange' Hrep2) as (M & Hg & Hmst).
        exists M. split; [|exact Hmst].
        apply greedy_skip; [|exact Hg]. apply Hconn; assumption.
      * assert (Hrep' : represents n (UnionFind.union uf2 (Kruskal.u e) (Kruskal.v e))
                          (linkOf e :: E0)).
        { apply union_represents; try assumption. rewrite !Hr2 by assumption. exact Hne. }
        destruct (IH (Kruskal.mkState (UnionFind.union uf2 (Kruskal.u e) (Kruskal.v e))
                        (Kruskal.mstEdges st ++ [(Kruskal.u e, Kruskal.v e)])
                        (Kruskal.remainingEdges st))
                    (linkOf e :: E0) Hrange' Hrep') as (M & Hg & Hmst).
        exists (e :: M). split.
        -- apply greedy_take; [|exact Hg]. intros Hc. apply Hne. apply Hconn; assumption.
        -- rewrite Hmst. cbn [Kruskal.mstEdges]. rewrite <- app_assoc. reflexivity.
    + destruct (IH st E0 Hrange' Hrep) as (M & Hg & Hmst).
      exists M. split; assumption.
Qed.

(** ** The sort *)

Lemma insert_permutation a l : Permutation (Kruskal.insert a l) (a :: l).
Proof.
  induction l as [|h l IH]; simpl; [reflexivity|].
  destruct (Kruskal.notAfter a h); [reflexivity|].
  rewrite IH. apply perm_swap.
Qed.

Lemma sort_permutation l : Permutation (Kruskal.sort l) l.
Proof.
  induction l as [|a l IH]; simpl; [reflexivity|].
  rewrite insert_permutation, IH. reflexivity.
Qed.

Lemma notAfter_total a b : Kruskal.notAfter a b = false -> Kruskal.notAfter b a = true.
Proof.
  unfold Kruskal.notAfter.
  destruct (Kruskal.weight a) as [x|], (Kruskal.weight b) as [y|]; try congruence.
  intros H. apply Qle_bool_iff.
  destruct (Qlt_le_dec y x) as [Hlt|Hle]; [apply Qlt_le_weak; exact Hlt|].
  apply Qle_bool_iff in Hle. congruence.
Qed.

Lemma notAfter_trans a b c :
  Kruskal.notAfter a b = true -> Kruskal.notAfter b c = true ->
  Kruskal.notAfter a c = true.
Proof.
  unfold Kruskal.notAfter.
  destruct (Kruskal.weight a) as [x|], (Kruskal.weight b) as [y|],
    (Kruskal.weight c) as [z|]; try congruence.
  rewrite !Qle_bool_iff. apply Qle_trans.
Qed.

Lemma insert_sorted a l :
  StronglySorted (fun x y => Kruskal.notAfter x y = true) l ->
  StronglySorted (fun x y => Kruskal.notAfter x y = true) (Kruskal.insert a l).
Proof.
  intros Hl. induction Hl as [|h l Hl IH Hh]; simpl.
  - constructor; constructor.
  - destruct (Kruskal.notAfter a h) eqn:Hah.
    + constructor; [constructor; assumption|].
      constructor; [exact Hah|].
      eapply Forall_impl; [|exact Hh]. intros c Hc. eapply notAfter_trans; eassumption.
    + constructor; [exact IH|].
      eapply Permutation_Forall; [symmetry; apply insert_permutation|].
      constructor; [apply notAfter_total; exact Hah|exact Hh].
Qed.

Lemma sort_sorted l :
  StronglySorted (fun x y => Kruskal.notAfter x y = true) (Kruskal.sort l).
Proof.
  induction l as [|a l IH]; simpl; [constructor|]. apply insert_sorted. exact IH.
Qed.

Lemma finiteEdges_ascending l :
  StronglySorted (fun x y => Kruskal.notAfter x y = true) l ->
  ascending (finiteEdges l).
Proof.
  intros Hl. induction Hl as [|h l Hl IH Hh]; simpl; [constructor|].
  destruct (isFinite h) eqn:Hfin; [|exact IH].
  constructor; [exact IH|].
  apply Forall_forall. intros c Hc. apply filter_In in Hc. destruct Hc as [Hin Hcfin].
  rewrite Forall_forall in Hh. specialize (Hh c Hin).
  unfold Kruskal.notAfter in Hh. unfold isFinite in Hfin, Hcfin. unfold cost.
  destruct (Kruskal.weight h), (Kruskal.weight c); try discriminate.
  apply Qle_bool_iff. exact Hh.
Qed.

(** ** Spanning forests in any order *)

Lemma links_permutation T T' : Permutation T T' -> sameClasses (links T) (links T').
Proof.
  intros H. apply sameClasses_incl; intros l Hl; unfold links in *;
    apply in_map_iff in Hl; destruct Hl as [e [He Hin]]; apply in_map_iff;
    exists e; split; try exact He.
  - eapply Permutation_in; eassumption.
  - eapply Permutation_in; [symmetry|]; eassumption.
Qed.

Lemma acyclicOver_permutation E0 T T' :
  Permutation T T' -> acyclicOver E0 T -> acyclicOver E0 T'.
Proof.
  intros Hperm Hacyclic T1' f T2' Hsplit Hconn. subst T'.
  assert (Hin : In f T).
  { eapply Permutation_in; [symmetry; exact Hperm|]. apply in_app_iff. right. left.
    reflexivity. }
  apply in_split in Hin. destruct Hin as (T1 & T2 & HT). subst T.
  apply Permutation_app_inv in Hperm.
  apply (Hacyclic T1 f T2 eq_refl).
  apply (sameClasses_app_r _ _ E0 (links_permutation _ _ Hperm)). exact Hconn.
Qed.

Lemma acyclic_tail t T : acyclic (t :: T) -> acyclic T.
Proof.
  intros H T1 f T2 Hsplit Hconn.
  apply (H (t :: T1) f T2); [simpl; rewrite Hsplit; reflexivity|].
  eapply connected_incl; [|exact Hconn].
  simpl. intros l Hl. right. exact Hl.
Qed.

(** A list without cycles has no edge twice. *)
Lemma acyclic_NoDup T : acyclic T -> NoDup T.
Proof.
  induction T as [|t T IH]; intros H; constructor.
  - intros Hin. apply (H [] t T eq_refl). simpl.
    apply connected_link. unfold links. apply in_map_iff. exists t. split; [reflexivity|exact Hin].
  - apply IH. eapply acyclic_tail. exact H.
Qed.

Lemma subseq_of_incl {A} (L : list A) : forall T,
  NoDup T -> incl T L -> exists T', subseq T' L /\ Permutation T T'.
Proof.
  induction L as [|x L IH]; intros T Hnodup Hincl.
  - destruct T as [|t T]; [exists []; split; constructor|].
    exfalso. apply (Hincl t). left. reflexivity.
  - destruct (classic (In x T)) as [Hin|Hnin].
    + apply in_split in Hin. destruct Hin as (T1 & T2 & HT). subst T.
      destruct (IH (T1 ++ T2)) as (T' & Hsub & Hperm).
      * eapply NoDup_remove_1. exact Hnodup.
      * intros y Hy.
        assert (Hy' : In y (T1 ++ x :: T2)).
        { apply in_app_iff in Hy. apply in_app_iff. simpl. tauto. }
        destruct (Hincl y Hy') as [Hxy|HL]; [|exact HL].
        subst y. exfalso. apply NoDup_remove_2 in Hnodup. contradiction.
      * exists (x :: T'). split; [apply subseq_take; exact Hsub|].
        rewrite <- Hperm. symmetry. apply Permutation_middle.
    + destruct (IH T Hnodup) as (T' & Hsub & Hperm).
      * intros y Hy. destruct (Hincl y Hy) as [Hxy|HL]; [|exact HL].
        subst y. contradiction.
      * exists T'. split; [apply subseq_skip; exact Hsub|exact Hperm].
Qed.

Lemma totalWeight_permutation T T' :
  Permutation T T' -> (totalWeight T == totalWeight T')%Q.
Proof.
  intros H. induction H; simpl; lra.
Qed.

Lemma greedy_finite E0 L M :
  greedy E0 L M -> Forall (fun e => isFinite e = true) L ->
  Forall (fun e => isFinite e = true) M.
Proof.
  intros H. induction H; intros Hall; [constructor| |];
    inversion Hall; subst; auto.
Qed.

(** C3. The edges the pass selects from the sorted candidate list form a
    set [selected] (the program records their end points in [mstEdges])
    such that: no selected edge has infinite weight; the selected edges
    have no cycle; they connect exactly the nodes that the candidate edges
    of finite weight connect; and their total weight is at most that of
    every spanning forest of the candidate edges of finite weight, that is
    of every cycle-free set of such edges that connects what they
    connect. *)
Theorem kruskal_minimum_spanning (numNodes : nat) (allEdges : list Kruskal.Edge) :
  Forall (inRange numNodes) allEdges ->
  exists selected,
    Kruskal.mstEdges (Kruskal.run numNodes allEdges) = links selected /\
    incl selected allEdges /\
    Forall (fun e => Kruskal.weight e <> Kruskal.Infinity) selected /\
    acyclic selected /\
    sameClasses (links (finiteEdges allEdges)) (links selected) /\
    forall T,
      incl T (finiteEdges allEdges) -> acyclic T ->
      (forall x y, connected (links (finiteEdges allEdges)) x y ->
                   connected (links T) x y) ->
      (totalWeight selected <= totalWeight T)%Q.
Proof.
  intros Hrange.
  assert (Hperm : Permutation (Kruskal.sort allEdges) allEdges) by apply sort_permutation.
  assert (Hrange' : Forall (inRange numNodes) (Kruskal.sort allEdges)).
  { eapply Permutation_Forall; [symmetry; exact Hperm|exact Hrange]. }
  destruct (pass_greedy numNodes (Kruskal.sort allEdges)
              (Kruskal.mkState (UnionFind.make numNodes) [] []) []
              Hrange' (make_represents numNodes)) as (M & Hgreedy & Hmst).
  assert (Hfin : sameClasses (links (finiteEdges allEdges))
                   (links (finiteEdges (Kruskal.sort allEdges)))).
  { apply sameClasses_incl; intros l Hl; unfold links, finiteEdges in *;
      apply in_map_iff in Hl; destruct Hl as [e [He Hin]]; apply in_map_iff;
      exists e; (split; [exact He|]); apply filter_In in Hin; apply filter_In;
      (split; [|tauto]).
    - eapply Permutation_in; [symmetry; exact Hperm|tauto].
    - eapply Permutation_in; [exact Hperm|tauto]. }
  exists M. split; [exact Hmst|].
  assert (HinM : forall e, In e M -> In e (finiteEdges (Kruskal.sort allEdges))).
  { intros e He. eapply subseq_in; [eapply greedy_subseq; exact Hgreedy|exact He]. }
  split; [|split; [|split; [|split]]].
  - intros e He. apply HinM in He. apply filter_In in He.
    eapply Permutation_in; [exact Hperm|tauto].
  - apply Forall_forall. intros e He. apply HinM in He. apply filter_In in He.
    destruct He as [_ He]. unfold isFinite in He.
    destruct (Kruskal.weight e); [discriminate|discriminate He].
  - apply forestOver_acyclicOver. eapply greedy_forest. exact Hgreedy.
  - eapply sameClasses_trans; [exact Hfin|].
    apply (greedy_spans [] _ _ Hgreedy).
  - intros T Hincl Hacyclic Hspan.
    destruct (subseq_of_incl (finiteEdges (Kruskal.sort allEdges)) T
                (acyclic_NoDup T Hacyclic)) as (T' & Hsub & HpermT).
    { intros e He. apply Hincl in He. unfold finiteEdges in *.
      apply filter_In in He. apply filter_In. split; [|tauto].
      eapply Permutation_in; [symmetry; exact Hperm|tauto]. }
    rewrite (totalWeight_permutation _ _ HpermT).
    apply (greedy_minimal [] _ _ Hgreedy).
    + apply finiteEdges_ascending. apply sort_sorted.
    + exact Hsub.
    + apply acyclicOver_forestOver. eapply acyclicOver_permutation; eassumption.
    + intros x y Hxy. simpl in *.
      apply (links_permutation _ _ HpermT). apply Hspan. apply Hfin. exact Hxy.
Qed.

(** A candidate graph on five nodes: a triangle 0-1-2, a pendant path
    2-3-4, and a second edge 2-3 that crosses a river. *)
Definition sampleGraph : list Kruskal.Edge :=
  [ Kruskal.mkEdge 0 2 (Kruskal.Finite 3); Kruskal.mkEdge 2 3 Kruskal.Infinity;
    Kruskal.mkEdge 1 2 (Kruskal.Finite 2); Kruskal.mkEdge 0 1 (Kruskal.Finite 1);
    Kruskal.mkEdge 3 4 (Kruskal.Finite (1 # 2)); Kruskal.mkEdge 2 3 (Kruskal.Finite 7) ].

Example sampleGraph_run :
  Kruskal.mstEdges (Kruskal.run 5 sampleGraph)
  = [ (3, 4); (0, 1); (1, 2); (2, 3) ]%nat /\
  Kruskal.remainingEdges (Kruskal.run 5 sampleGraph) = [ (0, 2) ]%nat.
Proof. split; vm_compute; reflexivity. Qed.

Lemma sampleGraph_inRange : Forall (inRange 5) sampleGraph.
Proof. repeat constructor; simpl; lia. Qed.

Lemma kruskal_minimum_spanning_witness :
  Forall (inRange 5) sampleGraph /\
  exists selected,
    Kruskal.mstEdges (Kruskal.run 5 sampleGraph) = links selected /\
    acyclic selected /\
    sameClasses (links (finiteEdges sampleGraph)) (links selected).
Proof.
  split; [exact sampleGraph_inRange|].
  destruct (kruskal_minimum_spanning 5 sampleGraph sampleGraph_inRange)
    as (selected & Hmst & _ & _ & Hacyclic & Hspan & _).
  exists selected. auto.
Defined.

(* ================================================================== *)
(** * The triangulation: orientation and circle predicates *)
(* ================================================================== *)

Section Predicates.

Import Delaunay.
Local Open Scope Q_scope.

(** Twice the signed area of [a b c]; [det] is twice this. *)
Definition orient (a b c : Vertex2D) : Q :=
  x a * (z b - z c) + x b * (z c - z a) + x c * (z a - z b).

(** The in-circle determinant of [a b c] and [d], with [d] moved to the
    origin. *)
Definition incircle (a b c d : Vertex2D) : Q :=
  let adx := x a - x d in let adz := z a - z d in
  let bdx := x b - x d in let bdz := z b - z d in
  let cdx := x c - x d in let cdz := z c - z d in
  (adx * adx + adz * adz) * (bdx * cdz - cdx * bdz)
  + (bdx * bdx + bdz * bdz) * (cdx * adz - adx * cdz)
  + (cdx * cdx + cdz * cdz) * (adx * bdz - bdx * adz).

(** The power of [q] with respect to the circle on the diameter [a b]. *)
Definition power (a b q : Vertex2D) : Q :=
  (x q - x a) * (x q - x b) + (z q - z a) * (z q - z b).

Definition samePlace (a b : Vertex2D) : Prop := x a == x b /\ z a == z b.

Definition orient3 (t : Triangle2D) : Q := orient (v0 t) (v1 t) (v2 t).
Definition incircle3 (t : Triangle2D) (q : Vertex2D) : Q :=
  incircle (v0 t) (v1 t) (v2 t) q.

Lemma det_orient3 t : det t == 2 * orient3 t.
Proof. unfold det, orient3, orient. ring. Qed.

Lemma orient_rot a b c : orient b c a == orient a b c.
Proof. unfold orient. ring. Qed.

Lemma orient_swap a b c : orient b a c == - orient a b c.
Proof. unfold orient. ring. Qed.

Lemma orient_same_l a b : orient a a b == 0.
Proof. unfold orient. ring. Qed.

Lemma orient_same_r a b : orient a b b == 0.
Proof. unfold orient. ring. Qed.

Lemma orient_same_lr a b : orient a b a == 0.
Proof. unfold orient. ring. Qed.

Lemma incircle_rot a b c q : incircle b c a q == incircle a b c q.
Proof. unfold incircle. ring. Qed.

Lemma incircle_swap a b c q : incircle b a c q == - incircle a b c q.
Proof. unfold incircle. ring. Qed.

Lemma incircle_exchange a b c q : incircle q b c a == - incircle a b c q.
Proof. unfold incircle. ring. Qed.

Lemma incircle_exchange_mid a b c q : incircle a q c b == - incircle a b c q.
Proof. unfold incircle. ring. Qed.

Lemma incircle_vertex0 a b c : incircle a b c a == 0.
Proof. unfold incircle. ring. Qed.

Lemma incircle_vertex1 a b c : incircle a b c b == 0.
Proof. unfold incircle. ring. Qed.

Lemma incircle_vertex2 a b c : incircle a b c c == 0.
Proof. unfold incircle. ring. Qed.

(** The pencil of circles through [a] and [b]. *)
Lemma incircle_pencil a b c q :
  incircle a b c q == orient a b q * power a b c - orient a b c * power a b q.
Proof. unfold incircle, orient, power. ring. Qed.

Lemma plucker a b c p q :
  orient a b c * incircle a b p q
  == incircle a b c q * orient a b p - incircle a b c p * orient a b q.
Proof. unfold incircle, orient. ring. Qed.

Lemma lagrange a b q :
  ((x q - x a) ^ 2 + (z q - z a) ^ 2) * ((x q - x b) ^ 2 + (z q - z b) ^ 2)
  == power a b q ^ 2 + orient a b q ^ 2.
Proof. unfold orient, power. ring. Qed.

Lemma sum_squares_zero (u v : Q) : u ^ 2 + v ^ 2 == 0 -> u == 0 /\ v == 0.
Proof. intros H. split; nra. Qed.

(** A line meets a circle through [a] and [b] in [a] and [b] only. *)
Lemma line_meets_circle a b c q :
  ~ orient a b c == 0 -> orient a b q == 0 -> incircle a b c q == 0 ->
  samePlace q a \/ samePlace q b.
Proof.
  intros Hc Hq Hi.
  assert (Hp : power a b q == 0).
  { pose proof (incircle_pencil a b c q) as E.
    rewrite Hi, Hq in E.
    destruct (Qeq_dec (power a b q) 0) as [|Hn]; [assumption|].
    exfalso. apply Hc. nra. }
  pose proof (lagrange a b q) as L. rewrite Hp, Hq in L.
  destruct (Qeq_dec ((x q - x a) ^ 2 + (z q - z a) ^ 2) 0) as [Ha|Ha].
  - left. apply sum_squares_zero in Ha. unfold samePlace. split; lra.
  - right.
    assert (Hb : (x q - x b) ^ 2 + (z q - z b) ^ 2 == 0) by nra.
    apply sum_squares_zero in Hb. unfold samePlace. split; lra.
Qed.

Lemma samePlace_orient a a' b c : samePlace a a' -> orient a b c == orient a' b c.
Proof. intros [Hx Hz]. unfold orient. rewrite Hx, Hz. reflexivity. Qed.

Lemma samePlace_incircle a b c q q' :
  samePlace q q' -> incircle a b c q == incircle a b c q'.
Proof. intros [Hx Hz]. unfold incircle. cbv zeta. rewrite Hx, Hz. reflexivity. Qed.

(** The program's test against the circle it computes, as a sign of the
    determinant. *)
Lemma circumcircle_incircle t p :
  ~ det t == 0 ->
  (radiusSq (circumcircle t)
   - ((x p - cx (circumcircle t)) ^ 2 + (z p - cz (circumcircle t)) ^ 2))
  * orient3 t == incircle3 t p.
Proof.
  intros H. rewrite det_orient3 in H.
  unfold circumcircle, det, incircle3, orient3 in *. cbn [cx cz radiusSq].
  unfold incircle, orient in *. field. intros H0. apply H. rewrite H0. ring.
Qed.

Definition insideCircumcircle (t : Triangle2D) (p : Vertex2D) : Prop :=
  (x p - cx (circumcircle t)) ^ 2 + (z p - cz (circumcircle t)) ^ 2
  < radiusSq (circumcircle t).

Lemma isBad_inside t p :
  isBad p t = true <-> ~ det t == 0 /\ insideCircumcircle t p.
Proof.
  unfold isBad, insideCircumcircle.
  destruct (Qeq_bool (det t) 0) eqn:E.
  - apply Qeq_bool_iff in E. split; [discriminate | tauto].
  - assert (Hn : ~ det t == 0).
    { intros H. apply Qeq_bool_iff in H. congruence. }
    rewrite Qlt_alt.
    destruct (_ ?= _); split; intros H; try discriminate; try tauto;
      destruct H as [_ H]; discriminate.
Qed.

Lemma inside_incircle t p :
  orient3 t < 0 -> (insideCircumcircle t p <-> incircle3 t p < 0).
Proof.
  intros Ho.
  assert (Hn : ~ det t == 0) by (rewrite det_orient3; lra).
  pose proof (circumcircle_incircle t p Hn) as E.
  unfold insideCircumcircle.
  set (d := (x p - cx (circumcircle t)) ^ 2 + (z p - cz (circumcircle t)) ^ 2) in *.
  set (r := radiusSq (circumcircle t)) in *.
  clearbody d r. split; intros H; nra.
Qed.

Lemma isBad_incircle t p :
  orient3 t < 0 -> (isBad p t = true <-> incircle3 t p < 0).
Proof.
  intros Ho. rewrite isBad_inside, (inside_incircle t p Ho).
  rewrite det_orient3. split; [tauto | intros H; split; [lra | assumption]].
Qed.

Lemma isBad_degenerate t p : det t == 0 -> isBad p t = false.
Proof.
  intros H. unfold isBad. apply Qeq_bool_iff in H. rewrite H. reflexivity.
Qed.

End Predicates.

(* ================================================================== *)
(** * The triangulation: lists of triangles and their edges *)
(* ================================================================== *)

Lemma NoDup_app_inv {A : Type} (l1 l2 : list A) :
  NoDup (l1 ++ l2) ->
  NoDup l1 /\ NoDup l2 /\ (forall a, In a l1 -> ~ In a l2).
Proof.
  induction l1 as [|a l1 IH]; simpl; intros H.
  - repeat split; [constructor | assumption | tauto].
  - inversion H as [|? ? Hn Hd]; subst.
    destruct (IH Hd) as (H1 & H2 & H3).
    repeat split; try assumption.
    + constructor; [|assumption]. intros Hin. apply Hn, in_or_app. now left.
    + intros b [<-|Hb]; [|now apply H3].
      intros Hin. apply Hn, in_or_app. now right.
Qed.

Section Lists.

Context {A B C : Type}.

Lemma NoDup_map_app_inv (g : B -> C) (l1 l2 : list B) :
  NoDup (map g (l1 ++ l2)) ->
  NoDup (map g l1) /\ NoDup (map g l2)
  /\ (forall a b, In a l1 -> In b l2 -> g a <> g b).
Proof.
  rewrite map_app. intros H.
  destruct (NoDup_app_inv _ _ H) as (H1 & H2 & H3).
  repeat split; try assumption.
  intros a b Ha Hb E. apply (H3 (g a)); [now apply in_map|].
  rewrite E. now apply in_map.
Qed.

Lemma NoDup_map_filter (g : B -> C) (f : B -> bool) (l : list B) :
  NoDup (map g l) -> NoDup (map g (filter f l)).
Proof.
  induction l as [|b l IH]; simpl; intros H; [constructor|].
  inversion H as [|? ? Hn Hd]; subst.
  destruct (f b); simpl; [|now apply IH].
  constructor; [|now apply IH].
  intros Hin. apply Hn. apply in_map_iff in Hin as (b' & E & Hb').
  apply filter_In in Hb' as [Hb' _]. rewrite <- E. now apply in_map.
Qed.

(** Filtering every block of a [flat_map] keeps its elements distinct. *)
Lemma NoDup_map_flat_map_filter (g : B -> C) (f : A -> list B)
    (keep : A -> B -> bool) (l : list A) :
  NoDup (map g (flat_map f l)) ->
  NoDup (map g (flat_map (fun a => filter (keep a) (f a)) l)).
Proof.
  induction l as [|a l IH]; simpl; intros H; [constructor|].
  destruct (NoDup_map_app_inv _ _ _ H) as (H1 & H2 & H3).
  rewrite map_app. apply NoDup_app.
  - now apply NoDup_map_filter.
  - now apply IH.
  - intros c Hc Hc'.
    apply in_map_iff in Hc as (b & <- & Hb).
    apply in_map_iff in Hc' as (b' & E & Hb').
    apply filter_In in Hb as [Hb _].
    apply in_flat_map in Hb' as (a' & Ha' & Hb').
    apply filter_In in Hb' as [Hb' _].
    apply (H3 b b'); [assumption | | now symmetry].
    apply in_flat_map. eauto.
Qed.

(** Filtering the list of a [flat_map] keeps its elements distinct. *)
Lemma NoDup_map_flat_map_sub (g : B -> C) (f : A -> list B)
    (keep : A -> bool) (l : list A) :
  NoDup (map g (flat_map f l)) ->
  NoDup (map g (flat_map f (filter keep l))).
Proof.
  induction l as [|a l IH]; simpl; intros H; [constructor|].
  destruct (NoDup_map_app_inv _ _ _ H) as (H1 & H2 & H3).
  destruct (keep a); simpl; [|now apply IH].
  rewrite map_app. apply NoDup_app; [assumption | now apply IH |].
  intros c Hc Hc'.
  apply in_map_iff in Hc as (b & <- & Hb).
  apply in_map_iff in Hc' as (b' & E & Hb').
  apply in_flat_map in Hb' as (a' & Ha' & Hb').
  apply filter_In in Ha' as [Ha' _].
  apply (H3 b b'); [assumption | | now symmetry].
  apply in_flat_map. eauto.
Qed.

Lemma in_combine_seq (l : list A) (k i : nat) (a : A) :
  In (i, a) (combine (seq k (length l)) l) ->
  exists l1 l2, l = l1 ++ a :: l2 /\ (k + length l1 = i)%nat.
Proof.
  revert k. induction l as [|b l IH]; simpl; intros k H; [contradiction|].
  destruct H as [H|H].
  - injection H as <- <-. exists [], l. split; [reflexivity | simpl; lia].
  - destruct (IH _ H) as (l1 & l2 & -> & E).
    exists (b :: l1), l2. split; [reflexivity | simpl; lia].
Qed.

Lemma combine_seq_in (l1 l2 : list A) (k : nat) (a : A) :
  In ((k + length l1)%nat, a)
     (combine (seq k (length (l1 ++ a :: l2))) (l1 ++ a :: l2)).
Proof.
  revert k. induction l1 as [|b l1 IH]; simpl; intros k.
  - left. f_equal. lia.
  - right. replace (k + S (length l1))%nat with (S k + length l1)%nat by lia.
    apply IH.
Qed.

End Lists.

Section Edges.

Import Delaunay.

Definition verts (t : Triangle2D) : list Vertex2D := [v0 t; v1 t; v2 t].

Definition edgeRef (e : Edge2D) : nat * nat := (ref (e0 e), ref (e1 e)).

Definition swap (r : nat * nat) : nat * nat := (snd r, fst r).

Definition allEdges (ts : list Triangle2D) : list Edge2D := flat_map edges ts.

Definition refsOf (ts : list Triangle2D) : list (nat * nat) :=
  map edgeRef (allEdges ts).

Lemma swap_swap r : swap (swap r) = r.
Proof. now destruct r. Qed.

Lemma others_split (l1 l2 : list Triangle2D) (t : Triangle2D) :
  others (length l1) (l1 ++ t :: l2) = l1 ++ l2.
Proof.
  unfold others. induction l1 as [|a l1 IH]; simpl; [reflexivity|].
  f_equal. exact IH.
Qed.

Lemma sameEdge_spec (e e' : Edge2D) :
  sameEdge e e' = true <-> edgeRef e' = edgeRef e \/ edgeRef e' = swap (edgeRef e).
Proof.
  unfold sameEdge, sameObject, edgeRef, swap. simpl.
  rewrite orb_true_iff, !andb_true_iff, !Nat.eqb_eq.
  split.
  - intros [[H1 H2]|[H1 H2]]; [left | right]; congruence.
  - intros [H|H]; injection H as H1 H2; [left | right]; split; congruence.
Qed.

Lemma isShared_spec (e : Edge2D) (i : nat) (bad : list Triangle2D) :
  isShared e i bad = true <->
  exists e', In e' (allEdges (others i bad))
             /\ (edgeRef e' = edgeRef e \/ edgeRef e' = swap (edgeRef e)).
Proof.
  unfold isShared. rewrite existsb_exists. split.
  - intros (t & Ht & H). apply existsb_exists in H as (e' & He' & H).
    exists e'. split; [apply in_flat_map; eauto | now apply sameEdge_spec].
  - intros (e' & He' & H). apply in_flat_map in He' as (t & Ht & He').
    exists t. split; [assumption|]. apply existsb_exists.
    exists e'. split; [assumption | now apply sameEdge_spec].
Qed.

Lemma polygon_in (bad : list Triangle2D) (e : Edge2D) :
  In e (polygon bad) <->
  exists l1 t l2, bad = l1 ++ t :: l2 /\ In e (edges t)
                  /\ isShared e (length l1) bad = false.
Proof.
  unfold polygon. rewrite in_flat_map. split.
  - intros ([i t] & Hit & He). apply filter_In in He as [He Hs].
    apply in_combine_seq in Hit as (l1 & l2 & E & Hi). simpl in Hi. subst i.
    exists l1, t, l2. repeat split; try assumption.
    now apply negb_true_iff.
  - intros (l1 & t & l2 & E & He & Hs).
    exists (length l1, t). split.
    + rewrite E. apply (combine_seq_in l1 l2 0).
    + apply filter_In. split; [assumption | now apply negb_true_iff].
Qed.

Lemma polygon_refs_NoDup (bad : list Triangle2D) :
  NoDup (refsOf bad) -> NoDup (map edgeRef (polygon bad)).
Proof.
  intros H. unfold polygon.
  set (keep := fun (it : nat * Triangle2D) (edge : Edge2D) =>
                 negb (isShared edge (fst it) bad)).
  rewrite (flat_map_ext _
             (fun it => filter (keep it) (edges (snd it)))) by (now intros [i t]).
  apply (NoDup_map_flat_map_filter edgeRef (fun it => edges (snd it)) keep).
  assert (E : forall (l : list Triangle2D) k,
             flat_map (fun it : nat * Triangle2D => edges (snd it))
                      (combine (seq k (length l)) l) = flat_map edges l).
  { induction l as [|t l IH]; simpl; intros k; [reflexivity|]. now rewrite IH. }
  rewrite E. exact H.
Qed.

End Edges.

(* ================================================================== *)
(** * The triangulation: the triangles built on the boundary of the hole *)
(* ================================================================== *)

Section Geometry.

Import Delaunay.
Local Open Scope Q_scope.

Lemma plucker3 a b c d p :
  incircle a b c d * orient a b p - incircle a b c p * orient a b d
  + orient a b c * incircle a b d p == 0.
Proof. unfold incircle, orient. ring. Qed.

(** The new point lies on the side of a boundary edge on which the bad
    triangle lies: [a b c] is bad for [p], its neighbour [b a d] is not. *)
Lemma new_orientation a b c d p :
  orient a b c < 0 -> incircle a b c p < 0 -> 0 <= incircle a b c d ->
  orient b a d < 0 -> 0 <= incircle b a d p ->
  orient a b p < 0.
Proof.
  intros Hc Hp Hd Hd' Hp'.
  pose proof (plucker3 a b c d p) as E.
  rewrite orient_swap in Hd'. rewrite incircle_swap in Hp'.
  set (u1 := incircle a b c d) in *. set (u2 := orient a b p) in *.
  set (v1 := incircle a b c p) in *. set (v2 := orient a b d) in *.
  set (w1 := orient a b c) in *. set (w2 := incircle a b d p) in *.
  clearbody u1 u2 v1 v2 w1 w2.
  destruct (Qlt_le_dec u2 0) as [|Hu]; [assumption|]. exfalso.
  assert (0 <= u1 * u2) by nra.
  assert (v1 * v2 < 0) by nra.
  assert (0 <= w1 * w2) by nra.
  lra.
Qed.

(** No vertex on the side of the bad triangle is inside the circle of the
    new triangle. *)
Lemma new_empty_near a b c p q :
  orient a b c < 0 -> incircle a b c p < 0 -> 0 <= incircle a b c q ->
  orient a b p < 0 -> orient a b q <= 0 ->
  0 <= incircle a b p q.
Proof.
  intros Hc Hp Hq Hop Hoq.
  pose proof (plucker a b c p q) as E.
  set (i := incircle a b p q) in *. set (w := orient a b c) in *.
  set (u1 := incircle a b c q) in *. set (u2 := orient a b p) in *.
  set (v1 := incircle a b c p) in *. set (v2 := orient a b q) in *.
  clearbody i w u1 u2 v1 v2.
  destruct (Qlt_le_dec i 0) as [Hi|]; [|assumption]. exfalso.
  assert (0 < w * i) by nra.
  assert (u1 * u2 <= 0) by nra.
  assert (0 <= v1 * v2) by nra.
  lra.
Qed.

(** No vertex on the other side is inside it either. *)
Lemma new_empty_far a b d p q :
  orient b a d < 0 -> 0 <= incircle b a d p -> 0 <= incircle b a d q ->
  orient a b p < 0 -> 0 < orient a b q ->
  0 <= incircle a b p q.
Proof.
  intros Hd Hp Hq Hop Hoq.
  pose proof (plucker a b d p q) as E.
  rewrite orient_swap in Hd. rewrite incircle_swap in Hp, Hq.
  set (i := incircle a b p q) in *. set (w := orient a b d) in *.
  set (u1 := incircle a b d q) in *. set (u2 := orient a b p) in *.
  set (v1 := incircle a b d p) in *. set (v2 := orient a b q) in *.
  clearbody i w u1 u2 v1 v2.
  destruct (Qlt_le_dec i 0) as [Hi|]; [|assumption]. exfalso.
  assert (w * i < 0) by nra.
  assert (0 <= u1 * u2) by nra.
  assert (v1 * v2 <= 0) by nra.
  lra.
Qed.

(** A vertex on the circle of the new triangle [a b p] is not on the side
    of [a b] on which the bad triangle [a b c] and [p] lie. *)
Lemma cocircular_collinear a b c p q :
  orient a b c < 0 -> incircle a b c p < 0 -> 0 <= incircle a b c q ->
  orient a b p < 0 -> incircle a b p q == 0 ->
  0 <= orient a b q.
Proof.
  intros Hc Hp Hq Hop Hi.
  pose proof (plucker a b c p q) as E. rewrite Hi in E.
  set (w := orient a b c) in *.
  set (u1 := incircle a b c q) in *. set (u2 := orient a b p) in *.
  set (v1 := incircle a b c p) in *. set (v2 := orient a b q) in *.
  clearbody w u1 u2 v1 v2.
  destruct (Qlt_le_dec v2 0) as [Hv|]; [|assumption]. exfalso.
  assert (u1 * u2 <= 0) by nra.
  assert (0 < v1 * v2) by nra.
  lra.
Qed.

(** If it is on the line [a b] it is on the circle of the bad triangle
    as well. *)
Lemma cocircular_on_circle a b c p q :
  orient a b c < 0 -> orient a b p < 0 ->
  incircle a b p q == 0 -> orient a b q == 0 ->
  incircle a b c q == 0.
Proof.
  intros Hc Hop Hi Ho.
  pose proof (plucker a b c p q) as E. rewrite Hi, Ho in E.
  set (u1 := incircle a b c q) in *. set (u2 := orient a b p) in *.
  clearbody u1 u2.
  destruct (Qeq_dec u1 0) as [|Hn]; [assumption|]. exfalso.
  assert (u1 * u2 == 0) by lra.
  destruct (Qlt_le_dec u1 0); nra.
Qed.

(** Two boundary edges do not end in the same vertex. *)
Lemma no_pinch_head a a' b c c' p :
  orient a b c < 0 -> incircle a b c p < 0 -> 0 <= incircle a b c a' ->
  orient a' b c' < 0 -> incircle a' b c' p < 0 -> 0 <= incircle a' b c' a ->
  orient a b p < 0 -> orient a' b p < 0 ->
  0 <= incircle a b p a' -> 0 <= incircle a' b p a ->
  samePlace a' a.
Proof.
  intros Hc Hp Ha' Hc' Hp' Ha Hop Hop' Hi Hi'.
  assert (E : incircle a b p a' == 0).
  { rewrite incircle_exchange in Hi'. lra. }
  assert (E' : incircle a' b p a == 0).
  { rewrite incircle_exchange. lra. }
  pose proof (cocircular_collinear a b c p a' Hc Hp Ha' Hop E) as H1.
  pose proof (cocircular_collinear a' b c' p a Hc' Hp' Ha Hop' E') as H2.
  assert (Ho : orient a b a' == 0).
  { assert (orient a' b a == - orient a b a') by (unfold orient; ring). lra. }
  pose proof (cocircular_on_circle a b c p a' Hc Hop E Ho) as Hon.
  destruct (line_meets_circle a b c a') as [H|H]; try assumption; try lra.
  exfalso.
  assert (orient a' b c' == orient b b c') by (now apply samePlace_orient).
  rewrite orient_same_l in *. lra.
Qed.

(** Two boundary edges do not start in the same vertex. *)
Lemma no_pinch_tail a b b' c c' p :
  orient a b c < 0 -> incircle a b c p < 0 -> 0 <= incircle a b c b' ->
  orient a b' c' < 0 -> incircle a b' c' p < 0 -> 0 <= incircle a b' c' b ->
  orient a b p < 0 -> orient a b' p < 0 ->
  0 <= incircle a b p b' -> 0 <= incircle a b' p b ->
  samePlace b' b.
Proof.
  intros Hc Hp Hb' Hc' Hp' Hb Hop Hop' Hi Hi'.
  assert (E : incircle a b p b' == 0).
  { rewrite incircle_exchange_mid in Hi'. lra. }
  assert (E' : incircle a b' p b == 0).
  { rewrite incircle_exchange_mid. lra. }
  pose proof (cocircular_collinear a b c p b' Hc Hp Hb' Hop E) as H1.
  pose proof (cocircular_collinear a b' c' p b Hc' Hp' Hb Hop' E') as H2.
  assert (Ho : orient a b b' == 0).
  { assert (orient a b' b == - orient a b b') by (unfold orient; ring). lra. }
  pose proof (cocircular_on_circle a b c p b' Hc Hop E Ho) as Hon.
  destruct (line_meets_circle a b c b') as [H|H]; try assumption; try lra.
  exfalso.
  assert (orient b' a c' == orient a a c') by (now apply samePlace_orient).
  rewrite orient_same_l in *.
  assert (orient b' a c' == - orient a b' c') by (unfold orient; ring). lra.
Qed.

End Geometry.

(* ================================================================== *)
(** * The triangulation: what one insertion keeps *)
(* ================================================================== *)

Lemma NoDup_map_injective {A B : Type} (f : A -> B) (l : list A) (a b : A) :
  NoDup (map f l) -> In a l -> In b l -> f a = f b -> a = b.
Proof.
  induction l as [|c l IH]; simpl; intros H Ha Hb E; [contradiction|].
  inversion H as [|? ? Hn Hd]; subst.
  destruct Ha as [->|Ha], Hb as [->|Hb]; try reflexivity.
  - exfalso. apply Hn. rewrite E. now apply in_map.
  - exfalso. apply Hn. rewrite <- E. now apply in_map.
  - now apply IH.
Qed.

Section Triangles.

Import Delaunay.
Local Open Scope Q_scope.

(** The vertex opposite to an edge of a triangle. *)
Lemma edge_apex (t : Triangle2D) (e : Edge2D) :
  In e (edges t) ->
  exists c, In c (verts t) /\ In (e0 e) (verts t) /\ In (e1 e) (verts t)
            /\ orient (e0 e) (e1 e) c == orient3 t
            /\ forall q, incircle (e0 e) (e1 e) c q == incircle3 t q.
Proof.
  unfold edges, verts, orient3, incircle3. simpl.
  intros [<-|[<-|[<-|[]]]]; simpl.
  - exists (v2 t). split; [auto|]. split; [auto|]. split; [auto|].
    split; [reflexivity | intros q; reflexivity].
  - exists (v0 t). split; [auto|]. split; [auto|]. split; [auto|].
    split; [apply orient_rot | intros q; apply incircle_rot].
  - exists (v1 t). split; [auto|]. split; [auto|]. split; [auto|]. split.
    + now rewrite <- (orient_rot (v0 t)), <- (orient_rot (v1 t)).
    + intros q. now rewrite <- (incircle_rot (v0 t)), <- (incircle_rot (v1 t)).
Qed.

Definition distinctRefs (t : Triangle2D) : Prop :=
  ref (v0 t) <> ref (v1 t) /\ ref (v1 t) <> ref (v2 t) /\ ref (v2 t) <> ref (v0 t).

Lemma no_reverse_in_triangle (t : Triangle2D) (e e' : Edge2D) :
  distinctRefs t -> In e (edges t) -> In e' (edges t) ->
  edgeRef e' <> swap (edgeRef e).
Proof.
  intros (H1 & H2 & H3). unfold edges, edgeRef, swap. simpl.
  intros [<-|[<-|[<-|[]]]] [<-|[<-|[<-|[]]]]; simpl; intros E;
    injection E; congruence.
Qed.

Lemma edge_in_refs (ts : list Triangle2D) (t : Triangle2D) (e : Edge2D) :
  In t ts -> In e (edges t) -> In (edgeRef e) (refsOf ts).
Proof.
  intros Ht He. unfold refsOf, allEdges. apply in_map, in_flat_map. eauto.
Qed.

Lemma refs_in_edge (ts : list Triangle2D) (r : nat * nat) :
  In r (refsOf ts) -> exists t e, In t ts /\ In e (edges t) /\ edgeRef e = r.
Proof.
  unfold refsOf, allEdges. intros H.
  apply in_map_iff in H as (e & E & He).
  apply in_flat_map in He as (t & Ht & He). eauto.
Qed.

(** The edges of the hole: those of the bad triangles whose reverse is no
    edge of a bad triangle. *)
Lemma polygon_spec (bad : list Triangle2D) (e : Edge2D) :
  NoDup (refsOf bad) -> (forall t, In t bad -> distinctRefs t) ->
  (In e (polygon bad) <->
   In e (allEdges bad) /\ ~ In (swap (edgeRef e)) (refsOf bad)).
Proof.
  intros Hnd Hdist. rewrite polygon_in. split.
  - intros (l1 & t & l2 & E & He & Hs). split.
    + apply in_flat_map. exists t. split; [|assumption].
      rewrite E. apply in_or_app. right. now left.
    + intros Hin. apply refs_in_edge in Hin as (t' & e' & Ht' & He' & Er).
      assert (Hcase : t' = t \/ In t' (l1 ++ l2)).
      { rewrite E in Ht'. apply in_app_or in Ht' as [H|[H|H]];
          [right | left | right]; auto using in_or_app. }
      destruct Hcase as [->|Hin].
      * apply (no_reverse_in_triangle t e e');
          [apply Hdist; assumption | assumption | assumption | assumption].
      * assert (Hsh : isShared e (length l1) bad = true).
        { apply isShared_spec. exists e'. split; [|now right].
          rewrite E, others_split. apply in_flat_map. eauto. }
        congruence.
  - intros [He Hrev]. apply in_flat_map in He as (t & Ht & He).
    destruct (in_split _ _ Ht) as (l1 & l2 & E).
    exists l1, t, l2. repeat split; try assumption.
    destruct (isShared e (length l1) bad) eqn:Hs; [|reflexivity]. exfalso.
    apply isShared_spec in Hs as (e' & He' & Hor).
    rewrite E, others_split in He'.
    destruct Hor as [Hsame|Hswap].
    + unfold refsOf, allEdges in Hnd. rewrite E in Hnd.
      rewrite flat_map_app in Hnd.
      change (flat_map edges (t :: l2)) with (edges t ++ flat_map edges l2) in Hnd.
      unfold allEdges in He'. rewrite flat_map_app in He'.
      apply NoDup_map_app_inv in Hnd as (_ & Hnd & H1).
      apply NoDup_map_app_inv in Hnd as (_ & _ & H2).
      apply in_app_or in He' as [He'|He'].
      * apply (H1 e' e); auto. apply in_or_app. now left.
      * apply (H2 e e'); auto.
    + apply Hrev. rewrite <- Hswap. unfold refsOf. apply in_map.
      unfold allEdges in *. rewrite E, flat_map_app.
      change (flat_map edges (t :: l2)) with (edges t ++ flat_map edges l2).
      rewrite flat_map_app in He'.
      apply in_app_or in He' as [He'|He']; apply in_or_app; [now left|].
      right. apply in_or_app. now right.
Qed.

(** Every triangle has as many edges into a vertex as out of it. *)
Definition endsAt (b : nat) (r : nat * nat) : bool := (snd r =? b)%nat.
Definition startsAt (b : nat) (r : nat * nat) : bool := (fst r =? b)%nat.

Lemma in_out_balance_triangle (t : Triangle2D) (b : nat) :
  length (filter (endsAt b) (map edgeRef (edges t)))
  = length (filter (startsAt b) (map edgeRef (edges t))).
Proof.
  unfold edges, edgeRef, endsAt, startsAt. simpl.
  destruct (ref (v0 t) =? b)%nat, (ref (v1 t) =? b)%nat, (ref (v2 t) =? b)%nat;
    reflexivity.
Qed.

Lemma in_out_balance (ts : list Triangle2D) (b : nat) :
  length (filter (endsAt b) (refsOf ts)) = length (filter (startsAt b) (refsOf ts)).
Proof.
  unfold refsOf, allEdges.
  induction ts as [|t ts IH]; [reflexivity|].
  change (flat_map edges (t :: ts)) with (edges t ++ flat_map edges ts).
  rewrite map_app, !filter_app, !length_app, IH, in_out_balance_triangle.
  reflexivity.
Qed.

End Triangles.

Lemma shared_edge_same_triangle (ts : list Delaunay.Triangle2D)
    (t t' : Delaunay.Triangle2D) (e e' : Delaunay.Edge2D) :
  NoDup (refsOf ts) -> In t ts -> In t' ts ->
  In e (Delaunay.edges t) -> In e' (Delaunay.edges t') ->
  edgeRef e = edgeRef e' -> t = t'.
Proof.
  unfold refsOf, allEdges.
  induction ts as [|u ts IH]; intros Hnd Ht Ht' He He' E; [contradiction|].
  change (flat_map Delaunay.edges (u :: ts))
    with (Delaunay.edges u ++ flat_map Delaunay.edges ts) in Hnd.
  apply NoDup_map_app_inv in Hnd as (_ & Hnd & Hcross).
  destruct Ht as [->|Ht], Ht' as [->|Ht']; try reflexivity.
  - exfalso. apply (Hcross e e'); auto. apply in_flat_map. eauto.
  - exfalso. apply (Hcross e' e); auto. apply in_flat_map. eauto.
  - now apply IH.
Qed.

Lemma NoDup_map_of_injective {A B : Type} (f : A -> B) (l : list A) :
  (forall a b, f a = f b -> a = b) -> NoDup l -> NoDup (map f l).
Proof.
  intros Hinj. induction l as [|a l IH]; simpl; intros H; [constructor|].
  inversion H as [|? ? Hn Hd]; subst. constructor; [|now apply IH].
  intros Hin. apply in_map_iff in Hin as (b & E & Hb).
  apply Hinj in E. now subst.
Qed.

(** If as many pairs of [L] pass [f] as pass [g], [g] is [f] on the
    reversed pair, and some pair that passes [f] has its reverse outside
    [L], then some pair that passes [g] has its reverse outside [L]. *)
Lemma unmatched_pair (L : list (nat * nat)) (f g : nat * nat -> bool) :
  NoDup L -> length (filter f L) = length (filter g L) ->
  (forall r, f (swap r) = g r) ->
  forall r0, In r0 L -> f r0 = true -> ~ In (swap r0) L ->
  exists r, In r L /\ g r = true /\ ~ In (swap r) L.
Proof.
  intros Hnd Hlen Hfg r0 Hr0 Hf0 Hrev.
  destruct (classic (exists r, In r L /\ g r = true /\ ~ In (swap r) L))
    as [|Hnone]; [assumption|]. exfalso.
  assert (Hall : forall r, In r L -> g r = true -> In (swap r) L).
  { intros r Hr Hg. destruct (classic (In (swap r) L)); [assumption|].
    exfalso. apply Hnone. eauto. }
  assert (Hincl : incl (map swap (filter g L)) (filter f L)).
  { intros r' Hr'. apply in_map_iff in Hr' as (r & <- & Hr).
    apply filter_In in Hr as [Hr Hg]. apply filter_In.
    split; [now apply Hall | now rewrite Hfg]. }
  assert (Hnd' : NoDup (map swap (filter g L))).
  { apply NoDup_map_of_injective; [|now apply NoDup_filter].
    intros a b E. rewrite <- (swap_swap a), <- (swap_swap b). now f_equal. }
  assert (Hback : incl (filter f L) (map swap (filter g L))).
  { apply NoDup_length_incl; try assumption. rewrite length_map. lia. }
  assert (Hin : In r0 (map swap (filter g L))).
  { apply Hback, filter_In. now split. }
  apply in_map_iff in Hin as (r & E & Hr). apply filter_In in Hr as [Hr _].
  apply Hrev. rewrite <- E, swap_swap. exact Hr.
Qed.

Definition newRefs (p : Delaunay.Vertex2D) (e : Delaunay.Edge2D) : list (nat * nat) :=
  [ edgeRef e;
    (Delaunay.ref (Delaunay.e1 e), Delaunay.ref p);
    (Delaunay.ref p, Delaunay.ref (Delaunay.e0 e)) ].

Lemma new_refs (p : Delaunay.Vertex2D) (L : list Delaunay.Edge2D) :
  refsOf (map (fun edge => Delaunay.mkTriangle (Delaunay.e0 edge) (Delaunay.e1 edge) p) L)
  = flat_map (newRefs p) L.
Proof.
  unfold refsOf, allEdges. induction L as [|e L IH]; [reflexivity|].
  simpl. now rewrite IH.
Qed.

Lemma new_refs_NoDup (p : Delaunay.Vertex2D) (L : list Delaunay.Edge2D) :
  NoDup (map edgeRef L) ->
  (forall e e', In e L -> In e' L ->
                Delaunay.ref (Delaunay.e1 e) = Delaunay.ref (Delaunay.e1 e') -> e = e') ->
  (forall e e', In e L -> In e' L ->
                Delaunay.ref (Delaunay.e0 e) = Delaunay.ref (Delaunay.e0 e') -> e = e') ->
  (forall e, In e L -> Delaunay.ref (Delaunay.e0 e) <> Delaunay.ref p
                       /\ Delaunay.ref (Delaunay.e1 e) <> Delaunay.ref p) ->
  NoDup (flat_map (newRefs p) L).
Proof.
  induction L as [|e L IH]; intros Hnd Hhead Htail Hp; [constructor|].
  change (flat_map (newRefs p) (e :: L))
    with (newRefs p e ++ flat_map (newRefs p) L).
  simpl in Hnd. inversion Hnd as [|? ? Hn Hd]; subst.
  destruct (Hp e (or_introl eq_refl)) as [Hp0 Hp1].
  assert (Hother : forall e', In e' L -> e <> e').
  { intros e' He' ->. apply Hn. now apply in_map. }
  apply NoDup_app.
  - unfold newRefs, edgeRef.
    repeat constructor; simpl; intros H;
      repeat (destruct H as [H|H]; [injection H; congruence|]); assumption.
  - apply IH; auto.
    + intros a b Ha Hb. apply Hhead; now right.
    + intros a b Ha Hb. apply Htail; now right.
    + intros a Ha. apply Hp. now right.
  - intros r Hr Hr'. apply in_flat_map in Hr' as (e' & He' & Hr').
    destruct (Hp e' (or_intror He')) as [Hp0' Hp1'].
    assert (Hne := Hother e' He').
    unfold newRefs, edgeRef in Hr, Hr'. simpl in Hr, Hr'.
    destruct Hr as [<-|[<-|[<-|[]]]];
      destruct Hr' as [E|[E|[E|[]]]]; injection E; intros;
      try congruence.
    + apply Hn. apply in_map_iff. exists e'. split; [|assumption].
      unfold edgeRef. congruence.
    + apply Hne. apply Hhead; [now left | now right | congruence].
    + apply Hne. apply Htail; [now left | now right | congruence].
Qed.

Section Insertion.

Import Delaunay.
Local Open Scope Q_scope.

(** The super-triangle and the points to insert.  Every vertex is an
    object of its own, the super-triangle has the orientation the program
    gives it, and it encloses the points. *)
Variable super : Triangle2D.
Variable points : list Vertex2D.

Hypothesis refs_distinct : NoDup (map ref (verts super ++ points)).
Hypothesis super_orient : orient3 super < 0.
Hypothesis inside_super :
  forall p e, In p points -> In e (edges super) -> orient (e0 e) (e1 e) p < 0.

Definition hullRef (r : nat * nat) : Prop := In r (map edgeRef (edges super)).

(** What holds of the triangles after the points [done] are inserted. *)
Record Invariant (done : list Vertex2D) (ts : list Triangle2D) : Prop := {
  inv_done : incl done points;
  inv_vertices : forall t, In t ts -> incl (verts t) (verts super ++ done);
  inv_orient : forall t, In t ts -> orient3 t < 0;
  inv_empty : forall t q,
      In t ts -> In q (verts super ++ done) -> 0 <= incircle3 t q;
  inv_unique : NoDup (refsOf ts);
  inv_adjacent : forall r,
      In r (refsOf ts) -> hullRef r \/ In (swap r) (refsOf ts);
  inv_places : forall t t' v w,
      In t ts -> In t' ts -> In v (verts t) -> In w (verts t') ->
      samePlace v w -> v = w
}.

Lemma same_ref (v w : Vertex2D) :
  In v (verts super ++ points) -> In w (verts super ++ points) ->
  ref v = ref w -> v = w.
Proof. apply NoDup_map_injective, refs_distinct. Qed.

Lemma super_side (e : Edge2D) (q : Vertex2D) :
  In e (edges super) -> In q (verts super ++ points) ->
  orient (e0 e) (e1 e) q <= 0.
Proof.
  intros He Hq. apply in_app_or in Hq as [Hq|Hq].
  - unfold orient3 in super_orient. unfold edges, verts in *. simpl in He, Hq.
    unfold orient in *.
    destruct He as [<-|[<-|[<-|[]]]], Hq as [<-|[<-|[<-|[]]]]; simpl; lra.
  - apply Qlt_le_weak. now apply inside_super.
Qed.

Lemma hull_edge (e : Edge2D) :
  In (e0 e) (verts super ++ points) -> In (e1 e) (verts super ++ points) ->
  hullRef (edgeRef e) -> In e (edges super).
Proof.
  intros H0 H1 Hh. unfold hullRef in Hh.
  apply in_map_iff in Hh as (s & E & Hs).
  assert (Hv : In (e0 s) (verts super) /\ In (e1 s) (verts super)).
  { unfold edges, verts in *. simpl in *.
    destruct Hs as [<-|[<-|[<-|[]]]]; simpl; auto. }
  destruct Hv as [Hv0 Hv1]. unfold edgeRef in E. injection E as E0 E1.
  assert (e0 s = e0 e) by (apply same_ref; auto using in_or_app).
  assert (e1 s = e1 e) by (apply same_ref; auto using in_or_app).
  destruct s, e. simpl in *. now subst.
Qed.

Section Step.

Variable done : list Vertex2D.
Variable ts : list Triangle2D.
Variable p : Vertex2D.

Hypothesis invariant : Invariant done ts.
Hypothesis p_point : In p points.
Hypothesis p_fresh : ~ In p done.

Definition badOnes : list Triangle2D := filter (isBad p) ts.
Definition goodOnes : list Triangle2D := filter (fun t => negb (isBad p t)) ts.

Lemma known_vertex (v : Vertex2D) :
  In v (verts super ++ done) -> In v (verts super ++ points).
Proof.
  intros H. apply in_app_or in H as [H|H]; apply in_or_app; [now left|].
  right. now apply (inv_done _ _ invariant).
Qed.

Lemma p_new : ~ In p (verts super ++ done).
Proof.
  intros H. apply in_app_or in H as [H|H]; [|contradiction].
  pose proof refs_distinct as Hnd.
  apply NoDup_map_app_inv in Hnd as (_ & _ & Hcross).
  now apply (Hcross p p).
Qed.

Lemma ref_new (v : Vertex2D) : In v (verts super ++ done) -> ref v <> ref p.
Proof.
  intros Hv E. apply p_new.
  assert (v = p) as <-; [|assumption].
  apply same_ref; auto using known_vertex. apply in_or_app. now right.
Qed.

Lemma triangle_vertex (t : Triangle2D) (v : Vertex2D) :
  In t ts -> In v (verts t) -> In v (verts super ++ done).
Proof. intros Ht Hv. now apply (inv_vertices _ _ invariant t). Qed.

Lemma triangle_distinct (t : Triangle2D) : In t ts -> distinctRefs t.
Proof.
  intros Ht. pose proof (inv_orient _ _ invariant t Ht) as Ho.
  assert (Hin : forall v, In v (verts t) -> In v (verts super ++ points)).
  { intros v Hv. apply known_vertex. now apply (triangle_vertex t). }
  assert (H0 : In (v0 t) (verts super ++ points)) by (apply Hin; simpl; auto).
  assert (H1 : In (v1 t) (verts super ++ points)) by (apply Hin; simpl; auto).
  assert (H2 : In (v2 t) (verts super ++ points)) by (apply Hin; simpl; auto).
  unfold orient3 in Ho.
  repeat split; intros E; apply same_ref in E; try assumption;
    rewrite E in Ho; unfold orient in Ho; lra.
Qed.

Lemma bad_in (t : Triangle2D) :
  In t badOnes <-> In t ts /\ incircle3 t p < 0.
Proof.
  unfold badOnes. rewrite filter_In. split; intros [Ht H]; split; auto.
  - now apply isBad_incircle; [apply (inv_orient _ _ invariant)|].
  - now apply isBad_incircle; [apply (inv_orient _ _ invariant)|].
Qed.

Lemma good_in (t : Triangle2D) :
  In t goodOnes <-> In t ts /\ 0 <= incircle3 t p.
Proof.
  unfold goodOnes. rewrite filter_In, negb_true_iff. split; intros [Ht H]; split; auto.
  - destruct (Qlt_le_dec (incircle3 t p) 0) as [Hlt|]; [|assumption].
    apply isBad_incircle in Hlt; [congruence | now apply (inv_orient _ _ invariant)].
  - destruct (isBad p t) eqn:E; [|reflexivity].
    apply isBad_incircle in E; [lra | now apply (inv_orient _ _ invariant)].
Qed.

Lemma good_or_bad (t : Triangle2D) : In t ts -> In t goodOnes \/ In t badOnes.
Proof.
  intros Ht. destruct (Qlt_le_dec (incircle3 t p) 0).
  - right. now apply bad_in.
  - left. now apply good_in.
Qed.

Lemma refs_split (r : nat * nat) :
  In r (refsOf ts) <-> In r (refsOf goodOnes) \/ In r (refsOf badOnes).
Proof.
  split.
  - intros H. apply refs_in_edge in H as (t & e & Ht & He & <-).
    destruct (good_or_bad t Ht); [left | right]; now apply (edge_in_refs _ t).
  - intros [H|H]; apply refs_in_edge in H as (t & e & Ht & He & <-);
      apply (edge_in_refs _ t); auto.
    + now apply good_in in Ht.
    + now apply bad_in in Ht.
Qed.

Lemma refs_disjoint (r : nat * nat) :
  In r (refsOf goodOnes) -> In r (refsOf badOnes) -> False.
Proof.
  intros Hg Hb.
  apply refs_in_edge in Hg as (t & e & Ht & He & <-).
  apply refs_in_edge in Hb as (t' & e' & Ht' & He' & E).
  apply good_in in Ht as [Ht Hge]. apply bad_in in Ht' as [Ht' Hlt].
  assert (t = t').
  { apply (shared_edge_same_triangle ts t t' e e'); auto.
    apply (inv_unique _ _ invariant). }
  subst t'. lra.
Qed.

Lemma bad_unique : NoDup (refsOf badOnes).
Proof.
  apply (NoDup_map_flat_map_sub edgeRef edges), (inv_unique _ _ invariant).
Qed.

Lemma good_unique : NoDup (refsOf goodOnes).
Proof.
  apply (NoDup_map_flat_map_sub edgeRef edges), (inv_unique _ _ invariant).
Qed.

Lemma boundary (e : Edge2D) :
  In e (polygon badOnes) <->
  In e (allEdges badOnes) /\ ~ In (swap (edgeRef e)) (refsOf badOnes).
Proof.
  apply polygon_spec; [apply bad_unique|].
  intros t Ht. apply triangle_distinct. now apply bad_in in Ht.
Qed.

(** A boundary edge with the bad triangle it comes from. *)
Lemma boundary_apex (e : Edge2D) :
  In e (polygon badOnes) ->
  exists c, In (e0 e) (verts super ++ done) /\ In (e1 e) (verts super ++ done)
            /\ orient (e0 e) (e1 e) c < 0
            /\ incircle (e0 e) (e1 e) c p < 0
            /\ forall q, In q (verts super ++ done) ->
                         0 <= incircle (e0 e) (e1 e) c q.
Proof.
  intros H. apply boundary in H as [H _].
  apply in_flat_map in H as (t & Ht & He). apply bad_in in Ht as [Ht Hlt].
  destruct (edge_apex t e He) as (c & Hc & H0 & H1 & Eo & Ei).
  exists c. split; [now apply (triangle_vertex t)|].
  split; [now apply (triangle_vertex t)|].
  split; [rewrite Eo; now apply (inv_orient _ _ invariant)|].
  split; [now rewrite Ei|].
  intros q Hq. rewrite Ei. now apply (inv_empty _ _ invariant).
Qed.

(** Across a boundary edge lies the border of the super-triangle or a
    triangle that stays. *)
Lemma boundary_neighbour (e : Edge2D) :
  In e (polygon badOnes) ->
  In e (edges super)
  \/ exists d, In d (verts super ++ done)
               /\ orient (e1 e) (e0 e) d < 0
               /\ 0 <= incircle (e1 e) (e0 e) d p
               /\ (forall q, In q (verts super ++ done) ->
                             0 <= incircle (e1 e) (e0 e) d q)
               /\ In (swap (edgeRef e)) (refsOf goodOnes).
Proof.
  intros H. destruct (boundary_apex e H) as (_ & H0 & H1 & _).
  apply boundary in H as [H Hrev].
  assert (Hin : In (edgeRef e) (refsOf ts)).
  { apply refs_split. right. now apply in_map. }
  destruct (inv_adjacent _ _ invariant _ Hin) as [Hh|Hs].
  - left. apply hull_edge; auto using known_vertex.
  - right. apply refs_split in Hs as [Hs|Hs]; [|contradiction].
    pose proof Hs as Hg.
    apply refs_in_edge in Hs as (t' & e' & Ht' & He' & E).
    apply good_in in Ht' as [Ht' Hge].
    destruct (edge_apex t' e' He') as (d & Hd & H0' & H1' & Eo & Ei).
    unfold edgeRef, swap in E. simpl in E. injection E as E0 E1.
    assert (Ha : e0 e' = e1 e).
    { apply same_ref; auto using known_vertex.
      apply known_vertex. now apply (triangle_vertex t'). }
    assert (Hb : e1 e' = e0 e).
    { apply same_ref; auto using known_vertex.
      apply known_vertex. now apply (triangle_vertex t'). }
    rewrite Ha, Hb in Eo. 
    assert (Ei' : forall q, incircle (e1 e) (e0 e) d q == incircle3 t' q).
    { intros q. rewrite <- Ha, <- Hb. apply Ei. }
    exists d.
    split; [now apply (triangle_vertex t')|].
    split; [rewrite Eo; now apply (inv_orient _ _ invariant)|].
    split; [now rewrite Ei'|].
    split; [|assumption].
    intros q Hq. rewrite Ei'. now apply (inv_empty _ _ invariant).
Qed.

(** The new triangles have the orientation of the others. *)
Lemma new_orient (e : Edge2D) :
  In e (polygon badOnes) -> orient (e0 e) (e1 e) p < 0.
Proof.
  intros H. destruct (boundary_apex e H) as (c & H0 & H1 & Hc & Hp & Hq).
  destruct (boundary_neighbour e H) as [Hs|(d & Hd & Hod & Hdp & _)].
  - now apply inside_super.
  - apply (new_orientation _ _ c d); auto.
Qed.

(** No point inserted so far is inside the circle of a new triangle. *)
Lemma new_empty (e : Edge2D) (q : Vertex2D) :
  In e (polygon badOnes) -> In q (verts super ++ done) ->
  0 <= incircle (e0 e) (e1 e) p q.
Proof.
  intros H Hq. destruct (boundary_apex e H) as (c & H0 & H1 & Hc & Hp & Hc').
  pose proof (new_orient e H) as Hop.
  destruct (Qlt_le_dec 0 (orient (e0 e) (e1 e) q)) as [Hfar|Hnear].
  - destruct (boundary_neighbour e H) as [Hs|(d & Hd & Hod & Hdp & Hd' & _)].
    + pose proof (super_side e q Hs (known_vertex q Hq)). lra.
    + apply (new_empty_far _ _ d); auto.
  - apply (new_empty_near _ _ c); auto.
Qed.

Lemma boundary_used (e : Edge2D) :
  In e (polygon badOnes) ->
  exists t, In t ts /\ incircle3 t p < 0
            /\ In (e0 e) (verts t) /\ In (e1 e) (verts t).
Proof.
  intros H. apply boundary in H as [H _].
  apply in_flat_map in H as (t & Ht & He). apply bad_in in Ht as [Ht Hlt].
  destruct (edge_apex t e He) as (c & Hc & H0 & H1 & _).
  exists t. auto.
Qed.

(** Two boundary edges do not end in the same vertex. *)
Lemma heads_unique (e e' : Edge2D) :
  In e (polygon badOnes) -> In e' (polygon badOnes) ->
  ref (e1 e) = ref (e1 e') -> e = e'.
Proof.
  intros H H' E.
  destruct (boundary_apex e H) as (c & H0 & H1 & Hc & Hp & Hq).
  destruct (boundary_apex e' H') as (c' & H0' & H1' & Hc' & Hp' & Hq').
  destruct (boundary_used e H) as (t & Ht & _ & Hu0 & _).
  destruct (boundary_used e' H') as (t' & Ht' & _ & Hu0' & _).
  pose proof (new_orient e H) as Ho. pose proof (new_orient e' H') as Ho'.
  pose proof (new_empty e (e0 e') H H0') as Hn.
  pose proof (new_empty e' (e0 e) H' H0) as Hn'.
  assert (E1 : e1 e' = e1 e).
  { apply same_ref; auto using known_vertex. }
  rewrite E1 in *.
  assert (E0 : e0 e' = e0 e).
  { apply (inv_places _ _ invariant t' t); auto.
    apply (no_pinch_head _ _ (e1 e) c c' p); auto. }
  destruct e, e'. simpl in *. now subst.
Qed.

(** Two boundary edges do not start in the same vertex. *)
Lemma tails_unique (e e' : Edge2D) :
  In e (polygon badOnes) -> In e' (polygon badOnes) ->
  ref (e0 e) = ref (e0 e') -> e = e'.
Proof.
  intros H H' E.
  destruct (boundary_apex e H) as (c & H0 & H1 & Hc & Hp & Hq).
  destruct (boundary_apex e' H') as (c' & H0' & H1' & Hc' & Hp' & Hq').
  destruct (boundary_used e H) as (t & Ht & _ & _ & Hu1).
  destruct (boundary_used e' H') as (t' & Ht' & _ & _ & Hu1').
  pose proof (new_orient e H) as Ho. pose proof (new_orient e' H') as Ho'.
  pose proof (new_empty e (e1 e') H H1') as Hn.
  pose proof (new_empty e' (e1 e) H' H1) as Hn'.
  assert (E0 : e0 e' = e0 e).
  { apply same_ref; auto using known_vertex. }
  rewrite E0 in *.
  assert (E1 : e1 e' = e1 e).
  { apply (inv_places _ _ invariant t' t); auto.
    apply (no_pinch_tail (e0 e) _ _ c c' p); auto. }
  destruct e, e'. simpl in *. now subst.
Qed.

Lemma boundary_of_ref (r : nat * nat) :
  In r (refsOf badOnes) -> ~ In (swap r) (refsOf badOnes) ->
  exists e, In e (polygon badOnes) /\ edgeRef e = r.
Proof.
  intros Hr Hrev. unfold refsOf in Hr.
  apply in_map_iff in Hr as (e & E & He).
  exists e. split; [|assumption]. apply boundary. split; [assumption|].
  now rewrite E.
Qed.

(** The boundary of the hole goes on from the end of each of its edges. *)
Lemma out_edge (e : Edge2D) :
  In e (polygon badOnes) ->
  exists e', In e' (polygon badOnes) /\ ref (e0 e') = ref (e1 e).
Proof.
  intros H. apply boundary in H as [H Hrev].
  destruct (unmatched_pair (refsOf badOnes)
              (endsAt (ref (e1 e))) (startsAt (ref (e1 e)))) with (r0 := edgeRef e)
    as (r & Hr & Hg & Hrev').
  - apply bad_unique.
  - apply in_out_balance.
  - intros r. reflexivity.
  - now apply in_map.
  - unfold endsAt, edgeRef. simpl. apply Nat.eqb_refl.
  - assumption.
  - destruct (boundary_of_ref r Hr Hrev') as (e' & He' & <-).
    exists e'. split; [assumption|].
    unfold startsAt, edgeRef in Hg. simpl in Hg. now apply Nat.eqb_eq.
Qed.

(** It arrives at the start of each of its edges. *)
Lemma in_edge (e : Edge2D) :
  In e (polygon badOnes) ->
  exists e', In e' (polygon badOnes) /\ ref (e1 e') = ref (e0 e).
Proof.
  intros H. apply boundary in H as [H Hrev].
  destruct (unmatched_pair (refsOf badOnes)
              (startsAt (ref (e0 e))) (endsAt (ref (e0 e)))) with (r0 := edgeRef e)
    as (r & Hr & Hg & Hrev').
  - apply bad_unique.
  - symmetry. apply in_out_balance.
  - intros r. reflexivity.
  - now apply in_map.
  - unfold startsAt, edgeRef. simpl. apply Nat.eqb_refl.
  - assumption.
  - destruct (boundary_of_ref r Hr Hrev') as (e' & He' & <-).
    exists e'. split; [assumption|].
    unfold endsAt, edgeRef in Hg. simpl in Hg. now apply Nat.eqb_eq.
Qed.

Definition newOnes : list Triangle2D :=
  map (fun edge => mkTriangle (e0 edge) (e1 edge) p) (polygon badOnes).

Lemma insertPoint_parts : insertPoint ts p = goodOnes ++ newOnes.
Proof. reflexivity. Qed.

Lemma old_refs (r : nat * nat) :
  In r (refsOf ts) -> fst r <> ref p /\ snd r <> ref p.
Proof.
  intros H. apply refs_in_edge in H as (t & e & Ht & He & <-).
  destruct (edge_apex t e He) as (_ & _ & H0 & H1 & _).
  split; apply ref_new; now apply (triangle_vertex t).
Qed.

Lemma new_unique : NoDup (refsOf (goodOnes ++ newOnes)).
Proof.
  unfold refsOf, allEdges. rewrite flat_map_app, map_app.
  apply NoDup_app.
  - apply good_unique.
  - unfold newOnes. fold (allEdges (map (fun edge => mkTriangle (e0 edge) (e1 edge) p)
                                        (polygon badOnes))).
    fold (refsOf (map (fun edge => mkTriangle (e0 edge) (e1 edge) p)
                      (polygon badOnes))).
    rewrite new_refs. apply new_refs_NoDup.
    + apply polygon_refs_NoDup, bad_unique.
    + apply heads_unique.
    + apply tails_unique.
    + intros e He. destruct (boundary_apex e He) as (_ & H0 & H1 & _).
      split; now apply ref_new.
  - intros r Hg Hn.
    fold (allEdges goodOnes) in Hg. fold (refsOf goodOnes) in Hg.
    fold (allEdges newOnes) in Hn. fold (refsOf newOnes) in Hn.
    unfold newOnes in Hn. rewrite new_refs in Hn.
    apply in_flat_map in Hn as (e & He & Hr).
    assert (Hold : In r (refsOf ts)) by (apply refs_split; now left).
    apply old_refs in Hold as [Hf Hs].
    unfold newRefs in Hr. simpl in Hr.
    destruct Hr as [<-|[<-|[<-|[]]]]; simpl in *; try congruence.
    apply (refs_disjoint (edgeRef e)); [assumption|].
    apply boundary in He as [He _]. now apply in_map.
Qed.

Lemma new_adjacent (r : nat * nat) :
  In r (refsOf (goodOnes ++ newOnes)) ->
  hullRef r \/ In (swap r) (refsOf (goodOnes ++ newOnes)).
Proof.
  assert (Hsplit : forall r, In r (refsOf (goodOnes ++ newOnes)) <->
                             In r (refsOf goodOnes) \/ In r (flat_map (newRefs p) (polygon badOnes))).
  { intros r'. unfold refsOf at 1, allEdges. rewrite flat_map_app, map_app, in_app_iff.
    fold (allEdges goodOnes). fold (refsOf goodOnes).
    fold (allEdges newOnes). fold (refsOf newOnes).
    unfold newOnes. now rewrite new_refs. }
  intros H. apply Hsplit in H as [H|H].
  - assert (Hold : In r (refsOf ts)) by (apply refs_split; now left).
    destruct (inv_adjacent _ _ invariant r Hold) as [Hh|Hs]; [now left|].
    right. apply Hsplit. apply refs_split in Hs as [Hs|Hs]; [now left|].
    right. destruct (boundary_of_ref (swap r) Hs) as (e & He & E).
    { rewrite swap_swap. intros Hb. exact (refs_disjoint r H Hb). }
    apply in_flat_map. exists e. split; [assumption|]. left. exact E.
  - apply in_flat_map in H as (e & He & Hr).
    unfold newRefs in Hr. simpl in Hr.
    destruct Hr as [<-|[<-|[<-|[]]]].
    + destruct (boundary_neighbour e He) as [Hs|(d & _ & _ & _ & _ & Hg)].
      * left. unfold hullRef. now apply in_map.
      * right. apply Hsplit. now left.
    + destruct (out_edge e He) as (e' & He' & E).
      right. apply Hsplit. right. apply in_flat_map.
      exists e'. split; [assumption|]. right. right. left.
      unfold swap. simpl. now rewrite E.
    + destruct (in_edge e He) as (e' & He' & E).
      right. apply Hsplit. right. apply in_flat_map.
      exists e'. split; [assumption|]. right. left.
      unfold swap. simpl. now rewrite E.
Qed.

Lemma later_vertex (v : Vertex2D) :
  In v (verts super ++ done) -> In v (verts super ++ (done ++ [p])).
Proof. intros H. rewrite app_assoc. apply in_or_app. now left. Qed.

(** The vertices of the triangles after the insertion: those before it,
    and the new point if a triangle was bad. *)
Lemma new_vertex_cases (t : Triangle2D) (v : Vertex2D) :
  In t (goodOnes ++ newOnes) -> In v (verts t) ->
  (exists t', In t' ts /\ In v (verts t'))
  \/ (v = p /\ exists t', In t' ts /\ incircle3 t' p < 0).
Proof.
  intros Ht Hv. apply in_app_or in Ht as [Ht|Ht].
  - left. apply good_in in Ht as [Ht _]. eauto.
  - unfold newOnes in Ht. apply in_map_iff in Ht as (e & <- & He).
    destruct (boundary_used e He) as (t' & Ht' & Hlt & H0 & H1).
    unfold verts in Hv. simpl in Hv.
    destruct Hv as [<-|[<-|[<-|[]]]]; eauto.
Qed.

(** One insertion keeps the invariant. *)
Lemma insertPoint_invariant : Invariant (done ++ [p]) (insertPoint ts p).
Proof.
  rewrite insertPoint_parts. constructor.
  - intros q Hq. apply in_app_or in Hq as [Hq|[<-|[]]]; [|assumption].
    now apply (inv_done _ _ invariant).
  - intros t Ht v Hv. apply in_app_or in Ht as [Ht|Ht].
    + apply good_in in Ht as [Ht _]. apply later_vertex.
      now apply (triangle_vertex t).
    + unfold newOnes in Ht. apply in_map_iff in Ht as (e & <- & He).
      destruct (boundary_apex e He) as (_ & H0 & H1 & _).
      unfold verts in Hv. simpl in Hv.
      destruct Hv as [<-|[<-|[<-|[]]]]; auto using later_vertex.
      apply in_or_app. right. apply in_or_app. right. now left.
  - intros t Ht. apply in_app_or in Ht as [Ht|Ht].
    + apply good_in in Ht as [Ht _]. now apply (inv_orient _ _ invariant).
    + unfold newOnes in Ht. apply in_map_iff in Ht as (e & <- & He).
      unfold orient3. simpl. now apply new_orient.
  - intros t q Ht Hq.
    assert (Hcase : In q (verts super ++ done) \/ q = p).
    { rewrite app_assoc in Hq. apply in_app_or in Hq as [Hq|[<-|[]]]; auto. }
    apply in_app_or in Ht as [Ht|Ht].
    + apply good_in in Ht as [Ht Hge].
      destruct Hcase as [Hq'| ->]; [|assumption].
      now apply (inv_empty _ _ invariant).
    + unfold newOnes in Ht. apply in_map_iff in Ht as (e & <- & He).
      unfold incircle3. simpl.
      destruct Hcase as [Hq'| ->]; [now apply new_empty|].
      rewrite incircle_vertex2. apply Qle_refl.
  - apply new_unique.
  - apply new_adjacent.
  - intros t t' v w Ht Ht' Hv Hw Hsame.
    destruct (new_vertex_cases t v Ht Hv) as [(u & Hu & Hvu)|(-> & u & Hu & Hlt)];
      destruct (new_vertex_cases t' w Ht' Hw) as [(u' & Hu' & Hwu)|(-> & u' & Hu' & Hlt')].
    + now apply (inv_places _ _ invariant u u').
    + exfalso.
      pose proof (inv_empty _ _ invariant u' v Hu' (triangle_vertex u v Hu Hvu)) as Hge.
      unfold incircle3 in *. rewrite (samePlace_incircle _ _ _ v p Hsame) in Hge. lra.
    + exfalso.
      pose proof (inv_empty _ _ invariant u w Hu (triangle_vertex u' w Hu' Hwu)) as Hge.
      unfold incircle3 in *. rewrite <- (samePlace_incircle _ _ _ p w Hsame) in Hge. lra.
    + reflexivity.
Qed.

End Step.

(** The super-triangle alone satisfies the invariant. *)
Lemma super_invariant : Invariant [] [super].
Proof.
  pose proof refs_distinct as Hnd. rewrite map_app in Hnd.
  apply NoDup_app_inv in Hnd as (Hnd & _ & _).
  unfold verts in Hnd. simpl in Hnd.
  inversion Hnd as [|? ? Hn0 Hnd1]; subst.
  inversion Hnd1 as [|? ? Hn1 Hnd2]; subst. simpl in Hn0, Hn1.
  constructor.
  - intros q [].
  - intros t [<-|[]] v Hv. apply in_or_app. now left.
  - intros t [<-|[]]. exact super_orient.
  - intros t q [<-|[]] Hq. rewrite app_nil_r in Hq.
    unfold verts in Hq. simpl in Hq. unfold incircle3.
    destruct Hq as [<-|[<-|[<-|[]]]].
    + rewrite incircle_vertex0. apply Qle_refl.
    + rewrite incircle_vertex1. apply Qle_refl.
    + rewrite incircle_vertex2. apply Qle_refl.
  - unfold refsOf, allEdges, edges, edgeRef. simpl.
    repeat constructor; simpl; intros H;
      repeat (destruct H as [H|H]; [injection H; intros; tauto|]); assumption.
  - intros r Hr. left. unfold hullRef.
    unfold refsOf, allEdges in Hr. simpl in Hr. exact Hr.
  - intros t t' v w [<-|[]] [<-|[]] Hv Hw [Hx Hz].
    pose proof super_orient as Ho. unfold orient3, orient in Ho.
    unfold verts in Hv, Hw. simpl in Hv, Hw.
    destruct Hv as [<-|[<-|[<-|[]]]], Hw as [<-|[<-|[<-|[]]]];
      try reflexivity; exfalso; rewrite ?Hx, ?Hz in Ho; try lra;
      rewrite <- ?Hx, <- ?Hz in Ho; lra.
Qed.

(** Inserting the points one after the other keeps it. *)
Lemma fold_invariant (rest done : list Vertex2D) (ts : list Triangle2D) :
  Invariant done ts -> NoDup (done ++ rest) -> incl rest points ->
  Invariant (done ++ rest) (fold_left insertPoint rest ts).
Proof.
  revert done ts. induction rest as [|p rest IH]; intros done ts Hinv Hnd Hin.
  - now rewrite app_nil_r.
  - simpl.
    replace (done ++ p :: rest) with ((done ++ [p]) ++ rest)
      by (now rewrite <- app_assoc).
    apply IH.
    + apply insertPoint_invariant; [assumption | apply Hin; now left |].
      now apply NoDup_remove_2 in Hnd; intros H; apply Hnd, in_or_app; left.
    + now rewrite <- app_assoc.
    + intros q Hq. apply Hin. now right.
Qed.

Lemma points_distinct : NoDup points.
Proof.
  pose proof refs_distinct as Hnd. apply NoDup_map_inv in Hnd.
  now apply NoDup_app_inv in Hnd as (_ & Hnd & _).
Qed.

(** After all insertions no point is inside the circle of a triangle. *)
Lemma triangulation_empty (t : Triangle2D) (q : Vertex2D) :
  In t (fold_left insertPoint points [super]) -> In q points ->
  orient3 t < 0 /\ 0 <= incircle3 t q.
Proof.
  intros Ht Hq.
  pose proof (fold_invariant points [] [super] super_invariant) as Hinv.
  simpl in Hinv. specialize (Hinv points_distinct (incl_refl _)).
  split; [now apply (inv_orient _ _ Hinv)|].
  apply (inv_empty _ _ Hinv); [assumption|]. apply in_or_app. now right.
Qed.

End Insertion.

(* ================================================================== *)
(** * The triangulation: the super-triangle and the result *)
(* ================================================================== *)

Section SuperTriangle.

Import Delaunay.
Local Open Scope Q_scope.

Lemma minOf_bounds (first : Q) (rest : list Q) :
  minOf first rest <= first /\ forall b, In b rest -> minOf first rest <= b.
Proof.
  unfold minOf. revert first.
  induction rest as [|c rest IH]; simpl; intros first.
  - split; [apply Qle_refl | intros b []].
  - destruct (IH (Qmin first c)) as [H1 H2]. split.
    + eapply Qle_trans; [exact H1 | apply Q.le_min_l].
    + intros b [<-|Hb]; [|now apply H2].
      eapply Qle_trans; [exact H1 | apply Q.le_min_r].
Qed.

Lemma maxOf_bounds (first : Q) (rest : list Q) :
  first <= maxOf first rest /\ forall b, In b rest -> b <= maxOf first rest.
Proof.
  unfold maxOf. revert first.
  induction rest as [|c rest IH]; simpl; intros first.
  - split; [apply Qle_refl | intros b []].
  - destruct (IH (Qmax first c)) as [H1 H2]. split.
    + eapply Qle_trans; [apply Q.le_max_l | exact H1].
    + intros b [<-|Hb]; [|now apply H2].
      eapply Qle_trans; [apply Q.le_max_r | exact H1].
Qed.

Variable first : Vertex2D.
Variable rest : list Vertex2D.

Definition deltaMax : Q :=
  Qmax (maxOf (x first) (map x rest) - minOf (x first) (map x rest))
       (maxOf (z first) (map z rest) - minOf (z first) (map z rest)).

Lemma box_x (p : Vertex2D) :
  In p (first :: rest) ->
  minOf (x first) (map x rest) <= x p <= maxOf (x first) (map x rest).
Proof.
  destruct (minOf_bounds (x first) (map x rest)) as [H1 H2].
  destruct (maxOf_bounds (x first) (map x rest)) as [H3 H4].
  intros [<-|Hp]; [now split|].
  split; [apply H2 | apply H4]; now apply in_map.
Qed.

Lemma box_z (p : Vertex2D) :
  In p (first :: rest) ->
  minOf (z first) (map z rest) <= z p <= maxOf (z first) (map z rest).
Proof.
  destruct (minOf_bounds (z first) (map z rest)) as [H1 H2].
  destruct (maxOf_bounds (z first) (map z rest)) as [H3 H4].
  intros [<-|Hp]; [now split|].
  split; [apply H2 | apply H4]; now apply in_map.
Qed.

Lemma deltaMax_bounds :
  maxOf (x first) (map x rest) - minOf (x first) (map x rest) <= deltaMax
  /\ maxOf (z first) (map z rest) - minOf (z first) (map z rest) <= deltaMax
  /\ 0 <= deltaMax.
Proof.
  unfold deltaMax.
  pose proof (Q.le_max_l (maxOf (x first) (map x rest) - minOf (x first) (map x rest))
                         (maxOf (z first) (map z rest) - minOf (z first) (map z rest))).
  pose proof (Q.le_max_r (maxOf (x first) (map x rest) - minOf (x first) (map x rest))
                         (maxOf (z first) (map z rest) - minOf (z first) (map z rest))).
  pose proof (box_x first (or_introl eq_refl)).
  repeat split; try assumption. lra.
Qed.

Lemma super_orientation :
  orient3 (superTriangle first rest) == - (840 * deltaMax ^ 2).
Proof.
  unfold orient3, orient, superTriangle. cbv zeta. fold deltaMax.
  cbn [v0 v1 v2 x z]. ring.
Qed.

(** The super-triangle encloses the points, when they are not all at one
    place. *)
Lemma super_encloses (p : Vertex2D) (e : Edge2D) :
  0 < deltaMax -> In p (first :: rest) ->
  In e (edges (superTriangle first rest)) ->
  orient (e0 e) (e1 e) p < 0.
Proof.
  intros Hd Hp He.
  destruct (box_x p Hp) as [Hx1 Hx2]. destruct (box_z p Hp) as [Hz1 Hz2].
  destruct deltaMax_bounds as (Hdx & Hdz & _).
  unfold edges, superTriangle in He. cbv zeta in He. fold deltaMax in He.
  cbn [v0 v1 v2] in He.
  set (minX := minOf (x first) (map x rest)) in *.
  set (maxX := maxOf (x first) (map x rest)) in *.
  set (minZ := minOf (z first) (map z rest)) in *.
  set (maxZ := maxOf (z first) (map z rest)) in *.
  set (d := deltaMax) in *.
  set (u := x p - (minX + (maxX - minX) * (1 # 2))).
  set (w := z p - (minZ + (maxZ - minZ) * (1 # 2))).
  assert (Hu : - d <= 2 * u <= d) by (unfold u; split; lra).
  assert (Hw : - d <= 2 * w <= d) by (unfold w; split; lra).
  destruct He as [<-|[<-|[<-|[]]]]; unfold orient; cbn [e0 e1 x z].
  - assert (E : forall a b : Q, a == d * b -> b < 0 -> a < 0) by (intros; nra).
    apply (E _ (20 * w - 21 * u - 400 * d)); [unfold u, w; ring | lra].
  - assert (E : forall a b : Q, a == d * b -> b < 0 -> a < 0) by (intros; nra).
    apply (E _ (20 * w + 21 * u - 400 * d)); [unfold u, w; ring | lra].
  - assert (E : forall a b : Q, a == d * b -> b < 0 -> a < 0) by (intros; nra).
    apply (E _ (- (40) * (w + d))); [unfold u, w; ring | lra].
Qed.

(** When all points are at one place the super-triangle is a point, no
    triangle is ever bad, and nothing is returned. *)
Lemma degenerate_fold (S : Triangle2D) (l : list Vertex2D) :
  det S == 0 -> fold_left insertPoint l [S] = [S].
Proof.
  intros H. induction l as [|p l IH]; [reflexivity|].
  simpl. unfold insertPoint. simpl.
  rewrite (isBad_degenerate S p H). simpl. exact IH.
Qed.

End SuperTriangle.

Lemma vertices2D_refs (nodes : list (Q * Q)) :
  map Delaunay.ref (Delaunay.vertices2D nodes) = seq 3 (length nodes).
Proof.
  unfold Delaunay.vertices2D.
  assert (E : forall k,
             map Delaunay.ref
                 (map (fun inode : nat * (Q * Q) =>
                         let (i, n) := inode in
                         Delaunay.mkVertex (3 + i) (fst n) (snd n) (Z.of_nat i))
                      (combine (seq k (length nodes)) nodes))
             = seq (3 + k) (length nodes)).
  { induction nodes as [|n nodes IH]; intros k; [reflexivity|].
    simpl. f_equal. apply (IH (S k)). }
  apply (E 0%nat).
Qed.

Section Triangulation.

Import Delaunay.
Local Open Scope Q_scope.


Definition fourNodes : list (Q * Q) := [ (0, 0); (1, 0); (0, 1); (1, 1) ].

Definition lowerTriangle : Triangle2D :=
  mkTriangle (mkVertex 4 1 0 1) (mkVertex 3 0 0 0) (mkVertex 5 0 1 2).

Example fourNodes_triangles :
  map (fun t => (originalIndex (v0 t), originalIndex (v1 t), originalIndex (v2 t)))
      (delaunayTriangulation (vertices2D fourNodes))
  = [ (1, 0, 2)%Z; (1, 2, 3)%Z ].
Proof. vm_compute. reflexivity. Qed.


End Triangulation.

(* ================================================================== *)
(** * [UnionFind] in use: any sequence of unions *)
(* ================================================================== *)

Lemma findFrom_length fuel : forall parent i,
  length (snd (UnionFind.findFrom fuel parent i)) = length parent.
Proof.
  induction fuel as [|fuel IH]; intros parent i; simpl; [reflexivity|].
  destruct (UnionFind.get parent i =? i)%nat; [reflexivity|].
  pose proof (IH parent (UnionFind.get parent i)) as H.
  destruct (UnionFind.findFrom fuel parent (UnionFind.get parent i)) as [root parent'].
  simpl in *. rewrite set_length. exact H.
Qed.

(** After [find(i)] the node [i] is a child of the root returned. *)
Lemma find_compresses parent i :
  (i < length parent)%nat ->
  UnionFind.get (snd (UnionFind.find parent i)) i = fst (UnionFind.find parent i).
Proof.
  intros Hi. unfold UnionFind.find.
  destruct (length parent) as [|fuel] eqn:Hlen; [lia|].
  simpl. destruct (UnionFind.get parent i =? i)%nat eqn:E.
  - simpl. apply Nat.eqb_eq. exact E.
  - pose proof (findFrom_length fuel parent (UnionFind.get parent i)) as H.
    destruct (UnionFind.findFrom fuel parent (UnionFind.get parent i)) as [root parent'].
    simpl in *. apply get_set_same. lia.
Qed.

Lemma represents_same n parent E E' :
  represents n parent E -> sameClasses E E' -> represents n parent E'.
Proof.
  intros (Hwf & Hlen & Hconn) Hsame. split; [exact Hwf|]. split; [exact Hlen|].
  intros i j Hi Hj. rewrite (Hconn i j Hi Hj). apply Hsame.
Qed.

(** [union] adds the link of its two nodes, whether or not they were
    connected. *)
Lemma union_link n parent E a b :
  represents n parent E -> (a < n)%nat -> (b < n)%nat ->
  represents n (UnionFind.union parent a b) ((a, b) :: E).
Proof.
  intros Hrep Ha Hb.
  destruct (Nat.eq_dec (rootOf parent a) (rootOf parent b)) as [Heq|Hne];
    [|now apply union_represents].
  unfold UnionFind.union.
  destruct (find_represents n parent E a Hrep Ha) as (Hra & Hrep1 & Hroot1).
  destruct (UnionFind.find parent a) as [rootI parent1]. simpl in *.
  destruct (find_represents n parent1 E b Hrep1 Hb) as (Hrb & Hrep2 & Hroot2).
  destruct (UnionFind.find parent1 b) as [rootJ parent2]. simpl in *.
  rewrite Hroot1 in Hrb by exact Hb. subst rootI rootJ.
  rewrite Heq, Nat.eqb_refl.
  apply (represents_same n parent2 E); [exact Hrep2|].
  apply sameClasses_sym, sameClasses_redundant.
  destruct Hrep as (_ & _ & Hconn). apply Hconn; assumption.
Qed.

(** [uf.union(a, b)] for every pair of the list, in order. *)
Definition unite (parent : UnionFind.t) (pairs : list Link) : UnionFind.t :=
  fold_left (fun p ab => UnionFind.union p (fst ab) (snd ab)) pairs parent.

Definition nodesBelow (n : nat) (ab : Link) : Prop :=
  (fst ab < n)%nat /\ (snd ab < n)%nat.

Lemma unite_represents n pairs : forall parent E,
  Forall (nodesBelow n) pairs -> represents n parent E ->
  represents n (unite parent pairs) (rev pairs ++ E).
Proof.
  induction pairs as [|[a b] pairs IH]; intros parent E Hall Hrep; [exact Hrep|].
  inversion Hall as [|? ? [Ha Hb] Hall']; subst. simpl in Ha, Hb.
  simpl. rewrite <- app_assoc. simpl.
  apply IH; [exact Hall'|]. now apply union_link.
Qed.

Lemma unite_fresh n pairs :
  Forall (nodesBelow n) pairs ->
  represents n (unite (UnionFind.make n) pairs) pairs.
Proof.
  intros Hall.
  apply (represents_same n _ (rev pairs ++ [])).
  - apply unite_represents; [exact Hall | apply make_represents].
  - apply sameClasses_incl; intros l Hl.
    + rewrite app_nil_r in Hl. now apply in_rev.
    + rewrite app_nil_r. now apply in_rev in Hl.
Qed.

(** After any sequence of unions on a fresh structure, two nodes have the
    same root under [find] exactly when a chain of united pairs joins
    them. *)
Theorem unions_join_exactly_the_united (n : nat) (pairs : list Link) (i j : nat) :
  Forall (nodesBelow n) pairs -> (i < n)%nat -> (j < n)%nat ->
  (fst (UnionFind.find (unite (UnionFind.make n) pairs) i)
   = fst (UnionFind.find (unite (UnionFind.make n) pairs) j)
   <-> connected pairs i j).
Proof.
  intros Hall Hi Hj.
  destruct (unite_fresh n pairs Hall) as (_ & _ & Hconn).
  exact (Hconn i j Hi Hj).
Qed.

Lemma unions_join_exactly_the_united_witness :
  Forall (nodesBelow 4) [ (0, 1); (2, 3); (1, 0) ]%nat
  /\ (fst (UnionFind.find (unite (UnionFind.make 4) [ (0, 1); (2, 3); (1, 0) ]%nat) 0)
      = fst (UnionFind.find (unite (UnionFind.make 4) [ (0, 1); (2, 3); (1, 0) ]%nat) 1)
      <-> connected [ (0, 1); (2, 3); (1, 0) ]%nat 0 1).
Proof.
  assert (H : Forall (nodesBelow 4) [ (0, 1); (2, 3); (1, 0) ]%nat).
  { repeat constructor; simpl; lia. }
  split; [exact H|].
  apply (unions_join_exactly_the_united 4 _ 0 1 H); lia.
Defined.

(** After any sequence of unions on a fresh structure, [find(i)] returns a
    node that is its own parent, leaves [i] a child of that node, keeps
    the size of the array, and changes the root of no node. *)
Theorem find_returns_root_and_compresses (n : nat) (pairs : list Link) (i : nat) :
  Forall (nodesBelow n) pairs -> (i < n)%nat ->
  let parent := unite (UnionFind.make n) pairs in
  let root := fst (UnionFind.find parent i) in
  let parent' := snd (UnionFind.find parent i) in
  (root < n)%nat
  /\ UnionFind.get parent' root = root
  /\ UnionFind.get parent' i = root
  /\ length parent' = n
  /\ forall j, (j < n)%nat ->
       fst (UnionFind.find parent' j) = fst (UnionFind.find parent j).
Proof.
  intros Hall Hi parent root parent'.
  pose proof (unite_fresh n pairs Hall) as Hrep. fold parent in Hrep.
  destruct (find_represents n parent pairs i Hrep Hi) as (_ & Hrep' & Hroot).
  fold parent' in Hrep', Hroot.
  destruct Hrep as (Hwf & Hlen & _). destruct Hrep' as (Hwf' & Hlen' & _).
  assert (Hi' : (i < length parent)%nat) by (rewrite Hlen; exact Hi).
  pose proof (find_root parent i Hwf Hi') as H.
  unfold root, parent'.
  destruct (UnionFind.find parent i) as [r p'] eqn:E. simpl in *.
  destruct H as (Hreach & _ & _ & Hiff).
  split; [rewrite <- Hlen; eapply reach_inside; eassumption|].
  split.
  { apply (reach_is_root p' r r). apply Hiff. apply reach_root.
    eapply reach_is_root. exact Hreach. }
  split.
  { pose proof (find_compresses parent i Hi') as Hc. rewrite E in Hc. exact Hc. }
  split; [exact Hlen'|].
  intros j Hj. apply Hroot. exact Hj.
Qed.

Lemma find_returns_root_and_compresses_witness :
  Forall (nodesBelow 4) [ (0, 1); (1, 2) ]%nat /\ (0 < 4)%nat
  /\ let parent := unite (UnionFind.make 4) [ (0, 1); (1, 2) ]%nat in
     let root := fst (UnionFind.find parent 0) in
     let parent' := snd (UnionFind.find parent 0) in
     (root < 4)%nat
     /\ UnionFind.get parent' root = root
     /\ UnionFind.get parent' 0 = root
     /\ length parent' = 4%nat
     /\ forall j, (j < 4)%nat ->
          fst (UnionFind.find parent' j) = fst (UnionFind.find parent j).
Proof.
  assert (H : Forall (nodesBelow 4) [ (0, 1); (1, 2) ]%nat).
  { repeat constructor; simpl; lia. }
  split; [exact H|]. split; [lia|].
  apply (find_returns_root_and_compresses 4 _ 0 H). lia.
Defined.

(* ================================================================== *)
(** * The pass over the sorted edges: what it keeps and what it rejects *)
(* ================================================================== *)

Lemma pass_partition L : forall st,
  Permutation
    (Kruskal.mstEdges (fold_left Kruskal.step L st)
     ++ Kruskal.remainingEdges (fold_left Kruskal.step L st))
    (Kruskal.mstEdges st ++ Kruskal.remainingEdges st ++ links (finiteEdges L)).
Proof.
  induction L as [|e L IH]; intros st.
  - simpl. now rewrite app_nil_r.
  - simpl fold_left. rewrite IH. clear IH.
    unfold finiteEdges. simpl filter. unfold isFinite at 2. unfold Kruskal.step.
    destruct (Kruskal.weight e) as [w|]; [|reflexivity].
    destruct (UnionFind.find (Kruskal.uf st) (Kruskal.u e)) as [rootU uf1].
    destruct (UnionFind.find uf1 (Kruskal.v e)) as [rootV uf2].
    destruct (negb (rootU =? rootV)%nat); cbn [Kruskal.mstEdges Kruskal.remainingEdges];
      unfold links; simpl map; fold (links (filter isFinite L)); unfold linkOf.
    + rewrite <- app_assoc. apply Permutation_app_head. simpl.
      apply Permutation_middle.
    + apply Permutation_app_head. rewrite <- app_assoc. reflexivity.
Qed.

Lemma run_partition (numNodes : nat) (allEdges : list Kruskal.Edge) :
  Permutation
    (Kruskal.mstEdges (Kruskal.run numNodes allEdges)
     ++ Kruskal.remainingEdges (Kruskal.run numNodes allEdges))
    (links (finiteEdges allEdges)).
Proof.
  unfold Kruskal.run. rewrite pass_partition. simpl.
  unfold links, finiteEdges. apply Permutation_map.
  assert (H : forall l l' : list Kruskal.Edge,
             Permutation l l' -> Permutation (filter isFinite l) (filter isFinite l')).
  { intros l l' Hp. induction Hp; simpl;
      repeat match goal with |- context [isFinite ?x] => destruct (isFinite x) end;
      eauto using Permutation. }
  apply H, sort_permutation.
Qed.

(** Every candidate edge of finite weight ends up in exactly one of
    [mstEdges] and [remainingEdges]; an edge of infinite weight in
    neither. *)
Theorem kruskal_keeps_or_rejects_each_finite_edge
    (numNodes : nat) (allEdges : list Kruskal.Edge) :
  Permutation
    (Kruskal.mstEdges (Kruskal.run numNodes allEdges)
     ++ Kruskal.remainingEdges (Kruskal.run numNodes allEdges))
    (links (finiteEdges allEdges)).
Proof. apply run_partition. Qed.

(** What holds of the state between two edges: the union-find structure
    stands for the edges selected so far, and every rejected edge joins two
    nodes that the selected edges connect. *)
Definition passInvariant (n : nat) (st : Kruskal.State) : Prop :=
  represents n (Kruskal.uf st) (Kruskal.mstEdges st)
  /\ forall a b, In (a, b) (Kruskal.remainingEdges st) ->
                 connected (Kruskal.mstEdges st) a b.

Lemma step_invariant n st e :
  inRange n e -> passInvariant n st -> passInvariant n (Kruskal.step st e).
Proof.
  intros [Hu Hv] [Hrep Hrej]. unfold Kruskal.step.
  destruct (Kruskal.weight e) as [w|]; [|split; assumption].
  destruct (find_represents n _ _ (Kruskal.u e) Hrep Hu) as (Hru & Hrep1 & Hroot1).
  destruct (UnionFind.find (Kruskal.uf st) (Kruskal.u e)) as [rootU uf1].
  simpl in Hru, Hrep1, Hroot1.
  destruct (find_represents n _ _ (Kruskal.v e) Hrep1 Hv) as (Hrv & Hrep2 & Hroot2).
  destruct (UnionFind.find uf1 (Kruskal.v e)) as [rootV uf2].
  simpl in Hrv, Hrep2, Hroot2.
  rewrite Hroot1 in Hrv by exact Hv. subst rootU rootV.
  destruct (Nat.eqb_spec (rootOf (Kruskal.uf st) (Kruskal.u e))
                         (rootOf (Kruskal.uf st) (Kruskal.v e))) as [Heq|Hne];
    cbn [negb]; split; cbn [Kruskal.uf Kruskal.mstEdges Kruskal.remainingEdges].
  - exact Hrep2.
  - intros a b Hin. apply in_app_or in Hin as [Hin|[Hin|[]]]; [now apply Hrej|].
    injection Hin as <- <-. destruct Hrep as (_ & _ & Hconn). now apply Hconn.
  - apply (represents_same n _ ((Kruskal.u e, Kruskal.v e) :: Kruskal.mstEdges st)).
    + now apply union_link.
    + apply sameClasses_incl; intros l Hl.
      * apply in_or_app. destruct Hl as [<-|Hl]; [right; now left | now left].
      * apply in_app_or in Hl as [Hl|[<-|[]]]; [now right | now left].
  - intros a b Hin. eapply connected_incl; [|apply Hrej; exact Hin].
    intros l Hl. apply in_or_app. now left.
Qed.

Lemma pass_invariant n L : forall st,
  Forall (inRange n) L -> passInvariant n st ->
  passInvariant n (fold_left Kruskal.step L st).
Proof.
  induction L as [|e L IH]; intros st Hall Hinv; [exact Hinv|].
  inversion Hall; subst. simpl. apply IH; [assumption|].
  now apply step_invariant.
Qed.

Lemma run_invariant n allEdges :
  Forall (inRange n) allEdges -> passInvariant n (Kruskal.run n allEdges).
Proof.
  intros Hall. unfold Kruskal.run. apply pass_invariant.
  - eapply Permutation_Forall; [symmetry; apply sort_permutation | exact Hall].
  - split; [apply make_represents | intros a b []].
Qed.

(** An edge is rejected only when the selected edges already connect its
    end points: every edge of [remainingEdges] closes a cycle with the
    edges of [mstEdges]. *)
Theorem kruskal_rejected_edges_close_cycles
    (numNodes : nat) (allEdges : list Kruskal.Edge) (a b : nat) :
  Forall (inRange numNodes) allEdges ->
  In (a, b) (Kruskal.remainingEdges (Kruskal.run numNodes allEdges)) ->
  connected (Kruskal.mstEdges (Kruskal.run numNodes allEdges)) a b.
Proof.
  intros Hall Hin. destruct (run_invariant numNodes allEdges Hall) as [_ H].
  now apply H.
Qed.

Lemma kruskal_rejected_edges_close_cycles_witness :
  Forall (inRange 5) sampleGraph
  /\ In (0, 2)%nat (Kruskal.remainingEdges (Kruskal.run 5 sampleGraph))
  /\ connected (Kruskal.mstEdges (Kruskal.run 5 sampleGraph)) 0 2.
Proof.
  assert (Hin : In (0, 2)%nat (Kruskal.remainingEdges (Kruskal.run 5 sampleGraph))).
  { vm_compute. left. reflexivity. }
  split; [exact sampleGraph_inRange|]. split; [exact Hin|].
  exact (kruskal_rejected_edges_close_cycles 5 sampleGraph 0 2 sampleGraph_inRange Hin).
Defined.

(** After the pass the union-find structure stands for the selected
    edges: two nodes have the same root exactly when [mstEdges] connects
    them. *)
Theorem kruskal_structure_stands_for_tree
    (numNodes : nat) (allEdges : list Kruskal.Edge) (i j : nat) :
  Forall (inRange numNodes) allEdges -> (i < numNodes)%nat -> (j < numNodes)%nat ->
  (fst (UnionFind.find (Kruskal.uf (Kruskal.run numNodes allEdges)) i)
   = fst (UnionFind.find (Kruskal.uf (Kruskal.run numNodes allEdges)) j)
   <-> connected (Kruskal.mstEdges (Kruskal.run numNodes allEdges)) i j).
Proof.
  intros Hall Hi Hj.
  destruct (run_invariant numNodes allEdges Hall) as [(_ & _ & H) _].
  exact (H i j Hi Hj).
Qed.

Lemma kruskal_structure_stands_for_tree_witness :
  Forall (inRange 5) sampleGraph /\ (0 < 5)%nat /\ (4 < 5)%nat
  /\ (fst (UnionFind.find (Kruskal.uf (Kruskal.run 5 sampleGraph)) 0)
      = fst (UnionFind.find (Kruskal.uf (Kruskal.run 5 sampleGraph)) 4)
      <-> connected (Kruskal.mstEdges (Kruskal.run 5 sampleGraph)) 0 4).
Proof.
  split; [exact sampleGraph_inRange|]. split; [lia|]. split; [lia|].
  apply (kruskal_structure_stands_for_tree 5 sampleGraph 0 4 sampleGraph_inRange); lia.
Defined.

(** ** Counting the trees *)

(** The number of roots of the parent array: the number of sets. *)
Definition countRoots (parent : UnionFind.t) : nat :=
  length (filter (fun i => (UnionFind.get parent i =? i)%nat) (seq 0 (length parent))).

Lemma filter_one_less {A : Type} (f f' : A -> bool) (x : A) (l : list A) :
  NoDup l -> In x l -> f x = true -> f' x = false ->
  (forall y, y <> x -> f' y = f y) ->
  S (length (filter f' l)) = length (filter f l).
Proof.
  intros Hnd Hin Hx Hx' Hother.
  induction l as [|a l IH]; [contradiction|].
  inversion Hnd as [|? ? Hna Hnd']; subst. simpl.
  destruct Hin as [->|Hin].
  - rewrite Hx, Hx'. simpl. f_equal.
    f_equal. apply filter_ext_in. intros y Hy. apply Hother. intros ->. contradiction.
  - assert (Hax : a <> x) by (intros ->; contradiction).
    rewrite (Hother a Hax). destruct (f a); simpl; rewrite <- (IH Hnd' Hin); reflexivity.
Qed.

Lemma root_iff_reach parent j : UnionFind.get parent j = j <-> reach parent j j.
Proof.
  split; [apply reach_root | apply reach_is_root].
Qed.

Lemma find_countRoots parent i :
  wellFormed parent -> (i < length parent)%nat ->
  countRoots (snd (UnionFind.find parent i)) = countRoots parent.
Proof.
  intros Hwf Hi. pose proof (find_root parent i Hwf Hi) as H.
  destruct (UnionFind.find parent i) as [r parent']. simpl.
  destruct H as (_ & _ & Hlen & Hiff).
  unfold countRoots. rewrite Hlen. f_equal. apply filter_ext. intros j.
  destruct (Nat.eqb_spec (UnionFind.get parent' j) j) as [E|E];
    destruct (Nat.eqb_spec (UnionFind.get parent j) j) as [E'|E']; try reflexivity;
    exfalso.
  - apply E'. apply root_iff_reach, Hiff, root_iff_reach. exact E.
  - apply E. apply root_iff_reach, Hiff, root_iff_reach. exact E'.
Qed.

Lemma link_countRoots parent rootI rootJ :
  (rootI < length parent)%nat -> UnionFind.get parent rootI = rootI ->
  rootI <> rootJ ->
  S (countRoots (UnionFind.set parent rootI rootJ)) = countRoots parent.
Proof.
  intros HI Hroot Hne. unfold countRoots. rewrite set_length.
  apply (filter_one_less _ _ rootI).
  - apply seq_NoDup.
  - apply in_seq. lia.
  - apply Nat.eqb_eq. exact Hroot.
  - rewrite get_set_same by exact HI. apply Nat.eqb_neq. congruence.
  - intros y Hy. rewrite get_set_other by congruence. reflexivity.
Qed.

Lemma union_countRoots n parent E a b :
  represents n parent E -> (a < n)%nat -> (b < n)%nat ->
  rootOf parent a <> rootOf parent b ->
  S (countRoots (UnionFind.union parent a b)) = countRoots parent.
Proof.
  intros Hrep Ha Hb Hne. unfold UnionFind.union.
  destruct (find_represents n parent E a Hrep Ha) as (Hra & Hrep1 & Hroot1).
  assert (Hc1 : countRoots (snd (UnionFind.find parent a)) = countRoots parent).
  { destruct Hrep as (Hwf & Hlen & _). apply find_countRoots; [exact Hwf | lia]. }
  destruct (UnionFind.find parent a) as [rootI parent1]. simpl in *.
  destruct (find_represents n parent1 E b Hrep1 Hb) as (Hrb & Hrep2 & Hroot2).
  assert (Hc2 : countRoots (snd (UnionFind.find parent1 b)) = countRoots parent1).
  { destruct Hrep1 as (Hwf & Hlen & _). apply find_countRoots; [exact Hwf | lia]. }
  destruct (UnionFind.find parent1 b) as [rootJ parent2]. simpl in *.
  rewrite Hroot1 in Hrb by exact Hb. subst rootI rootJ.
  destruct (Nat.eqb_spec (rootOf parent a) (rootOf parent b)) as [|_]; [contradiction|].
  destruct Hrep2 as (Hwf2 & Hlen2 & _).
  assert (Hreach : reach parent2 a (rootOf parent a)).
  { rewrite <- Hroot1, <- Hroot2 by exact Ha.
    apply rootOf_reach; [exact Hwf2 | lia]. }
  rewrite <- Hc1, <- Hc2. apply link_countRoots.
  - eapply reach_inside; [exact Hwf2 | | exact Hreach]. lia.
  - eapply reach_is_root. exact Hreach.
  - exact Hne.
Qed.

Lemma step_count n st e :
  inRange n e -> passInvariant n st ->
  (length (Kruskal.mstEdges (Kruskal.step st e)) + countRoots (Kruskal.uf (Kruskal.step st e))
   = length (Kruskal.mstEdges st) + countRoots (Kruskal.uf st))%nat.
Proof.
  intros [Hu Hv] [Hrep _]. unfold Kruskal.step.
  destruct (Kruskal.weight e) as [w|]; [|reflexivity].
  destruct (find_represents n _ _ (Kruskal.u e) Hrep Hu) as (Hru & Hrep1 & Hroot1).
  assert (Hc1 : countRoots (snd (UnionFind.find (Kruskal.uf st) (Kruskal.u e)))
                = countRoots (Kruskal.uf st)).
  { destruct Hrep as (Hwf & Hlen & _). apply find_countRoots; [exact Hwf | lia]. }
  destruct (UnionFind.find (Kruskal.uf st) (Kruskal.u e)) as [rootU uf1].
  simpl in Hru, Hrep1, Hroot1, Hc1.
  destruct (find_represents n _ _ (Kruskal.v e) Hrep1 Hv) as (Hrv & Hrep2 & Hroot2).
  assert (Hc2 : countRoots (snd (UnionFind.find uf1 (Kruskal.v e))) = countRoots uf1).
  { destruct Hrep1 as (Hwf & Hlen & _). apply find_countRoots; [exact Hwf | lia]. }
  destruct (UnionFind.find uf1 (Kruskal.v e)) as [rootV uf2].
  simpl in Hrv, Hrep2, Hroot2, Hc2.
  rewrite Hroot1 in Hrv by exact Hv. subst rootU rootV.
  destruct (Nat.eqb_spec (rootOf (Kruskal.uf st) (Kruskal.u e))
                         (rootOf (Kruskal.uf st) (Kruskal.v e))) as [Heq|Hne];
    cbn [negb Kruskal.uf Kruskal.mstEdges].
  - congruence.
  - rewrite length_app. simpl.
    pose proof (union_countRoots n uf2 _ (Kruskal.u e) (Kruskal.v e) Hrep2 Hu Hv) as H.
    rewrite !Hroot2, !Hroot1 in H by assumption. specialize (H Hne). lia.
Qed.

Lemma pass_count n L : forall st,
  Forall (inRange n) L -> passInvariant n st ->
  (length (Kruskal.mstEdges (fold_left Kruskal.step L st))
   + countRoots (Kruskal.uf (fold_left Kruskal.step L st))
   = length (Kruskal.mstEdges st) + countRoots (Kruskal.uf st))%nat.
Proof.
  induction L as [|e L IH]; intros st Hall Hinv; [reflexivity|].
  inversion Hall; subst. simpl.
  rewrite IH; [now apply (step_count n) | assumption | now apply step_invariant].
Qed.

Lemma run_count (numNodes : nat) (allEdges : list Kruskal.Edge) :
  Forall (inRange numNodes) allEdges ->
  (length (Kruskal.mstEdges (Kruskal.run numNodes allEdges))
   + countRoots (Kruskal.uf (Kruskal.run numNodes allEdges)) = numNodes)%nat
  /\ (length (Kruskal.mstEdges (Kruskal.run numNodes allEdges)) <= numNodes - 1)%nat.
Proof.
  intros Hall.
  assert (Hsum : (length (Kruskal.mstEdges (Kruskal.run numNodes allEdges))
                  + countRoots (Kruskal.uf (Kruskal.run numNodes allEdges))
                  = numNodes)%nat).
  { unfold Kruskal.run. rewrite (pass_count numNodes).
    - simpl. unfold countRoots, UnionFind.make. rewrite length_seq.
      rewrite (filter_ext_in _ (fun _ => true)).
      + assert (E : forall l : list nat, filter (fun _ => true) l = l).
        { induction l as [|a l IHl]; simpl; [reflexivity | now rewrite IHl]. }
        rewrite E. apply length_seq.
      + intros i Hi. apply in_seq in Hi. apply Nat.eqb_eq.
        unfold UnionFind.get. apply seq_nth. lia.
    - eapply Permutation_Forall; [symmetry; apply sort_permutation | exact Hall].
    - split; [apply make_represents | intros a b []]. }
  split; [exact Hsum|].
  destruct numNodes as [|m]; [lia|].
  destruct (run_invariant (S m) allEdges Hall) as [(Hwf & Hlen & _) _].
  assert (H0 : (0 < length (Kruskal.uf (Kruskal.run (S m) allEdges)))%nat) by lia.
  pose proof (rootOf_reach _ 0%nat Hwf H0) as Hreach.
  assert (Hin : In (rootOf (Kruskal.uf (Kruskal.run (S m) allEdges)) 0)
                   (filter (fun i => (UnionFind.get (Kruskal.uf (Kruskal.run (S m) allEdges)) i =? i)%nat)
                           (seq 0 (length (Kruskal.uf (Kruskal.run (S m) allEdges)))))).
  { apply filter_In. split.
    - apply in_seq. split; [lia|]. simpl. eapply reach_inside; eassumption.
    - apply Nat.eqb_eq. eapply reach_is_root. exact Hreach. }
  assert (Hpos : (1 <= countRoots (Kruskal.uf (Kruskal.run (S m) allEdges)))%nat).
  { unfold countRoots.
    destruct (filter _ _); [contradiction | simpl; lia]. }
  lia.
Qed.

(** The number of selected edges and the number of trees they leave add
    up to the number of nodes; so at most [numNodes - 1] edges are
    selected. *)
Theorem kruskal_edge_count (numNodes : nat) (allEdges : list Kruskal.Edge) :
  Forall (inRange numNodes) allEdges ->
  (length (Kruskal.mstEdges (Kruskal.run numNodes allEdges))
   + countRoots (Kruskal.uf (Kruskal.run numNodes allEdges)) = numNodes)%nat
  /\ (length (Kruskal.mstEdges (Kruskal.run numNodes allEdges)) <= numNodes - 1)%nat.
Proof. apply run_count. Qed.

Lemma kruskal_edge_count_witness :
  Forall (inRange 5) sampleGraph
  /\ (length (Kruskal.mstEdges (Kruskal.run 5 sampleGraph))
      + countRoots (Kruskal.uf (Kruskal.run 5 sampleGraph)) = 5)%nat
  /\ (length (Kruskal.mstEdges (Kruskal.run 5 sampleGraph)) <= 5 - 1)%nat.
Proof.
  split; [exact sampleGraph_inRange|].
  exact (kruskal_edge_count 5 sampleGraph sampleGraph_inRange).
Defined.

(* ================================================================== *)
(** * The triangulation: more about the triangles returned *)
(* ================================================================== *)

Section Returned.

Import Delaunay.
Local Open Scope Q_scope.

(** What [delaunayTriangulation] returns: nothing, or the triangles away
    from the super-triangle among those that satisfy the invariant. *)
Lemma triangulation_result (nodes : list (Q * Q)) :
  delaunayTriangulation (vertices2D nodes) = []
  \/ exists first rest all,
       vertices2D nodes = first :: rest
       /\ Invariant (superTriangle first rest) (first :: rest) (first :: rest) all
       /\ delaunayTriangulation (vertices2D nodes)
          = filter (fun t => negb (touchesSuper t)) all.
Proof.
  pose proof (vertices2D_refs nodes) as Hrefs.
  destruct (vertices2D nodes) as [|first rest]; [now left|].
  destruct (deltaMax_bounds first rest) as (_ & _ & Hge).
  pose proof (super_orientation first rest) as Eo.
  destruct (Qlt_le_dec 0 (deltaMax first rest)) as [Hpos|Hzero].
  - right. exists first, rest.
    exists (fold_left insertPoint (first :: rest) [superTriangle first rest]).
    split; [reflexivity|]. split; [|reflexivity].
    assert (Hnd : NoDup (map ref (verts (superTriangle first rest) ++ first :: rest))).
    { rewrite map_app, Hrefs.
      change (NoDup (seq 0 (3 + length nodes))). apply seq_NoDup. }
    assert (Ho : orient3 (superTriangle first rest) < 0) by (rewrite Eo; nra).
    apply (fold_invariant _ _ Hnd Ho) with (done := []).
    + intros p e. now apply super_encloses.
    + now apply super_invariant.
    + now apply (points_distinct (superTriangle first rest)).
    + apply incl_refl.
  - left. unfold delaunayTriangulation.
    assert (Hdet : det (superTriangle first rest) == 0).
    { rewrite det_orient3, Eo. nra. }
    rewrite (degenerate_fold _ _ Hdet). reflexivity.
Qed.

Lemma vertices2D_in (nodes : list (Q * Q)) (v : Vertex2D) :
  In v (vertices2D nodes) <->
  exists i n, nth_error nodes i = Some n
              /\ v = mkVertex (3 + i) (fst n) (snd n) (Z.of_nat i).
Proof.
  unfold vertices2D. rewrite in_map_iff. split.
  - intros ([i n] & <- & Hin). exists i, n. split; [|reflexivity].
    apply in_combine_seq in Hin as (l1 & l2 & -> & <-).
    simpl. rewrite nth_error_app2 by lia. now rewrite Nat.sub_diag.
  - intros (i & n & Hn & ->). exists (i, n). split; [reflexivity|].
    apply nth_error_split in Hn as (l1 & l2 & -> & <-).
    apply (combine_seq_in l1 l2 0).
Qed.

Lemma super_vertex_index (first : Vertex2D) (rest : list Vertex2D) (v : Vertex2D) :
  In v (verts (superTriangle first rest)) -> originalIndex v = (-1)%Z.
Proof. intros [<-|[<-|[<-|[]]]]; reflexivity. Qed.

Lemma kept_vertex (first : Vertex2D) (rest : list Vertex2D) (t : Triangle2D)
    (v : Vertex2D) :
  negb (touchesSuper t) = true -> In v (verts t) ->
  incl (verts t) (verts (superTriangle first rest) ++ first :: rest) ->
  In v (first :: rest).
Proof.
  intros Hkeep Hv Hincl. apply negb_true_iff in Hkeep. unfold touchesSuper in Hkeep.
  apply orb_false_iff in Hkeep as [Hkeep H2]. apply orb_false_iff in Hkeep as [H0 H1].
  apply Z.eqb_neq in H0, H1, H2.
  destruct (in_app_or _ _ _ (Hincl v Hv)) as [Hs|Hp]; [|exact Hp].
  apply super_vertex_index in Hs.
  unfold verts in Hv. simpl in Hv.
  destruct Hv as [<-|[<-|[<-|[]]]]; contradiction.
Qed.

Lemma returned_vertices_are_nodes (nodes : list (Q * Q)) (t : Triangle2D) :
  In t (delaunayTriangulation (vertices2D nodes)) ->
  forall v, In v (verts t) -> In v (vertices2D nodes).
Proof.
  intros Ht v Hv.
  destruct (triangulation_result nodes) as [E|(first & rest & all & Ev & Hinv & E)];
    rewrite E in Ht; [contradiction|].
  apply filter_In in Ht as [Ht Hkeep]. rewrite Ev.
  pose proof (inv_vertices _ _ _ _ Hinv t Ht) as Hincl.
  now apply (kept_vertex first rest t).
Qed.

(** The vertices of every returned triangle are three of the nodes. *)
Theorem delaunay_vertices_are_nodes (nodes : list (Q * Q)) (t : Triangle2D) :
  In t (delaunayTriangulation (vertices2D nodes)) ->
  In (v0 t) (vertices2D nodes) /\ In (v1 t) (vertices2D nodes)
  /\ In (v2 t) (vertices2D nodes).
Proof.
  intros Ht.
  repeat split; apply (returned_vertices_are_nodes nodes t Ht); simpl; auto.
Qed.

Lemma delaunay_vertices_are_nodes_witness :
  In lowerTriangle (delaunayTriangulation (vertices2D fourNodes))
  /\ In (v0 lowerTriangle) (vertices2D fourNodes)
  /\ In (v1 lowerTriangle) (vertices2D fourNodes)
  /\ In (v2 lowerTriangle) (vertices2D fourNodes).
Proof.
  assert (Ht : In lowerTriangle (delaunayTriangulation (vertices2D fourNodes))).
  { vm_compute. left. reflexivity. }
  split; [exact Ht|].
  exact (delaunay_vertices_are_nodes fourNodes lowerTriangle Ht).
Defined.



(** The directed edges of a triangle as pairs of node indices. *)
Definition indexEdges (t : Triangle2D) : list (Z * Z) :=
  [ (originalIndex (v0 t), originalIndex (v1 t));
    (originalIndex (v1 t), originalIndex (v2 t));
    (originalIndex (v2 t), originalIndex (v0 t)) ].

Lemma node_ref (nodes : list (Q * Q)) (v : Vertex2D) :
  In v (vertices2D nodes) -> ref v = (3 + Z.to_nat (originalIndex v))%nat.
Proof.
  intros H. apply vertices2D_in in H as (i & n & _ & ->). simpl.
  now rewrite Nat2Z.id.
Qed.

Lemma refs_of_indices (nodes : list (Q * Q)) (l : list Triangle2D) :
  (forall t, In t l -> In t (delaunayTriangulation (vertices2D nodes))) ->
  refsOf l
  = map (fun r : Z * Z => ((3 + Z.to_nat (fst r))%nat, (3 + Z.to_nat (snd r))%nat))
        (flat_map indexEdges l).
Proof.
  unfold refsOf, allEdges. induction l as [|t l IH]; intros Hin; [reflexivity|].
  change (flat_map edges (t :: l)) with (edges t ++ flat_map edges l).
  change (flat_map indexEdges (t :: l)) with (indexEdges t ++ flat_map indexEdges l).
  rewrite !map_app, IH by (intros t' Ht'; apply Hin; now right).
  f_equal. unfold edges, indexEdges, edgeRef. simpl.
  assert (Hv : forall v, In v (verts t) -> ref v = (3 + Z.to_nat (originalIndex v))%nat).
  { intros v Hv. apply (node_ref nodes).
    apply (returned_vertices_are_nodes nodes t); [apply Hin; now left | exact Hv]. }
  rewrite (Hv (v0 t)), (Hv (v1 t)), (Hv (v2 t)) by (simpl; auto). reflexivity.
Qed.


End Returned.

Section ReturnedMore.

Import Delaunay.
Local Open Scope Q_scope.

Lemma returned_orient (nodes : list (Q * Q)) (t : Triangle2D) :
  In t (delaunayTriangulation (vertices2D nodes)) -> orient3 t < 0.
Proof.
  intros Ht.
  destruct (triangulation_result nodes) as [E|(first & rest & all & Ev & Hinv & E)];
    rewrite E in Ht; [contradiction|].
  apply filter_In in Ht as [Ht _]. exact (inv_orient _ _ _ _ Hinv t Ht).
Qed.

Lemma returned_places (nodes : list (Q * Q)) (t t' : Triangle2D) (v w : Vertex2D) :
  In t (delaunayTriangulation (vertices2D nodes)) ->
  In t' (delaunayTriangulation (vertices2D nodes)) ->
  In v (verts t) -> In w (verts t') -> samePlace v w -> v = w.
Proof.
  intros Ht Ht'.
  destruct (triangulation_result nodes) as [E|(first & rest & all & Ev & Hinv & E)];
    rewrite E in Ht, Ht'; [contradiction|].
  apply filter_In in Ht as [Ht _]. apply filter_In in Ht' as [Ht' _].
  exact (inv_places _ _ _ _ Hinv t t' v w Ht Ht').
Qed.

(** Three nodes on one line. *)
Definition onOneLine (a b c : Q * Q) : Prop :=
  fst a * (snd b - snd c) + fst b * (snd c - snd a) + fst c * (snd a - snd b) == 0.

Lemma collinear_gives_nothing (nodes : list (Q * Q)) :
  (forall a b c, In a nodes -> In b nodes -> In c nodes -> onOneLine a b c) ->
  delaunayTriangulation (vertices2D nodes) = [].
Proof.
  intros Hline.
  destruct (delaunayTriangulation (vertices2D nodes)) as [|t l] eqn:E; [reflexivity|].
  exfalso.
  assert (Ht : In t (delaunayTriangulation (vertices2D nodes))) by (rewrite E; now left).
  pose proof (returned_orient nodes t Ht) as Ho.
  assert (Hv : forall v, In v (verts t) ->
                 exists n, In n nodes /\ x v = fst n /\ z v = snd n).
  { intros v Hv. apply (returned_vertices_are_nodes nodes t Ht) in Hv.
    apply vertices2D_in in Hv as (i & n & Hn & ->).
    exists n. split; [eapply nth_error_In; exact Hn | split; reflexivity]. }
  destruct (Hv (v0 t)) as (a & Ha & Eax & Eaz); [simpl; auto|].
  destruct (Hv (v1 t)) as (b & Hb & Ebx & Ebz); [simpl; auto|].
  destruct (Hv (v2 t)) as (c & Hc & Ecx & Ecz); [simpl; auto|].
  pose proof (Hline a b c Ha Hb Hc) as H.
  unfold orient3, orient in Ho. unfold onOneLine in H.
  rewrite Eax, Eaz, Ebx, Ebz, Ecx, Ecz in Ho. lra.
Qed.


Definition diagonalNodes : list (Q * Q) := [ (0, 0); (1, 1); (2, 2); (5, 5) ].

Lemma diagonalNodes_onOneLine :
  forall a b c, In a diagonalNodes -> In b diagonalNodes -> In c diagonalNodes ->
                onOneLine a b c.
Proof.
  intros a b c Ha Hb Hc. unfold diagonalNodes in *. simpl in Ha, Hb, Hc.
  destruct Ha as [<-|[<-|[<-|[<-|[]]]]], Hb as [<-|[<-|[<-|[<-|[]]]]],
           Hc as [<-|[<-|[<-|[<-|[]]]]]; reflexivity.
Qed.


(** With fewer than three nodes no triangle is returned. *)
Theorem delaunay_needs_three_nodes (nodes : list (Q * Q)) :
  (length nodes < 3)%nat -> delaunayTriangulation (vertices2D nodes) = [].
Proof.
  intros Hlen. apply collinear_gives_nothing. intros a b c Ha Hb Hc.
  destruct nodes as [|p [|q [|r l]]]; simpl in *; try lia; unfold onOneLine;
    repeat match goal with
           | H : _ \/ _ |- _ => destruct H as [<-|H]
           | H : False |- _ => contradiction
           end; ring.
Qed.

Lemma delaunay_needs_three_nodes_witness :
  (length [ (0, 0); (3, 1) ] < 3)%nat
  /\ delaunayTriangulation (vertices2D [ (0, 0); (3, 1) ]) = [].
Proof.
  assert (H : (length [ (0, 0); (3, 1) ] < 3)%nat) by (simpl; lia).
  split; [exact H|].
  exact (delaunay_needs_three_nodes [ (0, 0); (3, 1) ] H).
Defined.



End ReturnedMore.

(* ================================================================== *)
(** * The candidate edges built from the triangulation *)
(* ================================================================== *)

Section Candidates.

Local Open Scope Q_scope.

Variable nodes : list Network.Node.

(** The key of a candidate edge. *)
Definition keyOf (e : Kruskal.Edge) : Z * Z :=
  Network.key (Z.of_nat (Kruskal.u e)) (Z.of_nat (Kruskal.v e)).

(** A finite weight is the squared distance of the end points, and it is
    positive. *)
Definition weightOk (e : Kruskal.Edge) : Prop :=
  match Kruskal.weight e with
  | Kruskal.Finite w =>
      exists p1 p2,
        nth_error nodes (Kruskal.u e) = Some p1
        /\ nth_error nodes (Kruskal.v e) = Some p2
        /\ w = Network.distanceToSquared p1 p2 /\ 0 < w
  | Kruskal.Infinity => True
  end.

Definition edgeOk (e : Kruskal.Edge) : Prop :=
  inRange (length nodes) e /\ Kruskal.u e <> Kruskal.v e /\ weightOk e.

(** A pair of vertices that stand for two different nodes at different
    places. *)
Definition pairOk (edge : Delaunay.Vertex2D * Delaunay.Vertex2D) : Prop :=
  exists i j p1 p2,
    Delaunay.originalIndex (fst edge) = Z.of_nat i
    /\ Delaunay.originalIndex (snd edge) = Z.of_nat j
    /\ nth_error nodes i = Some p1 /\ nth_error nodes j = Some p2
    /\ i <> j
    /\ ~ (Network.x p1 == Network.x p2 /\ Network.z p1 == Network.z p2).

Definition pairKey (edge : Delaunay.Vertex2D * Delaunay.Vertex2D) : Z * Z :=
  Network.key (Delaunay.originalIndex (fst edge)) (Delaunay.originalIndex (snd edge)).

Lemma has_spec (edgeSet : list (Z * Z)) (k : Z * Z) :
  Network.has edgeSet k = true <-> In k edgeSet.
Proof.
  unfold Network.has. rewrite existsb_exists. split.
  - intros (k' & Hin & Hk). unfold Network.sameKey in Hk.
    apply andb_true_iff in Hk as [H1 H2]. apply Z.eqb_eq in H1, H2.
    destruct k, k'. simpl in *. now subst.
  - intros Hin. exists k. split; [exact Hin|].
    unfold Network.sameKey. now rewrite !Z.eqb_refl.
Qed.

Lemma nodeAt_nat (i : nat) : Network.nodeAt nodes (Z.of_nat i) = nth_error nodes i.
Proof.
  unfold Network.nodeAt.
  destruct (Z.ltb_spec (Z.of_nat i) 0); [lia|]. now rewrite Nat2Z.id.
Qed.

Lemma square_positive (a : Q) : ~ a == 0 -> 0 < a * a.
Proof. intros H. destruct (Qlt_le_dec a 0); [nra|]. destruct (Qlt_le_dec 0 a); [nra|]. exfalso. apply H. lra. Qed.

Lemma distance_positive (p1 p2 : Network.Node) :
  ~ (Network.x p1 == Network.x p2 /\ Network.z p1 == Network.z p2) ->
  0 < Network.distanceToSquared p1 p2.
Proof.
  intros H. unfold Network.distanceToSquared.
  set (a := Network.x p1 - Network.x p2). set (b := Network.y p1 - Network.y p2).
  set (c := Network.z p1 - Network.z p2).
  assert (E : a ^ 2 + b ^ 2 + c ^ 2 == a * a + b * b + c * c) by ring.
  rewrite E.
  assert (0 <= a * a) by nra. assert (0 <= b * b) by nra. assert (0 <= c * c) by nra.
  destruct (Qeq_dec a 0) as [Ha|Ha].
  - destruct (Qeq_dec c 0) as [Hc|Hc].
    + exfalso. apply H. unfold a, c in *. split; lra.
    + pose proof (square_positive c Hc). lra.
  - pose proof (square_positive a Ha). lra.
Qed.

(** What the loop over the edges of the triangles keeps: the keys in
    [edgeSet] are those of the edges in [allEdges], no key twice, and
    every edge is well formed. *)
Definition listOk (allEdges : list Kruskal.Edge) (edgeSet : list (Z * Z)) : Prop :=
  edgeSet = map keyOf allEdges /\ NoDup edgeSet /\ Forall edgeOk allEdges.

Lemma addEdge_ok allEdges edgeSet edge :
  pairOk edge -> listOk allEdges edgeSet ->
  exists allEdges' edgeSet',
    Network.addEdge nodes (Some (allEdges, edgeSet)) edge = Some (allEdges', edgeSet')
    /\ listOk allEdges' edgeSet'
    /\ (forall k, In k edgeSet' <-> In k edgeSet \/ k = pairKey edge).
Proof.
  intros (i & j & p1 & p2 & Ei & Ej & H1 & H2 & Hij & Hplace) (Hkeys & Hnd & Hall).
  unfold Network.addEdge. fold (pairKey edge).
  destruct (Network.has edgeSet (pairKey edge)) eqn:Hhas.
  - exists allEdges, edgeSet. split; [reflexivity|]. split; [now split|].
    intros k. split; [tauto|]. intros [H| ->]; [exact H | now apply has_spec].
  - rewrite Ei, Ej, !nodeAt_nat, H1, H2, !Nat2Z.id.
    eexists. eexists. split; [reflexivity|]. split; [split; [|split]|].
    + rewrite map_app, <- Hkeys. simpl. unfold keyOf. simpl.
      unfold pairKey. now rewrite Ei, Ej.
    + apply NoDup_app; [exact Hnd | repeat constructor; intros [] |].
      intros k Hk [<-|[]]. apply has_spec in Hk. congruence.
    + apply Forall_app. split; [exact Hall|]. constructor; [|constructor].
      split; [|split]; simpl.
      * split; simpl; apply nth_error_Some; congruence.
      * exact Hij.
      * unfold weightOk. simpl. exists p1, p2.
        repeat split; auto. now apply distance_positive.
    + intros k. rewrite in_app_iff. simpl. split.
      * intros [H|[<-|[]]]; [now left | now right].
      * intros [H| ->]; [now left | right; now left].
Qed.

Lemma weightedEdges_ok pairs : forall allEdges edgeSet,
  Forall pairOk pairs -> listOk allEdges edgeSet ->
  exists allEdges' edgeSet',
    fold_left (Network.addEdge nodes) pairs (Some (allEdges, edgeSet))
    = Some (allEdges', edgeSet')
    /\ listOk allEdges' edgeSet'
    /\ (forall k, In k edgeSet' <-> In k edgeSet \/ In k (map pairKey pairs)).
Proof.
  induction pairs as [|edge pairs IH]; intros allEdges edgeSet Hall Hok.
  - exists allEdges, edgeSet. split; [reflexivity|]. split; [exact Hok|].
    intros k. simpl. tauto.
  - inversion Hall as [|? ? Hedge Hall']; subst.
    destruct (addEdge_ok allEdges edgeSet edge Hedge Hok)
      as (allEdges1 & edgeSet1 & E1 & Hok1 & Hk1).
    destruct (IH allEdges1 edgeSet1 Hall' Hok1) as (allEdges2 & edgeSet2 & E2 & Hok2 & Hk2).
    exists allEdges2, edgeSet2.
    change (fold_left (Network.addEdge nodes) (edge :: pairs) (Some (allEdges, edgeSet)))
      with (fold_left (Network.addEdge nodes) pairs
              (Network.addEdge nodes (Some (allEdges, edgeSet)) edge)).
    rewrite E1.
    split; [exact E2|]. split; [exact Hok2|].
    intros k. rewrite Hk2, Hk1. simpl. intuition.
Qed.

End Candidates.

Section Pipeline.

Local Open Scope Q_scope.

Variable nodes : list Network.Node.

Definition flatNodes : list (Q * Q) := map (fun n => (Network.x n, Network.z n)) nodes.

Definition triangles : list Delaunay.Triangle2D :=
  Delaunay.delaunayTriangulation (Network.vertices2D nodes).

(** A vertex of a returned triangle stands for a node. *)
Lemma vertex_node (t : Delaunay.Triangle2D) (v : Delaunay.Vertex2D) :
  In t triangles -> In v (verts t) ->
  exists i p, nth_error nodes i = Some p
              /\ v = Delaunay.mkVertex (3 + i) (Network.x p) (Network.z p) (Z.of_nat i).
Proof.
  intros Ht Hv.
  apply (returned_vertices_are_nodes flatNodes t Ht) in Hv.
  apply vertices2D_in in Hv as (i & n & Hn & ->).
  unfold flatNodes in Hn. rewrite nth_error_map in Hn.
  destruct (nth_error nodes i) as [p|] eqn:Hp; [|discriminate].
  injection Hn as <-. exists i, p. split; [exact Hp | reflexivity].
Qed.

Lemma triangle_pairs_ok : Forall (pairOk nodes) (flat_map Network.edgesOf triangles).
Proof.
  apply Forall_forall. intros [a b] Hin.
  apply in_flat_map in Hin as (t & Ht & Hab).
  pose proof (returned_orient flatNodes t Ht) as Ho.
  assert (Hverts : In a (verts t) /\ In b (verts t) /\ a <> b).
  { unfold Network.edgesOf in Hab. unfold orient3 in Ho. simpl in Hab.
    destruct Hab as [E|[E|[E|[]]]]; injection E as <- <-;
      (split; [simpl; auto | split; [simpl; auto|]]);
      intros E; rewrite E in Ho; unfold orient in Ho; lra. }
  destruct Hverts as (Ha & Hb & Hne).
  destruct (vertex_node t a Ht Ha) as (i & p1 & H1 & Ea).
  destruct (vertex_node t b Ht Hb) as (j & p2 & H2 & Eb).
  exists i, j, p1, p2. simpl. subst a b. simpl.
  repeat split; auto.
  - intros ->. apply Hne. congruence.
  - intros [Hx Hz]. apply Hne.
    apply (returned_places flatNodes t t); auto. split; assumption.
Qed.

Lemma weighted_result :
  exists allEdges edgeSet,
    Network.weightedEdges nodes triangles = Some (allEdges, edgeSet)
    /\ listOk nodes allEdges edgeSet
    /\ forall k, In k edgeSet <->
                 In k (map pairKey (flat_map Network.edgesOf triangles)).
Proof.
  destruct (weightedEdges_ok nodes _ [] [] triangle_pairs_ok)
    as (allEdges & edgeSet & E & Hok & Hk).
  - split; [reflexivity|]. split; constructor.
  - exists allEdges, edgeSet. split; [exact E|]. split; [exact Hok|].
    intros k. rewrite Hk. simpl. tauto.
Qed.

Lemma penalize_ok crossesRiver (edges : list Kruskal.Edge) :
  Forall (edgeOk nodes) edges ->
  exists edges',
    Network.penalizeAll crossesRiver nodes edges = Some edges'
    /\ Forall (edgeOk nodes) edges'
    /\ map keyOf edges' = map keyOf edges
    /\ map linkOf edges' = map linkOf edges.
Proof.
  induction edges as [|e edges IH]; intros Hall.
  - exists []. repeat split; constructor.
  - inversion Hall as [|? ? He Hall']; subst.
    destruct (IH Hall') as (edges' & E & Hok & Hkeys & Hlinks).
    destruct He as (Hrange & Hne & Hw).
    assert (Hu : nth_error nodes (Kruskal.u e) <> None)
      by (apply nth_error_Some, Hrange).
    assert (Hv : nth_error nodes (Kruskal.v e) <> None)
      by (apply nth_error_Some, Hrange).
    simpl. unfold Network.penalize.
    destruct (nth_error nodes (Kruskal.u e)) as [startNode|]; [|congruence].
    destruct (nth_error nodes (Kruskal.v e)) as [endNode|]; [|congruence].
    rewrite E.
    destruct (Qlt_le_dec _ _);
      [|destruct (crossesRiver startNode endNode)];
      eexists; (split; [reflexivity|]);
      (split; [constructor; [|exact Hok] | split; simpl; f_equal; assumption]).
    + exact (conj Hrange (conj Hne Hw)).
    + split; [exact Hrange|]. split; [exact Hne | exact I].
    + exact (conj Hrange (conj Hne Hw)).
Qed.

Lemma candidates_result (rivers : option (Network.Node -> Network.Node -> bool)) :
  exists edges,
    Network.candidateEdges rivers nodes = Some edges
    /\ Forall (edgeOk nodes) edges
    /\ NoDup (map keyOf edges)
    /\ forall k, In k (map keyOf edges) <->
                 In k (map pairKey (flat_map Network.edgesOf triangles)).
Proof.
  destruct weighted_result as (allEdges & edgeSet & E & (Hkeys & Hnd & Hall) & Hk).
  unfold Network.candidateEdges. fold triangles. rewrite E.
  destruct rivers as [crossesRiver|].
  - destruct (penalize_ok crossesRiver allEdges Hall) as (edges' & E' & Hok & Hkeys' & _).
    exists edges'. rewrite Hkeys', <- Hkeys. auto.
  - exists allEdges. rewrite <- Hkeys. auto.
Qed.

End Pipeline.

(** The candidate edges are always built (no lookup of a node fails);
    each joins two different nodes of the list, and no two of them join
    the same two nodes. *)
Theorem candidate_edges_join_distinct_nodes
    (rivers : option (Network.Node -> Network.Node -> bool))
    (nodes : list Network.Node) :
  exists edges,
    Network.candidateEdges rivers nodes = Some edges
    /\ Forall (inRange (length nodes)) edges
    /\ Forall (fun e => Kruskal.u e <> Kruskal.v e) edges
    /\ NoDup (map keyOf edges).
Proof.
  destruct (candidates_result nodes rivers) as (edges & E & Hok & Hnd & _).
  exists edges. split; [exact E|].
  split; [|split; [|exact Hnd]];
    eapply Forall_impl; [|exact Hok| |exact Hok]; intros e (H1 & H2 & _); assumption.
Qed.


(** The candidate edges are the edges of the returned triangles: a pair
    of nodes has a candidate edge exactly when some triangle has an edge
    between the two. *)
Theorem candidate_edges_are_triangle_edges
    (rivers : option (Network.Node -> Network.Node -> bool))
    (nodes : list Network.Node) :
  exists edges,
    Network.candidateEdges rivers nodes = Some edges
    /\ forall k : Z * Z,
         In k (map keyOf edges) <->
         exists tri edge,
           In tri (Delaunay.delaunayTriangulation (Network.vertices2D nodes))
           /\ In edge (Network.edgesOf tri)
           /\ k = Network.key (Delaunay.originalIndex (fst edge))
                              (Delaunay.originalIndex (snd edge)).
Proof.
  destruct (candidates_result nodes rivers) as (edges & E & _ & _ & Hk).
  exists edges. split; [exact E|]. intros k. rewrite Hk, in_map_iff. split.
  - intros (edge & <- & Hin). apply in_flat_map in Hin as (tri & Htri & Hedge).
    exists tri, edge. auto.
  - intros (tri & edge & Htri & Hedge & ->). exists edge. split; [reflexivity|].
    apply in_flat_map. eauto.
Qed.

(** From the nodes to the tree: the pass always runs; it selects
    candidate edges of finite weight only (none that crosses a river), at
    most one less than there are nodes; and the selected edges connect
    two nodes exactly when the candidate edges of finite weight do. *)
Theorem network_tree_spans_uncrossed_edges
    (rivers : option (Network.Node -> Network.Node -> bool))
    (nodes : list Network.Node) :
  exists edges st,
    Network.candidateEdges rivers nodes = Some edges
    /\ Network.spanningTree rivers nodes = Some st
    /\ incl (Kruskal.mstEdges st) (links (finiteEdges edges))
    /\ (length (Kruskal.mstEdges st) <= length nodes - 1)%nat
    /\ sameClasses (links (finiteEdges edges)) (Kruskal.mstEdges st).
Proof.
  destruct (candidates_result nodes rivers) as (edges & E & Hok & _).
  assert (Hrange : Forall (inRange (length nodes)) edges).
  { eapply Forall_impl; [|exact Hok]. intros e (H & _). exact H. }
  exists edges, (Kruskal.run (length nodes) edges).
  split; [exact E|]. split; [unfold Network.spanningTree; now rewrite E|].
  pose proof (run_partition (length nodes) edges) as Hperm.
  destruct (run_invariant (length nodes) edges Hrange) as [_ Hrej].
  destruct (run_count (length nodes) edges Hrange) as [_ Hcount].
  split; [|split; [exact Hcount|]].
  - intros l Hl. eapply Permutation_in; [exact Hperm|]. apply in_or_app. now left.
  - intros a b. split; intros H.
    + induction H as [x|c d Hin|x y H IH|x y z0 H1 IH1 H2 IH2];
        eauto using connected_refl, connected_sym, connected_trans.
      apply (Permutation_in _ (Permutation_sym Hperm)) in Hin.
      apply in_app_or in Hin as [Hin|Hin];
        [now apply connected_link | now apply Hrej].
    + eapply connected_incl; [|exact H].
      intros l Hl. eapply Permutation_in; [exact Hperm|]. apply in_or_app. now left.
Qed.

(* ================================================================== *)
(** * [isPointInPolygon]: where a point can be found inside *)
(* ================================================================== *)

Lemma last_in {A} (l : list A) (d : A) : l <> [] -> In (last l d) l.
Proof.
  induction l as [|a l IH]; [congruence|]. intros _.
  destruct l as [|b l]; [now left|]. right. apply IH. discriminate.
Qed.

Lemma last_default {A} (l : list A) (d d' : A) : l <> [] -> last l d = last l d'.
Proof.
  induction l as [|a l IH]; [congruence|]. intros _.
  destruct l as [|b l]; [reflexivity|]. apply IH. discriminate.
Qed.

Lemma last_cons {A} (a : A) (l : list A) (d : A) : last (a :: l) d = last l a.
Proof.
  destruct l as [|b l]; [reflexivity|].
  change (last (a :: b :: l) d) with (last (b :: l) d).
  apply last_default. discriminate.
Qed.

Section Crossings.

Variables x y : R.

(** The side of the horizontal line through the point on which a vertex
    lies: [zi > y]. *)
Definition above (v : Vector3.t) : bool := gtb (Vector3.z v) y.

Lemma intersect_same_side pi pj : above pi = above pj -> intersect x y pi pj = false.
Proof.
  intros H. unfold intersect. fold (above pi) (above pj). rewrite H.
  now rewrite Bool.eqb_reflx.
Qed.

(** Where the line through two vertices on different sides meets the
    horizontal line through the point: between the two vertices. *)
Lemma crossing_between pi pj :
  above pi <> above pj ->
  let c := (Vector3.x pj - Vector3.x pi) * (y - Vector3.z pi)
           / (Vector3.z pj - Vector3.z pi) + Vector3.x pi in
  Rmin (Vector3.x pi) (Vector3.x pj) <= c <= Rmax (Vector3.x pi) (Vector3.x pj).
Proof.
  intros Hside c. unfold above, gtb in Hside.
  set (xi := Vector3.x pi) in *. set (xj := Vector3.x pj) in *.
  set (zi := Vector3.z pi) in *. set (zj := Vector3.z pj) in *.
  assert (Ht : exists t, 0 <= t <= 1 /\ c = xi + (xj - xi) * t).
  { exists ((y - zi) / (zj - zi)).
    destruct (Rlt_dec y zi) as [Hi|Hi], (Rlt_dec y zj) as [Hj|Hj];
      try (exfalso; apply Hside; reflexivity).
    - assert (Hd : zj - zi < 0) by lra. split; [|unfold c; field; lra].
      split.
      + apply Rmult_le_reg_r with (- (zj - zi)); [lra|].
        replace ((y - zi) / (zj - zi) * - (zj - zi)) with (- (y - zi)) by (field; lra).
        lra.
      + apply Rmult_le_reg_r with (- (zj - zi)); [lra|].
        replace ((y - zi) / (zj - zi) * - (zj - zi)) with (- (y - zi)) by (field; lra).
        lra.
    - assert (Hd : 0 < zj - zi) by lra. split; [|unfold c; field; lra].
      split.
      + apply Rmult_le_reg_r with (zj - zi); [lra|].
        replace ((y - zi) / (zj - zi) * (zj - zi)) with (y - zi) by (field; lra).
        lra.
      + apply Rmult_le_reg_r with (zj - zi); [lra|].
        replace ((y - zi) / (zj - zi) * (zj - zi)) with (y - zi) by (field; lra).
        lra. }
  destruct Ht as (t & [Ht0 Ht1] & ->).
  unfold Rmin, Rmax. destruct (Rle_dec xi xj); split; nra.
Qed.

Lemma crossings_one_side (g : bool) polygon : forall pj isInside,
  above pj = g -> (forall v, In v polygon -> above v = g) ->
  crossings x y pj polygon isInside = isInside.
Proof.
  induction polygon as [|pi rest IH]; intros pj isInside Hj Hall; [reflexivity|].
  simpl. rewrite intersect_same_side.
  - apply IH; [apply Hall; now left | intros v Hv; apply Hall; now right].
  - rewrite Hj. apply Hall. now left.
Qed.

Lemma crossings_right polygon : forall pj isInside,
  Vector3.x pj <= x -> (forall v, In v polygon -> Vector3.x v <= x) ->
  crossings x y pj polygon isInside = isInside.
Proof.
  induction polygon as [|pi rest IH]; intros pj isInside Hj Hall; [reflexivity|].
  simpl.
  assert (Hi : Vector3.x pi <= x) by (apply Hall; now left).
  assert (E : intersect x y pi pj = false).
  { destruct (Bool.bool_dec (above pi) (above pj)) as [Hs|Hs];
      [now apply intersect_same_side|].
    pose proof (crossing_between pi pj Hs) as [_ Hc].
    unfold intersect. apply andb_false_iff. right.
    apply ltb_false_iff. eapply Rle_trans; [exact Hc|].
    unfold Rmax. destruct (Rle_dec _ _); assumption. }
  rewrite E. apply IH; [exact Hi | intros v Hv; apply Hall; now right].
Qed.

Lemma crossings_left polygon : forall pj isInside,
  x < Vector3.x pj -> (forall v, In v polygon -> x < Vector3.x v) ->
  crossings x y pj polygon isInside
  = xorb isInside (xorb (above pj) (above (last polygon pj))).
Proof.
  induction polygon as [|pi rest IH]; intros pj isInside Hj Hall.
  - simpl. now rewrite xorb_nilpotent, xorb_false_r.
  - assert (Hi : x < Vector3.x pi) by (apply Hall; now left).
    assert (E : intersect x y pi pj = xorb (above pi) (above pj)).
    { destruct (Bool.bool_dec (above pi) (above pj)) as [Hs|Hs].
      - rewrite intersect_same_side by exact Hs. rewrite Hs. now rewrite xorb_nilpotent.
      - pose proof (crossing_between pi pj Hs) as [Hc _].
        unfold intersect. fold (above pi) (above pj).
        replace (ltb x _) with true.
        + destruct (above pi), (above pj); try reflexivity; exfalso; now apply Hs.
        + symmetry. unfold ltb. destruct (Rlt_dec _ _) as [|Hn]; [reflexivity|].
          exfalso. apply Hn. eapply Rlt_le_trans; [|exact Hc].
          unfold Rmin. destruct (Rle_dec _ _); assumption. }
    change (crossings x y pj (pi :: rest) isInside)
      with (crossings x y pi rest (if intersect x y pi pj then negb isInside else isInside)).
    rewrite IH by (try exact Hi; intros v Hv; apply Hall; now right).
    rewrite E.
    rewrite last_cons.
    destruct isInside, (above pi), (above pj), (above (last rest pi)); reflexivity.
Qed.

End Crossings.

(** A point is never found inside a polygon when it is outside the
    bounding box of the polygon: some vertex is not to the right of it,
    some is strictly to the right, some is not above it and some is
    strictly above ([x] grows to the right, [z] upwards). *)
Theorem isPointInPolygon_inside_bounding_box
    (point : Vector2.t) (polygon : list Vector3.t) :
  isPointInPolygon point polygon = true ->
  (exists a, In a polygon /\ Vector3.x a <= Vector2.x point)
  /\ (exists b, In b polygon /\ Vector2.x point < Vector3.x b)
  /\ (exists c, In c polygon /\ Vector3.z c <= Vector2.y point)
  /\ (exists d, In d polygon /\ Vector2.y point < Vector3.z d).
Proof.
  intros Hin. unfold isPointInPolygon in Hin.
  destruct polygon as [|p0 rest] eqn:Epoly; [discriminate|]. rewrite <- Epoly in *.
  assert (Hne : polygon <> []) by (rewrite Epoly; discriminate).
  pose proof (last_in polygon Vector3.zero Hne) as Hlast.
  set (px := Vector2.x point) in *. set (py := Vector2.y point) in *.
  repeat split.
  - destruct (classic (exists a, In a polygon /\ Vector3.x a <= px)) as [|Hno];
      [assumption|]. exfalso.
    assert (Hall : forall v, In v polygon -> px < Vector3.x v).
    { intros v Hv. destruct (Rlt_dec px (Vector3.x v)); [assumption|].
      exfalso. apply Hno. exists v. split; [exact Hv | lra]. }
    rewrite (crossings_left px py polygon _ false (Hall _ Hlast) Hall) in Hin.
    rewrite (last_default polygon (last polygon Vector3.zero) Vector3.zero Hne) in Hin.
    rewrite xorb_nilpotent in Hin. discriminate.
  - destruct (classic (exists b, In b polygon /\ px < Vector3.x b)) as [|Hno];
      [assumption|]. exfalso.
    assert (Hall : forall v, In v polygon -> Vector3.x v <= px).
    { intros v Hv. destruct (Rle_dec (Vector3.x v) px); [assumption|].
      exfalso. apply Hno. exists v. split; [exact Hv | lra]. }
    rewrite (crossings_right px py polygon _ false (Hall _ Hlast) Hall) in Hin.
    discriminate.
  - destruct (classic (exists c, In c polygon /\ Vector3.z c <= py)) as [|Hno];
      [assumption|]. exfalso.
    assert (Hall : forall v, In v polygon -> above py v = true).
    { intros v Hv. unfold above, gtb. destruct (Rlt_dec py (Vector3.z v)); [reflexivity|].
      exfalso. apply Hno. exists v. split; [exact Hv | lra]. }
    rewrite (crossings_one_side px py true polygon _ false (Hall _ Hlast) Hall) in Hin.
    discriminate.
  - destruct (classic (exists d, In d polygon /\ py < Vector3.z d)) as [|Hno];
      [assumption|]. exfalso.
    assert (Hall : forall v, In v polygon -> above py v = false).
    { intros v Hv. unfold above, gtb. destruct (Rlt_dec py (Vector3.z v)); [|reflexivity].
      exfalso. apply Hno. exists v. split; [exact Hv | assumption]. }
    rewrite (crossings_one_side px py false polygon _ false (Hall _ Hlast) Hall) in Hin.
    discriminate.
Qed.

Lemma isPointInPolygon_inside_bounding_box_witness :
  isPointInPolygon (Vector2.mk 0 0) (square 1 2) = true
  /\ (exists a, In a (square 1 2) /\ Vector3.x a <= Vector2.x (Vector2.mk 0 0))
  /\ (exists b, In b (square 1 2) /\ Vector2.x (Vector2.mk 0 0) < Vector3.x b)
  /\ (exists c, In c (square 1 2) /\ Vector3.z c <= Vector2.y (Vector2.mk 0 0))
  /\ (exists d, In d (square 1 2) /\ Vector2.y (Vector2.mk 0 0) < Vector3.z d).
Proof.
  assert (H : isPointInPolygon (Vector2.mk 0 0) (square 1 2) = true).
  { apply square_contains_center. lra. }
  split; [exact H|].
  exact (isPointInPolygon_inside_bounding_box _ _ H).
Defined.

(** The four corners of a rectangle with sides along the axes, in the
    order the curves of the program run. *)
Definition rectangle (a b c d h : R) : list Vector3.t :=
  [ Vector3.mk a h c; Vector3.mk b h c; Vector3.mk b h d; Vector3.mk a h d ].

(** On a rectangle with sides along the axes the test is exact: a point
    is found inside exactly when it is in the rectangle, the left and the
    lower side included, the right and the upper side not. *)
Theorem isPointInPolygon_rectangle (a b c d h px py : R) :
  a < b -> c < d ->
  (isPointInPolygon (Vector2.mk px py) (rectangle a b c d h) = true
   <-> a <= px < b /\ c <= py < d).
Proof.
  intros Hab Hcd. unfold isPointInPolygon, rectangle. simpl.
  unfold intersect, gtb, ltb. simpl.
  replace ((a - a) * (py - c) / (d - c) + a) with a by (unfold Rdiv; ring).
  replace ((b - b) * (py - d) / (c - d) + b) with b by (unfold Rdiv; ring).
  destruct (Rlt_dec py c), (Rlt_dec py d), (Rlt_dec px a), (Rlt_dec px b);
    simpl; split; intros H; try discriminate; try reflexivity; try lra;
    try (split; lra).
Qed.

Lemma isPointInPolygon_rectangle_witness :
  0 < 2 /\ 0 < 1
  /\ (isPointInPolygon (Vector2.mk 0 0) (rectangle 0 2 0 1 5) = true
      <-> 0 <= 0 < 2 /\ 0 <= 0 < 1).
Proof.
  split; [lra|]. split; [lra|].
  apply (isPointInPolygon_rectangle 0 2 0 1 5 0 0); lra.
Defined.

(* ================================================================== *)
(** * [applySMA]: what the moving average changes and when it fails *)
(* ================================================================== *)

Section MovingAverage.

Variable points : list Vector3.t.
Variable windowSize : nat.

(** The step of the inner loop of [applySMA] at position [i]. *)
Definition addSample (i : nat) (sumY : option R) (j : Z) : option R :=
  match sumY,
        at_index points
          (Z.rem (Z.of_nat i + j + Z.of_nat (length points)) (Z.of_nat (length points)))
  with
  | Some s, Some p => Some (s + Vector3.y p)
  | _, _ => None
  end.

Lemma windowSum_fold (i : nat) :
  windowSum points windowSize i
  = fold_left (addSample i)
      (map (fun d => (Z.of_nat d - Z.of_nat windowSize)%Z) (seq 0 (2 * windowSize + 1)))
      (Some 0).
Proof. reflexivity. Qed.

Lemma addSample_none (i : nat) (js : list Z) : fold_left (addSample i) js None = None.
Proof. induction js as [|j js IH]; [reflexivity | exact IH]. Qed.

Lemma at_index_wrapped (k : Z) :
  (0 <= k)%Z -> points <> [] ->
  exists p, at_index points (Z.rem k (Z.of_nat (length points))) = Some p /\ In p points.
Proof.
  intros Hk Hne.
  assert (Hn : (0 < Z.of_nat (length points))%Z).
  { destruct points; [congruence | simpl length; lia]. }
  rewrite Z.rem_mod_nonneg by lia.
  pose proof (Z.mod_pos_bound k _ Hn) as [H0 H1].
  unfold at_index. destruct (Z.ltb_spec (k mod Z.of_nat (length points)) 0); [lia|].
  destruct (nth_error points (Z.to_nat (k mod Z.of_nat (length points)))) as [p|] eqn:E.
  - exists p. split; [reflexivity | eapply nth_error_In; exact E].
  - apply nth_error_None in E. lia.
Qed.

Lemma addSample_fold (i : nat) (lo hi : R) (js : list Z) : forall acc,
  points <> [] ->
  (forall j, In j js -> (0 <= Z.of_nat i + j + Z.of_nat (length points))%Z) ->
  exists s, fold_left (addSample i) js (Some acc) = Some s
            /\ ((forall p, In p points -> lo <= Vector3.y p <= hi) ->
                acc + INR (length js) * lo <= s <= acc + INR (length js) * hi).
Proof.
  induction js as [|j js IH]; intros acc Hne Hall.
  - exists acc. split; [reflexivity|]. intros _. simpl. lra.
  - destruct (at_index_wrapped _ (Hall j (or_introl eq_refl)) Hne) as (p & Ep & Hp).
    destruct (IH (acc + Vector3.y p) Hne) as (s & Es & Hs).
    { intros j' Hj'. apply Hall. now right. }
    exists s. split.
    + change (fold_left (addSample i) (j :: js) (Some acc))
        with (fold_left (addSample i) js (addSample i (Some acc) j)).
      replace (addSample i (Some acc) j) with (Some (acc + Vector3.y p));
        [exact Es | unfold addSample; now rewrite Ep].
    + intros Hb. specialize (Hs Hb). specialize (Hb p Hp).
      change (length (j :: js)) with (S (length js)). rewrite S_INR. lra.
Qed.

Lemma windowSum_defined (i : nat) :
  points <> [] -> (windowSize <= length points)%nat ->
  exists s, windowSum points windowSize i = Some s
            /\ forall lo hi, (forall p, In p points -> lo <= Vector3.y p <= hi) ->
                 INR (2 * windowSize + 1) * lo <= s <= INR (2 * windowSize + 1) * hi.
Proof.
  intros Hne Hw. rewrite windowSum_fold.
  assert (Hall : forall j,
            In j (map (fun d => (Z.of_nat d - Z.of_nat windowSize)%Z)
                      (seq 0 (2 * windowSize + 1))) ->
            (0 <= Z.of_nat i + j + Z.of_nat (length points))%Z).
  { intros j Hj. apply in_map_iff in Hj as (d & <- & _). lia. }
  destruct (addSample_fold i 0 0 _ 0 Hne Hall) as (s & Es & _).
  exists s. split; [exact Es|]. intros lo hi Hb.
  destruct (addSample_fold i lo hi _ 0 Hne Hall) as (s' & Es' & Hs').
  rewrite Es in Es'. injection Es' as <-.
  specialize (Hs' Hb). rewrite length_map, length_seq in Hs'. lra.
Qed.

(** One point after smoothing: the same place, the height within the
    bounds of the heights before. *)
Definition smoothedFrom (p q : Vector3.t) : Prop :=
  Vector3.x q = Vector3.x p /\ Vector3.z q = Vector3.z p
  /\ forall lo hi, (forall p', In p' points -> lo <= Vector3.y p' <= hi) ->
                   lo <= Vector3.y q <= hi.

Lemma average_bounds (s lo hi : R) (n : nat) :
  INR (2 * n + 1) * lo <= s <= INR (2 * n + 1) * hi ->
  lo <= s / INR (2 * n + 1) <= hi.
Proof.
  intros [H1 H2].
  assert (Hpos : 0 < INR (2 * n + 1)) by (apply lt_0_INR; lia).
  split.
  - apply Rmult_le_reg_r with (INR (2 * n + 1)); [exact Hpos|].
    replace (s / INR (2 * n + 1) * INR (2 * n + 1)) with s by (field; lra). lra.
  - apply Rmult_le_reg_r with (INR (2 * n + 1)); [exact Hpos|].
    replace (s / INR (2 * n + 1) * INR (2 * n + 1)) with s by (field; lra). lra.
Qed.

Lemma smoothing_defined (l : list Vector3.t) : forall k,
  points <> [] -> (windowSize <= length points)%nat ->
  exists r,
    sequence
      (map (fun ip : nat * Vector3.t =>
              let (i, p) := ip in
              match windowSum points windowSize i with
              | Some sumY => Some (Vector3.setY p (sumY / INR (2 * windowSize + 1)))
              | None => None
              end)
           (combine (seq k (length l)) l)) = Some r
    /\ Forall2 smoothedFrom l r.
Proof.
  induction l as [|p l IH]; intros k Hne Hw.
  - exists []. split; [reflexivity | constructor].
  - destruct (IH (S k) Hne Hw) as (r & Er & Hr).
    destruct (windowSum_defined k Hne Hw) as (s & Es & Hs).
    exists (Vector3.setY p (s / INR (2 * windowSize + 1)) :: r). split.
    + simpl. rewrite Es. simpl in Er. rewrite Er. reflexivity.
    + constructor; [|exact Hr]. split; [reflexivity|]. split; [reflexivity|].
      intros lo hi Hb. simpl. apply average_bounds. now apply Hs.
Qed.

End MovingAverage.

(** With a window of at most as many neighbours on each side as there
    are points, [applySMA] returns a point for every point, at the same
    place ([x] and [z] unchanged), and every height it returns lies
    between the least and the greatest height given. *)
Theorem applySMA_keeps_places_and_height_range
    (points : list Vector3.t) (windowSize : nat) :
  (windowSize <= length points)%nat ->
  exists smoothed,
    applySMA points windowSize = Some smoothed
    /\ Forall2 (fun p q => Vector3.x q = Vector3.x p /\ Vector3.z q = Vector3.z p)
               points smoothed
    /\ forall lo hi, (forall p, In p points -> lo <= Vector3.y p <= hi) ->
                     forall q, In q smoothed -> lo <= Vector3.y q <= hi.
Proof.
  intros Hw. unfold applySMA.
  destruct (Nat.eqb_spec windowSize 0) as [->|Hnz].
  - exists points. split; [reflexivity|]. split.
    + clear Hw. induction points; constructor; auto.
    + intros lo hi Hb q Hq. now apply Hb.
  - assert (Hne : points <> []) by (destruct points; [simpl in Hw; lia | discriminate]).
    destruct (smoothing_defined points windowSize points 0 Hne Hw) as (r & Er & Hr).
    exists r. split; [exact Er|]. split.
    + eapply Forall2_impl; [|exact Hr]. intros p q (Hx & Hz & _). now split.
    + intros lo hi Hb q Hq.
      apply (Forall2_flip) in Hr.
      clear Er. induction Hr as [|q' p' r' l' Hqp Hr IH]; [contradiction|].
      destruct Hq as [->|Hq]; [|now apply IH].
      destruct Hqp as (_ & _ & H). now apply H.
Qed.

Lemma applySMA_keeps_places_and_height_range_witness :
  (1 <= length (square 1 2))%nat
  /\ exists smoothed,
       applySMA (square 1 2) 1 = Some smoothed
       /\ Forall2 (fun p q => Vector3.x q = Vector3.x p /\ Vector3.z q = Vector3.z p)
                  (square 1 2) smoothed
       /\ forall lo hi, (forall p, In p (square 1 2) -> lo <= Vector3.y p <= hi) ->
                        forall q, In q smoothed -> lo <= Vector3.y q <= hi.
Proof.
  assert (H : (1 <= length (square 1 2))%nat) by (simpl; lia).
  split; [exact H|].
  exact (applySMA_keeps_places_and_height_range (square 1 2) 1 H).
Defined.

(** With a window of more neighbours on each side than there are points,
    and not a multiple of their number, [applySMA] throws: the wrapped
    index of the first neighbour is negative, and reading the height of
    the missing entry fails. *)
Theorem applySMA_throws_on_wide_window (points : list Vector3.t) (windowSize : nat) :
  points <> [] -> (length points < windowSize)%nat ->
  (windowSize mod length points <> 0)%nat ->
  applySMA points windowSize = None.
Proof.
  intros Hne Hw Hmod. unfold applySMA.
  destruct (Nat.eqb_spec windowSize 0) as [->|_]; [lia|].
  destruct points as [|p0 rest] eqn:Epoints; [congruence|]. rewrite <- Epoints in *.
  assert (Hsum : windowSum points windowSize 0 = None).
  { rewrite windowSum_fold.
    replace (2 * windowSize + 1)%nat with (S (2 * windowSize)) by lia.
    change (seq 0 (S (2 * windowSize))) with (0%nat :: seq 1 (2 * windowSize)).
    cbn [map fold_left].
    assert (E0 : addSample points 0 (Some 0) (Z.of_nat 0 - Z.of_nat windowSize)%Z = None).
    { unfold addSample, at_index.
      set (n := Z.of_nat (length points)).
      assert (Hn : (0 < n)%Z) by (unfold n; rewrite Epoints; simpl length; lia).
      assert (Hneg : (Z.rem (Z.of_nat 0 + (Z.of_nat 0 - Z.of_nat windowSize) + n) n < 0)%Z).
      { replace (Z.of_nat 0 + (Z.of_nat 0 - Z.of_nat windowSize) + n)%Z
          with (- (Z.of_nat windowSize - n))%Z by lia.
        rewrite Z.rem_opp_l by lia.
        rewrite Z.rem_mod_nonneg by lia.
        assert (E : ((Z.of_nat windowSize - n) mod n
                     = Z.of_nat (windowSize mod length points))%Z).
        { unfold n. rewrite Nat2Z.inj_mod.
          rewrite <- (Z.mod_add (Z.of_nat windowSize - Z.of_nat (length points)) 1) by lia.
          f_equal. lia. }
        rewrite E. lia. }
      destruct (Z.ltb_spec (Z.rem (Z.of_nat 0 + (Z.of_nat 0 - Z.of_nat windowSize) + n) n) 0);
        [reflexivity | lia]. }
    rewrite E0. apply addSample_none. }
  replace (combine (seq 0 (length points)) points)
    with ((0%nat, p0) :: combine (seq 1 (length rest)) rest)
    by (rewrite Epoints; reflexivity).
  cbn [map]. rewrite Hsum. reflexivity.
Qed.

Lemma applySMA_throws_on_wide_window_witness :
  square 1 2 <> [] /\ (length (square 1 2) < 7)%nat
  /\ (7 mod length (square 1 2) <> 0)%nat
  /\ applySMA (square 1 2) 7 = None.
Proof.
  assert (H1 : square 1 2 <> []) by discriminate.
  assert (H2 : (length (square 1 2) < 7)%nat) by (simpl; lia).
  assert (H3 : (7 mod length (square 1 2) <> 0)%nat) by (simpl; lia).
  split; [exact H1|]. split; [exact H2|]. split; [exact H3|].
  exact (applySMA_throws_on_wide_window (square 1 2) 7 H1 H2 H3).
Defined.

(* ================================================================== *)
(** * More on the lakes: the depression and the pre-calculation *)
(* ================================================================== *)

(** [smoothstep] stays between 0 and 1. *)
Lemma smoothstep_unit (x lo hi : R) :
  0 <= JsMath.smoothstep x lo hi <= 1.
Proof.
  unfold JsMath.smoothstep.
  destruct (Rle_dec x lo) as [Hlo|Hlo]; [lra|].
  destruct (Rle_dec hi x) as [Hhi|Hhi]; [lra|].
  assert (Hd : 0 < hi - lo) by lra.
  set (t := (x - lo) / (hi - lo)).
  assert (Ht : 0 <= t <= 1).
  { unfold t. split.
    - apply Rmult_le_pos; [lra|]. left. apply Rinv_0_lt_compat. exact Hd.
    - apply Rmult_le_reg_r with (hi - lo); [exact Hd|].
      unfold Rdiv. rewrite Rmult_assoc, Rinv_l; lra. }
  clearbody t. split.
  - apply Rmult_le_pos; [nra|lra].
  - assert (H : 0 <= (1 - t) * (1 - t) * (1 + 2 * t)).
    { apply Rmult_le_pos; [nra|lra]. }
    lra.
Qed.

(** The lake reaches the point: the test of the loop in [depress]. *)
Definition reaches (point2D : Vector2.t) (lake : Lake) : bool :=
  if Rlt_dec (Vector2.distanceTo point2D (center lake)) (radius lake)
  then true else false.

Definition totalDepth (lakes : list Lake) : R :=
  fold_right (fun lake total => depth lake + total) 0 lakes.

Lemma depress_bounds (point2D : Vector2.t) (lakes : list Lake) :
  Forall (fun lake => 0 <= depth lake) lakes ->
  forall y,
  y - totalDepth (filter (reaches point2D) lakes) <= Lakes.depress lakes point2D y <= y.
Proof.
  unfold Lakes.depress.
  induction lakes as [|lake lakes IH]; intros Hdepth y; simpl.
  - lra.
  - inversion Hdepth as [|? ? Hd Hrest]; subst.
    unfold reaches at 1.
    destruct (Rlt_dec (Vector2.distanceTo point2D (center lake)) (radius lake)) as [Hin|Hout].
    + pose proof (smoothstep_unit (Vector2.distanceTo point2D (center lake)) 0
                    (radius lake)) as Hs.
      specialize (IH Hrest
        (y - depth lake
             * (1.0 - JsMath.smoothstep (Vector2.distanceTo point2D (center lake)) 0
                        (radius lake)))).
      simpl. split; [|nra]. destruct IH as [IH _].
      eapply Rle_trans; [|exact IH]. nra.
    + apply IH. exact Hrest.
Qed.

(** The depression of the lakes never raises a height when no lake has a
    negative depth: the height after it lies between the height before
    minus the depths of the lakes that reach the point, and the height
    before.  A point that no lake reaches keeps its height. *)
Theorem depress_between_height_and_depths (lakes : list Lake)
    (point2D : Vector2.t) (y : R) :
  Forall (fun lake => 0 <= depth lake) lakes ->
  y - totalDepth (filter (reaches point2D) lakes) <= Lakes.depress lakes point2D y <= y
  /\ (Forall (fun lake => reaches point2D lake = false) lakes ->
      Lakes.depress lakes point2D y = y).
Proof.
  intros Hdepth. split; [apply depress_bounds; exact Hdepth|].
  intros Hnone.
  pose proof (depress_bounds point2D lakes Hdepth y) as Hb.
  assert (E : filter (reaches point2D) lakes = []).
  { clear Hb Hdepth. induction Hnone as [|lake rest Hl _ IH]; [reflexivity|].
    simpl. rewrite Hl. exact IH. }
  rewrite E in Hb. simpl in Hb. lra.
Qed.

(** At the centre of a lake the depression is the whole depth. *)
Lemma depress_center (lake : Lake) (y : R) :
  0 < radius lake ->
  Lakes.depress [lake] (center lake) y = y - depth lake.
Proof.
  intros Hr. unfold Lakes.depress. simpl.
  assert (E : Vector2.distanceTo (center lake) (center lake) = 0).
  { unfold Vector2.distanceTo.
    replace ((Vector2.x (center lake) - Vector2.x (center lake))
             * (Vector2.x (center lake) - Vector2.x (center lake))
             + (Vector2.y (center lake) - Vector2.y (center lake))
               * (Vector2.y (center lake) - Vector2.y (center lake))) with 0 by ring.
    apply sqrt_0. }
  rewrite E.
  destruct (Rlt_dec 0 (radius lake)) as [_|Hn]; [|lra].
  unfold JsMath.smoothstep.
  destruct (Rle_dec 0 0) as [_|Hn]; [|lra]. lra.
Qed.

Lemma depress_between_height_and_depths_witness :
  let lake := mkLake (Vector2.mk 0 0) 2 1 0 in
  Forall (fun lake => 0 <= depth lake) [lake] /\
  (5 - totalDepth (filter (reaches (Vector2.mk 0 0)) [lake])
   <= Lakes.depress [lake] (Vector2.mk 0 0) 5 <= 5
   /\ (Forall (fun lake => reaches (Vector2.mk 0 0) lake = false) [lake] ->
       Lakes.depress [lake] (Vector2.mk 0 0) 5 = 5)).
Proof.
  cbv zeta.
  assert (H : Forall (fun lake => 0 <= depth lake) [mkLake (Vector2.mk 0 0) 2 1 0]).
  { constructor; [simpl; lra|constructor]. }
  split; [exact H|].
  apply (depress_between_height_and_depths [mkLake (Vector2.mk 0 0) 2 1 0]
           (Vector2.mk 0 0) 5 H).
Defined.

(** The search for a centre draws at most two numbers per attempt. *)
Lemma findCenter_draws box lakeRadius polygon attempts :
  forall rnd k,
  (k <= snd (Lakes.findCenter box lakeRadius polygon attempts rnd k)
   <= k + 2 * attempts)%nat.
Proof.
  induction attempts as [|attempts IH]; intros rnd k.
  - simpl. lia.
  - simpl. unfold bind, randFloat, bind, random, ret.
    match goal with
    | |- context [if isPointInPolygon ?p polygon then _ else _] =>
        destruct (isPointInPolygon p polygon)
    end.
    + simpl. lia.
    + specialize (IH rnd (S (S k))). lia.
Qed.

(** A loop whose turns each add at most one element and draw at most [c]
    numbers adds at most one element per turn and draws at most [c] numbers
    per turn. *)
Lemma foldGen_bounds {A S} (size : S -> nat) (c : nat) (body : S -> A -> Gen S)
    (rnd : Random) :
  (forall acc a k,
     (size (fst (body acc a rnd k)) <= 1 + size acc)%nat /\
     (k <= snd (body acc a rnd k) <= k + c)%nat) ->
  forall l acc k,
  (size (fst (foldGen body l acc rnd k)) <= size acc + length l)%nat /\
  (k <= snd (foldGen body l acc rnd k) <= k + c * length l)%nat.
Proof.
  intros Hbody. induction l as [|a l IH]; intros acc k.
  - simpl. lia.
  - cbn [foldGen]. unfold bind.
    specialize (Hbody acc a k).
    destruct (body acc a rnd k) as [acc' k']. cbn [fst snd] in Hbody.
    specialize (IH acc' k'). cbn [length]. lia.
Qed.

(** The pre-calculation records at most [numLakes] lakes and draws at most
    200 random numbers for each of them (100 attempts of two numbers);
    with the water features switched off it records no lake and draws
    nothing. *)
Theorem lakes_at_most_numLakes (h : Host.t) (cfg : Config)
    (polygon : list Vector3.t) (rnd : Random) (k : nat) :
  let result := Lakes.precalculate h cfg polygon rnd k in
  (length (fst result) <= numLakes cfg)%nat /\
  (k <= snd result <= k + 200 * numLakes cfg)%nat /\
  (waterFeatures cfg = false -> result = ([], k)).
Proof.
  cbv zeta. unfold Lakes.precalculate.
  destruct (waterFeatures cfg).
  - match goal with
    | |- context [foldGen ?body _ _ _ _] =>
        pose proof (foldGen_bounds (@length Lake) 200 body rnd) as H
    end.
    match type of H with
    | ?P -> _ => assert (Hbody : P)
    end.
    { intros acc _ k0. unfold bind.
      pose proof (findCenter_draws (Lakes.sandAreaBox polygon) (lakeRadius cfg) polygon
                    Lakes.maxAttempts rnd k0) as Hdraws.
      change (2 * Lakes.maxAttempts)%nat with 200%nat in Hdraws.
      destruct (Lakes.findCenter (Lakes.sandAreaBox polygon) (lakeRadius cfg) polygon
                  Lakes.maxAttempts rnd k0) as [[c|] k1]; unfold ret; cbn [fst snd] in *;
        [rewrite length_app|]; cbn [length]; lia. }
    specialize (H Hbody (seq 0 (numLakes cfg)) [] k).
    rewrite length_seq in H. cbn [length] in H.
    destruct H as [H1 H2]. split; [exact H1|]. split; [exact H2|]. discriminate.
  - unfold ret. simpl. split; [lia|]. split; [lia|]. reflexivity.
Qed.

(* ================================================================== *)
(** * More on the hydrology tracer: the shape of a path *)
(* ================================================================== *)

Section SortedHead.

Context {A : Type} (key : A -> R).

Lemma insertBy_in a b l : In b (insertBy key a l) <-> b = a \/ In b l.
Proof.
  induction l as [|h rest IH]; simpl.
  - intuition.
  - destruct (Rle_dec (key a) (key h)); simpl; [intuition|].
    rewrite IH. intuition.
Qed.

Lemma sortBy_in b l : In b (sortBy key l) <-> In b l.
Proof.
  induction l as [|a rest IH]; simpl; [tauto|].
  rewrite insertBy_in, IH. intuition.
Qed.

(** The first element of the sorted array has the least key. *)
Lemma sortBy_head lowest rest l :
  sortBy key l = lowest :: rest ->
  In lowest l /\ forall b, In b l -> key lowest <= key b.
Proof.
  intros Hsort. split.
  - apply sortBy_in. rewrite Hsort. left. reflexivity.
  - revert lowest rest Hsort.
    induction l as [|a l IH]; intros lowest rest Hsort b Hb; [contradiction|].
    simpl in Hsort.
    destruct (sortBy key l) as [|h t] eqn:Hl.
    + assert (El : l = []).
      { apply length_zero_iff_nil. rewrite <- (sortBy_length key l), Hl. reflexivity. }
      subst l. simpl in Hsort. injection Hsort as <- _.
      destruct Hb as [<-|[]]. lra.
    + specialize (IH h t eq_refl).
      simpl in Hsort.
      destruct (Rle_dec (key a) (key h)) as [Hle|Hgt].
      * injection Hsort as <- _.
        destruct Hb as [<-|Hb]; [lra|].
        specialize (IH b Hb). lra.
      * injection Hsort as <- _.
        destruct Hb as [<-|Hb]; [lra|].
        apply IH. exact Hb.
Qed.

End SortedHead.

(** [q] is what one turn of the loop takes for the next point after [p]:
    the point of a sample ahead of [p], in some direction of travel, whose
    elevation is the least of the samples there; it is where a ray cast
    down from height 100 hits the mesh. *)
Definition lowestAhead (h : Host.t) (targetMesh : Mesh) (p q : Vector3.t) : Prop :=
  exists currentDirection lowest,
    In lowest (River.samplePoints h targetMesh p currentDirection) /\
    River.samplePoint lowest = q /\
    (forall s, In s (River.samplePoints h targetMesh p currentDirection) ->
               Vector3.y q <= River.elevation s) /\
    (exists origin hit,
       Vector3.y origin = 100 /\
       Host.intersectMesh h targetMesh origin = Some hit /\ point hit = q).

Lemma samplePoints_hit h targetMesh p dir s :
  In s (River.samplePoints h targetMesh p dir) ->
  River.elevation s = Vector3.y (River.samplePoint s) /\
  exists origin hit,
    Vector3.y origin = 100 /\
    Host.intersectMesh h targetMesh origin = Some hit /\
    point hit = River.samplePoint s.
Proof.
  unfold River.samplePoints. intros Hin.
  apply in_flat_map in Hin. destruct Hin as [j [_ Hin]].
  match type of Hin with
  | In _ (match Host.intersectMesh h targetMesh ?o with _ => _ end) =>
      destruct (Host.intersectMesh h targetMesh o) as [hit|] eqn:Hhit;
      [|contradiction];
      destruct Hin as [<-|[]]; split; [reflexivity|];
      exists o, hit; split; [reflexivity|split; [exact Hhit|reflexivity]]
  end.
Qed.

(** The points the loop pushes: at most one per turn, each the lowest
    sample ahead of the point before it, and none but the last in a lake. *)
Lemma walk_shape h targetMesh lakes steps :
  forall currentPoint currentDirection,
  let pushed := River.walk h targetMesh lakes steps currentPoint currentDirection in
  (length pushed <= steps)%nat /\
  Sorted (lowestAhead h targetMesh) (currentPoint :: pushed) /\
  (forall before p after,
     pushed = before ++ p :: after -> after <> [] ->
     River.flowedIntoLake lakes p = false).
Proof.
  induction steps as [|steps IH]; intros currentPoint currentDirection; cbv zeta; simpl.
  - split; [lia|]. split; [constructor; constructor|].
    intros before p after E. destruct before; discriminate E.
  - destruct (sortBy River.elevation
                (River.samplePoints h targetMesh currentPoint currentDirection))
      as [|lowest rest] eqn:Hsort.
    + split; [simpl; lia|]. split; [constructor; constructor|].
      intros before p after E. destruct before; discriminate E.
    + destruct (Rle_dec (Vector3.y currentPoint) (Vector3.y (River.samplePoint lowest)))
        as [Hge|Hlt].
      * split; [simpl; lia|]. split; [constructor; constructor|].
        intros before p after E. destruct before; discriminate E.
      * apply sortBy_head in Hsort. destruct Hsort as [Hin Hleast].
        pose proof (samplePoints_hit _ _ _ _ _ Hin) as [Hel Hhit].
        assert (Hstep : lowestAhead h targetMesh currentPoint (River.samplePoint lowest)).
        { exists currentDirection, lowest.
          split; [exact Hin|]. split; [reflexivity|]. split; [|exact Hhit].
          intros s Hs. rewrite <- Hel. apply Hleast. exact Hs. }
        destruct (River.flowedIntoLake lakes (River.samplePoint lowest)) eqn:Hlake.
        -- split; [simpl; lia|].
           split; [constructor; [constructor; constructor|constructor; exact Hstep]|].
           intros before p after E Hafter.
           destruct before as [|b before]; simpl in E.
           ++ injection E as _ E. congruence.
           ++ injection E as _ E. destruct before; discriminate E.
        -- specialize (IH (River.samplePoint lowest)
                          (Vector3.normalize
                             (Vector3.sub (River.samplePoint lowest) currentPoint))).
           cbv zeta in IH. destruct IH as [Hlen [Hsorted Hdry]].
           split; [simpl; lia|].
           split; [constructor; [exact Hsorted|constructor; exact Hstep]|].
           intros before p after E Hafter.
           destruct before as [|b before]; simpl in E.
           ++ injection E as <- _. exact Hlake.
           ++ injection E as _ E. eapply Hdry; eauto.
Qed.

(** A traced river path starts at the start point and has at most 200
    points after it; tracing draws exactly two random numbers.  Every point
    after the first is the lowest of the samples taken ahead of the point
    before it, a point where a ray cast down from height 100 hits the mesh.
    Of the points after the first only the last can lie in a lake. *)
Theorem river_path_shape (h : Host.t) (startPoint : Vector3.t)
    (targetMesh : Mesh) (lakes : list Lake) (rnd : Random) (k : nat) :
  let result := River.traceRiverPath h startPoint targetMesh lakes rnd k in
  snd result = (k + 2)%nat /\
  exists pushed,
    fst result = startPoint :: pushed /\
    (length pushed <= 200)%nat /\
    Sorted (lowestAhead h targetMesh) (fst result) /\
    (forall before p after,
       pushed = before ++ p :: after -> after <> [] ->
       River.flowedIntoLake lakes p = false).
Proof.
  cbv zeta. unfold River.traceRiverPath, bind, random, ret. cbn [fst snd].
  split; [lia|].
  pose proof (walk_shape h targetMesh lakes River.maxSteps startPoint
                (Vector3.normalize (Vector3.mk (rnd k - 0.5) 0 (rnd (S k) - 0.5)))) as H.
  cbv zeta in H. destruct H as [Hlen [Hsorted Hdry]].
  eexists. split; [reflexivity|].
  split; [exact Hlen|]. split; [exact Hsorted|exact Hdry].
Qed.

(* ================================================================== *)
(** * More on the placement sampler: where an instance is put *)
(* ================================================================== *)

(** [p] lies on the triangle of the face: it is a combination of the three
    vertices with weights that are not negative and add up to 1. *)
Definition onTriangle (f : Sampler.FaceData) (p : Vector3.t) : Prop :=
  exists u v w,
    0 <= u /\ 0 <= v /\ 0 <= w /\ u + v + w = 1 /\
    Vector3.x p = u * Vector3.x (Sampler.vA f) + v * Vector3.x (Sampler.vB f)
                  + w * Vector3.x (Sampler.vC f) /\
    Vector3.y p = u * Vector3.y (Sampler.vA f) + v * Vector3.y (Sampler.vB f)
                  + w * Vector3.y (Sampler.vC f) /\
    Vector3.z p = u * Vector3.z (Sampler.vA f) + v * Vector3.z (Sampler.vB f)
                  + w * Vector3.z (Sampler.vC f).

(** What the transformation of an instance is composed of: a model of the
    list, the pivot raised by the offset, the normal of the face, a yaw of
    less than a full turn, the base scale times a variation between 0.8
    and 1.2.  Without models there is no transformation. *)
Definition transformComposed (o : Sampler.Options) (inst : Sampler.Instance) : Prop :=
  match Sampler.transform inst with
  | Some tr =>
      (Sampler.sourceFoliage tr < Sampler.models o)%nat /\
      Sampler.position tr
      = Vector3.mk (Vector3.x (Sampler.pivot inst))
                   (Vector3.y (Sampler.pivot inst) + 0.02)
                   (Vector3.z (Sampler.pivot inst)) /\
      Sampler.alignment tr = Sampler.normal (Sampler.faceData inst) /\
      0 <= Sampler.yaw tr < 2 * PI /\
      exists randomVariation,
        0.8 <= randomVariation < 1.2 /\
        Sampler.finalScale tr = Sampler.baseFoliageScale o * randomVariation
  | None => Sampler.models o = 0%nat
  end.

(** [Math.floor(Math.random() * length)] is an index of the array. *)
Lemma random_index (m : R) (n : nat) :
  0 <= m < 1 -> (0 < n)%nat ->
  (Z.to_nat (JsMath.floor (m * INR n)) < n)%nat.
Proof.
  intros [Hm0 Hm1] Hn. unfold JsMath.floor.
  assert (Hpos : 0 < INR n) by (apply lt_0_INR; exact Hn).
  assert (Hlow : (0 <= Zfloor (m * INR n))%Z).
  { apply Zfloor_lub. simpl. apply Rmult_le_pos; lra. }
  assert (Hhigh : (Zfloor (m * INR n) < Z.of_nat n)%Z).
  { apply lt_IZR. rewrite <- INR_IZR_INZ.
    pose proof (Zfloor_bound (m * INR n)) as [Hf _]. nra. }
  lia.
Qed.

Section Placement.

Variables (o : Sampler.Options) (faces : list Sampler.FaceData) (total : R)
          (rnd : Random).
Hypothesis Hrnd : unit_interval rnd.

Let placedWell (inst : Sampler.Instance) : Prop :=
  onTriangle (Sampler.faceData inst) (Sampler.pivot inst) /\ transformComposed o inst.

Lemma placeOne_well placed k :
  Forall placedWell placed ->
  Forall placedWell (fst (Sampler.placeOne o faces total placed rnd k)).
Proof.
  intros Hplaced.
  unfold Sampler.placeOne, bind, random, ret, randFloat, bind, random, ret.
  destruct (find _ (Sampler.cdf faces)) as [item|]; [|exact Hplaced].
  set (f := nth (fst item) faces Sampler.noFace).
  pose proof (Hrnd (S k)) as Hu. pose proof (Hrnd (S (S k))) as Hv.
  set (u0 := rnd (S k)) in *. set (v0 := rnd (S (S k))) in *.
  assert (Hon : onTriangle f
                  (Vector3.addScaledVector
                     (Vector3.addScaledVector
                        (Vector3.addScaledVector Vector3.zero (Sampler.vA f)
                           (if Rlt_dec 1 (u0 + v0) then 1 - u0 else u0))
                        (Sampler.vB f) (if Rlt_dec 1 (u0 + v0) then 1 - v0 else v0))
                     (Sampler.vC f)
                     (1 - (if Rlt_dec 1 (u0 + v0) then 1 - u0 else u0)
                      - (if Rlt_dec 1 (u0 + v0) then 1 - v0 else v0)))).
  { destruct (Rlt_dec 1 (u0 + v0)) as [Hflip|Hkeep].
    - exists (1 - u0), (1 - v0), (1 - (1 - u0) - (1 - v0)).
      repeat split; try lra; simpl; ring.
    - exists u0, v0, (1 - u0 - v0).
      repeat split; try lra; simpl; ring. }
  destruct (0 <? Sampler.models o)%nat eqn:Hmodels; cbn [fst];
    apply Forall_app; (split; [exact Hplaced|]); (constructor; [|constructor]);
    (split; [exact Hon|]); unfold transformComposed; cbn [Sampler.transform].
  - apply Nat.ltb_lt in Hmodels.
    cbn [Sampler.sourceFoliage Sampler.position Sampler.alignment Sampler.yaw
         Sampler.finalScale Sampler.pivot Sampler.faceData].
    split; [apply random_index; [apply Hrnd|exact Hmodels]|].
    split; [reflexivity|]. split; [reflexivity|].
    pose proof PI_RGT_0 as Hpi.
    pose proof (Hrnd (S (S (S (S k))))) as Ha.
    pose proof (Hrnd (S (S (S (S (S k)))))) as Hs.
    split; [split; nra|].
    eexists. split; [|reflexivity]. lra.
  - apply Nat.ltb_ge in Hmodels. lia.
Qed.

End Placement.

Lemma placed_well (o : Sampler.Options) (mesh : Mesh) (rnd : Random) (k : nat) :
  unit_interval rnd ->
  Forall (fun inst =>
            onTriangle (Sampler.faceData inst) (Sampler.pivot inst) /\
            transformComposed o inst)
         (fst (Sampler.placeFoliageOnMesh o mesh rnd k)).
Proof.
  intros Hrnd. unfold Sampler.placeFoliageOnMesh.
  destruct (_ || _)%bool; [constructor|].
  apply (foldGen_invariant
           (Forall (fun inst =>
                      onTriangle (Sampler.faceData inst) (Sampler.pivot inst) /\
                      transformComposed o inst))).
  - intros acc _ k' Hacc. apply placeOne_well; assumption.
  - constructor.
Qed.

(** The pivot of every instance lies on the triangle it was sampled from:
    it is a combination of the three vertices of the face with weights that
    are not negative and add up to 1. *)
Theorem instance_pivots_on_their_triangles (o : Sampler.Options) (mesh : Mesh)
    (rnd : Random) (k : nat) :
  unit_interval rnd ->
  Forall (fun inst => onTriangle (Sampler.faceData inst) (Sampler.pivot inst))
         (fst (Sampler.placeFoliageOnMesh o mesh rnd k)).
Proof.
  intros Hrnd. eapply Forall_impl; [|apply placed_well; exact Hrnd].
  intros inst [H _]. exact H.
Qed.

(** The transformation of every instance uses a model of the list, puts it
    at the pivot raised by 0.02, aligns it to the normal of the face, turns
    it by a yaw in [[0, 2 PI)] and scales it by the base scale times a
    variation in [[0.8, 1.2)]; without models no instance has a
    transformation. *)
Theorem instance_transforms_composed (o : Sampler.Options) (mesh : Mesh)
    (rnd : Random) (k : nat) :
  unit_interval rnd ->
  Forall (transformComposed o) (fst (Sampler.placeFoliageOnMesh o mesh rnd k)).
Proof.
  intros Hrnd. eapply Forall_impl; [|apply placed_well; exact Hrnd].
  intros inst [_ H]. exact H.
Qed.

Lemma instance_pivots_on_their_triangles_witness :
  unit_interval halves /\
  Forall (fun inst => onTriangle (Sampler.faceData inst) (Sampler.pivot inst))
         (fst (Sampler.placeFoliageOnMesh sampleOptions oneTriangle halves 0%nat)).
Proof.
  split; [exact halves_unit_interval|].
  apply (instance_pivots_on_their_triangles sampleOptions oneTriangle halves 0%nat
           halves_unit_interval).
Defined.

Lemma instance_transforms_composed_witness :
  unit_interval halves /\
  Forall (transformComposed sampleOptions)
         (fst (Sampler.placeFoliageOnMesh sampleOptions oneTriangle halves 0%nat)).
Proof.
  split; [exact halves_unit_interval|].
  apply (instance_transforms_composed sampleOptions oneTriangle halves 0%nat
           halves_unit_interval).
Defined.

(* ================================================================== *)
(** * Properties of the paths on the surface *)
(* ================================================================== *)

(** Two successive points of a path are apart: their squared distance is
    more than 0.001. *)
Definition apart (p q : Vector3.t) : Prop := 0.001 < Vector3.distanceToSquared p q.

Lemma Sorted_snoc {A} (rel : A -> A -> Prop) (d : A) (l : list A) (a : A) :
  Sorted rel l -> (l = [] \/ rel (last l d) a) -> Sorted rel (l ++ [a]).
Proof.
  induction l as [|x l IH]; intros Hsorted Hlast.
  - simpl. constructor; constructor.
  - inversion Hsorted as [|? ? Hrest Hhd]; subst.
    destruct l as [|y l'].
    + simpl. destruct Hlast as [Hnil|Hrel]; [discriminate Hnil|].
      constructor; [constructor; constructor|constructor; exact Hrel].
    + change ((x :: y :: l') ++ [a]) with (x :: ((y :: l') ++ [a])).
      constructor.
      * apply IH; [exact Hrest|]. right.
        destruct Hlast as [Hnil|Hrel]; [discriminate Hnil|exact Hrel].
      * simpl. constructor. inversion Hhd; assumption.
Qed.

Section SurfaceWalk.

Variables (h : Host.t) (targetMesh : Mesh) (startPoint direction : Vector3.t)
          (stepLength totalDistance : R).

(** The loop only appends to the path, at most one point per turn, a
    normal with every point, and only points that are apart from the point
    before them. *)
Lemma walk_appends steps :
  forall path normals,
  length path = length normals ->
  Sorted apart path ->
  let result :=
    Paths.walk h targetMesh startPoint direction stepLength totalDistance steps
               path normals in
  (exists more, fst result = path ++ more /\ (length more <= length steps)%nat) /\
  length (fst result) = length (snd result) /\
  Sorted apart (fst result).
Proof.
  induction steps as [|i steps IH]; intros path normals Hlen Hsorted; cbv zeta.
  - simpl. split; [exists []; rewrite app_nil_r; split; [reflexivity|simpl; lia]|].
    split; assumption.
  - cbn [Paths.walk].
    destruct (Host.intersectMesh h targetMesh _) as [hit|].
    + destruct (Rlt_dec 0.001 (Vector3.distanceToSquared (Paths.lastOf path) (point hit)))
        as [Hfar|Hnear].
      * specialize (IH (path ++ [point hit]) (normals ++ [faceNormal hit])).
        cbv zeta in IH.
        destruct IH as [[more [Hmore Hcount]] [Hlen' Hsorted']].
        -- rewrite !length_app. simpl. lia.
        -- apply (Sorted_snoc apart Vector3.zero); [exact Hsorted|].
           right. exact Hfar.
        -- split; [|split; assumption].
           exists (point hit :: more). rewrite Hmore, <- app_assoc.
           split; [reflexivity|simpl; lia].
      * specialize (IH path normals Hlen Hsorted). cbv zeta in IH.
        destruct IH as [[more [Hmore Hcount]] [Hlen' Hsorted']].
        split; [|split; assumption].
        exists more. split; [exact Hmore|simpl; lia].
    + simpl. split; [exists []; rewrite app_nil_r; split; [reflexivity|simpl; lia]|].
      split; assumption.
Qed.

End SurfaceWalk.

(** What holds of the path and the normals that [createSurfacePath]
    returns. *)
Definition surfacePath (startPoint endPoint : Vector3.t) (stepLength : R)
    (path normals : list Vector3.t) : Prop :=
  length normals = length path /\
  hd_error path = Some startPoint /\
  (Paths.lastOf path = endPoint
   \/ Vector3.distanceToSquared (Paths.lastOf path) endPoint <= 0.001) /\
  (Z.of_nat (length path)
   <= Z.max 2 (Paths.numSteps startPoint endPoint stepLength + 2))%Z /\
  ((1 < Paths.numSteps startPoint endPoint stepLength)%Z -> Sorted apart path) /\
  ((Paths.numSteps startPoint endPoint stepLength <= 1)%Z
   \/ apart startPoint endPoint -> (2 <= length path)%nat).

Lemma surface_path (h : Host.t) (startPoint endPoint : Vector3.t)
    (targetMesh : Mesh) (stepLength : R) :
  stepLength <> 0 ->
  exists path normals,
    Paths.createSurfacePath h startPoint endPoint targetMesh stepLength
    = Some (path, normals) /\
    surfacePath startPoint endPoint stepLength path normals.
Proof.
  intros Hstep. unfold Paths.createSurfacePath, surfacePath.
  destruct (Req_dec_T stepLength 0) as [Hzero|_]; [contradiction|].
  cbv zeta.
  destruct (Paths.numSteps startPoint endPoint stepLength <=? 1)%Z eqn:Hfew.
  - apply Z.leb_le in Hfew.
    eexists. eexists. split; [reflexivity|].
    split; [reflexivity|]. split; [reflexivity|].
    split; [left; reflexivity|].
    split; [simpl; lia|]. split; [lia|]. intros _. simpl. lia.
  - apply Z.leb_gt in Hfew.
    pose proof (walk_appends h targetMesh startPoint
                  (Vector3.normalize (Vector3.sub endPoint startPoint)) stepLength
                  (Vector3.distanceTo startPoint endPoint)
                  (seq 1 (Z.to_nat (Paths.numSteps startPoint endPoint stepLength)))
                  [startPoint] [Paths.normalAbove h targetMesh startPoint]
                  eq_refl ltac:(constructor; constructor)) as Hwalk.
    cbv zeta in Hwalk.
    destruct (Paths.walk h targetMesh startPoint _ stepLength _ _ _ _)
      as [path normals].
    cbn [fst snd] in Hwalk. destruct Hwalk as [[more [Hmore Hcount]] [Hlen Hsorted]].
    rewrite length_seq in Hcount.
    assert (Hlength : length path = S (length more)).
    { rewrite Hmore. reflexivity. }
    destruct (Rlt_dec 0.001 (Vector3.distanceToSquared (Paths.lastOf path) endPoint))
      as [Hfar|Hnear].
    + eexists. eexists. split; [reflexivity|].
      split; [rewrite !length_app; simpl; lia|].
      split; [rewrite Hmore; reflexivity|].
      split; [left; unfold Paths.lastOf; apply last_last|].
      split; [rewrite length_app; simpl; lia|].
      split.
      * intros _. apply (Sorted_snoc apart Vector3.zero); [exact Hsorted|].
        right. exact Hfar.
      * intros _. rewrite length_app. simpl. lia.
    + eexists. eexists. split; [reflexivity|].
      split; [lia|].
      split; [rewrite Hmore; reflexivity|].
      split; [right; lra|].
      split; [lia|].
      split; [intros _; exact Hsorted|].
      intros [Hle|Hapart]; [lia|].
      destruct more as [|q more]; [|simpl in Hlength; lia].
      exfalso. apply Hnear. rewrite Hmore. exact Hapart.
Qed.

(** For a step length other than 0, [createSurfacePath] returns a path and
    as many normals as points.  The path starts at the start point and ends
    at the end point or within 0.001 (squared distance) of it; it has at
    most [numSteps + 2] points, where [numSteps = ceil(distance /
    stepLength)], and exactly the two end points when [numSteps <= 1].  With
    more than one step every two successive points are more than 0.001
    (squared distance) apart. *)
Theorem surface_path_shape (h : Host.t) (startPoint endPoint : Vector3.t)
    (targetMesh : Mesh) (stepLength : R) :
  stepLength <> 0 ->
  exists path normals,
    Paths.createSurfacePath h startPoint endPoint targetMesh stepLength
    = Some (path, normals) /\
    length normals = length path /\
    hd_error path = Some startPoint /\
    (Paths.lastOf path = endPoint
     \/ Vector3.distanceToSquared (Paths.lastOf path) endPoint <= 0.001) /\
    (Z.of_nat (length path)
     <= Z.max 2 (Paths.numSteps startPoint endPoint stepLength + 2))%Z /\
    ((Paths.numSteps startPoint endPoint stepLength <= 1)%Z ->
     path = [startPoint; endPoint]) /\
    ((1 < Paths.numSteps startPoint endPoint stepLength)%Z -> Sorted apart path).
Proof.
  intros Hstep.
  destruct (surface_path h startPoint endPoint targetMesh stepLength Hstep)
    as (path & normals & Hresult & Hlen & Hhd & Hlast & Hcount & Hsorted & _).
  exists path, normals.
  split; [exact Hresult|]. split; [exact Hlen|]. split; [exact Hhd|].
  split; [exact Hlast|]. split; [exact Hcount|]. split; [|exact Hsorted].
  intros Hfew. unfold Paths.createSurfacePath in Hresult.
  destruct (Req_dec_T stepLength 0) as [Hzero|_]; [contradiction|].
  cbv zeta in Hresult. apply Z.leb_le in Hfew. rewrite Hfew in Hresult.
  injection Hresult as <- _. reflexivity.
Qed.

Lemma surface_path_shape_witness :
  1 <> 0 /\
  exists path normals,
    Paths.createSurfacePath flatHost (Vector3.mk 0 0 0) (Vector3.mk 3 0 4)
      oneTriangle 1
    = Some (path, normals) /\
    length normals = length path /\
    hd_error path = Some (Vector3.mk 0 0 0) /\
    (Paths.lastOf path = Vector3.mk 3 0 4
     \/ Vector3.distanceToSquared (Paths.lastOf path) (Vector3.mk 3 0 4) <= 0.001) /\
    (Z.of_nat (length path)
     <= Z.max 2 (Paths.numSteps (Vector3.mk 0 0 0) (Vector3.mk 3 0 4) 1 + 2))%Z /\
    ((Paths.numSteps (Vector3.mk 0 0 0) (Vector3.mk 3 0 4) 1 <= 1)%Z ->
     path = [Vector3.mk 0 0 0; Vector3.mk 3 0 4]) /\
    ((1 < Paths.numSteps (Vector3.mk 0 0 0) (Vector3.mk 3 0 4) 1)%Z ->
     Sorted apart path).
Proof.
  split; [lra|].
  apply (surface_path_shape flatHost (Vector3.mk 0 0 0) (Vector3.mk 3 0 4)
           oneTriangle 1).
  lra.
Defined.

(* ================================================================== *)
(** * Properties of the ribbon along a path *)
(* ================================================================== *)

(** A normalized vector has length 1, or 0 when the vector is zero. *)
Lemma normalize_lengthSq (a : Vector3.t) :
  0 <= Vector3.lengthSq (Vector3.normalize a) <= 1.
Proof.
  assert (Hsq : 0 <= Vector3.lengthSq a).
  { unfold Vector3.lengthSq. nra. }
  unfold Vector3.normalize.
  destruct (Req_dec_T (Vector3.length a) 0) as [Hzero|Hpos].
  - unfold Vector3.length in Hzero. apply sqrt_eq_0 in Hzero; [|exact Hsq].
    unfold Vector3.divideScalar, Vector3.multiplyScalar, Vector3.lengthSq in *.
    simpl. nra.
  - assert (Hlen : Vector3.length a * Vector3.length a = Vector3.lengthSq a).
    { unfold Vector3.length. apply sqrt_sqrt. exact Hsq. }
    set (len := Vector3.length a) in *.
    assert (E : Vector3.lengthSq (Vector3.divideScalar a len) = 1).
    { unfold Vector3.divideScalar, Vector3.multiplyScalar, Vector3.lengthSq in *.
      simpl.
      replace (Vector3.x a * (1 / len) * (Vector3.x a * (1 / len))
               + Vector3.y a * (1 / len) * (Vector3.y a * (1 / len))
               + Vector3.z a * (1 / len) * (Vector3.z a * (1 / len)))
        with ((Vector3.x a * Vector3.x a + Vector3.y a * Vector3.y a
               + Vector3.z a * Vector3.z a) / (len * len)) by (field; exact Hpos).
      rewrite <- Hlen. field. exact Hpos. }
    rewrite E. lra.
Qed.

(** The two vertices of a rung lie on either side of the point, raised by
    the offset, and are no further apart than the width of the path. *)
Definition centred (pathWidth yOffset : R) (point left right : Vector3.t) : Prop :=
  Vector3.x left + Vector3.x right = 2 * Vector3.x point /\
  Vector3.y left + Vector3.y right = 2 * (Vector3.y point + yOffset) /\
  Vector3.z left + Vector3.z right = 2 * Vector3.z point /\
  Vector3.distanceToSquared left right <= pathWidth * pathWidth.

Lemma rung_centred pathWidth yOffset point surfaceNormal direction pathLength :
  let r := Paths.rung pathWidth yOffset point surfaceNormal direction pathLength in
  centred pathWidth yOffset point (Paths.leftVertex r) (Paths.rightVertex r) /\
  Paths.rungNormal r = surfaceNormal.
Proof.
  cbv zeta. unfold Paths.rung, centred.
  set (right := Vector3.normalize
                  (Vector3.cross (Vector3.normalize direction) surfaceNormal)).
  pose proof (normalize_lengthSq
                (Vector3.cross (Vector3.normalize direction) surfaceNormal)) as Hunit.
  fold right in Hunit.
  cbn [Paths.leftVertex Paths.rightVertex Paths.rungNormal].
  unfold Vector3.distanceToSquared, Vector3.lengthSq, Vector3.sub, Vector3.add,
    Vector3.multiplyScalar in *.
  cbn [Vector3.x Vector3.y Vector3.z] in *.
  split; [|reflexivity].
  split; [field|]. split; [field|]. split; [field|].
  set (s := Vector3.x right * Vector3.x right + Vector3.y right * Vector3.y right
            + Vector3.z right * Vector3.z right) in *.
  match goal with
  | |- ?lhs <= _ => replace lhs with (pathWidth * pathWidth * s) by (unfold s; field)
  end.
  assert (0 <= pathWidth * pathWidth) by nra. nra.
Qed.

Section Rungs.

Variables (pathWidth yOffset : R).

(** The first loop runs through when every point has a normal and the path
    is not a single point; it makes one rung for every point, from the
    point and its normal. *)
Lemma rungs_defined points :
  forall previous pathNormals pathLength,
  (length points <= length pathNormals)%nat ->
  (previous <> None \/ length points <> 1%nat) ->
  exists rs,
    Paths.rungs pathWidth yOffset previous points pathNormals pathLength = Some rs /\
    length rs = length points /\
    forall k point,
      nth_error points k = Some point ->
      exists surfaceNormal direction pathLength',
        nth_error pathNormals k = Some surfaceNormal /\
        nth_error rs k
        = Some (Paths.rung pathWidth yOffset point surfaceNormal direction pathLength').
Proof.
  induction points as [|point points IH]; intros previous pathNormals pathLength Hlen Hmany.
  - exists []. split; [reflexivity|]. split; [reflexivity|].
    intros k p Hk. destruct k; discriminate Hk.
  - destruct pathNormals as [|surfaceNormal pathNormals]; [simpl in Hlen; lia|].
    assert (Hdir : exists direction,
               match points, previous with
               | next :: _, _ => Some (Vector3.sub next point)
               | [], Some previous => Some (Vector3.sub point previous)
               | [], None => None
               end = Some direction).
    { destruct points as [|next points'].
      - destruct previous as [prev|]; [eexists; reflexivity|].
        destruct Hmany as [Hp|Hone]; [contradiction Hp; reflexivity|].
        contradiction Hone. reflexivity.
      - eexists. reflexivity. }
    destruct Hdir as [direction Hdir].
    cbn [Paths.rungs]. rewrite Hdir.
    match goal with
    | |- context [Paths.rungs pathWidth yOffset (Some point) points pathNormals ?len] =>
        destruct (IH (Some point) pathNormals len) as (rest & Hrest & Hcount & Hnth);
        [simpl in Hlen; lia|left; discriminate|]
    end.
    rewrite Hrest. eexists. split; [reflexivity|].
    split; [simpl; rewrite Hcount; reflexivity|].
    intros k p Hk. destruct k as [|k].
    + injection Hk as <-. do 3 eexists. split; reflexivity.
    + simpl in Hk. simpl. apply Hnth. exact Hk.
Qed.

(** The first loop throws when a point has no normal. *)
Lemma rungs_without_normal points :
  forall previous pathNormals pathLength,
  (length pathNormals < length points)%nat ->
  Paths.rungs pathWidth yOffset previous points pathNormals pathLength = None.
Proof.
  induction points as [|point points IH]; intros previous pathNormals pathLength Hlen.
  - simpl in Hlen. lia.
  - cbn [Paths.rungs].
    destruct (match points, previous with
              | next :: _, _ => Some (Vector3.sub next point)
              | [], Some previous => Some (Vector3.sub point previous)
              | [], None => None
              end) as [direction|]; [|reflexivity].
    destruct pathNormals as [|surfaceNormal pathNormals]; [reflexivity|].
    rewrite IH; [reflexivity|simpl in Hlen; lia].
Qed.

End Rungs.

Lemma pairs_length {A B} (f g : A -> B) (l : list A) :
  length (flat_map (fun r => [f r; g r]) l) = (2 * length l)%nat.
Proof.
  induction l as [|a l IH]; [reflexivity|]. simpl. rewrite IH. lia.
Qed.

Lemma pairs_nth_error {A B} (f g : A -> B) (l : list A) :
  forall k a,
  nth_error l k = Some a ->
  nth_error (flat_map (fun r => [f r; g r]) l) (2 * k) = Some (f a) /\
  nth_error (flat_map (fun r => [f r; g r]) l) (2 * k + 1) = Some (g a).
Proof.
  induction l as [|b l IH]; intros k a Hk.
  - destruct k; discriminate Hk.
  - destruct k as [|k].
    + injection Hk as <-. split; reflexivity.
    + replace (2 * S k)%nat with (S (S (2 * k))) by lia.
      replace (S (S (2 * k)) + 1)%nat with (S (S (2 * k + 1))) by lia.
      simpl in Hk. apply IH in Hk. exact Hk.
Qed.

Lemma ribbonFaces_below (n : nat) :
  Forall (faceBelow (2 * n)) (Paths.ribbonFaces n).
Proof.
  apply Forall_forall. intros f Hf. unfold Paths.ribbonFaces in Hf.
  apply in_flat_map in Hf. destruct Hf as [k [Hk Hf]].
  apply in_seq in Hk. cbv zeta in Hf.
  destruct Hf as [<-|[<-|[]]]; unfold faceBelow; lia.
Qed.

Lemma ribbonFaces_length (n : nat) :
  length (Paths.ribbonFaces n) = (2 * (n - 1))%nat.
Proof.
  unfold Paths.ribbonFaces.
  rewrite (pairs_length (fun k : nat => ((k * 2)%nat, (k * 2 + 2)%nat, (k * 2 + 1)%nat))
             (fun k : nat => ((k * 2 + 1)%nat, (k * 2 + 2)%nat, (k * 2 + 3)%nat))).
  rewrite length_seq. reflexivity.
Qed.

Lemma flatten_length (fs : list Face) : length (flatten fs) = (3 * length fs)%nat.
Proof.
  induction fs as [|[[a b] c] fs IH]; [reflexivity|].
  unfold flatten in *. simpl. rewrite IH. lia.
Qed.

(** What holds of the mesh that [createPathRibbon] builds for a path of
    [n] points. *)
Definition ribbonOf (path3D pathNormals : list Vector3.t) (pathWidth yOffset : R)
    (geometry : Mesh) (normals : list Vector3.t) : Prop :=
  let n := length path3D in
  length (positions geometry) = (2 * n)%nat /\
  length normals = (2 * n)%nat /\
  length (uvs geometry) = (2 * n)%nat /\
  length (index geometry) = (6 * (n - 1))%nat /\
  facesOf (index geometry) = Paths.ribbonFaces n /\
  Forall (faceBelow (length (positions geometry))) (facesOf (index geometry)) /\
  forall k point,
    nth_error path3D k = Some point ->
    exists left right surfaceNormal,
      nth_error (positions geometry) (2 * k) = Some left /\
      nth_error (positions geometry) (2 * k + 1) = Some right /\
      centred pathWidth yOffset point left right /\
      nth_error pathNormals k = Some surfaceNormal /\
      nth_error normals (2 * k) = Some surfaceNormal /\
      nth_error normals (2 * k + 1) = Some surfaceNormal.

Lemma ribbon_built (path3D pathNormals : list Vector3.t) (pathWidth yOffset : R) :
  (2 <= length path3D)%nat ->
  (length path3D <= length pathNormals)%nat ->
  exists geometry normals,
    Paths.createPathRibbon path3D pathNormals pathWidth yOffset
    = Paths.Ribbon geometry normals /\
    ribbonOf path3D pathNormals pathWidth yOffset geometry normals.
Proof.
  intros Htwo Hlen. unfold Paths.createPathRibbon.
  destruct (rungs_defined pathWidth yOffset path3D None pathNormals 0 Hlen)
    as (rs & Hrs & Hcount & Hnth); [right; lia|].
  rewrite Hrs. cbv zeta.
  rewrite (pairs_length Paths.leftVertex Paths.rightVertex rs), Hcount.
  rewrite flatten_length, ribbonFaces_length.
  assert (Hv : (0 <? 2 * length path3D)%nat = true) by (apply Nat.ltb_lt; lia).
  assert (Hi : (0 <? 3 * (2 * (length path3D - 1)))%nat = true)
    by (apply Nat.ltb_lt; lia).
  rewrite Hv, Hi. cbn [andb].
  eexists. eexists. split; [reflexivity|].
  unfold ribbonOf. cbv zeta. cbn [positions uvs index].
  rewrite (pairs_length Paths.leftVertex Paths.rightVertex rs).
  rewrite (pairs_length Paths.rungNormal Paths.rungNormal rs).
  rewrite (pairs_length Paths.leftUV Paths.rightUV rs).
  rewrite flatten_length, ribbonFaces_length, facesOf_flatten, Hcount.
  split; [reflexivity|]. split; [reflexivity|]. split; [reflexivity|].
  split; [lia|]. split; [reflexivity|].
  split; [apply ribbonFaces_below|].
  intros k point Hk.
  destruct (Hnth k point Hk) as (surfaceNormal & direction & pathLength' & Hn & Hr).
  pose proof (pairs_nth_error Paths.leftVertex Paths.rightVertex rs k _ Hr) as [Hl Hr'].
  pose proof (pairs_nth_error Paths.rungNormal Paths.rungNormal rs k _ Hr) as [Hn1 Hn2].
  pose proof (rung_centred pathWidth yOffset point surfaceNormal direction pathLength')
    as [Hcentred Hnormal].
  cbv zeta in Hcentred, Hnormal.
  rewrite Hnormal in Hn1, Hn2.
  do 3 eexists.
  split; [exact Hl|]. split; [exact Hr'|]. split; [exact Hcentred|].
  split; [exact Hn|]. split; [exact Hn1|exact Hn2].
Qed.

(** For a path of [n >= 2] points with a normal for every point,
    [createPathRibbon] builds a mesh of [2 n] vertices (as many normals and
    texture coordinates) and [6 (n - 1)] indices: two faces
    [(2k, 2k+2, 2k+1)], [(2k+1, 2k+2, 2k+3)] between successive points,
    each index below the number of vertices. *)
Theorem ribbon_counts (path3D pathNormals : list Vector3.t) (pathWidth yOffset : R) :
  (2 <= length path3D)%nat ->
  (length path3D <= length pathNormals)%nat ->
  exists geometry normals,
    Paths.createPathRibbon path3D pathNormals pathWidth yOffset
    = Paths.Ribbon geometry normals /\
    length (positions geometry) = (2 * length path3D)%nat /\
    length normals = (2 * length path3D)%nat /\
    length (uvs geometry) = (2 * length path3D)%nat /\
    length (index geometry) = (6 * (length path3D - 1))%nat /\
    facesOf (index geometry) = Paths.ribbonFaces (length path3D) /\
    Forall (faceBelow (length (positions geometry))) (facesOf (index geometry)).
Proof.
  intros Htwo Hlen.
  destruct (ribbon_built path3D pathNormals pathWidth yOffset Htwo Hlen)
    as (geometry & normals & Hresult & H1 & H2 & H3 & H4 & H5 & H6 & _).
  exists geometry, normals. repeat split; assumption.
Qed.

Definition twoPoints : list Vector3.t := [Vector3.mk 0 0 0; Vector3.mk 3 0 4].
Definition twoNormals : list Vector3.t := [Vector3.mk 0 1 0; Vector3.mk 0 1 0].

Lemma ribbon_counts_witness :
  (2 <= length twoPoints)%nat /\
  (length twoPoints <= length twoNormals)%nat /\
  exists geometry normals,
    Paths.createPathRibbon twoPoints twoNormals 1 0.01
    = Paths.Ribbon geometry normals /\
    length (positions geometry) = (2 * length twoPoints)%nat /\
    length normals = (2 * length twoPoints)%nat /\
    length (uvs geometry) = (2 * length twoPoints)%nat /\
    length (index geometry) = (6 * (length twoPoints - 1))%nat /\
    facesOf (index geometry) = Paths.ribbonFaces (length twoPoints) /\
    Forall (faceBelow (length (positions geometry))) (facesOf (index geometry)).
Proof.
  split; [simpl; lia|]. split; [simpl; lia|].
  apply (ribbon_counts twoPoints twoNormals 1 0.01); simpl; lia.
Defined.

(** The two vertices that the ribbon has for a point of the path lie on
    either side of it: their midpoint is the point raised by the offset,
    they are no further apart than the width of the path, and both carry
    the normal of the point. *)
Theorem ribbon_vertices_centred (path3D pathNormals : list Vector3.t)
    (pathWidth yOffset : R) (geometry : Mesh) (normals : list Vector3.t)
    (k : nat) (point : Vector3.t) :
  Paths.createPathRibbon path3D pathNormals pathWidth yOffset
  = Paths.Ribbon geometry normals ->
  nth_error path3D k = Some point ->
  exists left right surfaceNormal,
    nth_error (positions geometry) (2 * k) = Some left /\
    nth_error (positions geometry) (2 * k + 1) = Some right /\
    centred pathWidth yOffset point left right /\
    nth_error pathNormals k = Some surfaceNormal /\
    nth_error normals (2 * k) = Some surfaceNormal /\
    nth_error normals (2 * k + 1) = Some surfaceNormal.
Proof.
  intros Hresult Hk.
  assert (Hsome : Paths.rungs pathWidth yOffset None path3D pathNormals 0 <> None).
  { intros Hnone. unfold Paths.createPathRibbon in Hresult.
    rewrite Hnone in Hresult. discriminate Hresult. }
  assert (Hlen : (length path3D <= length pathNormals)%nat).
  { destruct (Nat.le_gt_cases (length path3D) (length pathNormals)) as [H|H];
      [exact H|].
    exfalso. apply Hsome. apply rungs_without_normal. exact H. }
  assert (Htwo : (2 <= length path3D)%nat).
  { destruct path3D as [|p [|q rest]]; [destruct k; discriminate Hk| |simpl; lia].
    exfalso. apply Hsome. destruct pathNormals; reflexivity. }
  destruct (ribbon_built path3D pathNormals pathWidth yOffset Htwo Hlen)
    as (geometry' & normals' & Hresult' & _ & _ & _ & _ & _ & _ & Hnth).
  rewrite Hresult in Hresult'. injection Hresult' as <- <-.
  apply Hnth. exact Hk.
Qed.

Lemma ribbon_vertices_centred_witness :
  exists geometry normals,
    Paths.createPathRibbon twoPoints twoNormals 1 0.01
    = Paths.Ribbon geometry normals /\
    nth_error twoPoints 1 = Some (Vector3.mk 3 0 4) /\
    exists left right surfaceNormal,
      nth_error (positions geometry) (2 * 1) = Some left /\
      nth_error (positions geometry) (2 * 1 + 1) = Some right /\
      centred 1 0.01 (Vector3.mk 3 0 4) left right /\
      nth_error twoNormals 1 = Some surfaceNormal /\
      nth_error normals (2 * 1) = Some surfaceNormal /\
      nth_error normals (2 * 1 + 1) = Some surfaceNormal.
Proof.
  destruct (ribbon_built twoPoints twoNormals 1 0.01) as (geometry & normals & Hresult & _);
    [simpl; lia|simpl; lia|].
  exists geometry, normals. split; [exact Hresult|]. split; [reflexivity|].
  apply (ribbon_vertices_centred twoPoints twoNormals 1 0.01 geometry normals 1%nat
           (Vector3.mk 3 0 4) Hresult eq_refl).
Defined.

(** The edge cases of [createPathRibbon]: for an empty path it returns
    [null]; for a path of a single point it throws (the point has neither
    a next nor a previous one to take the direction from); for a path with
    fewer normals than points it throws. *)
Theorem ribbon_edge_cases (pathNormals : list Vector3.t) (pathWidth yOffset : R) :
  Paths.createPathRibbon [] pathNormals pathWidth yOffset = Paths.Null /\
  (forall point,
     Paths.createPathRibbon [point] pathNormals pathWidth yOffset = Paths.Throws) /\
  (forall path3D,
     (length pathNormals < length path3D)%nat ->
     Paths.createPathRibbon path3D pathNormals pathWidth yOffset = Paths.Throws).
Proof.
  split; [reflexivity|]. split.
  - intros point. unfold Paths.createPathRibbon. cbn [Paths.rungs].
    destruct pathNormals; reflexivity.
  - intros path3D Hlen. unfold Paths.createPathRibbon.
    rewrite rungs_without_normal by exact Hlen. reflexivity.
Qed.

(** [createSurfacePath] and [createPathRibbon] together: when the path is
    made in at most one step, or the end points are more than 0.001
    (squared distance) apart, the surface path has at least two points and
    the ribbon along it is built, with two vertices for every point. *)
Theorem surface_path_ribbon_built (h : Host.t) (startPoint endPoint : Vector3.t)
    (targetMesh : Mesh) (stepLength pathWidth yOffset : R) :
  stepLength <> 0 ->
  (Paths.numSteps startPoint endPoint stepLength <= 1)%Z
  \/ apart startPoint endPoint ->
  exists path normals geometry ribbonNormals,
    Paths.createSurfacePath h startPoint endPoint targetMesh stepLength
    = Some (path, normals) /\
    (2 <= length path)%nat /\
    Paths.createPathRibbon path normals pathWidth yOffset
    = Paths.Ribbon geometry ribbonNormals /\
    length (positions geometry) = (2 * length path)%nat.
Proof.
  intros Hstep Hfar.
  destruct (surface_path h startPoint endPoint targetMesh stepLength Hstep)
    as (path & normals & Hresult & Hlen & _ & _ & _ & _ & Htwo).
  specialize (Htwo Hfar).
  destruct (ribbon_built path normals pathWidth yOffset Htwo) as
    (geometry & ribbonNormals & Hribbon & Hcount & _); [lia|].
  exists path, normals, geometry, ribbonNormals.
  repeat split; assumption.
Qed.

Lemma apart_example : apart (Vector3.mk 0 0 0) (Vector3.mk 3 0 4).
Proof.
  unfold apart, Vector3.distanceToSquared, Vector3.lengthSq, Vector3.sub. simpl. lra.
Qed.

Lemma surface_path_ribbon_built_witness :
  1 <> 0 /\
  ((Paths.numSteps (Vector3.mk 0 0 0) (Vector3.mk 3 0 4) 1 <= 1)%Z
   \/ apart (Vector3.mk 0 0 0) (Vector3.mk 3 0 4)) /\
  exists path normals geometry ribbonNormals,
    Paths.createSurfacePath flatHost (Vector3.mk 0 0 0) (Vector3.mk 3 0 4)
      oneTriangle 1
    = Some (path, normals) /\
    (2 <= length path)%nat /\
    Paths.createPathRibbon path normals 2 0.01
    = Paths.Ribbon geometry ribbonNormals /\
    length (positions geometry) = (2 * length path)%nat.
Proof.
  split; [lra|]. split; [right; exact apart_example|].
  apply (surface_path_ribbon_built flatHost (Vector3.mk 0 0 0) (Vector3.mk 3 0 4)
           oneTriangle 1 2 0.01); [lra|right; exact apart_example].
Defined.

(** With more than one step, end points within 0.001 (squared distance) of
    each other and no ray hitting the mesh, the surface path is the start
    point alone, and the ribbon along it throws. *)
Theorem one_point_surface_path_throws (h : Host.t) (startPoint endPoint : Vector3.t)
    (targetMesh : Mesh) (stepLength pathWidth yOffset : R) :
  stepLength <> 0 ->
  (1 < Paths.numSteps startPoint endPoint stepLength)%Z ->
  Vector3.distanceToSquared startPoint endPoint <= 0.001 ->
  (forall origin, Host.intersectMesh h targetMesh origin = None) ->
  Paths.createSurfacePath h startPoint endPoint targetMesh stepLength
  = Some ([startPoint], [Paths.up]) /\
  Paths.createPathRibbon [startPoint] [Paths.up] pathWidth yOffset = Paths.Throws.
Proof.
  intros Hstep Hmany Hnear Hmiss. split; [|reflexivity].
  unfold Paths.createSurfacePath.
  destruct (Req_dec_T stepLength 0) as [Hzero|_]; [contradiction|].
  cbv zeta.
  apply Z.leb_gt in Hmany. rewrite Hmany. apply Z.leb_gt in Hmany.
  unfold Paths.normalAbove. rewrite Hmiss.
  destruct (Z.to_nat (Paths.numSteps startPoint endPoint stepLength)) as [|n] eqn:Hn;
    [lia|].
  cbn [seq Paths.walk]. rewrite Hmiss.
  unfold Paths.lastOf. cbn [last].
  destruct (Rlt_dec 0.001 (Vector3.distanceToSquared startPoint endPoint)) as [Hfar|_];
    [lra|reflexivity].
Qed.

Lemma nearby_numSteps :
  (1 < Paths.numSteps (Vector3.mk 0 0 0) (Vector3.mk 0.03 0 0) 0.01)%Z.
Proof.
  unfold Paths.numSteps, Paths.ceil, Vector3.distanceTo, Vector3.distanceToSquared,
    Vector3.lengthSq, Vector3.sub.
  cbn [Vector3.x Vector3.y Vector3.z].
  replace ((0 - 0.03) * (0 - 0.03) + (0 - 0) * (0 - 0) + (0 - 0) * (0 - 0))
    with (0.03 * 0.03) by lra.
  rewrite sqrt_square by lra.
  apply lt_IZR.
  pose proof (Zceil_bound (0.03 / 0.01)) as [_ Hup].
  eapply Rlt_le_trans; [|exact Hup]. lra.
Qed.

Lemma one_point_surface_path_throws_witness :
  0.01 <> 0 /\
  (1 < Paths.numSteps (Vector3.mk 0 0 0) (Vector3.mk 0.03 0 0) 0.01)%Z /\
  Vector3.distanceToSquared (Vector3.mk 0 0 0) (Vector3.mk 0.03 0 0) <= 0.001 /\
  (forall origin, Host.intersectMesh flatHost oneTriangle origin = None) /\
  Paths.createSurfacePath flatHost (Vector3.mk 0 0 0) (Vector3.mk 0.03 0 0)
    oneTriangle 0.01
  = Some ([Vector3.mk 0 0 0], [Paths.up]) /\
  Paths.createPathRibbon [Vector3.mk 0 0 0] [Paths.up] 1 0.02 = Paths.Throws.
Proof.
  assert (Hnear : Vector3.distanceToSquared (Vector3.mk 0 0 0) (Vector3.mk 0.03 0 0)
                  <= 0.001).
  { unfold Vector3.distanceToSquared, Vector3.lengthSq, Vector3.sub. simpl. lra. }
  split; [lra|]. split; [exact nearby_numSteps|]. split; [exact Hnear|].
  split; [intros origin; reflexivity|].
  apply (one_point_surface_path_throws flatHost (Vector3.mk 0 0 0)
           (Vector3.mk 0.03 0 0) oneTriangle 0.01 1 0.02);
    [lra|exact nearby_numSteps|exact Hnear|intros origin; reflexivity].
Defined.

(* ================================================================== *)
(** * The terrain mesh: sizes and index bounds *)
(* ================================================================== *)

Lemma flat_map_length_const {A B} (f : A -> list B) (c : nat) (l : list A) :
  (forall a, In a l -> length (f a) = c) ->
  length (flat_map f l) = (c * length l)%nat.
Proof.
  induction l as [|a l IH]; intros Hf; simpl; [lia|].
  rewrite length_app, IH, Hf; [lia|left; reflexivity|].
  intros b Hb. apply Hf. right. exact Hb.
Qed.

Lemma surface_vertices_length h cfg lakes centerPoint contour :
  length (Surface.vertices h cfg lakes centerPoint contour)
  = (62 * length contour + 1)%nat.
Proof.
  unfold Surface.vertices. cbv zeta. cbn [length].
  rewrite !length_app, length_rows, !length_map. unfold Surface.numRings. lia.
Qed.

Lemma surface_faces_below (n : nat) :
  Forall (faceBelow (62 * n + 1))
         (Surface.fanFaces n ++ Surface.ringFaces n
          ++ Surface.transitionFaces n ++ Surface.skirtFaces n).
Proof.
  apply Forall_app; split; [|apply Forall_app; split; [|apply Forall_app; split]];
    apply Forall_forall; intros f Hf.
  - unfold Surface.fanFaces in Hf. apply in_map_iff in Hf.
    destruct Hf as [s [<- Hs]]. apply in_seq in Hs.
    assert (Hs' : ((s + 1) mod n < n)%nat) by (apply Nat.mod_upper_bound; lia).
    unfold faceBelow, Surface.gridIndices. repeat split; nia.
  - unfold Surface.ringFaces in Hf.
    apply in_flat_map in Hf. destruct Hf as [r [Hr Hf]].
    apply in_flat_map in Hf. destruct Hf as [s [Hs Hf]].
    apply in_seq in Hr. apply in_seq in Hs.
    assert (Hs' : ((s + 1) mod n < n)%nat) by (apply Nat.mod_upper_bound; lia).
    unfold Surface.numRings in *.
    destruct Hf as [Hf|[Hf|[]]]; subst f; unfold faceBelow, Surface.gridIndices;
      repeat split; nia.
  - unfold Surface.transitionFaces in Hf. cbv zeta in Hf.
    apply in_flat_map in Hf. destruct Hf as [s [Hs Hf]].
    apply in_seq in Hs.
    assert (Hs' : ((s + 1) mod n < n)%nat) by (apply Nat.mod_upper_bound; lia).
    destruct Hf as [Hf|[Hf|[]]]; subst f;
      unfold faceBelow, Surface.gridIndices, Surface.contourIndices, Surface.numRings;
      repeat split; nia.
  - unfold Surface.skirtFaces in Hf.
    apply in_flat_map in Hf. destruct Hf as [s [Hs Hf]].
    apply in_seq in Hs.
    assert (Hs' : ((s + 1) mod n < n)%nat) by (apply Nat.mod_upper_bound; lia).
    destruct Hf as [Hf|[Hf|[]]]; subst f;
      unfold faceBelow, Surface.contourIndices, Surface.bottomSkirtStartIndex,
        Surface.numRings;
      repeat split; nia.
Qed.

Lemma surface_faces_length (n : nat) :
  length (Surface.fanFaces n ++ Surface.ringFaces n
          ++ Surface.transitionFaces n ++ Surface.skirtFaces n)
  = (123 * n)%nat.
Proof.
  rewrite !length_app.
  unfold Surface.fanFaces, Surface.ringFaces, Surface.transitionFaces,
    Surface.skirtFaces.
  cbv zeta. rewrite length_map, length_seq.
  rewrite (flat_map_length_const _ (2 * n) (seq 0 (Surface.numRings - 1))).
  2:{ intros r _. rewrite (flat_map_length_const _ 2 (seq 0 n)).
      - rewrite length_seq. reflexivity.
      - intros s _. reflexivity. }
  rewrite !(flat_map_length_const _ 2 (seq 0 n)) by (intros s _; reflexivity).
  rewrite !length_seq. unfold Surface.numRings. simpl Nat.sub. lia.
Qed.

Lemma groundCover_faces_length (n : nat) :
  length (GroundCover.bandFaces n ++ GroundCover.skirtFaces n) = (66 * n)%nat.
Proof.
  rewrite length_app. unfold GroundCover.bandFaces, GroundCover.skirtFaces.
  rewrite (flat_map_length_const _ (2 * n) (seq 0 GroundCover.numRings)).
  2:{ intros r _. rewrite (flat_map_length_const _ 2 (seq 0 n)).
      - rewrite length_seq. reflexivity.
      - intros s _. reflexivity. }
  rewrite (flat_map_length_const _ 2 (seq 0 n)) by (intros s _; reflexivity).
  rewrite !length_seq. unfold GroundCover.numRings. lia.
Qed.

Lemma removelast_pred {A} (l : list A) :
  length (removelast l) = Nat.pred (length l).
Proof.
  rewrite removelast_firstn_len, length_firstn. lia.
Qed.

Lemma faceBelow_more (a b : nat) (f : Face) :
  (a <= b)%nat -> faceBelow a f -> faceBelow b f.
Proof.
  destruct f as [[i j] k]. unfold faceBelow. intros Hab (Hi & Hj & Hk).
  repeat split; lia.
Qed.

Lemma faceBelow_shift (offset bound : nat) (f : Face) :
  faceBelow bound f -> faceBelow (offset + bound) (shiftFace offset f).
Proof.
  destruct f as [[i j] k]. unfold faceBelow, shiftFace. intros (Hi & Hj & Hk).
  repeat split; lia.
Qed.

(** The central surface for a contour of [n] points has [62 n + 1]
    vertices (the centre, 60 rings, the contour, the bottom of the skirt)
    and [123 n] faces, and every index of a face is the index of a
    vertex. *)
Theorem surface_mesh_closed (h : Host.t) (cfg : Config) (lakes : list Lake)
    (centerPoint : Vector3.t) (centralContourVertices : list Vector3.t) :
  let n := length centralContourVertices in
  let geometry := Surface.geometry h cfg lakes centerPoint centralContourVertices in
  length (positions geometry) = (62 * n + 1)%nat /\
  length (index geometry) = (3 * (123 * n))%nat /\
  length (facesOf (index geometry)) = (123 * n)%nat /\
  Forall (faceBelow (length (positions geometry))) (facesOf (index geometry)).
Proof.
  cbv zeta. unfold Surface.geometry. cbv zeta. cbn [positions index].
  rewrite surface_vertices_length, surface_faces.
  unfold Surface.indices. rewrite flatten_length, surface_faces_length.
  split; [reflexivity|]. split; [reflexivity|]. split; [reflexivity|].
  apply surface_faces_below.
Qed.

(** Merging keeps the index buffer closed: when every face of the ground
    cover and of the sand refers to vertices of its own mesh, every face
    of the merged mesh refers to vertices of the merged mesh; the faces of
    the ground cover are unchanged, those of the sand are shifted by the
    number of ground-cover vertices, and the two material groups split the
    index buffer between them. *)
Theorem merge_keeps_indices_closed (groundFaces sandFaces : list Face)
    (groundGeo sandGeo : Mesh) :
  index groundGeo = flatten groundFaces ->
  index sandGeo = flatten sandFaces ->
  Forall (faceBelow (length (positions groundGeo))) groundFaces ->
  Forall (faceBelow (length (positions sandGeo))) sandFaces ->
  let merged := mergeGeometries groundGeo sandGeo in
  facesOf (index merged)
  = groundFaces ++ map (shiftFace (length (positions groundGeo))) sandFaces /\
  Forall (faceBelow (length (positions merged))) (facesOf (index merged)) /\
  groups merged
  = [ (0%nat, (3 * length groundFaces)%nat, 0%nat);
      ((3 * length groundFaces)%nat, (3 * length sandFaces)%nat, 1%nat) ] /\
  length (index merged) = (3 * length groundFaces + 3 * length sandFaces)%nat.
Proof.
  intros Hground Hsand Hgb Hsb. cbv zeta.
  unfold mergeGeometries. cbn [positions index groups].
  rewrite Hground, Hsand, map_flatten, facesOf_flatten_app, facesOf_flatten.
  split; [reflexivity|]. split; [|split].
  - rewrite length_app. apply Forall_app. split.
    + eapply Forall_impl; [|exact Hgb].
      intros f Hf. eapply faceBelow_more; [|exact Hf]. lia.
    + apply Forall_map. eapply Forall_impl; [|exact Hsb].
      intros f Hf. apply faceBelow_shift. exact Hf.
  - rewrite !flatten_length. reflexivity.
  - rewrite length_app, !flatten_length, length_map. reflexivity.
Qed.

Lemma merge_keeps_indices_closed_witness :
  let ground := mkMesh [Vector3.zero; Vector3.zero; Vector3.zero] []
                       [0%nat; 1%nat; 2%nat] [] in
  let sand := mkMesh [Vector3.zero; Vector3.zero; Vector3.zero] []
                     [2%nat; 1%nat; 0%nat] [] in
  index ground = flatten [(0%nat, 1%nat, 2%nat)] /\
  index sand = flatten [(2%nat, 1%nat, 0%nat)] /\
  Forall (faceBelow (length (positions ground))) [(0%nat, 1%nat, 2%nat)] /\
  Forall (faceBelow (length (positions sand))) [(2%nat, 1%nat, 0%nat)] /\
  facesOf (index (mergeGeometries ground sand))
  = [(0%nat, 1%nat, 2%nat); (5%nat, 4%nat, 3%nat)].
Proof.
  cbv zeta.
  assert (Hg : Forall (faceBelow 3) [(0%nat, 1%nat, 2%nat)]).
  { constructor; [unfold faceBelow; lia|constructor]. }
  assert (Hs : Forall (faceBelow 3) [(2%nat, 1%nat, 0%nat)]).
  { constructor; [unfold faceBelow; lia|constructor]. }
  split; [reflexivity|]. split; [reflexivity|].
  split; [exact Hg|]. split; [exact Hs|].
  exact (proj1 (merge_keeps_indices_closed [(0%nat, 1%nat, 2%nat)]
                  [(2%nat, 1%nat, 0%nat)]
                  (mkMesh [Vector3.zero; Vector3.zero; Vector3.zero] []
                          [0%nat; 1%nat; 2%nat] [])
                  (mkMesh [Vector3.zero; Vector3.zero; Vector3.zero] []
                          [2%nat; 1%nat; 0%nat] [])
                  eq_refl eq_refl Hg Hs)).
Defined.

(** The merged terrain for a foliage boundary of [n] segments, with as
    many shoreline points as boundary points: [96 n + 1] vertices
    ([34 n] of the ground cover, then [62 n + 1] of the sand), [189 n]
    faces, every index of a face the index of a vertex, and the two
    material groups over the first [198 n] and the last [369 n] indices. *)
Theorem terrain_mesh_closed (h : Host.t) (cfg : Config) (lakes : list Lake)
    (centerXZ : Vector2.t) (centerPoint : Vector3.t)
    (boundaryPoints shorelinePointsForMesh extendedShorelinePoints : list Vector3.t)
    (groundGeo : Mesh) :
  GroundCover.geometry h cfg lakes centerXZ boundaryPoints shorelinePointsForMesh
    extendedShorelinePoints = Some groundGeo ->
  length extendedShorelinePoints = length boundaryPoints ->
  let n := length (removelast boundaryPoints) in
  let terrain :=
    mergeGeometries groundGeo
      (Surface.geometry h cfg lakes centerPoint (removelast boundaryPoints)) in
  (0 < n)%nat /\
  length (positions groundGeo) = (34 * n)%nat /\
  length (positions terrain) = (96 * n + 1)%nat /\
  length (facesOf (index terrain)) = (189 * n)%nat /\
  Forall (faceBelow (length (positions terrain))) (facesOf (index terrain)) /\
  groups terrain = [ (0%nat, (198 * n)%nat, 0%nat); ((198 * n)%nat, (369 * n)%nat, 1%nat) ].
Proof.
  intros Hgeo Hlen n terrain.
  assert (Hn : (0 < n)%nat).
  { unfold GroundCover.geometry in Hgeo.
    destruct ((2 <? length boundaryPoints)%nat
              && (2 <? length shorelinePointsForMesh)%nat); [|discriminate].
    destruct (0 <? length (removelast boundaryPoints))%nat eqn:Hpos; [|discriminate].
    apply Nat.ltb_lt in Hpos. exact Hpos. }
  assert (Hunique : length (removelast extendedShorelinePoints) = n).
  { unfold n. rewrite !removelast_pred. rewrite Hlen. reflexivity. }
  assert (Hground : groundGeo
                    = mkMesh (GroundCover.vertices lakes
                                (removelast extendedShorelinePoints)
                                (removelast boundaryPoints))
                             (uvs groundGeo) (GroundCover.indices n) []).
  { unfold GroundCover.geometry in Hgeo.
    destruct ((2 <? length boundaryPoints)%nat
              && (2 <? length shorelinePointsForMesh)%nat); [|discriminate].
    destruct (0 <? length (removelast boundaryPoints))%nat; [|discriminate].
    injection Hgeo as <-. reflexivity. }
  pose proof (groundCover_faces_below lakes (removelast extendedShorelinePoints)
                (removelast boundaryPoints) Hunique) as Hgb.
  pose proof (groundCover_vertices_length lakes (removelast extendedShorelinePoints)
                (removelast boundaryPoints)) as Hgl.
  fold n in Hgb, Hgl. rewrite Hunique in Hgl. unfold GroundCover.numRings in Hgl.
  pose proof (surface_faces_below n) as Hsb.
  assert (Hpositions : length (positions groundGeo) = (34 * n)%nat).
  { rewrite Hground. cbn [positions]. rewrite Hgl. lia. }
  split; [exact Hn|]. split; [exact Hpositions|].
  unfold terrain, mergeGeometries, Surface.geometry. cbv zeta.
  cbn [positions index groups]. fold n.
  rewrite length_app, surface_vertices_length. fold n.
  rewrite Hpositions.
  replace (index groundGeo) with (GroundCover.indices n)
    by (rewrite Hground; reflexivity).
  unfold GroundCover.indices, Surface.indices.
  rewrite map_flatten, facesOf_flatten_app, facesOf_flatten.
  rewrite length_app, length_map, !flatten_length.
  rewrite groundCover_faces_length, surface_faces_length.
  split; [lia|]. split; [lia|]. split.
  - apply Forall_app. split.
    + eapply Forall_impl; [|exact Hgb].
      intros f Hf. eapply faceBelow_more; [|exact Hf]. rewrite Hgl. lia.
    + apply Forall_map. eapply Forall_impl; [|exact Hsb].
      intros f Hf.
      apply faceBelow_shift. exact Hf.
  - replace (3 * (66 * n))%nat with (198 * n)%nat by lia.
    replace (3 * (123 * n))%nat with (369 * n)%nat by lia.
    reflexivity.
Qed.

Lemma terrain_mesh_closed_witness :
  exists groundGeo,
    GroundCover.geometry flatHost sampleConfig [] (Vector2.mk 0 0)
      (square 1 2) (square 2 0) (square 2 0) = Some groundGeo /\
    length (square 2 0) = length (square 1 2) /\
    length (positions
              (mergeGeometries groundGeo
                 (Surface.geometry flatHost sampleConfig [] squareCenter
                    (removelast (square 1 2)))))
    = (96 * 4 + 1)%nat.
Proof.
  eexists. split; [reflexivity|]. split; [reflexivity|].
  pose proof (terrain_mesh_closed flatHost sampleConfig [] (Vector2.mk 0 0) squareCenter
                (square 1 2) (square 2 0) (square 2 0) _ eq_refl eq_refl) as H.
  cbv zeta in H. destruct H as (_ & _ & Hcount & _). exact Hcount.
Defined.
